(** * Multi-headed attention: a shallow embedding of
      [onmt/modules/multi_headed_attn.py]

    Tensors are nested lists over a scalar type [F] whose arithmetic is an
    interface ([Scalar]): the structural results below hold for every
    deterministic arithmetic, the numeric ones are proved at the instance
    of the real numbers.  Python exceptions are values of [Exn]; a call of
    [forward] returns the module after the call (the decode cache is the
    only mutable state) together with its outcome.  The count of parameters
    by dtype in [onmt/train_single.py] is embedded as well. *)

From Stdlib Require Import List ZArith Lia Bool QArith Reals Lra.
From Stdlib Require String.
Import String.StringSyntax.
Delimit Scope string_scope with string.
Import ListNotations.
Close Scope Q_scope.
Close Scope R_scope.
Local Open Scope nat_scope.

(** ** Exceptions and the error monad *)

Inductive Exn : Type :=
| AssertionError
| ZeroDivisionError
| NameError
| ValueError
| AttributeError
| IndexError
| RuntimeError.

Inductive Result (A : Type) : Type :=
| Ok (a : A)
| Raise (e : Exn).
Arguments Ok {A} a.
Arguments Raise {A} e.

Definition bind {A B : Type} (r : Result A) (k : A -> Result B) : Result B :=
  match r with
  | Ok a => k a
  | Raise e => Raise e
  end.

Notation "x <- e ;; k" := (bind e (fun x => k))
  (at level 61, e at next level, right associativity).
Notation "' p <- e ;; k" := (bind e (fun p => k))
  (at level 61, p pattern, e at next level, right associativity).

Definition guard (b : bool) (e : Exn) : Result unit :=
  if b then Ok tt else Raise e.

(** ** The arithmetic of the tensor runtime *)

Class Scalar (F : Type) : Type := {
  of_Z : Z -> F;
  sadd : F -> F -> F;
  ssub : F -> F -> F;
  smul : F -> F -> F;
  sdiv : F -> F -> F;
  sexp : F -> F;
  ssqrt : F -> F;
  spow : F -> F -> F;
  scos : F -> F;
  ssin : F -> F;
  (** [x.float()] *)
  to_float : F -> F;
  (** [x.to(query.dtype)], [x.type_as(query)] *)
  to_dtype : F -> F
}.

(** Tensors of rank 1 to 4. *)
Abbreviation T1 F := (list F) (only parsing).
Abbreviation T2 F := (list (list F)) (only parsing).
Abbreviation T3 F := (list (list (list F))) (only parsing).
Abbreviation T4 F := (list (list (list (list F)))) (only parsing).

Section Attention.

Context {F : Type} {ops : Scalar F}.

(** ** Module state *)

(** [nn.Linear]: the shapes are fixed by the constructor, the entries are
    whatever the parameter store holds ([skip_init] leaves them
    uninitialised). *)
Record Linear : Type := {
  in_features : nat;
  out_features : nat;
  weight : nat -> nat -> F;
  bias : option (nat -> F)
}.

(** [nn.Embedding] *)
Record Embedding : Type := {
  num_embeddings : nat;
  embedding_dim : nat;
  table : nat -> nat -> F
}.

(** Modelled from the spec: [AlibiPositionalBias] lives in
    [alibi_position_bias.py], which is not part of the sources at hand.  The
    spec describes it as a fixed per-head slope vector of length
    [head_count]. *)
Record AlibiPositionalBias : Type := {
  alibi_heads : Z;
  slopes : nat -> F
}.

(** [self.layer_cache = (False, {"keys": ..., "values": ...})];
    [torch.tensor([])] is the empty list. *)
Record LayerCache : Type := {
  enabled : bool;
  keys : T4 F;
  values : T4 F
}.

Record MultiHeadedAttention : Type := {
  dim_per_head : Z;
  head_count : Z;
  linear_keys : Linear;
  linear_values : Linear;
  linear_query : Linear;
  (** [self.dropout.p] and [nn.Module.training] *)
  dropout : Q;
  training : bool;
  final_linear : Linear;
  max_relative_positions : Z;
  attn_type : option String.string;
  layer_cache : LayerCache;
  relative_positions_embeddings : option Embedding;
  rope : option (list (list (F * F)));
  alibi : option AlibiPositionalBias
}.

(** The values held by the parameters of a module. *)
Record Params : Type := {
  w_keys : nat -> nat -> F;      b_keys : nat -> F;
  w_values : nat -> nat -> F;    b_values : nat -> F;
  w_query : nat -> nat -> F;     b_query : nat -> F;
  w_final : nat -> nat -> F;     b_final : nat -> F;
  w_relative : nat -> nat -> F;
  (** Modelled from the spec: the precomputed ALiBi slopes, by head count
      and head. *)
  alibi_slopes : Z -> nat -> F
}.

Variable theta : Params.

(** ** Construction *)

(** [skip_init(nn.Linear, in_features=n, out_features=n, bias=b)].  A
    negative size is refused; sizes are unbounded integers here, so the
    failure to allocate a layer too large for the machine is not
    modelled. *)
Definition new_linear (n : Z) (w : nat -> nat -> F) (b : nat -> F)
    (with_bias : bool) : Result Linear :=
  if (n <? 0)%Z then Raise RuntimeError
  else Ok {| in_features := Z.to_nat n; out_features := Z.to_nat n;
             weight := w; bias := if with_bias then Some b else None |}.

(** [nn.Embedding(vocab_size, dim)] *)
Definition new_embedding (vocab_size dim : Z) : Result Embedding :=
  if ((vocab_size <? 0) || (dim <? 0))%Z then Raise RuntimeError
  else Ok {| num_embeddings := Z.to_nat vocab_size;
             embedding_dim := Z.to_nat dim;
             table := w_relative theta |}.

(** [nn.Dropout(p)] *)
Definition new_dropout (p : Q) : Result Q :=
  if Qle_bool 0 p && Qle_bool p 1 then Ok p else Raise ValueError.

(** [rotaryembeddings(dim, maxseqlen, base)]: row [t] holds, for every even
    feature index [2i < dim], the unit complex number of angle
    [t / base^(2i/dim)] as a pair (real part, imaginary part). *)
Definition rotaryembeddings (dim : Z) (maxseqlen : nat) (base : Z)
    : Result (list (list (F * F))) :=
  if (dim <? 0)%Z then Raise RuntimeError
  else
    let inv_freq :=
      map (fun i => sdiv (of_Z 1)
                      (spow (of_Z base)
                         (sdiv (to_float (of_Z (2 * Z.of_nat i))) (of_Z dim))))
          (seq 0 (Z.to_nat ((dim + 1) / 2))) in
    Ok (map (fun t =>
               map (fun f =>
                      let angle := to_float (smul (of_Z (Z.of_nat t)) f) in
                      (smul (of_Z 1) (scos angle), smul (of_Z 1) (ssin angle)))
                   inv_freq)
            (seq 0 maxseqlen)).

Definition empty_cache : LayerCache :=
  {| enabled := false; keys := []; values := [] |}.

(** [MultiHeadedAttention.__init__].  [num_kv] is accepted and never read.
    The name [checkpoint] is not bound in the file, so asking for
    checkpointing of "mha" raises [NameError]; otherwise [maybe_ckpt] is
    [lambda f, x: f(x)], which [forward] below inlines. *)
Definition init (head_count model_dim : Z) (dropout : Q)
    (max_relative_positions : Z) (attn_type : option String.string)
    (add_qkvbias : bool) (num_kv : Z) (use_ckpting : list String.string)
    : Result MultiHeadedAttention :=
  if (head_count =? 0)%Z then Raise ZeroDivisionError
  else if negb (model_dim mod head_count =? 0)%Z then Raise AssertionError
  else
    let dim_per_head := (model_dim / head_count)%Z in
    lk <- new_linear model_dim (w_keys theta) (b_keys theta) add_qkvbias ;;
    lv <- new_linear model_dim (w_values theta) (b_values theta) add_qkvbias ;;
    lq <- new_linear model_dim (w_query theta) (b_query theta) add_qkvbias ;;
    p <- new_dropout dropout ;;
    fl <- new_linear model_dim (w_final theta) (b_final theta) add_qkvbias ;;
    ' (emb, rp, al) <-
      (if (max_relative_positions >? 0)%Z then
         e <- new_embedding (max_relative_positions * 2 + 1) dim_per_head ;;
         Ok (Some e, None, None)
       else
         r <- (if (max_relative_positions =? -1)%Z then
                 t <- rotaryembeddings dim_per_head 4096 10000 ;; Ok (Some t)
               else Ok None) ;;
         Ok (None, r,
             if (max_relative_positions =? -2)%Z then
               Some {| alibi_heads := head_count;
                       slopes := alibi_slopes theta head_count |}
             else None)) ;;
    if existsb (String.eqb "mha"%string) use_ckpting then Raise NameError
    else Ok {| dim_per_head := dim_per_head;
               head_count := head_count;
               linear_keys := lk;
               linear_values := lv;
               linear_query := lq;
               dropout := p;
               training := true;
               final_linear := fl;
               max_relative_positions := max_relative_positions;
               attn_type := attn_type;
               layer_cache := empty_cache;
               relative_positions_embeddings := emb;
               rope := rp;
               alibi := al |}.

(** ** Tensors as nested lists

    A nested list denotes a tensor when it is rectangular.  The sizes of a
    tensor whose outer dimensions are not empty are read off its first
    entries. *)

Definition size0 {A : Type} (x : list A) : nat := length x.

Definition size1 {A : Type} (x : list (list A)) : nat := length (hd [] x).

Definition size2 {A : Type} (x : list (list (list A))) : nat :=
  length (hd [] (hd [] x)).

Definition size3 {A : Type} (x : list (list (list (list A)))) : nat :=
  length (hd [] (hd [] (hd [] x))).

Definition rect2 {A : Type} (r c : nat) (x : list (list A)) : bool :=
  (length x =? r) && forallb (fun row => length row =? c) x.

Definition rect3 {A : Type} (a r c : nat) (x : list (list (list A))) : bool :=
  (length x =? a) && forallb (rect2 r c) x.

Definition rect4 {A : Type} (a b r c : nat)
    (x : list (list (list (list A)))) : bool :=
  (length x =? a) && forallb (rect3 b r c) x.

Definition is_tensor3 {A : Type} (x : list (list (list A))) : bool :=
  rect3 (size0 x) (size1 x) (size2 x) x.

Definition is_tensor4 {A : Type} (x : list (list (list (list A)))) : bool :=
  rect4 (size0 x) (size1 x) (size2 x) (size3 x) x.

Definition numel3 {A : Type} (x : list (list (list A))) : nat :=
  size0 x * size1 x * size2 x.

Definition numel4 {A : Type} (x : list (list (list (list A)))) : nat :=
  size0 x * size1 x * size2 x * size3 x.

Definition map4 {A B : Type} (f : A -> B)
    : list (list (list (list A))) -> _ :=
  map (map (map (map f))).

Fixpoint mapM {A B : Type} (f : A -> Result B) (l : list A)
    : Result (list B) :=
  match l with
  | [] => Ok []
  | a :: t => b <- f a ;; bs <- mapM f t ;; Ok (b :: bs)
  end.

(** Broadcasting of one axis: equal sizes pair up, a size of one is
    repeated, anything else is a shape error. *)
Definition broadcast2 {A B : Type} (a : list A) (b : list B)
    : Result (list (A * B)) :=
  if length a =? length b then Ok (combine a b)
  else match a, b with
       | [x], _ => Ok (map (fun y => (x, y)) b)
       | _, [y] => Ok (map (fun x => (x, y)) a)
       | _, _ => Raise RuntimeError
       end.

(** [x.transpose(i, i+1)] on the two outer axes of a nested list. *)
Definition transpose {A : Type} (d : A) (m : list (list A)) : list (list A) :=
  map (fun j => map (fun row => nth j row d) m) (seq 0 (length (hd [] m))).

Definition zero : F := of_Z 0.

Definition sum (l : T1 F) : F := fold_right sadd zero l.

Definition dot (a b : T1 F) : F :=
  sum (map (fun p => smul (fst p) (snd p)) (combine a b)).

(** Row vector times matrix, and matrix product. *)
Definition vecmat (v : T1 F) (m : T2 F) : T1 F :=
  map (fun col => dot v col) (transpose zero m).

Definition mm (a b : T2 F) : T2 F := map (fun row => vecmat row b) a.

(** [torch.matmul] of two 4-D tensors: the two leading axes broadcast, the
    inner sizes must agree. *)
Definition matmul (a b : T4 F) : Result (T4 F) :=
  _ <- guard (size3 a =? size2 b) RuntimeError ;;
  ab <- broadcast2 a b ;;
  mapM (fun p => hs <- broadcast2 (fst p) (snd p) ;;
                 Ok (map (fun q => mm (fst q) (snd q)) hs)) ab.

(** [self.add_(other)]: [other] is broadcast to [self] along the batch
    axis. *)
Definition add_ (self other : T4 F) : Result (T4 F) :=
  let add3 (s o : T3 F) : T3 F :=
    map (fun p => map (fun q => map (fun r => sadd (fst r) (snd r))
                                    (combine (fst q) (snd q)))
                      (combine (fst p) (snd p)))
        (combine s o) in
  if length other =? length self then
    Ok (map (fun p => add3 (fst p) (snd p)) (combine self other))
  else match other with
       | [o] => Ok (map (fun s => add3 s o) self)
       | _ => Raise RuntimeError
       end.

(** ** Rotary embeddings *)

Fixpoint pairs (l : T1 F) : list (F * F) :=
  match l with
  | a :: b :: t => (a, b) :: pairs t
  | _ => []
  end.

Definition unpairs (l : list (F * F)) : T1 F :=
  flat_map (fun p => [fst p; snd p]) l.

(** Product of complex numbers given as (real, imaginary). *)
Definition cmul (x y : F * F) : F * F :=
  (ssub (smul (fst x) (fst y)) (smul (snd x) (snd y)),
   sadd (smul (fst x) (snd y)) (smul (snd x) (fst y))).

(** One vector of features, taken as complex pairs and multiplied by a row
    of the table. *)
Definition rotv (v : T1 F) (r : list (F * F)) : T1 F :=
  map to_dtype
    (unpairs (map (fun p => cmul (fst p) (snd p))
                  (combine (pairs (map to_float v)) r))).

(** One position: every head's vector is rotated by the row of the table
    for that position. *)
Definition rotate_position (heads : T2 F) (r : list (F * F)) : T2 F :=
  map (fun v => rotv v r) heads.

(** [apply_rotary_emb(query, key, rope)], on tensors laid out as
    (batch, length, heads, dim).  The reshape to pairs needs an even last
    size.  [rope.view(1, query_.size(1), 1, query_.size(3))] needs as many
    entries as positions times half the width; [forward] passes a slice of
    the table, whose rows have that width, so that the view goes through
    exactly when the slice has one row per query position, which is what
    the guard asks.  The product with [key_] broadcasts the length axis;
    [forward] passes a key of the query's width. *)
Definition apply_rotary_emb (query key : T4 F) (rope : list (list (F * F)))
    : Result (T4 F * T4 F) :=
  _ <- guard ((size3 query mod 2 =? 0) && (size3 key mod 2 =? 0))
         RuntimeError ;;
  _ <- guard ((length rope =? size1 query)
              && (size1 rope =? size3 query / 2)) RuntimeError ;;
  let query_out :=
    map (fun qb => map (fun p => rotate_position (fst p) (snd p))
                       (combine qb rope)) query in
  key_out <- mapM (fun kb => kr <- broadcast2 kb rope ;;
                             Ok (map (fun p => rotate_position (fst p) (snd p))
                                     kr)) key ;;
  Ok (query_out, key_out).

(** ** Relative positions *)

(** [relative_matmul(x, z, transpose)]: the permutations and views pair the
    rows of [x] at query position [i], for every batch and head, with the
    matrix [z[i]], whose inner size must be that of the rows; a [z] with a
    single leading entry is broadcast to every query position.  (A single
    query position against several matrices is broadcast the other way by
    [torch.matmul] and viewed into one long row, which the in-place addition
    of the caller then refuses with the same exception as here.) *)
Definition relative_matmul (x : T4 F) (z : T3 F) (transpose_z : bool)
    : Result (T4 F) :=
  let z := if transpose_z then map (transpose zero) z else z in
  _ <- guard (size3 x =? size1 z) RuntimeError ;;
  zs <- (if length z =? size2 x then Ok z
         else match z with
              | [z0] => Ok (repeat z0 (size2 x))
              | _ => Raise RuntimeError
              end) ;;
  Ok (map (map (fun xh => map (fun p => vecmat (fst p) (snd p))
                              (combine xh zs))) x).

Definition clamp (lo hi v : Z) : Z := Z.min hi (Z.max lo v).

(** [gen_relative_positions(length, max_relative_positions, cache)] *)
Definition gen_relative_positions (length : nat) (max_relative_positions : Z)
    (cache : bool) : list (list Z) :=
  let distance_mat :=
    if cache then
      [map (fun j => (- Z.of_nat length + 1 + Z.of_nat j)%Z) (seq 0 length)]
    else
      let range_vec := map Z.of_nat (seq 0 length) in
      let range_mat :=
        transpose 0%Z (map (fun v => repeat v length) range_vec) in
      map (fun p => map (fun q => (fst q - snd q)%Z) (combine (fst p) (snd p)))
          (combine range_mat (transpose 0%Z range_mat)) in
  map (map (fun d =>
              (clamp (- max_relative_positions) max_relative_positions d
               + max_relative_positions)%Z))
      distance_mat.

(** Lookup in [nn.Embedding]. *)
Definition embedding (e : Embedding) (idx : list (list Z)) : Result (T3 F) :=
  mapM (mapM (fun i =>
                if ((0 <=? i) && (i <? Z.of_nat (num_embeddings e)))%Z
                then Ok (map (table e (Z.to_nat i)) (seq 0 (embedding_dim e)))
                else Raise IndexError)) idx.

(** ** ALiBi *)

(** Modelled from the spec: [AlibiPositionalBias.forward] is not part of the
    sources at hand.  Per the spec it adds to the raw scores, per head, the
    fixed slope of the head times the distance between query position and
    key position; the query rows are the last rows of the key history, as
    the decode cache has it. *)
Definition alibi_forward (a : AlibiPositionalBias) (scores : T4 F) : T4 F :=
  map (fun sb =>
         map (fun hp =>
                let h := fst hp in
                map (fun ip =>
                       let i := fst ip in
                       let row := snd ip in
                       let qpos := (Z.of_nat (length row) - Z.of_nat (length (snd hp))
                                    + Z.of_nat i)%Z in
                       map (fun jp =>
                              sadd (snd jp)
                                (smul (slopes a h)
                                   (of_Z (Z.abs (qpos - Z.of_nat (fst jp))))))
                           (combine (seq 0 (length row)) row))
                    (combine (seq 0 (length (snd hp))) (snd hp)))
             (combine (seq 0 (length sb)) sb))
      scores.

(** ** Projection and reshape *)

Definition linear_vec (l : Linear) (v : T1 F) : T1 F :=
  map (fun o =>
         let acc := dot v (map (weight l o) (seq 0 (in_features l))) in
         match bias l with
         | Some b => sadd acc (b o)
         | None => acc
         end)
      (seq 0 (out_features l)).

(** [nn.Linear.forward] on (batch, length, dim).  The last size of a tensor
    without entries is not represented; [shape] rejects such a tensor right
    after. *)
Definition linear_apply (l : Linear) (x : T3 F) : Result (T3 F) :=
  _ <- guard (is_tensor3 x) RuntimeError ;;
  _ <- guard ((numel3 x =? 0) || (size2 x =? in_features l)) RuntimeError ;;
  Ok (map (map (linear_vec l)) x).

(** [shape(x, dim_per_head)]:
    (batch, length, modeldim) -> (batch, heads, length, dimperhead).
    The view infers the number of heads, which fails on a tensor without
    entries, on a non-positive [dim_per_head] and on a last size that is
    not a multiple of it. *)
Definition shape (x : T3 F) (dim_per_head : Z) : Result (T4 F) :=
  let d := Z.to_nat dim_per_head in
  _ <- guard ((0 <? dim_per_head)%Z && negb (numel3 x =? 0)
              && (size2 x mod d =? 0)) RuntimeError ;;
  Ok (map (fun xb =>
             map (fun h => map (fun row => firstn d (skipn (h * d) row)) xb)
                 (seq 0 (size2 x / d)))
          x).

(** [unshape(x)]:
    (batch, heads, length, dimperhead) -> (batch, length, modeldim). *)
Definition unshape (x : T4 F) : T3 F :=
  map (fun xb =>
         map (fun l => concat (map (fun xh => nth l xh []) xb))
             (seq 0 (size2 x)))
      x.

(** ** Decode cache and head expansion *)

(** [torch.cat((a, b), dim=2)] *)
Definition cat2 (a b : T4 F) : Result (T4 F) :=
  _ <- guard (is_tensor4 a && (size0 a =? size0 b) && (size1 a =? size1 b)
              && (size3 a =? size3 b)) RuntimeError ;;
  Ok (map (fun p => map (fun q => fst q ++ snd q) (combine (fst p) (snd p)))
          (combine a b)).

(** [x.view(x.size(0), -1, 1, x.size(2), x.size(3))
      .repeat(1, 1, query.size(1) // x.size(1), 1, 1)
      .view(x.size(0), query.size(1), x.size(3), x.size(4))]:
    the multi-query expansion of keys and values.  The last view needs the
    repeated heads to add up to the query heads.  A tensor without entries
    does not get here from the projections, which reject it, nor from a
    cache that [forward] filled; for one put into the cache by hand the
    first view fails. *)
Definition expand_heads (x : T4 F) (query_heads : nat) : Result (T4 F) :=
  _ <- guard (is_tensor4 x && negb (numel4 x =? 0)) RuntimeError ;;
  let r := query_heads / size1 x in
  let x := map (map (fun xh => [xh])) x in
  let x := map (map (fun s => concat (repeat s r))) x in
  _ <- guard (size1 x * r =? query_heads) RuntimeError ;;
  Ok (map (@concat (T2 F)) x).

(** ** Mask, softmax, dropout *)

(** The mask argument: a boolean tensor of rank 3 or 4. *)
Inductive Mask : Type :=
| Mask3 (m : list (list (list bool)))
| Mask4 (m : list (list (list (list bool)))).

(** [mask.expand(-1, self.head_count, -1, -1)].  The four sizes are matched
    against the trailing axes of the mask; a mask of rank 3 would get the
    size -1 on a new leading axis, which [expand] refuses.  A mask with an
    empty axis is outside what nested lists represent and is refused as
    well.  The head count is positive whenever the projections of a module
    that the constructor built have succeeded. *)
Definition expand_mask (mask : Mask) (head_count : Z)
    : Result (list (list (list (list bool)))) :=
  match mask with
  | Mask3 _ => Raise RuntimeError
  | Mask4 mk =>
      _ <- guard (is_tensor4 mk && negb (numel4 mk =? 0)
                  && (0 <? head_count)%Z) RuntimeError ;;
      if size1 mk =? Z.to_nat head_count then Ok mk
      else if size1 mk =? 1 then
        Ok (map (fun mb => repeat (hd [] mb) (Z.to_nat head_count)) mk)
      else Raise RuntimeError
  end.

(** The literal [-1e18]. *)
Definition mask_fill_value : F := of_Z (- 10 ^ 18).

(** [scores.masked_fill(mask, value)]: both arguments are broadcast against
    each other on every axis. *)
Definition masked_fill (scores : T4 F) (mask : list (list (list (list bool))))
    (value : F) : Result (T4 F) :=
  p4 <- broadcast2 scores mask ;;
  mapM (fun b =>
    p3 <- broadcast2 (fst b) (snd b) ;;
    mapM (fun h =>
      p2 <- broadcast2 (fst h) (snd h) ;;
      mapM (fun r =>
        p1 <- broadcast2 (fst r) (snd r) ;;
        Ok (map (fun e => if snd e : bool then value else fst e) p1)) p2) p3) p4.

(** [nn.Softmax(dim=-1)] on one row: the exponentials over their sum. *)
Definition softmax_row (row : T1 F) : T1 F :=
  let e := map sexp row in
  map (fun x => sdiv x (sum e)) e.

Definition softmax (scores : T4 F) : T4 F := map (map (map softmax_row)) scores.

(** The random part of [nn.Dropout]: what a call does to its argument when
    the layer is active. *)
Variable dropout_noise : Q -> T4 F -> T4 F.

(** [self.dropout(attn)]: the identity in evaluation mode and for [p = 0]. *)
Definition apply_dropout (m : MultiHeadedAttention) (x : T4 F) : T4 F :=
  if negb (training m) || Qeq_bool (dropout m) 0 then x
  else dropout_noise (dropout m) x.

(** ** Forward *)

(** The rotary block of [forward], which the source has once with
    [start_pos = step] (decoding) and once with [start_pos = 0]. *)
Definition rotary (m : MultiHeadedAttention) (start_pos : nat)
    (query key : T4 F) : Result (T4 F * T4 F) :=
  let seqlen := size2 query in
  table <- match rope m with
           | Some t => Ok t
           | None => Raise AttributeError
           end ;;
  let rope := firstn seqlen (skipn start_pos table) in
  let query := map (transpose []) query in
  let key := map (transpose []) key in
  qk <- apply_rotary_emb query key rope ;;
  Ok (map (transpose []) (fst qk), map (transpose []) (snd qk)).

Definition maybe_rotary (m : MultiHeadedAttention) (start_pos : nat)
    (query key : T4 F) : Result (T4 F * T4 F) :=
  if (max_relative_positions m =? -1)%Z then rotary m start_pos query key
  else Ok (query, key).

Definition with_cache (m : MultiHeadedAttention) (c : LayerCache)
    : MultiHeadedAttention :=
  {| dim_per_head := dim_per_head m;
     head_count := head_count m;
     linear_keys := linear_keys m;
     linear_values := linear_values m;
     linear_query := linear_query m;
     dropout := dropout m;
     training := training m;
     final_linear := final_linear m;
     max_relative_positions := max_relative_positions m;
     attn_type := attn_type m;
     layer_cache := c;
     relative_positions_embeddings := relative_positions_embeddings m;
     rope := rope m;
     alibi := alibi m |}.

Definition is_attn_type (m : MultiHeadedAttention) (s : String.string)
    : bool :=
  match attn_type m with
  | Some a => String.eqb a s
  | None => false
  end.

(** Step 1 of [forward]: project key, value and query and update the
    cache.  Returns the three tensors in (batch, heads, length, dim) layout
    and the cache the module holds afterwards; an exception raised here
    leaves the cache as it was. *)
Definition project (m : MultiHeadedAttention) (key value query : T3 F)
    (step : nat) : Result (T4 F * T4 F * T4 F * LayerCache) :=
  let cache := layer_cache m in
  let d := dim_per_head m in
  if enabled cache then
    if is_attn_type m "self"%string then
      q <- linear_apply (linear_query m) query ;;
      k <- linear_apply (linear_keys m) query ;;
      v <- linear_apply (linear_values m) query ;;
      q <- shape q d ;;
      k <- shape k d ;;
      v <- shape v d ;;
      qk <- maybe_rotary m step q k ;;
      let q := fst qk in
      let k := snd qk in
      k <- (if negb (numel4 (keys cache) =? 0) then cat2 (keys cache) k
            else Ok k) ;;
      v <- (if negb (numel4 (values cache) =? 0) then cat2 (values cache) v
            else Ok v) ;;
      Ok (q, k, v, {| enabled := true; keys := k; values := v |})
    else if is_attn_type m "context"%string then
      q <- linear_apply (linear_query m) query ;;
      q <- shape q d ;;
      kv <- (if numel4 (keys cache) =? 0 then
               k <- linear_apply (linear_keys m) key ;;
               v <- linear_apply (linear_values m) value ;;
               k <- shape k d ;;
               v <- shape v d ;;
               Ok (k, v)
             else Ok (keys cache, values cache)) ;;
      Ok (q, fst kv, snd kv,
          {| enabled := true; keys := fst kv; values := snd kv |})
    else
      (* no projection: [math.sqrt] and then [key.size(3)] meet the raw
         arguments *)
      if (d <? 0)%Z then Raise ValueError else Raise IndexError
  else
    k <- linear_apply (linear_keys m) key ;;
    v <- linear_apply (linear_values m) value ;;
    q <- linear_apply (linear_query m) query ;;
    k <- shape k d ;;
    v <- shape v d ;;
    q <- shape q d ;;
    qk <- maybe_rotary m 0 q k ;;
    Ok (fst qk, snd qk, v, cache).

(** [query /= math.sqrt(self.dim_per_head)] *)
Definition scale (m : MultiHeadedAttention) (query : T4 F) : T4 F :=
  map4 (fun x => sdiv x (ssqrt (of_Z (dim_per_head m)))) query.

(** Step 2 of [forward], from the scaling of the query to
    [scores = scores.float()]: the raw scores, with the relative key
    embeddings when that mode is on. *)
Definition raw_scores (m : MultiHeadedAttention) (query key : T4 F)
    : Result (T4 F * option (T3 F)) :=
  let query := scale m query in
  key <- expand_heads key (size1 query) ;;
  scores <- matmul query (map (map (transpose zero)) key) ;;
  sr <- match relative_positions_embeddings m with
        | Some emb =>
            let key_len := size2 key in
            let relative_positions_matrix :=
              gen_relative_positions key_len (max_relative_positions m)
                (enabled (layer_cache m)) in
            relations_keys <- embedding emb relative_positions_matrix ;;
            r <- relative_matmul query relations_keys true ;;
            scores <- add_ scores r ;;
            Ok (scores, Some relations_keys)
        | None =>
            if (max_relative_positions m =? -2)%Z then
              match alibi m with
              | Some a => Ok (alibi_forward a scores, None)
              | None => Raise AttributeError
              end
            else Ok (scores, None)
        end ;;
  Ok (map4 to_float (fst sr), snd sr).

(** The mask of step 2 of [forward]. *)
Definition apply_mask (m : MultiHeadedAttention) (scores : T4 F)
    (mask : option Mask) : Result (T4 F) :=
  match mask with
  | Some mask =>
      mask <- expand_mask mask (head_count m) ;;
      masked_fill scores mask mask_fill_value
  | None => Ok scores
  end.

(** Step 3 of [forward]: from the attention weights to the output. *)
Definition context_of (m : MultiHeadedAttention) (query_heads : nat)
    (attn value : T4 F) (relations_values : option (T3 F)) : Result (T3 F) :=
  let drop_attn := apply_dropout m attn in
  value <- expand_heads value query_heads ;;
  context_original <- matmul drop_attn value ;;
  context_original <-
    match relations_values with
    | Some relations_values =>
        r <- relative_matmul drop_attn relations_values false ;;
        add_ context_original r
    | None => Ok context_original
    end ;;
  let context := unshape context_original in
  linear_apply (final_linear m) context.

(** Steps 2 and 3 of [forward], from [query /= math.sqrt(...)] on. *)
Definition attend (m : MultiHeadedAttention) (query key value : T4 F)
    (mask : option Mask) : Result (T3 F * T4 F) :=
  sr <- raw_scores m query key ;;
  scores <- apply_mask m (fst sr) mask ;;
  let attn := map4 to_dtype (softmax scores) in
  attn_output <- context_of m (size1 query) attn value (snd sr) ;;
  Ok (attn_output, attn).

(** [MultiHeadedAttention.forward]: the module after the call and either
    [(attn_output, attn)] or the exception raised.  [step] is a position,
    counted from 0. *)
Definition forward (m : MultiHeadedAttention) (key value query : T3 F)
    (mask : option Mask) (step : nat)
    : MultiHeadedAttention * Result (T3 F * T4 F) :=
  match project m key value query step with
  | Raise e => (m, Raise e)
  | Ok (q, k, v, c) =>
      let m' := with_cache m c in
      (m', attend m' q k v mask)
  end.

(** The module with another value of [max_relative_positions]. *)
Definition set_max_relative_positions (m : MultiHeadedAttention) (v : Z)
    : MultiHeadedAttention :=
  {| dim_per_head := dim_per_head m;
     head_count := head_count m;
     linear_keys := linear_keys m;
     linear_values := linear_values m;
     linear_query := linear_query m;
     dropout := dropout m;
     training := training m;
     final_linear := final_linear m;
     max_relative_positions := v;
     attn_type := attn_type m;
     layer_cache := layer_cache m;
     relative_positions_embeddings := relative_positions_embeddings m;
     rope := rope m;
     alibi := alibi m |}.

(** [MultiHeadedAttention.update_dropout] *)
Definition update_dropout (m : MultiHeadedAttention) (p : Q)
    : MultiHeadedAttention :=
  {| dim_per_head := dim_per_head m;
     head_count := head_count m;
     linear_keys := linear_keys m;
     linear_values := linear_values m;
     linear_query := linear_query m;
     dropout := p;
     training := training m;
     final_linear := final_linear m;
     max_relative_positions := max_relative_positions m;
     attn_type := attn_type m;
     layer_cache := layer_cache m;
     relative_positions_embeddings := relative_positions_embeddings m;
     rope := rope m;
     alibi := alibi m |}.

(** ** Sessions *)

(** The arguments of one call of [forward]. *)
Record Call : Type := {
  call_key : T3 F;
  call_value : T3 F;
  call_query : T3 F;
  call_mask : option Mask;
  call_step : nat
}.

Definition forward_call (m : MultiHeadedAttention) (c : Call)
    : MultiHeadedAttention * Result (T3 F * T4 F) :=
  forward m (call_key c) (call_value c) (call_query c) (call_mask c)
    (call_step c).

(** The module after a sequence of calls, whatever their outcomes. *)
Fixpoint run (m : MultiHeadedAttention) (calls : list Call)
    : MultiHeadedAttention :=
  match calls with
  | [] => m
  | c :: cs => run (fst (forward_call m c)) cs
  end.

(** What the decoding loop does at the start of a session: the cache is
    switched on and emptied. *)
Definition start_decoding (m : MultiHeadedAttention) : MultiHeadedAttention :=
  with_cache m {| enabled := true; keys := []; values := [] |}.

(** [x[:, :n]] and [x[:, t:t+1]] *)
Definition prefix (x : T3 F) (n : nat) : T3 F := map (firstn n) x.

Definition token (x : T3 F) (t : nat) : T3 F :=
  map (fun xb => firstn 1 (skipn t xb)) x.

(** Incremental decoding of [x]: steps [0..t], one position each, with
    [step] the position; the outcome is that of step [t].  An exception
    ends the loop. *)
Fixpoint decode_steps (m : MultiHeadedAttention) (x : T3 F) (t : nat)
    : MultiHeadedAttention * Result (T3 F * T4 F) :=
  match t with
  | 0 => forward m (token x 0) (token x 0) (token x 0) None 0
  | S t' =>
      match decode_steps m x t' with
      | (m', Ok _) => forward m' (token x t) (token x t) (token x t) None t
      | (m', Raise e) => (m', Raise e)
      end
  end.

(** Position [t] of a (batch, length, dim) tensor, as a tensor of length
    one. *)
Definition position (x : T3 F) (t : nat) : T3 F := map (skipn t) (prefix x (S t)).

(** ** What [forward] computes, entry by entry

    The closed forms below give, for a batch entry [xb] of the input (its
    list of positions), a head [h] and a position [i], the vectors
    [forward] works with when the keys are the first [len] positions.
    They are what the proofs of cache equivalence compare both runs
    with. *)

(** The slice of head [h] of a projected position. *)
Definition hv (l : Linear) (d h : nat) (v : T1 F) : T1 F :=
  firstn d (skipn (h * d) (linear_vec l v)).

Definition is_rotary (m : MultiHeadedAttention) : bool :=
  (max_relative_positions m =? -1)%Z.

Definition rope_row (m : MultiHeadedAttention) (i : nat) : list (F * F) :=
  nth i (match rope m with Some t => t | None => [] end) [].

Definition qvec (m : MultiHeadedAttention) (d : nat) (xb : T2 F)
    (h i : nat) : T1 F :=
  let v := hv (linear_query m) d h (nth i xb []) in
  if is_rotary m then rotv v (rope_row m i) else v.

Definition kvec (m : MultiHeadedAttention) (d : nat) (xb : T2 F)
    (h i : nat) : T1 F :=
  let v := hv (linear_keys m) d h (nth i xb []) in
  if is_rotary m then rotv v (rope_row m i) else v.

Definition vvec (m : MultiHeadedAttention) (d : nat) (xb : T2 F)
    (h i : nat) : T1 F :=
  hv (linear_values m) d h (nth i xb []).

(** A tensor (batch, heads, positions [s .. s+n-1], dim) given by its
    rows, and one given by its (length, dim) matrices. *)
Definition mform (nh : nat) (g : T2 F -> nat -> T2 F) (x : T3 F) : T4 F :=
  map (fun xb => map (fun h => g xb h) (seq 0 nh)) x.

Definition tform (nh s n : nat) (g : T2 F -> nat -> nat -> T1 F) (x : T3 F)
    : T4 F :=
  mform nh (fun xb h => map (g xb h) (seq s n)) x.

Definition kmat (m : MultiHeadedAttention) (d len : nat) (xb : T2 F)
    (h : nat) : T2 F :=
  map (kvec m d xb h) (seq 0 len).

Definition vmat (m : MultiHeadedAttention) (d len : nat) (xb : T2 F)
    (h : nat) : T2 F :=
  map (vvec m d xb h) (seq 0 len).

Definition qscaled (m : MultiHeadedAttention) (d : nat) (xb : T2 F)
    (h i : nat) : T1 F :=
  map (fun e => sdiv e (ssqrt (of_Z (dim_per_head m)))) (qvec m d xb h i).

Definition score0 (m : MultiHeadedAttention) (d len : nat) (xb : T2 F)
    (h i : nat) : T1 F :=
  vecmat (qscaled m d xb h i) (transpose zero (kmat m d len xb h)).

(** The relative embeddings of the keys seen from position [i]. *)
Definition zrow (e : Embedding) (mrp : Z) (len i : nat) : T2 F :=
  map (fun j =>
         map (table e (Z.to_nat (clamp (- mrp) mrp (Z.of_nat j - Z.of_nat i)
                                 + mrp)))
             (seq 0 (embedding_dim e)))
      (seq 0 len).

Definition vadd (a b : T1 F) : T1 F :=
  map (fun r => sadd (fst r) (snd r)) (combine a b).

Definition alibi_row (a : AlibiPositionalBias) (h i : nat) (row : T1 F)
    : T1 F :=
  map (fun jp => sadd (snd jp)
                   (smul (slopes a h)
                      (of_Z (Z.abs (Z.of_nat i - Z.of_nat (fst jp))))))
      (combine (seq 0 (length row)) row).

Definition score (m : MultiHeadedAttention) (d len : nat) (xb : T2 F)
    (h i : nat) : T1 F :=
  map to_float
    match relative_positions_embeddings m with
    | Some e =>
        vadd (score0 m d len xb h i)
          (vecmat (qscaled m d xb h i)
             (transpose zero (zrow e (max_relative_positions m) len i)))
    | None =>
        if (max_relative_positions m =? -2)%Z then
          match alibi m with
          | Some a => alibi_row a h i (score0 m d len xb h i)
          | None => score0 m d len xb h i
          end
        else score0 m d len xb h i
    end.

Definition attn_row (m : MultiHeadedAttention) (d len : nat) (xb : T2 F)
    (h i : nat) : T1 F :=
  map to_dtype (softmax_row (score m d len xb h i)).

Definition ctx_vec (m : MultiHeadedAttention) (d len : nat) (xb : T2 F)
    (h i : nat) : T1 F :=
  let c := vecmat (attn_row m d len xb h i) (vmat m d len xb h) in
  match relative_positions_embeddings m with
  | Some e =>
      vadd c (vecmat (attn_row m d len xb h i)
                (zrow e (max_relative_positions m) len i))
  | None => c
  end.

Definition out_row (m : MultiHeadedAttention) (d nh len : nat) (xb : T2 F)
    (i : nat) : T1 F :=
  linear_vec (final_linear m)
    (concat (map (fun h => ctx_vec m d len xb h i) (seq 0 nh))).

(** The context vector of one head from a row [a] of attention weights
    over [len] keys. *)
Definition ctx_from (m : MultiHeadedAttention) (d len : nat) (a : T1 F)
    (xb : T2 F) (h i : nat) : T1 F :=
  let c := vecmat a (vmat m d len xb h) in
  match relative_positions_embeddings m with
  | Some e => vadd c (vecmat a (zrow e (max_relative_positions m) len i))
  | None => c
  end.

(** Modelled from the spec: the causal mask that the decoder supplies for
    self-attention over [n] positions, of shape (batch, 1, n, n); the
    entry for query [i] and key [j] is marked when the key comes after the
    query. *)
Definition causal_mask (batch n : nat) : Mask :=
  Mask4 (repeat [map (fun i => map (fun j => i <? j) (seq 0 n)) (seq 0 n)]
           batch).

(** A row of scores of query [i] under the causal mask: the keys after
    position [i] hold the fill value. *)
Definition causal_row (i : nat) (row : T1 F) : T1 F :=
  firstn (S i) row ++ repeat mask_fill_value (length row - S i).

Definition causal_attn_row (m : MultiHeadedAttention) (d len : nat)
    (xb : T2 F) (h i : nat) : T1 F :=
  map to_dtype (softmax_row (causal_row i (score m d len xb h i))).

Definition causal_out_row (m : MultiHeadedAttention) (d nh len : nat)
    (xb : T2 F) (i : nat) : T1 F :=
  linear_vec (final_linear m)
    (concat (map (fun h => ctx_from m d len (causal_attn_row m d len xb h i)
                             xb h i)
                 (seq 0 nh))).

(** What the constructor guarantees of a module with [nh] heads of
    dimension [d] and dropout 0. *)
Record Built (m : MultiHeadedAttention) (nh d : nat) : Prop := {
  built_heads : 0 < nh;
  built_dim : 0 < d;
  built_dim_per_head : dim_per_head m = Z.of_nat d;
  built_keys : in_features (linear_keys m) = nh * d
               /\ out_features (linear_keys m) = nh * d;
  built_values : in_features (linear_values m) = nh * d
                 /\ out_features (linear_values m) = nh * d;
  built_query : in_features (linear_query m) = nh * d
                /\ out_features (linear_query m) = nh * d;
  built_final : in_features (final_linear m) = nh * d;
  built_dropout : Qeq_bool (dropout m) 0 = true;
  built_relative :
    forall e, relative_positions_embeddings m = Some e ->
      (0 < max_relative_positions m)%Z
      /\ num_embeddings e = Z.to_nat (max_relative_positions m * 2 + 1)
      /\ embedding_dim e = d;
  built_rotary :
    is_rotary m = true ->
    exists tbl dd,
      rope m = Some tbl /\ length tbl = 4096
      /\ Forall (fun r => length r = dd) tbl /\ d = 2 * dd;
  built_alibi :
    relative_positions_embeddings m = None ->
    max_relative_positions m = (-2)%Z -> alibi m <> None
}.

(** The cache after [s] steps of incremental decoding of [x]. *)
Definition cache_after (m : MultiHeadedAttention) (nh d : nat) (x : T3 F)
    (s : nat) : LayerCache :=
  {| enabled := true;
     keys := if s =? 0 then [] else tform nh 0 s (kvec m d) x;
     values := if s =? 0 then [] else tform nh 0 s (vvec m d) x |}.

(** ** The multi-query expansion, as the spec words it *)

(** Every key/value head is replicated [r] times along the head axis. *)
Definition replicate_heads (r : nat) (x : T4 F) : T4 F :=
  map (flat_map (fun xh => repeat xh r)) x.

(** The rest of the computation of [forward], as the spec words the
    multi-query expansion: steps 2 and 3 run on keys and values that have
    been given the heads of the query beforehand, so without the two
    expansions. *)
Definition raw_scores_materialized (m : MultiHeadedAttention)
    (query key : T4 F) : Result (T4 F * option (T3 F)) :=
  let query := scale m query in
  scores <- matmul query (map (map (transpose zero)) key) ;;
  sr <- match relative_positions_embeddings m with
        | Some emb =>
            let key_len := size2 key in
            let relative_positions_matrix :=
              gen_relative_positions key_len (max_relative_positions m)
                (enabled (layer_cache m)) in
            relations_keys <- embedding emb relative_positions_matrix ;;
            r <- relative_matmul query relations_keys true ;;
            scores <- add_ scores r ;;
            Ok (scores, Some relations_keys)
        | None =>
            if (max_relative_positions m =? -2)%Z then
              match alibi m with
              | Some a => Ok (alibi_forward a scores, None)
              | None => Raise AttributeError
              end
            else Ok (scores, None)
        end ;;
  Ok (map4 to_float (fst sr), snd sr).

Definition context_of_materialized (m : MultiHeadedAttention)
    (attn value : T4 F) (relations_values : option (T3 F)) : Result (T3 F) :=
  let drop_attn := apply_dropout m attn in
  context_original <- matmul drop_attn value ;;
  context_original <-
    match relations_values with
    | Some relations_values =>
        r <- relative_matmul drop_attn relations_values false ;;
        add_ context_original r
    | None => Ok context_original
    end ;;
  let context := unshape context_original in
  linear_apply (final_linear m) context.

Definition attend_materialized (m : MultiHeadedAttention)
    (query key value : T4 F) (mask : option Mask) : Result (T3 F * T4 F) :=
  sr <- raw_scores_materialized m query key ;;
  scores <- apply_mask m (fst sr) mask ;;
  let attn := map4 to_dtype (softmax scores) in
  attn_output <- context_of_materialized m attn value (snd sr) ;;
  Ok (attn_output, attn).

(** A cache that is empty, or whose keys and values have [nh] heads. *)
Definition cache_heads (nh : nat) (c : LayerCache) : Prop :=
  (numel4 (keys c) = 0 /\ numel4 (values c) = 0)
  \/ (size1 (keys c) = nh /\ size1 (values c) = nh).

(** ** Entries of broadcast tensors *)

(** Entry [i] of an axis that broadcasts: an axis of size one answers at
    every index. *)
Definition bnth {A : Type} (l : list A) (i : nat) : option A :=
  match l with
  | [x] => Some x
  | _ => nth_error l i
  end.

(** Row [i] of head [h] of batch entry [b], and its entry [j], under
    broadcasting. *)
Definition brow {A : Type} (x : list (list (list (list A))))
    (b h i : nat) : option (list A) :=
  match bnth x b with
  | Some xb =>
      match bnth xb h with
      | Some xh => bnth xh i
      | None => None
      end
  | None => None
  end.

Definition bget4 {A : Type} (x : list (list (list (list A))))
    (b h i j : nat) : option A :=
  match brow x b h i with
  | Some row => bnth row j
  | None => None
  end.

(** The scores [forward] holds after [scores = scores.float()], before the
    mask is applied. *)
Definition forward_scores (m : MultiHeadedAttention) (key value query : T3 F)
    (step : nat) : Result (T4 F) :=
  p <- project m key value query step ;;
  let '(q, k, v, c) := p in
  sr <- raw_scores (with_cache m c) q k ;;
  Ok (fst sr).

End Attention.

(** ** Predicates on nested lists *)

(** Every row has an entry. *)
Definition nonempty_rows {A : Type} (x : list (list (list (list A))))
    : Prop :=
  Forall (Forall (Forall (fun row => row <> []))) x.

(** No batch entry has a head. *)
Definition no_heads {A : Type} (x : list (list (list (list A)))) : Prop :=
  Forall (fun xb => xb = []) x.

(** Row and entry of a tensor of rank 4. *)
Definition row4 {A : Type} (x : list (list (list (list A))))
    (b h i : nat) : option (list A) :=
  match nth_error x b with
  | Some xb =>
      match nth_error xb h with
      | Some xh => nth_error xh i
      | None => None
      end
  | None => None
  end.

Definition get4 {A : Type} (x : list (list (list (list A))))
    (b h i j : nat) : option A :=
  match row4 x b h i with
  | Some row => nth_error row j
  | None => None
  end.

(** Every batch entry has as many heads as the first, and every head as
    many positions as the first. *)
Definition uniform {A : Type} (x : list (list (list (list A)))) : Prop :=
  Forall (fun xb => length xb = size1 x
                    /\ Forall (fun xh => length xh = size2 x) xb) x.

(** [nh] heads of [len] positions in every batch entry. *)
Definition heads_by_length {A : Type} (nh len : nat)
    (x : list (list (list (list A)))) : Prop :=
  Forall (fun xb => length xb = nh /\ Forall (fun xh => length xh = len) xb) x.

(** At least [nh] heads in every batch entry and [nq] rows in every
    head. *)
Definition covers {A : Type} (nh nq : nat)
    (x : list (list (list (list A)))) : Prop :=
  Forall (fun xb => nh <= length xb /\ Forall (fun xh => nq <= length xh) xb)
    x.

(** Every entry of a tensor of rank 4 satisfies [P]. *)
Definition all4 {A : Type} (P : A -> Prop)
    (x : list (list (list (list A)))) : Prop :=
  Forall (Forall (Forall (Forall P))) x.

(** ** The real numbers as scalars *)

#[export] Instance R_scalar : Scalar R := {|
  of_Z := IZR;
  sadd := Rplus;
  ssub := Rminus;
  smul := Rmult;
  sdiv := Rdiv;
  sexp := exp;
  ssqrt := sqrt;
  spow := Rpower;
  scos := cos;
  ssin := sin;
  to_float := fun x => x;
  to_dtype := fun x => x
|}.

(** Two tensors of the same shape whose entries differ by at most
    [tol]. *)
Definition within1 (tol : R) (a b : T1 R) : Prop :=
  Forall2 (fun u v => (Rabs (u - v) <= tol)%R) a b.

Definition within (tol : R) (a b : T3 R) : Prop :=
  Forall2 (Forall2 (within1 tol)) a b.

(** ** Concrete parameters and inputs over the reals *)

(** Queries and keys project to zero, values and the output projection
    sum their input; no bias, no relative embedding. *)
Definition ex_theta : @Params R := {|
  w_keys := fun _ _ => 0%R;      b_keys := fun _ => 0%R;
  w_values := fun _ _ => 1%R;    b_values := fun _ => 0%R;
  w_query := fun _ _ => 0%R;     b_query := fun _ => 0%R;
  w_final := fun _ _ => 1%R;     b_final := fun _ => 0%R;
  w_relative := fun _ _ => 0%R;
  alibi_slopes := fun _ _ => 0%R
|}.

Definition ex_noise : Q -> T4 R -> T4 R := fun _ x => x.

(** One sentence of two positions, model dimension one. *)
Definition ex_x : T3 R := [[[1%R]; [3%R]]].

(** One sentence of one position. *)
Definition ex_x1 : T3 R := [[[1%R]]].

(** One head of dimension one, relative positions clipped at distance one:
    the module [init ex_theta 1 1 0 1 (Some "self") false 0 []] builds. *)
Definition ex_self : @MultiHeadedAttention R :=
  let lin (w : R) : @Linear R :=
    {| in_features := 1; out_features := 1;
       weight := fun _ _ => w; bias := None |} in
  {| dim_per_head := 1;
     head_count := 1;
     linear_keys := lin 0%R;
     linear_values := lin 1%R;
     linear_query := lin 0%R;
     dropout := 0;
     training := true;
     final_linear := lin 1%R;
     max_relative_positions := 1;
     attn_type := Some "self"%string;
     layer_cache := empty_cache;
     relative_positions_embeddings :=
       Some {| num_embeddings := 3; embedding_dim := 1;
               table := fun _ _ => 0%R |};
     rope := None;
     alibi := None |}.

(** Two heads of dimension one for context attention with the cache on.
    [ex_multi_query] holds a cache of a single key/value head. *)
Definition ex_context : @MultiHeadedAttention R :=
  let lin (w : R) : @Linear R :=
    {| in_features := 2; out_features := 2;
       weight := fun _ _ => w; bias := None |} in
  {| dim_per_head := 1;
     head_count := 2;
     linear_keys := lin 0%R;
     linear_values := lin 1%R;
     linear_query := lin 0%R;
     dropout := 0;
     training := true;
     final_linear := lin 1%R;
     max_relative_positions := 0;
     attn_type := Some "context"%string;
     layer_cache := {| enabled := true; keys := []; values := [] |};
     relative_positions_embeddings := None;
     rope := None;
     alibi := None |}.

Definition ex_multi_query : @MultiHeadedAttention R :=
  with_cache ex_context
    {| enabled := true; keys := [[[[1%R]]]]; values := [[[[2%R]]]] |}.

(** One sentence of one position, model dimension two. *)
Definition ex_x2 : T3 R := [[[1%R; 1%R]]].

(** The row of the rotary table for position [t], given the frequencies,
    and a list of complex pairs multiplied by a row. *)
Definition unit_row (t : R) (inv_freq : list R) : list (R * R) :=
  map (fun f => (1 * cos (t * f), 1 * sin (t * f))%R) inv_freq.

Definition rot_row (ps : list (R * R)) (r : list (R * R)) : list (R * R) :=
  map (fun p => cmul (fst p) (snd p)) (combine ps r).

(** An embedding of three entries of dimension one. *)
Definition ex_embedding : @Embedding R :=
  {| num_embeddings := 3; embedding_dim := 1; table := fun _ _ => 0%R |}.

(** One sentence of two positions, model dimension four. *)
Definition ex_x4 : T3 R := [[[1; 2; 3; 4]; [5; 6; 7; 8]]]%R.

(** What the constructor builds in rotary mode for one head. *)
Definition ex_rotary (model_dim : Z) : @MultiHeadedAttention R :=
  match init ex_theta 1 model_dim 0 (-1) (Some "self"%string) false 0 [] with
  | Ok m => m
  | Raise _ => ex_self
  end.

(** A module built without [attn_type], switched to decoding. *)
Definition ex_untyped : @MultiHeadedAttention R :=
  start_decoding
    match init ex_theta 1 1 0 0 None false 0 [] with
    | Ok m => m
    | Raise _ => ex_self
    end.

(** Dropout that zeroes everything. *)
Definition ex_noise_zero : Q -> T4 R -> T4 R :=
  fun _ x => map (map (map (map (fun _ => 0%R)))) x.

(** [ex_self] while decoding, one position in the cache. *)
Definition ex_cached : @MultiHeadedAttention R :=
  with_cache ex_self
    {| enabled := true; keys := [[[[0%R]]]]; values := [[[[1%R]]]] |}.

(** Two heads of dimension one, built with one key/value head asked
    for. *)
Definition ex_two_heads : @MultiHeadedAttention R :=
  let lin (w : R) : @Linear R :=
    {| in_features := 2; out_features := 2;
       weight := fun _ _ => w; bias := None |} in
  {| dim_per_head := 1;
     head_count := 2;
     linear_keys := lin 0%R;
     linear_values := lin 1%R;
     linear_query := lin 0%R;
     dropout := 0;
     training := true;
     final_linear := lin 1%R;
     max_relative_positions := 0;
     attn_type := Some "self"%string;
     layer_cache := empty_cache;
     relative_positions_embeddings := None;
     rope := None;
     alibi := None |}.

(** Every projection sums its input: no bias, no relative embedding. *)
Definition ex_ones : @Params R := {|
  w_keys := fun _ _ => 1%R;      b_keys := fun _ => 0%R;
  w_values := fun _ _ => 1%R;    b_values := fun _ => 0%R;
  w_query := fun _ _ => 1%R;     b_query := fun _ => 0%R;
  w_final := fun _ _ => 1%R;     b_final := fun _ => 0%R;
  w_relative := fun _ _ => 0%R;
  alibi_slopes := fun _ _ => 0%R
|}.

(** One head of dimension one without positional mechanism: the module
    [init ex_ones 1 1 0 0 (Some "self") false 0 []] builds. *)
Definition ex_dot : @MultiHeadedAttention R :=
  let lin : @Linear R :=
    {| in_features := 1; out_features := 1;
       weight := fun _ _ => 1%R; bias := None |} in
  {| dim_per_head := 1;
     head_count := 1;
     linear_keys := lin;
     linear_values := lin;
     linear_query := lin;
     dropout := 0;
     training := true;
     final_linear := lin;
     max_relative_positions := 0;
     attn_type := Some "self"%string;
     layer_cache := empty_cache;
     relative_positions_embeddings := None;
     rope := None;
     alibi := None |}.

(** * The count of parameters in [onmt/train_single.py]

    [main] counts the parameters of the model by dtype, those that require
    a gradient apart from those that do not, in two dicts. *)

(** What the loop reads of an entry of [model.named_parameters()]:
    [p.requires_grad], [str(p.dtype)] and [p.numel()]. *)
Record NamedParameter : Type := {
  requires_grad : bool;
  dtype : String.string;
  numel : nat
}.

(** A dict from dtype names to counts, in insertion order. *)
Definition Counts : Type := list (String.string * nat).

(** The dict both [trainable] and [non_trainable] start from. *)
Definition initial_counts : Counts :=
  [("torch.float32"%string, 0); ("torch.float16"%string, 0);
   ("torch.uint8"%string, 0); ("torch.int8"%string, 0)].

(** [d[k] += n]; [None] is the [KeyError] of a key that is not in [d]. *)
Fixpoint add_count (d : Counts) (k : String.string) (n : nat)
    : option Counts :=
  match d with
  | [] => None
  | (k', v) :: t =>
      if String.eqb k' k then Some ((k', v + n) :: t)
      else match add_count t k n with
           | Some t' => Some ((k', v) :: t')
           | None => None
           end
  end.

(** [d[k]] for a key of [d]. *)
Fixpoint get_count (d : Counts) (k : String.string) : option nat :=
  match d with
  | [] => None
  | (k', v) :: t => if String.eqb k' k then Some v else get_count t k
  end.

(** The loop
    [for n, p in model.named_parameters():
       if p.requires_grad: trainable[str(p.dtype)] += p.numel()
       else: non_trainable[str(p.dtype)] += p.numel()]. *)
Fixpoint count_loop (ps : list NamedParameter)
    (trainable non_trainable : Counts) : option (Counts * Counts) :=
  match ps with
  | [] => Some (trainable, non_trainable)
  | p :: ps' =>
      if requires_grad p then
        match add_count trainable (dtype p) (numel p) with
        | Some t' => count_loop ps' t' non_trainable
        | None => None
        end
      else
        match add_count non_trainable (dtype p) (numel p) with
        | Some n' => count_loop ps' trainable n'
        | None => None
        end
  end.

(** The two dicts [main] holds after the loop. *)
Definition main_parameter_counts (ps : list NamedParameter)
    : option (Counts * Counts) :=
  count_loop ps initial_counts initial_counts.

(** The total size of the parameters of dtype [k] that require a gradient
    ([grad = true]) or do not. *)
Definition total_numel (grad : bool) (k : String.string)
    (ps : list NamedParameter) : nat :=
  list_sum (map numel
              (filter (fun p => Bool.eqb (requires_grad p) grad
                                && String.eqb (dtype p) k) ps)).

(** The parameters of a small model, one of them frozen. *)
Definition ex_parameters : list NamedParameter :=
  [{| requires_grad := true; dtype := "torch.float32"%string; numel := 6 |};
   {| requires_grad := false; dtype := "torch.float32"%string; numel := 4 |};
   {| requires_grad := true; dtype := "torch.float16"%string; numel := 2 |}].

(** * Properties *)

Ltac rcompute :=
  lazy -[Rplus Rmult Rminus Rdiv Ropp Rinv exp sqrt Rpower cos sin IZR].
Ltac rcompute_in H :=
  lazy -[Rplus Rmult Rminus Rdiv Ropp Rinv exp sqrt Rpower cos sin IZR] in H.

Ltac all_entries :=
  unfold all4;
  repeat match goal with
         | |- Forall _ (_ :: _) => apply Forall_cons
         | |- Forall _ [] => apply Forall_nil
         end.

Section Construction.

Context {F : Type} {ops : Scalar F} (theta : @Params F).

(** C5 (amended).  Construction fails, with an assertion error or a
    division by zero, whenever [model_dim] is not a multiple of
    [head_count]; the key/value head count [num_kv] is not checked: the
    outcome of the constructor does not depend on it. *)
Theorem init_checks_model_dim_only :
  forall head_count model_dim dropout max_relative_positions attn_type
         add_qkvbias num_kv use_ckpting,
    (~ (head_count | model_dim)%Z ->
     init theta head_count model_dim dropout max_relative_positions attn_type
       add_qkvbias num_kv use_ckpting = Raise AssertionError
     \/ init theta head_count model_dim dropout max_relative_positions
          attn_type add_qkvbias num_kv use_ckpting = Raise ZeroDivisionError)
    /\ (forall num_kv',
          init theta head_count model_dim dropout max_relative_positions
            attn_type add_qkvbias num_kv' use_ckpting
          = init theta head_count model_dim dropout max_relative_positions
              attn_type add_qkvbias num_kv use_ckpting).
Proof.
  intros hc md p mrp at_ bias nkv ck. split; [|reflexivity].
  intros Hndiv. unfold init.
  destruct (hc =? 0)%Z eqn:Hz; [now right|left].
  apply Z.eqb_neq in Hz.
  destruct (md mod hc =? 0)%Z eqn:Hm; [|reflexivity].
  apply Z.eqb_eq in Hm. exfalso. apply Hndiv.
  now apply Z.mod_divide.
Qed.

(** C8 (amended).  A [max_relative_positions] below -2 is not rejected: the
    constructor succeeds exactly when it does for 0 and builds the same
    module but for the stored value, and [forward] on a module without
    relative embeddings computes with such a value what it computes with
    0. *)
Theorem init_accepts_unrecognised_mode :
  forall head_count model_dim dropout max_relative_positions attn_type
         add_qkvbias num_kv use_ckpting,
    (max_relative_positions < -2)%Z ->
    init theta head_count model_dim dropout max_relative_positions attn_type
      add_qkvbias num_kv use_ckpting
    = (m <- init theta head_count model_dim dropout 0 attn_type add_qkvbias
              num_kv use_ckpting ;;
       Ok (set_max_relative_positions m max_relative_positions))
    /\ forall noise m key value query mask step,
         relative_positions_embeddings m = None ->
         let m1 := set_max_relative_positions m max_relative_positions in
         let m0 := set_max_relative_positions m 0 in
         snd (forward noise m1 key value query mask step)
         = snd (forward noise m0 key value query mask step)
         /\ layer_cache (fst (forward noise m1 key value query mask step))
            = layer_cache (fst (forward noise m0 key value query mask step)).
Proof.
  intros hc md p mrp at_ bias nkv ck Hlt. split.
  - unfold init.
    destruct (hc =? 0)%Z; [reflexivity|].
    destruct (negb (md mod hc =? 0)%Z); [reflexivity|].
    replace (mrp >? 0)%Z with false
      by (symmetry; rewrite Z.gtb_ltb; apply Z.ltb_ge; lia).
    replace (mrp =? -1)%Z with false by (symmetry; apply Z.eqb_neq; lia).
    replace (mrp =? -2)%Z with false by (symmetry; apply Z.eqb_neq; lia).
    change (0 >? 0)%Z with false. change (0 =? -1)%Z with false.
    change (0 =? -2)%Z with false.
    destruct (new_linear md (w_keys theta) (b_keys theta) bias); [|reflexivity].
    destruct (new_linear md (w_values theta) (b_values theta) bias);
      [|reflexivity].
    destruct (new_linear md (w_query theta) (b_query theta) bias);
      [|reflexivity].
    destruct (new_dropout p); [|reflexivity].
    destruct (new_linear md (w_final theta) (b_final theta) bias);
      [|reflexivity].
    set (ckpt := existsb (String.eqb "mha") ck).
    cbn. destruct ckpt; reflexivity.
  - intros noise m key value query mask step Hrel m1 m0.
    assert (Hp : project m1 key value query step
                 = project m0 key value query step).
    { unfold project, maybe_rotary, m1, m0; cbn.
      replace (mrp =? -1)%Z with false by (symmetry; apply Z.eqb_neq; lia).
      reflexivity. }
    assert (Ha : forall c q k v,
               attend noise (with_cache m1 c) q k v mask
               = attend noise (with_cache m0 c) q k v mask).
    { intros c q k v. unfold attend, raw_scores, m1, m0; cbn.
      rewrite Hrel.
      replace (mrp =? -2)%Z with false by (symmetry; apply Z.eqb_neq; lia).
      reflexivity. }
    unfold forward. rewrite Hp.
    destruct (project m0 key value query step) as [[[[q k] v] c]|e]; cbn;
      [|split; reflexivity].
    rewrite Ha. split; reflexivity.
Qed.

End Construction.

Lemma init_checks_model_dim_only_witness :
  ~ (3 | 10)%Z
  /\ (init ex_theta 3 10 (1 # 10)%Q 0 None false 0 [] = Raise AssertionError
      \/ init ex_theta 3 10 (1 # 10)%Q 0 None false 0 []
         = Raise ZeroDivisionError).
Proof.
  assert (H : ~ (3 | 10)%Z) by (intros [k Hk]; lia).
  split; [exact H|].
  exact (proj1 (init_checks_model_dim_only ex_theta 3 10 (1 # 10)%Q 0 None
                  false 0 []) H).
Defined.

(** C5, as stated, fails: 8 heads with 3 key/value heads construct. *)
Lemma init_ignores_num_kv_counterexample :
  ~ (3 | 8)%Z
  /\ exists m, init ex_theta 8 16 (1 # 10)%Q 0 None false 3 [] = Ok m.
Proof.
  split; [intros [k Hk]; lia|]. eexists. reflexivity.
Qed.

Lemma init_accepts_unrecognised_mode_witness :
  (-3 < -2)%Z
  /\ init ex_theta 2 4 (1 # 10)%Q (-3) None false 0 []
     = (m <- init ex_theta 2 4 (1 # 10)%Q 0 None false 0 [] ;;
        Ok (set_max_relative_positions m (-3))).
Proof.
  assert (H : (-3 < -2)%Z) by lia.
  split; [exact H|].
  exact (proj1 (init_accepts_unrecognised_mode ex_theta 2 4 (1 # 10)%Q (-3)
                  None false 0 [] H)).
Defined.

(** C8, as stated, fails: -3 constructs. *)
Lemma init_unrecognised_mode_counterexample :
  exists m, init ex_theta 2 4 (1 # 10)%Q (-3) None false 0 [] = Ok m.
Proof. eexists. reflexivity. Qed.

Lemma ex_self_built :
  init ex_theta 1 1 0 1 (Some "self"%string) false 0 [] = Ok ex_self.
Proof. reflexivity. Qed.

Section Forward.

Context {F : Type} {ops : Scalar F} (noise : Q -> T4 F -> T4 F).

(** *** Shapes *)

Lemma rect2_iff {A : Type} (r c : nat) (x : list (list A)) :
  rect2 r c x = true
  <-> length x = r /\ Forall (fun row => length row = c) x.
Proof.
  unfold rect2. rewrite andb_true_iff, Nat.eqb_eq, forallb_forall, Forall_forall.
  split; intros [H1 H2]; split; auto; intros y Hy; apply Nat.eqb_eq; auto.
Qed.

Lemma rect3_iff {A : Type} (a r c : nat) (x : list (list (list A))) :
  rect3 a r c x = true
  <-> length x = a
      /\ Forall (fun m => length m = r
                          /\ Forall (fun row => length row = c) m) x.
Proof.
  unfold rect3. rewrite andb_true_iff, Nat.eqb_eq, forallb_forall, Forall_forall.
  split; intros [H1 H2]; split; auto; intros y Hy; apply rect2_iff; auto.
Qed.

Lemma rect4_iff {A : Type} (a b r c : nat)
    (x : list (list (list (list A)))) :
  rect4 a b r c x = true
  <-> length x = a
      /\ Forall (fun t => length t = b
                          /\ Forall (fun m => length m = r
                               /\ Forall (fun row => length row = c) m) t) x.
Proof.
  unfold rect4. rewrite andb_true_iff, Nat.eqb_eq, forallb_forall, Forall_forall.
  split; intros [H1 H2]; split; auto; intros y Hy; apply rect3_iff; auto.
Qed.

Lemma size1_map4 (f : F -> F) (x : T4 F) : size1 (map4 f x) = size1 x.
Proof. destruct x; cbn; [reflexivity|]. now rewrite length_map. Qed.

(** *** The step argument *)

(** C7.  Outside rotary mode two calls of [forward] that differ in the
    [step] argument only return the same context and attention weights and
    leave the module in the same state. *)
Theorem step_only_read_by_rotary :
  forall m key value query mask step step',
    max_relative_positions m <> (-1)%Z ->
    forward noise m key value query mask step
    = forward noise m key value query mask step'.
Proof.
  intros m key value query mask step step' Hmode.
  apply Z.eqb_neq in Hmode.
  unfold forward, project, maybe_rotary. rewrite Hmode. reflexivity.
Qed.

(** *** Self-attention while decoding *)

(** C10.  With the cache enabled and [attn_type] "self", what [forward]
    returns and the cache it leaves do not depend on the [key] and [value]
    arguments: keys and values are projected from [query]. *)
Theorem decode_self_ignores_key_value :
  forall m key value key' value' query mask step,
    enabled (layer_cache m) = true ->
    attn_type m = Some "self"%string ->
    forward noise m key value query mask step
    = forward noise m key' value' query mask step.
Proof.
  intros m key value key' value' query mask step Hen Hself.
  unfold forward, project, is_attn_type. rewrite Hen, Hself.
  reflexivity.
Qed.

(** *** Masks of rank 3 *)

Lemma bind_raise {A B : Type} (r : Result A) (k : A -> Result B) :
  (forall a, exists e, k a = Raise e) -> exists e, bind r k = Raise e.
Proof. intros Hk. destruct r as [a|e]; cbn; eauto. Qed.

(** C9 (what the code does).  A mask of rank 3, the shape the docstring of
    [forward] announces, is never accepted: whatever the module and the
    other arguments, the call raises. *)
Theorem rank3_mask_raises :
  forall m key value query mk step,
    exists e,
      snd (forward noise m key value query (Some (Mask3 mk)) step) = Raise e.
Proof.
  intros m key value query mk step. unfold forward.
  destruct (project m key value query step) as [[[[q k] v] c]|e]; cbn;
    [|eauto].
  unfold attend. apply bind_raise. intros sr. cbn. eauto.
Qed.

(** *** The cache of context attention *)

Lemma forward_keeps_attn_type m key value query mask step :
  attn_type (fst (forward noise m key value query mask step)) = attn_type m.
Proof.
  unfold forward.
  destruct (project m key value query step) as [[[[q k] v] c]|e];
    reflexivity.
Qed.

Lemma forward_context_cache m key value query mask step :
  enabled (layer_cache m) = true ->
  attn_type m = Some "context"%string ->
  numel4 (keys (layer_cache m)) <> 0 ->
  layer_cache (fst (forward noise m key value query mask step))
  = layer_cache m.
Proof.
  intros Hen Hctx Hpop. unfold forward, project, is_attn_type.
  rewrite Hen, Hctx. cbn.
  apply Nat.eqb_neq in Hpop. rewrite Hpop.
  destruct (linear_apply (linear_query m) query) as [q|e]; cbn;
    [|reflexivity].
  destruct (shape q (dim_per_head m)) as [q'|e]; cbn; [|reflexivity].
  destruct (layer_cache m) as [en ks vs]; cbn in *. now subst en.
Qed.

Lemma expand_heads_numel x n y :
  expand_heads (F := F) x n = Ok y -> numel4 x <> 0.
Proof.
  unfold expand_heads.
  destruct (is_tensor4 x && negb (numel4 x =? 0)) eqn:Hg; cbn;
    [|discriminate].
  intros _. apply andb_true_iff in Hg as [_ Hg].
  apply negb_true_iff, Nat.eqb_neq in Hg. exact Hg.
Qed.

Lemma forward_ok_populates m key value query mask step r :
  snd (forward noise m key value query mask step) = Ok r ->
  enabled (layer_cache m) = true ->
  enabled (layer_cache (fst (forward noise m key value query mask step)))
  = true
  /\ numel4 (keys (layer_cache
                     (fst (forward noise m key value query mask step)))) <> 0.
Proof.
  unfold forward.
  destruct (project m key value query step) as [[[[q k] v] c]|e] eqn:Hp;
    cbn; [|discriminate].
  intros Hok Hen.
  assert (Hk : numel4 k <> 0).
  { unfold attend, raw_scores in Hok.
    destruct (expand_heads k (size1 (scale (with_cache m c) q)))
      as [k'|e] eqn:Hk; cbn in Hok; [|discriminate].
    eapply expand_heads_numel; eauto. }
  unfold project in Hp. rewrite Hen in Hp.
  destruct (is_attn_type m "self"%string).
  - destruct (linear_apply (linear_query m) query); cbn in Hp; [|discriminate].
    destruct (linear_apply (linear_keys m) query); cbn in Hp; [|discriminate].
    destruct (linear_apply (linear_values m) query); cbn in Hp;
      [|discriminate].
    destruct (shape a (dim_per_head m)); cbn in Hp; [|discriminate].
    destruct (shape a0 (dim_per_head m)); cbn in Hp; [|discriminate].
    destruct (shape a1 (dim_per_head m)); cbn in Hp; [|discriminate].
    destruct (maybe_rotary m step a2 a3); cbn in Hp; [|discriminate].
    destruct (if negb (numel4 (keys (layer_cache m)) =? 0)
              then cat2 (keys (layer_cache m)) (snd a5) else Ok (snd a5));
      cbn in Hp; [|discriminate].
    destruct (if negb (numel4 (values (layer_cache m)) =? 0)
              then cat2 (values (layer_cache m)) a4 else Ok a4);
      cbn in Hp; [|discriminate].
    injection Hp as <- <- <- <-. cbn. auto.
  - destruct (is_attn_type m "context"%string).
    + destruct (linear_apply (linear_query m) query); cbn in Hp;
        [|discriminate].
      destruct (shape a (dim_per_head m)); cbn in Hp; [|discriminate].
      match type of Hp with
      | bind ?e _ = _ => destruct e; cbn in Hp; [|discriminate]
      end.
      injection Hp as <- <- <- <-. cbn. auto.
    + destruct (dim_per_head m <? 0)%Z; discriminate.
Qed.

(** C4.  With the cache enabled and [attn_type] "context", once a call of
    [forward] has succeeded the cache is populated, and it is the same
    after any further calls, whatever their arguments and outcomes. *)
Theorem context_cache_frozen :
  forall m key value query mask step r calls,
    enabled (layer_cache m) = true ->
    attn_type m = Some "context"%string ->
    snd (forward noise m key value query mask step) = Ok r ->
    let m1 := fst (forward noise m key value query mask step) in
    numel4 (keys (layer_cache m1)) <> 0
    /\ layer_cache (run noise m1 calls) = layer_cache m1.
Proof.
  intros m key value query mask step r calls Hen Hctx Hok m1.
  destruct (forward_ok_populates _ _ _ _ _ _ _ Hok Hen) as [Hen1 Hpop].
  fold m1 in Hen1, Hpop. split; [exact Hpop|].
  assert (Hctx1 : attn_type m1 = Some "context"%string)
    by (unfold m1; now rewrite forward_keeps_attn_type).
  clearbody m1. clear Hok Hen Hctx.
  revert m1 Hen1 Hpop Hctx1.
  induction calls as [|c cs IH]; intros m1 Hen1 Hpop Hctx1; [reflexivity|].
  cbn [run]. unfold forward_call.
  pose proof (forward_context_cache m1 (call_key c) (call_value c)
                (call_query c) (call_mask c) (call_step c) Hen1 Hctx1 Hpop) as Hc.
  rewrite IH; rewrite ?Hc; auto.
  now rewrite forward_keeps_attn_type.
Qed.

(** *** Multi-query expansion *)

Lemma concat_repeat_singleton {A : Type} (a : A) (r : nat) :
  concat (repeat [a] r) = repeat a r.
Proof. induction r; cbn; congruence. Qed.

Lemma length_flat_map_repeat {A : Type} (r : nat) (l : list A) :
  length (flat_map (fun a => repeat a r) l) = length l * r.
Proof.
  induction l as [|a l IH]; cbn; [reflexivity|].
  now rewrite length_app, repeat_length, IH.
Qed.

Lemma flat_map_repeat_1 {A : Type} (l : list A) :
  flat_map (fun a => repeat a 1) l = l.
Proof.
  induction l as [|a l IH]; [reflexivity|].
  cbn [flat_map]. rewrite IH. reflexivity.
Qed.

Lemma replicate_heads_1 (x : T4 F) : replicate_heads 1 x = x.
Proof.
  unfold replicate_heads. rewrite <- (map_id x) at 2.
  apply map_ext. intros xb. apply flat_map_repeat_1.
Qed.

Lemma mul4_nonzero (a b c d : nat) :
  a * b * c * d <> 0 -> a <> 0 /\ b <> 0 /\ c <> 0 /\ d <> 0.
Proof. intros H. repeat split; intros ->; apply H; lia. Qed.

Lemma numel4_nonzero {A : Type} (x : list (list (list (list A)))) :
  numel4 x <> 0 ->
  size0 x <> 0 /\ size1 x <> 0 /\ size2 x <> 0 /\ size3 x <> 0.
Proof. apply mul4_nonzero. Qed.

Lemma expand_heads_replicate (x : T4 F) (r n : nat) :
  is_tensor4 x = true -> numel4 x <> 0 -> size1 x * r = n ->
  expand_heads x n = Ok (replicate_heads r x).
Proof.
  intros Ht Hn Hr. unfold expand_heads. rewrite Ht.
  apply Nat.eqb_neq in Hn as Hn'. rewrite Hn'. cbn.
  apply numel4_nonzero in Hn as (_ & H1 & _).
  assert (Hq : n / size1 x = r)
    by (subst n; rewrite Nat.mul_comm; now apply Nat.div_mul).
  rewrite Hq.
  assert (Hs : size1 (map (map (fun s : list (T2 F) => concat (repeat s r)))
                        (map (map (fun xh : T2 F => [xh])) x)) = size1 x)
    by (destruct x; cbn; [reflexivity|now rewrite !length_map]).
  rewrite Hs, Hr, Nat.eqb_refl. cbn. f_equal.
  unfold replicate_heads. rewrite !map_map. apply map_ext. intros xb.
  rewrite map_map, flat_map_concat_map. f_equal. apply map_ext. intros xh.
  apply concat_repeat_singleton.
Qed.

Lemma replicate_heads_tensor (x : T4 F) (r : nat) :
  is_tensor4 x = true -> numel4 x <> 0 -> 0 < r ->
  is_tensor4 (replicate_heads r x) = true
  /\ numel4 (replicate_heads r x) <> 0
  /\ size1 (replicate_heads r x) = size1 x * r.
Proof.
  intros Ht Hn Hr.
  apply numel4_nonzero in Hn as (H0 & H1 & H2 & H3).
  destruct x as [|[|xh xhs] xs]; cbn in H0, H1, H2, H3; try easy.
  assert (Hs1 : size1 (replicate_heads r ((xh :: xhs) :: xs))
                = S (length xhs) * r).
  { unfold size1, replicate_heads. cbn [map hd].
    exact (length_flat_map_repeat r (xh :: xhs)). }
  assert (Hs2 : size2 (replicate_heads r ((xh :: xhs) :: xs)) = length xh).
  { destruct r; [lia|]. reflexivity. }
  assert (Hs3 : size3 (replicate_heads r ((xh :: xhs) :: xs))
                = length (hd [] xh)).
  { destruct r; [lia|]. reflexivity. }
  split; [|split].
  - unfold is_tensor4 in *. rewrite Hs1, Hs2, Hs3.
    apply rect4_iff in Ht as [_ Ht]. apply rect4_iff. split.
    + unfold size0, replicate_heads. now rewrite length_map.
    + unfold replicate_heads. apply Forall_map.
      eapply Forall_impl; [|exact Ht]. cbn. intros xb [Hl Hh]. split.
      * now rewrite length_flat_map_repeat, Hl.
      * apply Forall_forall. intros h Hin.
        apply in_flat_map in Hin as (h' & Hin' & Hrep).
        apply repeat_spec in Hrep. subst h.
        rewrite Forall_forall in Hh. now apply Hh.
  - unfold numel4. rewrite Hs1, Hs2, Hs3. cbn [size0 replicate_heads map length].
    unfold size3 in H3; cbn in H3. nia.
  - rewrite Hs1. reflexivity.
Qed.

(** *** Rows of the scores are not empty *)

Lemma mapM_Forall {A B : Type} (f : A -> Result B) (P : B -> Prop) l y :
  mapM f l = Ok y ->
  (forall a b, In a l -> f a = Ok b -> P b) ->
  Forall P y.
Proof.
  revert y. induction l as [|a l IH]; cbn; intros y Hm HP.
  - injection Hm as <-. constructor.
  - destruct (f a) as [b|e] eqn:Hfa; cbn in Hm; [|discriminate].
    destruct (mapM f l) as [bs|e]; cbn in Hm; [|discriminate].
    injection Hm as <-. constructor; [eauto|]. apply IH; eauto.
Qed.

Lemma broadcast2_In {A B : Type} (a : list A) (b : list B) p :
  broadcast2 a b = Ok p ->
  Forall (fun xy => In (fst xy) a /\ In (snd xy) b) p.
Proof.
  unfold broadcast2. intros H. apply Forall_forall. intros [x y] Hin.
  destruct (length a =? length b).
  - injection H as <-. split; [eapply in_combine_l|eapply in_combine_r]; eauto.
  - destruct a as [|a0 [|a1 a]].
    + destruct b as [|b0 [|b1 b]]; try discriminate.
      injection H as <-. destruct Hin.
    + injection H as <-. apply in_map_iff in Hin as (y' & [= <- <-] & Hy).
      cbn. auto.
    + destruct b as [|b0 [|b1 b]]; try discriminate.
      injection H as <-.
      change (In (x, y) (map (fun x => (x, b0)) (a0 :: a1 :: a))) in Hin.
      apply in_map_iff in Hin as (x' & [= <- <-] & Hx).
      cbn [fst snd]. split; [exact Hx|now left].
Qed.

Lemma no_heads_rows {A : Type} (x : list (list (list (list A)))) :
  no_heads x -> nonempty_rows x.
Proof.
  unfold no_heads, nonempty_rows. apply Forall_impl. intros xb ->.
  constructor.
Qed.

Lemma tensor4_heads {A : Type} (x : list (list (list (list A)))) :
  is_tensor4 x = true -> numel4 x <> 0 ->
  Forall (Forall (fun h => h <> [] /\ Forall (fun row => row <> []) h)) x.
Proof.
  intros Ht Hn. apply numel4_nonzero in Hn as (_ & _ & H2 & H3).
  apply rect4_iff in Ht as [_ Ht].
  eapply Forall_impl; [|exact Ht]. cbn. intros xb [_ Hb].
  eapply Forall_impl; [|exact Hb]. cbn. intros h [Hl Hh]. split.
  - intros ->. cbn in Hl. congruence.
  - eapply Forall_impl; [|exact Hh]. cbn. intros row Hr ->. cbn in Hr.
    congruence.
Qed.

Lemma concat_nil_repeat {A : Type} (l : list (list A)) :
  concat (map (fun s => concat (repeat s 0)) (map (fun a => [a]) l)) = [].
Proof. induction l; cbn; auto. Qed.

Lemma expand_heads_cases (x : T4 F) (n : nat) y :
  expand_heads x n = Ok y ->
  no_heads y
  \/ (Forall (Forall (fun h => h <> [] /\ Forall (fun row => row <> []) h)) y
      /\ size2 y <> 0 /\ size3 y <> 0).
Proof.
  intros He. pose proof He as He'. unfold expand_heads in He.
  destruct (is_tensor4 x && negb (numel4 x =? 0)) eqn:Hg; cbn in He;
    [|discriminate].
  apply andb_true_iff in Hg as [Ht Hn].
  apply negb_true_iff, Nat.eqb_neq in Hn.
  match type of He with
  | bind (guard ?g _) _ = _ => destruct g eqn:Hg2; cbn in He; [|discriminate]
  end.
  apply Nat.eqb_eq in Hg2. clear He.
  assert (Hs : size1 (map (map (fun s : list (T2 F) =>
                                  concat (repeat s (n / size1 x))))
                        (map (map (fun xh : T2 F => [xh])) x)) = size1 x)
    by (destruct x; cbn; [reflexivity|now rewrite !length_map]).
  rewrite Hs in Hg2.
  rewrite (expand_heads_replicate x (n / size1 x) n Ht Hn Hg2) in He'.
  injection He' as <-.
  destruct (n / size1 x) as [|r] eqn:Hr.
  - left. unfold no_heads, replicate_heads. apply Forall_map.
    apply Forall_forall. intros xb _. induction xb; cbn; auto.
  - right.
    destruct (replicate_heads_tensor x (S r) Ht Hn ltac:(lia))
      as (Ht' & Hn' & _).
    split; [now apply tensor4_heads|].
    apply numel4_nonzero in Hn'. tauto.
Qed.

Lemma length_transpose {A : Type} (d : A) (m : list (list A)) :
  length (transpose d m) = length (hd [] m).
Proof. unfold transpose. now rewrite length_map, length_seq. Qed.

Lemma transpose_hd_nonempty {A : Type} (d : A) (m : list (list A)) :
  m <> [] -> hd [] m <> [] -> hd [] (transpose d m) <> [].
Proof.
  intros Hm Hh. unfold transpose.
  destruct (hd [] m) as [|a r] eqn:E; [congruence|].
  cbn. destruct m; [congruence|]. cbn. discriminate.
Qed.

Lemma vecmat_nonempty (v : T1 F) (m : T2 F) :
  hd [] m <> [] -> vecmat v m <> [].
Proof.
  intros Hm Hv. apply (f_equal (@length F)) in Hv.
  unfold vecmat in Hv. rewrite length_map, length_transpose in Hv.
  cbn in Hv. destruct (hd [] m); [congruence|discriminate].
Qed.

Lemma size2_transpose23 (x : T4 F) :
  size2 (map (map (transpose zero)) x) = size3 x.
Proof.
  destruct x as [|[|xh xb] x]; cbn; try reflexivity.
  apply length_transpose.
Qed.

Lemma size1_transpose12 (z : T3 F) :
  size1 (map (transpose zero) z) = size2 z.
Proof. destruct z as [|zi z]; cbn; [reflexivity|]. apply length_transpose. Qed.

Lemma matmul_inv (a b : T4 F) y :
  matmul a b = Ok y ->
  size3 a = size2 b
  /\ exists ab,
       broadcast2 a b = Ok ab
       /\ mapM (fun p => hs <- broadcast2 (fst p) (snd p) ;;
                         Ok (map (fun q => mm (fst q) (snd q)) hs)) ab = Ok y.
Proof.
  unfold matmul. destruct (size3 a =? size2 b) eqn:Hg; cbn; [|discriminate].
  apply Nat.eqb_eq in Hg.
  destruct (broadcast2 a b) as [ab|e]; cbn; [|discriminate]. eauto.
Qed.

Lemma matmul_no_heads (a b : T4 F) y :
  matmul a b = Ok y -> no_heads b -> no_heads y.
Proof.
  intros Hm Hb. apply matmul_inv in Hm as (_ & ab & Hab & Hm).
  apply broadcast2_In in Hab. rewrite Forall_forall in Hab.
  unfold no_heads in *. rewrite Forall_forall in Hb.
  eapply mapM_Forall; [exact Hm|]. intros [ah bh] yb Hin Hy.
  apply Hab in Hin as [_ Hin]. apply Hb in Hin. cbn in Hin, Hy. subst bh.
  destruct (broadcast2 ah []) as [hs|e] eqn:Hh; cbn in Hy; [|discriminate].
  injection Hy as <-. apply broadcast2_In in Hh.
  destruct hs as [|h hs]; [reflexivity|].
  apply Forall_inv in Hh as [_ []].
Qed.

Lemma matmul_rows (a b : T4 F) y :
  matmul a b = Ok y ->
  Forall (Forall (fun m => hd [] m <> [])) b ->
  nonempty_rows y.
Proof.
  intros Hm Hb. apply matmul_inv in Hm as (_ & ab & Hab & Hm).
  apply broadcast2_In in Hab. rewrite Forall_forall in Hab.
  rewrite Forall_forall in Hb.
  eapply mapM_Forall; [exact Hm|]. intros [ah bh] yb Hin Hy.
  apply Hab in Hin as [_ Hin]. apply Hb in Hin. cbn in Hin, Hy.
  destruct (broadcast2 ah bh) as [hs|e] eqn:Hh; cbn in Hy; [|discriminate].
  injection Hy as <-. apply broadcast2_In in Hh.
  apply Forall_map. eapply Forall_impl; [|exact Hh]. cbn.
  intros [am bm] [_ Hbm]. cbn in *. unfold mm. apply Forall_map.
  apply Forall_forall. intros row _. apply vecmat_nonempty.
  rewrite Forall_forall in Hin. now apply Hin.
Qed.

Lemma mapM_length {A B : Type} (f : A -> Result B) l y :
  mapM f l = Ok y -> length y = length l.
Proof.
  revert y. induction l as [|a l IH]; cbn; intros y Hm.
  - now injection Hm as <-.
  - destruct (f a); cbn in Hm; [|discriminate].
    destruct (mapM f l); cbn in Hm; [|discriminate].
    injection Hm as <-. cbn. f_equal. now apply IH.
Qed.

(** The relative-position matrix has rows of the key length. *)
Lemma gen_relative_positions_rows (len : nat) (mrp : Z) (cache : bool) :
  len <> 0 ->
  gen_relative_positions len mrp cache <> []
  /\ Forall (fun row => length row = len)
       (gen_relative_positions len mrp cache).
Proof.
  intros Hlen. unfold gen_relative_positions. destruct cache.
  - split; [discriminate|]. repeat constructor.
    now rewrite !length_map, length_seq.
  - set (a := map (fun v => repeat v len) (map Z.of_nat (seq 0 len))).
    assert (Ha : length (hd [] a) = len).
    { unfold a. destruct len; [congruence|]. cbn. now rewrite repeat_length. }
    assert (Hla : length a = len)
      by (unfold a; now rewrite !length_map, length_seq).
    assert (Ht : forall (m : list (list Z)),
               Forall (fun row => length row = length m) (transpose 0%Z m)).
    { intros m. unfold transpose. apply Forall_map, Forall_forall.
      intros j _. now rewrite length_map. }
    set (rm := transpose 0%Z a).
    assert (Hrm : length rm = len)
      by (unfold rm; now rewrite length_transpose).
    assert (Hrm' : Forall (fun row => length row = len) rm)
      by (pose proof (Ht a) as Hx; rewrite Hla in Hx; exact Hx).
    assert (Hh : length (hd [] rm) = len).
    { destruct rm as [|r0 rm']; [cbn in Hrm; congruence|].
      apply Forall_inv in Hrm'. exact Hrm'. }
    assert (Hrt : length (transpose 0%Z rm) = len)
      by (now rewrite length_transpose).
    split.
    + intros Hnil. apply (f_equal (@length _)) in Hnil.
      rewrite !length_map, length_combine, Hrm, Hrt in Hnil. cbn in Hnil. lia.
    + apply Forall_map, Forall_map, Forall_forall. intros [r1 r2] Hin.
      rewrite length_map, length_map, length_combine. cbn [fst snd].
      pose proof (in_combine_l _ _ _ _ Hin) as H1.
      pose proof (in_combine_r _ _ _ _ Hin) as H2.
      rewrite Forall_forall in Hrm'. rewrite (Hrm' _ H1).
      pose proof (Ht rm) as Ht'. rewrite Forall_forall in Ht'.
      rewrite (Ht' _ H2), Hrm. lia.
Qed.

Lemma embedding_rows (e : @Embedding F) idx rk :
  embedding e idx = Ok rk ->
  length rk = length idx
  /\ (Forall (fun row => row <> []) idx ->
      Forall (fun zi => zi <> []
                        /\ Forall (fun v => length v = embedding_dim e) zi) rk).
Proof.
  unfold embedding. intros He. split; [eapply mapM_length; eauto|].
  intros Hidx. rewrite Forall_forall in Hidx.
  eapply mapM_Forall; [exact He|]. cbn. intros irow zi Hin Hz. split.
  - intros ->. apply mapM_length in Hz. cbn in Hz.
    apply Hidx in Hin. destruct irow; [congruence|discriminate].
  - eapply mapM_Forall; [exact Hz|]. cbn. intros i v _ Hv.
    destruct ((0 <=? i)%Z && (i <? Z.of_nat (num_embeddings e))%Z);
      [|discriminate].
    injection Hv as <-. now rewrite length_map, length_seq.
Qed.

Lemma relative_matmul_inv (x : T4 F) (z : T3 F) (t : bool) y :
  relative_matmul x z t = Ok y ->
  let z' := if t then map (transpose zero) z else z in
  size3 x = size1 z'
  /\ exists zs,
       (forall zi, In zi zs -> In zi z')
       /\ y = map (map (fun xh => map (fun p => vecmat (fst p) (snd p))
                                      (combine xh zs))) x.
Proof.
  intros H. cbv zeta. unfold relative_matmul in H.
  set (z' := if t then map (transpose zero) z else z) in *.
  destruct (size3 x =? size1 z') eqn:Hg; cbn in H; [|discriminate].
  apply Nat.eqb_eq in Hg. split; [exact Hg|].
  destruct (length z' =? size2 x).
  - cbn in H. injection H as <-. exists z'. auto.
  - destruct z' as [|z0 [|z1 z'']]; try discriminate.
    cbn in H. injection H as <-. exists (repeat z0 (size2 x)). split; auto.
    intros zi Hin. apply repeat_spec in Hin. subst. now left.
Qed.

Lemma relative_matmul_rows (x : T4 F) (z : T3 F) (t : bool) y :
  relative_matmul x z t = Ok y ->
  Forall (fun zi => hd [] zi <> [])
    (if t then map (transpose zero) z else z) ->
  nonempty_rows y.
Proof.
  intros H Hz. apply relative_matmul_inv in H as (_ & zs & Hzs & ->).
  rewrite Forall_forall in Hz.
  apply Forall_map, Forall_forall. intros xb _.
  apply Forall_map, Forall_forall. intros xh _.
  apply Forall_map, Forall_forall. intros [v zi] Hin.
  apply in_combine_r in Hin. apply vecmat_nonempty. cbn. auto.
Qed.

Lemma add3_rows (s o : T3 F) :
  Forall (Forall (fun row => row <> [])) s ->
  Forall (Forall (fun row => row <> [])) o ->
  Forall (Forall (fun row => row <> []))
    (map (fun p => map (fun q => map (fun r => sadd (fst r) (snd r))
                                    (combine (fst q) (snd q)))
                      (combine (fst p) (snd p)))
        (combine s o)).
Proof.
  intros Hs Ho. rewrite Forall_forall in Hs, Ho.
  apply Forall_map, Forall_forall. intros [sh oh] Hin.
  pose proof (Hs _ (in_combine_l _ _ _ _ Hin)) as Hsh.
  pose proof (Ho _ (in_combine_r _ _ _ _ Hin)) as Hoh.
  rewrite Forall_forall in Hsh, Hoh.
  apply Forall_map, Forall_forall. intros [sr or] Hin'. cbn [fst snd] in *.
  pose proof (Hsh _ (in_combine_l _ _ _ _ Hin')) as Hsr.
  pose proof (Hoh _ (in_combine_r _ _ _ _ Hin')) as Hor.
  destruct sr; [congruence|]. destruct or; [congruence|]. discriminate.
Qed.

Lemma add_rows (s o : T4 F) y :
  add_ s o = Ok y ->
  no_heads s \/ (nonempty_rows s /\ nonempty_rows o) ->
  nonempty_rows y.
Proof.
  unfold add_. intros H [Hs|[Hs Ho]].
  - apply no_heads_rows. unfold no_heads in *. rewrite Forall_forall in Hs.
    destruct (length o =? length s).
    + injection H as <-. apply Forall_map, Forall_forall. intros [sb ob] Hin.
      apply in_combine_l in Hin. apply Hs in Hin. cbn. now subst.
    + destruct o as [|o0 [|o1 o]]; try discriminate.
      injection H as <-. apply Forall_map, Forall_forall. intros sb Hin.
      apply Hs in Hin. now subst.
  - unfold nonempty_rows in *.
    destruct (length o =? length s).
    + injection H as <-. apply Forall_map, Forall_forall. intros [sb ob] Hin.
      rewrite Forall_forall in Hs, Ho. cbn [fst snd].
      apply add3_rows; [eapply Hs, in_combine_l|eapply Ho, in_combine_r];
        eauto.
    + destruct o as [|o0 [|o1 o]]; try discriminate.
      injection H as <-. apply Forall_map, Forall_forall. intros sb Hin.
      rewrite Forall_forall in Hs. apply add3_rows; [now apply Hs|].
      now apply Forall_inv in Ho.
Qed.

Lemma alibi_forward_rows (a : @AlibiPositionalBias F) (s : T4 F) :
  nonempty_rows s -> nonempty_rows (alibi_forward a s).
Proof.
  unfold nonempty_rows, alibi_forward. intros Hs. rewrite Forall_forall in Hs.
  apply Forall_map, Forall_forall. intros sb Hsb. apply Hs in Hsb.
  rewrite Forall_forall in Hsb.
  apply Forall_map, Forall_forall. intros [h sh] Hin.
  apply in_combine_r in Hin. apply Hsb in Hin. rewrite Forall_forall in Hin.
  apply Forall_map, Forall_forall. intros [i row] Hin'. cbn [fst snd] in *.
  apply in_combine_r in Hin'. apply Hin in Hin'.
  destruct row; [congruence|]. discriminate.
Qed.

Lemma map4_rows {A B : Type} (f : A -> B) (s : list (list (list (list A)))) :
  nonempty_rows s -> nonempty_rows (map4 f s).
Proof.
  unfold nonempty_rows, map4. intros Hs.
  apply Forall_map. eapply Forall_impl; [|exact Hs]. cbn. intros sb Hsb.
  apply Forall_map. eapply Forall_impl; [|exact Hsb]. cbn. intros sh Hsh.
  apply Forall_map. eapply Forall_impl; [|exact Hsh]. cbn. intros row Hr.
  destruct row; [congruence|discriminate].
Qed.

Lemma tensor4_rows {A : Type} (x : list (list (list (list A)))) :
  is_tensor4 x = true -> numel4 x <> 0 -> nonempty_rows x.
Proof.
  intros Ht Hn. pose proof (tensor4_heads x Ht Hn) as H.
  unfold nonempty_rows. eapply Forall_impl; [|exact H]. cbn. intros xb Hb.
  eapply Forall_impl; [|exact Hb]. cbn. tauto.
Qed.

Lemma expand_mask_rows (mask : Mask) (hc : Z) mk :
  expand_mask mask hc = Ok mk -> nonempty_rows mk.
Proof.
  destruct mask as [m3|m4]; cbn; [discriminate|].
  destruct (is_tensor4 m4 && negb (numel4 m4 =? 0) && (0 <? hc)%Z) eqn:Hg;
    cbn; [|discriminate].
  apply andb_true_iff in Hg as [Hg _]. apply andb_true_iff in Hg as [Ht Hn].
  apply negb_true_iff, Nat.eqb_neq in Hn.
  pose proof (tensor4_rows m4 Ht Hn) as Hr.
  destruct (size1 m4 =? Z.to_nat hc); [now intros [= <-]|].
  destruct (size1 m4 =? 1); [|discriminate]. intros [= <-].
  unfold nonempty_rows in *. apply Forall_map.
  eapply Forall_impl; [|exact Hr]. cbn. intros mb Hmb.
  apply Forall_forall. intros mh Hin. apply repeat_spec in Hin. subst mh.
  destruct mb; [constructor|]. now apply Forall_inv in Hmb.
Qed.

Lemma broadcast2_nonempty {A B : Type} (a : list A) (b : list B) p :
  broadcast2 a b = Ok p -> a <> [] -> b <> [] -> p <> [].
Proof.
  unfold broadcast2. intros H Ha Hb.
  destruct a as [|a0 a]; [congruence|]. destruct b as [|b0 b]; [congruence|].
  destruct (length (a0 :: a) =? length (b0 :: b)).
  - injection H as <-. discriminate.
  - destruct a; [injection H as <-; discriminate|].
    destruct b; [injection H as <-; discriminate|discriminate].
Qed.

Lemma masked_fill_rows (s : T4 F) mk (v : F) y :
  masked_fill s mk v = Ok y ->
  nonempty_rows s -> nonempty_rows mk -> nonempty_rows y.
Proof.
  unfold masked_fill, nonempty_rows. intros H Hs Hm.
  rewrite Forall_forall in Hs, Hm.
  destruct (broadcast2 s mk) as [p4|e] eqn:H4; cbn in H; [|discriminate].
  apply broadcast2_In in H4. rewrite Forall_forall in H4.
  eapply mapM_Forall; [exact H|]. cbn. intros [sb mb] yb Hin Hyb.
  apply H4 in Hin as [Hsb Hmb]. apply Hs in Hsb. apply Hm in Hmb.
  cbn [fst snd] in *. rewrite Forall_forall in Hsb, Hmb.
  destruct (broadcast2 sb mb) as [p3|e] eqn:H3; cbn in Hyb; [|discriminate].
  apply broadcast2_In in H3. rewrite Forall_forall in H3.
  eapply mapM_Forall; [exact Hyb|]. cbn. intros [sh mh] yh Hin Hyh.
  apply H3 in Hin as [Hsh Hmh]. apply Hsb in Hsh. apply Hmb in Hmh.
  cbn [fst snd] in *. rewrite Forall_forall in Hsh, Hmh.
  destruct (broadcast2 sh mh) as [p2|e] eqn:H2; cbn in Hyh; [|discriminate].
  apply broadcast2_In in H2. rewrite Forall_forall in H2.
  eapply mapM_Forall; [exact Hyh|]. cbn. intros [sr mr] yr Hin Hyr.
  apply H2 in Hin as [Hsr Hmr]. apply Hsh in Hsr. apply Hmh in Hmr.
  cbn [fst snd] in *.
  destruct (broadcast2 sr mr) as [p1|e] eqn:H1; cbn in Hyr; [|discriminate].
  injection Hyr as <-.
  pose proof (broadcast2_nonempty _ _ _ H1 Hsr Hmr) as Hp.
  destruct p1; [congruence|discriminate].
Qed.

Lemma raw_scores_rows m (q k : T4 F) s rk :
  raw_scores m q k = Ok (s, rk) -> nonempty_rows s.
Proof.
  unfold raw_scores. intros H.
  destruct (expand_heads k (size1 (scale m q))) as [key'|e] eqn:Hk;
    cbn in H; [|discriminate].
  destruct (matmul (scale m q) (map (map (transpose zero)) key'))
    as [s0|e] eqn:Hm; cbn in H; [|discriminate].
  assert (Hrest : no_heads s0 \/
                  (nonempty_rows s0 /\ size2 key' <> 0
                   /\ size3 (scale m q) <> 0)).
  { destruct (expand_heads_cases _ _ _ Hk) as [Hn|(Hh & H2 & H3)].
    - left. eapply matmul_no_heads; [exact Hm|].
      unfold no_heads in *. apply Forall_map.
      eapply Forall_impl; [|exact Hn]. now intros kb ->.
    - right. split; [|split; [exact H2|]].
      + eapply matmul_rows; [exact Hm|].
        apply Forall_map. eapply Forall_impl; [|exact Hh]. cbn.
        intros kb Hkb. apply Forall_map.
        eapply Forall_impl; [|exact Hkb]. cbn. intros kh [Hne Hrows].
        apply transpose_hd_nonempty; [exact Hne|].
        destruct kh; [congruence|]. now apply Forall_inv in Hrows.
      + apply matmul_inv in Hm as [Hsz _].
        rewrite Hsz, size2_transpose23. exact H3. }
  assert (Hs0 : nonempty_rows s0)
    by (destruct Hrest as [Hn|[Hr _]]; [now apply no_heads_rows|exact Hr]).
  destruct (relative_positions_embeddings m) as [emb|].
  - destruct (embedding emb _) as [rks|e] eqn:He; cbn in H; [|discriminate].
    destruct (relative_matmul (scale m q) rks true) as [r|e] eqn:Hr;
      cbn in H; [|discriminate].
    destruct (add_ s0 r) as [s1|e] eqn:Ha; cbn in H; [|discriminate].
    injection H as <- <-. apply map4_rows.
    eapply add_rows; [exact Ha|].
    destruct Hrest as [Hn|(Hr0 & H2 & H3)]; [now left|right].
    split; [exact Hr0|].
    eapply relative_matmul_rows; [exact Hr|].
    destruct (gen_relative_positions_rows (size2 key')
                (max_relative_positions m) (enabled (layer_cache m)) H2)
      as [_ Hrows].
    apply embedding_rows in He as [_ He].
    assert (Hidx : Forall (fun row : list Z => row <> [])
                     (gen_relative_positions (size2 key')
                        (max_relative_positions m) (enabled (layer_cache m)))).
    { eapply Forall_impl; [|exact Hrows]. cbn. intros row Hl ->.
      cbn in Hl. congruence. }
    specialize (He Hidx).
    apply relative_matmul_inv in Hr as [Hsz _]. cbv zeta in Hsz.
    rewrite size1_transpose12 in Hsz.
    assert (Hdim : embedding_dim emb <> 0).
    { rewrite Hsz in H3. unfold size2 in H3.
      destruct rks as [|zi0 rks']; [cbn in H3; congruence|].
      apply Forall_inv in He as [_ Hv].
      destruct zi0 as [|v zi0']; [cbn in H3; congruence|].
      apply Forall_inv in Hv. cbn in H3. congruence. }
    apply Forall_map. eapply Forall_impl; [|exact He]. cbn.
    intros zi [Hne Hv]. apply transpose_hd_nonempty; [exact Hne|].
    destruct zi as [|v zi']; [congruence|]. apply Forall_inv in Hv. cbn.
    intros ->. cbn in Hv. congruence.
  - destruct (max_relative_positions m =? -2)%Z.
    + destruct (alibi m); cbn in H; [|discriminate].
      injection H as <- <-. now apply map4_rows, alibi_forward_rows.
    + cbn in H. injection H as <- <-. now apply map4_rows.
Qed.

Lemma apply_mask_rows m (s : T4 F) mask s' :
  apply_mask m s mask = Ok s' -> nonempty_rows s -> nonempty_rows s'.
Proof.
  unfold apply_mask. destruct mask as [mask|]; [|now intros [= <-]].
  destruct (expand_mask mask (head_count m)) as [mk|e] eqn:He; cbn;
    [|discriminate].
  intros H Hs. eapply masked_fill_rows; eauto.
  eapply expand_mask_rows; eauto.
Qed.

(** What [forward] returns as attention weights is the softmax of the
    masked scores, whose rows are not empty. *)
Lemma forward_attn m key value query mask step m' ctx attn :
  forward noise m key value query mask step = (m', Ok (ctx, attn)) ->
  exists q k v c s rk s',
    project m key value query step = Ok (q, k, v, c)
    /\ raw_scores (with_cache m c) q k = Ok (s, rk)
    /\ apply_mask (with_cache m c) s mask = Ok s'
    /\ nonempty_rows s'
    /\ attn = map4 to_dtype (softmax s').
Proof.
  unfold forward. intros H.
  destruct (project m key value query step) as [[[[q k] v] c]|e] eqn:Hp;
    [|discriminate].
  injection H as _ H. unfold attend in H.
  destruct (raw_scores (with_cache m c) q k) as [[s rk]|e] eqn:Hs;
    cbn in H; [|discriminate].
  destruct (apply_mask (with_cache m c) s mask) as [s'|e] eqn:Hm;
    cbn in H; [|discriminate].
  destruct (context_of noise (with_cache m c) (size1 q)
              (map4 to_dtype (softmax s')) v rk) as [o|e];
    cbn in H; [|discriminate].
  injection H as _ <-.
  exists q, k, v, c, s, rk, s'. repeat split; auto.
  eapply apply_mask_rows; eauto. eapply raw_scores_rows; eauto.
Qed.

(** *** Entries of the masked scores *)

Lemma mapM_nth_error {A B : Type} (f : A -> Result B) l y i b :
  mapM f l = Ok y -> nth_error y i = Some b ->
  exists a, nth_error l i = Some a /\ f a = Ok b.
Proof.
  revert y i. induction l as [|a l IH]; cbn; intros y i Hm Hn.
  - injection Hm as <-. destruct i; discriminate.
  - destruct (f a) as [b0|e] eqn:Hfa; cbn in Hm; [|discriminate].
    destruct (mapM f l) as [bs|e]; cbn in Hm; [|discriminate].
    injection Hm as <-. destruct i as [|i]; cbn in *.
    + injection Hn as <-. eauto.
    + eapply IH; eauto.
Qed.

Lemma nth_error_bnth {A : Type} (l : list A) i x :
  nth_error l i = Some x -> bnth l i = Some x.
Proof.
  destruct l as [|a [|a' l]]; cbn; auto.
  destruct i as [|[|i]]; cbn; auto; discriminate.
Qed.

Lemma bnth_In {A : Type} (l : list A) i x : bnth l i = Some x -> In x l.
Proof.
  destruct l as [|a [|a' l]]; cbn.
  - destruct i; discriminate.
  - intros [= ->]. auto.
  - intros H. apply nth_error_In in H. exact H.
Qed.

Lemma bnth_map {A B : Type} (f : A -> B) (l : list A) i :
  bnth (map f l) i = option_map f (bnth l i).
Proof.
  destruct l as [|a [|a' l]]; cbn; [now destruct i|reflexivity|].
  apply (nth_error_map f i (a :: a' :: l)).
Qed.

Lemma nth_error_combine {A B : Type} (a : list A) (b : list B) i x y :
  nth_error (combine a b) i = Some (x, y)
  <-> nth_error a i = Some x /\ nth_error b i = Some y.
Proof.
  revert b i. induction a as [|a0 a IH]; intros b i; cbn.
  - split; [destruct i; discriminate|intros [H _]; destruct i; discriminate].
  - destruct b as [|b0 b]; cbn.
    + split; [destruct i; discriminate|intros [_ H]; destruct i; discriminate].
    + destruct i as [|i]; cbn; [|apply IH].
      split; [intros [= -> ->]; auto|intros [[= ->] [= ->]]; auto].
Qed.

Lemma broadcast2_nth {A B : Type} (a : list A) (b : list B) p i x y :
  broadcast2 a b = Ok p -> nth_error p i = Some (x, y) ->
  bnth a i = Some x /\ bnth b i = Some y.
Proof.
  unfold broadcast2. intros H Hn. destruct (length a =? length b).
  - injection H as <-. apply nth_error_combine in Hn as [Ha Hb].
    split; now apply nth_error_bnth.
  - destruct a as [|a0 [|a1 a]].
    + destruct b as [|b0 [|b1 b]]; try discriminate.
      injection H as <-. destruct i; discriminate.
    + injection H as <-. rewrite nth_error_map in Hn.
      destruct (nth_error b i) as [y'|] eqn:Hb; [|discriminate].
      injection Hn as <- <-. split; [reflexivity|now apply nth_error_bnth].
    + destruct b as [|b0 [|b1 b]]; try discriminate.
      injection H as <-.
      change (nth_error (map (fun x => (x, b0)) (a0 :: a1 :: a)) i
              = Some (x, y)) in Hn.
      rewrite nth_error_map in Hn.
      destruct (nth_error (a0 :: a1 :: a) i) as [x'|] eqn:Ha; [|discriminate].
      injection Hn as <- <-. split; [now apply nth_error_bnth|reflexivity].
Qed.

Lemma broadcast2_bnth_In {A B : Type} (a : list A) (b : list B) p i x y :
  broadcast2 a b = Ok p -> bnth a i = Some x -> bnth b i = Some y ->
  In (x, y) p.
Proof.
  unfold broadcast2. intros H Ha Hb. destruct (length a =? length b) eqn:Hl.
  - injection H as <-. apply Nat.eqb_eq in Hl.
    destruct a as [|a0 [|a1 a]]; destruct b as [|b0 [|b1 b]];
      cbn in Hl; try discriminate; try (destruct i; discriminate).
    + cbn in Ha, Hb. injection Ha as <-. injection Hb as <-. now left.
    + eapply nth_error_In. apply nth_error_combine. split; eassumption.
  - destruct a as [|a0 [|a1 a]].
    + destruct b as [|b0 [|b1 b]]; try discriminate.
      destruct i; discriminate.
    + injection H as <-. cbn in Ha. injection Ha as <-.
      apply in_map. eapply bnth_In; eauto.
    + destruct b as [|b0 [|b1 b]]; try discriminate.
      injection H as <-. cbn in Hb. injection Hb as <-.
      change (In (x, b0) (map (fun x => (x, b0)) (a0 :: a1 :: a))).
      apply in_map_iff. exists x. split; [reflexivity|].
      eapply bnth_In; eauto.
Qed.

(** A row of the masked scores pairs a row of the scores with a row of the
    mask. *)
Lemma masked_fill_row (s : T4 F) mk (v : F) y b h i yrow :
  masked_fill s mk v = Ok y ->
  row4 y b h i = Some yrow ->
  exists srow mrow p1,
    brow s b h i = Some srow
    /\ brow mk b h i = Some mrow
    /\ broadcast2 srow mrow = Ok p1
    /\ yrow = map (fun e => if snd e : bool then v else fst e) p1.
Proof.
  unfold masked_fill, row4, brow. intros H Hr.
  destruct (broadcast2 s mk) as [p4|e] eqn:H4; cbn in H; [|discriminate].
  destruct (nth_error y b) as [yb|] eqn:Hb; [|discriminate].
  destruct (mapM_nth_error _ _ _ _ _ H Hb) as ([sb mb] & Hp4 & Hyb).
  destruct (broadcast2_nth _ _ _ _ _ _ H4 Hp4) as [-> ->].
  cbn [fst snd] in Hyb.
  destruct (broadcast2 sb mb) as [p3|e] eqn:H3; cbn in Hyb; [|discriminate].
  destruct (nth_error yb h) as [yh|] eqn:Hh; [|discriminate].
  destruct (mapM_nth_error _ _ _ _ _ Hyb Hh) as ([sh mh] & Hp3 & Hyh).
  destruct (broadcast2_nth _ _ _ _ _ _ H3 Hp3) as [-> ->].
  cbn [fst snd] in Hyh.
  destruct (broadcast2 sh mh) as [p2|e] eqn:H2; cbn in Hyh; [|discriminate].
  destruct (mapM_nth_error _ _ _ _ _ Hyh Hr) as ([sr mr] & Hp2 & Hyr).
  destruct (broadcast2_nth _ _ _ _ _ _ H2 Hp2) as [-> ->].
  cbn [fst snd] in Hyr.
  destruct (broadcast2 sr mr) as [p1|e] eqn:H1; cbn in Hyr; [|discriminate].
  injection Hyr as <-. exists sr, mr, p1. auto.
Qed.

(** The expanded mask holds the rows of the mask. *)
Lemma expand_mask_brow mk (hc : Z) mk' b h i row :
  expand_mask (Mask4 mk) hc = Ok mk' ->
  brow mk' b h i = Some row -> brow mk b h i = Some row.
Proof.
  cbn.
  destruct (is_tensor4 mk && negb (numel4 mk =? 0) && (0 <? hc)%Z) eqn:Hg;
    cbn; [|discriminate].
  apply andb_true_iff in Hg as [Hg _]. apply andb_true_iff in Hg as [Ht _].
  destruct (size1 mk =? Z.to_nat hc); [now intros [= <-]|].
  destruct (size1 mk =? 1) eqn:H1; [|discriminate]. intros [= <-].
  apply Nat.eqb_eq in H1. apply rect4_iff in Ht as [_ Ht]. rewrite H1 in Ht.
  unfold brow. rewrite bnth_map.
  destruct (bnth mk b) as [mb|] eqn:Hb; cbn; [|discriminate].
  apply bnth_In in Hb. rewrite Forall_forall in Ht.
  destruct (Ht _ Hb) as [Hl _].
  destruct mb as [|mh [|mh' mb]]; try discriminate. cbn [hd bnth].
  destruct (bnth (repeat mh (Z.to_nat hc)) h) as [xh|] eqn:Hh;
    [|discriminate].
  apply bnth_In, repeat_spec in Hh. now subst xh.
Qed.

End Forward.

(** ** Numeric properties, over the reals *)

Section Reals.

Variable noise : Q -> T4 R -> T4 R.

Local Open Scope R_scope.

Lemma sum_nil : sum (@nil R) = 0.
Proof. reflexivity. Qed.

Lemma sum_cons (a : R) (l : list R) : sum (a :: l) = a + sum l.
Proof. reflexivity. Qed.

Lemma sum_div (c : R) (l : list R) :
  sum (map (fun x => x / c) l) = sum l / c.
Proof.
  induction l as [|a l IH]; cbn [map]; rewrite ?sum_nil, ?sum_cons.
  - unfold Rdiv. now rewrite Rmult_0_l.
  - rewrite IH. unfold Rdiv. now rewrite Rmult_plus_distr_r.
Qed.

Lemma sum_exp_nonneg (l : list R) : 0 <= sum (map exp l).
Proof.
  induction l as [|a l IH]; cbn [map]; rewrite ?sum_nil, ?sum_cons; [lra|].
  pose proof (exp_pos a). lra.
Qed.

Lemma sum_exp_pos (l : list R) : l <> [] -> 0 < sum (map exp l).
Proof.
  destruct l as [|a l]; [congruence|]. intros _.
  cbn [map]. rewrite sum_cons.
  pose proof (exp_pos a). pose proof (sum_exp_nonneg l). lra.
Qed.

Lemma softmax_row_sum (row : list R) :
  row <> [] -> sum (softmax_row row) = 1.
Proof.
  intros Hne. unfold softmax_row. cbn [sdiv sexp R_scalar].
  rewrite sum_div. pose proof (sum_exp_pos row Hne).
  unfold Rdiv. apply Rinv_r. lra.
Qed.

Lemma exp_le_sum (l : list R) (v : R) : In v l -> exp v <= sum (map exp l).
Proof.
  induction l as [|a l IH]; [intros []|]. intros [->|Hin].
  - cbn [map]. rewrite sum_cons. pose proof (sum_exp_nonneg l). lra.
  - cbn [map]. rewrite sum_cons. pose proof (exp_pos a).
    specialize (IH Hin). lra.
Qed.

Lemma softmax_masked_bound (x : list R) (j : nat) (fillv sv w : R) :
  nth_error x j = Some fillv -> In sv x ->
  nth_error (softmax_row x) j = Some w ->
  0 <= w <= exp (fillv - sv).
Proof.
  intros Hj Hin Hw. unfold softmax_row in Hw. cbn [sdiv sexp R_scalar] in Hw.
  rewrite !nth_error_map, Hj in Hw. cbn in Hw. injection Hw as <-.
  pose proof (exp_le_sum x sv Hin) as Hle.
  pose proof (exp_pos sv) as Hsv. pose proof (exp_pos fillv) as Hf.
  assert (HS : 0 < sum (map exp x)) by lra.
  split.
  - apply Rlt_le, Rdiv_lt_0_compat; assumption.
  - unfold Rminus. rewrite exp_plus, exp_Ropp. unfold Rdiv.
    apply Rmult_le_compat_l; [lra|].
    apply Rinv_le_contravar; assumption.
Qed.

(** Where a row has a key that the mask does not mark: in a call of
    [forward] with a mask that succeeds, the weight at a (query, key) pair
    the mask marks is at most [exp (-10^18 - s)] for every raw score [s] of
    a key of the same row that the mask does not mark.  The masked score is
    the finite number [-10^18]. *)
Lemma masked_weight_bound :
  forall m key value query mk step m' ctx attn scores,
    forward noise m key value query (Some (Mask4 mk)) step
    = (m', Ok (ctx, attn)) ->
    forward_scores m key value query step = Ok scores ->
    forall b h i j j' w s,
      get4 attn b h i j = Some w ->
      bget4 mk b h i j = Some true ->
      bget4 mk b h i j' = Some false ->
      bget4 scores b h i j' = Some s ->
      mask_fill_value = IZR (- 10 ^ 18)
      /\ 0 <= w <= exp (mask_fill_value - s).
Proof.
  intros m key value query mk step m' ctx attn scores Hf Hs b h i j j' w sv
    Hw Hmj Hmj' Hsj'.
  split; [reflexivity|].
  apply forward_attn in Hf
    as (q & k & v & c & s & rk & s' & Hp & Hr & Hm & _ & ->).
  unfold forward_scores in Hs. rewrite Hp in Hs. cbn in Hs.
  rewrite Hr in Hs. cbn in Hs. injection Hs as <-.
  unfold apply_mask in Hm.
  destruct (expand_mask (Mask4 mk) (head_count (with_cache m c)))
    as [mk'|e] eqn:He; cbn [bind] in Hm; [|discriminate].
  (* the row of the weights *)
  unfold get4, row4, map4, softmax in Hw. rewrite map_map in Hw.
  rewrite nth_error_map in Hw.
  destruct (nth_error s' b) as [sb|] eqn:Hb; [|discriminate]. cbn in Hw.
  rewrite map_map, nth_error_map in Hw.
  destruct (nth_error sb h) as [sh|] eqn:Hh; [|discriminate]. cbn in Hw.
  rewrite map_map, nth_error_map in Hw.
  destruct (nth_error sh i) as [yrow|] eqn:Hi; [|discriminate]. cbn in Hw.
  rewrite map_id in Hw.
  assert (Hrow : row4 s' b h i = Some yrow)
    by (unfold row4; now rewrite Hb, Hh).
  destruct (masked_fill_row _ _ _ _ _ _ _ _ Hm Hrow)
    as (srow & mrow & p1 & Hsrow & Hmrow & Hp1 & ->).
  apply (expand_mask_brow _ _ _ _ _ _ _ He) in Hmrow.
  unfold bget4 in Hmj, Hmj', Hsj'. rewrite Hmrow in Hmj, Hmj'.
  rewrite Hsrow in Hsj'.
  (* entry j is the fill value *)
  destruct (nth_error p1 j) as [[sj mj]|] eqn:Hpj.
  2:{ exfalso. unfold softmax_row in Hw.
      rewrite !nth_error_map, Hpj in Hw. discriminate. }
  destruct (broadcast2_nth _ _ _ _ _ _ Hp1 Hpj) as [_ Hmj2].
  rewrite Hmj in Hmj2. injection Hmj2 as <-.
  pose proof (broadcast2_bnth_In _ _ _ _ _ _ Hp1 Hsj' Hmj') as Hin.
  eapply softmax_masked_bound; [| |exact Hw].
  - rewrite nth_error_map, Hpj. reflexivity.
  - apply in_map_iff. exists (sv, false). auto.
Qed.

End Reals.

Lemma step_only_read_by_rotary_witness :
  max_relative_positions ex_self <> (-1)%Z
  /\ forward ex_noise ex_self ex_x ex_x ex_x None 0
     = forward ex_noise ex_self ex_x ex_x ex_x None 5.
Proof.
  assert (H : max_relative_positions ex_self <> (-1)%Z) by (cbn; lia).
  split; [exact H|].
  exact (step_only_read_by_rotary ex_noise ex_self ex_x ex_x ex_x None 0 5 H).
Defined.

Lemma decode_self_ignores_key_value_witness :
  forward ex_noise (start_decoding ex_self) ex_x ex_x ex_x1 None 0
  = forward ex_noise (start_decoding ex_self) [] ex_x1 ex_x1 None 0.
Proof.
  exact (decode_self_ignores_key_value ex_noise (start_decoding ex_self)
           ex_x ex_x [] ex_x1 ex_x1 None 0 eq_refl eq_refl).
Defined.

(** C9: the call of the failing input.  Without the mask, and with the
    same mask given a head axis, the call succeeds. *)
Lemma rank3_mask_example :
  snd (forward ex_noise ex_self ex_x1 ex_x1 ex_x1
         (Some (Mask3 [[[false]]])) 0) = Raise RuntimeError
  /\ (exists r, snd (forward ex_noise ex_self ex_x1 ex_x1 ex_x1
                       (Some (Mask4 [[[[false]]]])) 0) = Ok r)
  /\ (exists r, snd (forward ex_noise ex_self ex_x1 ex_x1 ex_x1 None 0)
                = Ok r).
Proof.
  split; [reflexivity|].
  split; eexists; rcompute; reflexivity.
Qed.

Lemma context_cache_frozen_witness :
  exists r,
    snd (forward ex_noise ex_context ex_x2 ex_x2 ex_x2 None 0) = Ok r
    /\ layer_cache
         (run ex_noise
            (fst (forward ex_noise ex_context ex_x2 ex_x2 ex_x2 None 0))
            [{| call_key := []; call_value := ex_x2; call_query := ex_x2;
                call_mask := None; call_step := 1 |}])
       = layer_cache
           (fst (forward ex_noise ex_context ex_x2 ex_x2 ex_x2 None 0)).
Proof.
  eexists. split; [rcompute; reflexivity|].
  refine (proj2 (context_cache_frozen ex_noise ex_context ex_x2 ex_x2 ex_x2
                   None 0 _ _ eq_refl eq_refl _)).
  rcompute. reflexivity.
Defined.

Lemma masked_weight_bound_witness :
  exists m' ctx attn scores w s,
    forward ex_noise ex_self ex_x ex_x ex_x
      (Some (Mask4 [[[[false; true]]]])) 0 = (m', Ok (ctx, attn))
    /\ forward_scores ex_self ex_x ex_x ex_x 0 = Ok scores
    /\ get4 attn 0 0 0 1 = Some w
    /\ bget4 scores 0 0 0 0 = Some s
    /\ (0 <= w <= exp (mask_fill_value - s))%R.
Proof.
  do 6 eexists.
  split; [rcompute; reflexivity|].
  split; [rcompute; reflexivity|].
  split; [rcompute; reflexivity|].
  split; [rcompute; reflexivity|].
  refine (proj2 (masked_weight_bound ex_noise ex_self ex_x ex_x ex_x
                   [[[[false; true]]]] 0 _ _ _ _ _ _ 0 0 0 1 0 _ _
                   _ eq_refl eq_refl _)).
  - rcompute. reflexivity.
  - rcompute. reflexivity.
  - rcompute. reflexivity.
  - rcompute. reflexivity.
Defined.

(** Without a mask, position 0 of a full pass over two positions attends
    to both of them, the first decode step to the first only. *)
Lemma unmasked_pass_differs_example :
  exists m1 ctx attn m2 ctx' attn',
    forward ex_noise ex_self ex_x ex_x ex_x None 0 = (m1, Ok (ctx, attn))
    /\ decode_steps ex_noise (start_decoding ex_self) ex_x 0
       = (m2, Ok (ctx', attn'))
    /\ position ctx 0 <> ctx'.
Proof.
  do 6 eexists.
  split; [rcompute; reflexivity|].
  split; [rcompute; reflexivity|].
  rcompute. intros H. injection H as H.
  repeat match type of H with
         | context [exp ?a] =>
             lazymatch a with
             | 0%R => fail
             | _ => replace a with 0%R in H by (unfold Rdiv; ring)
             end
         end.
  rewrite exp_0 in H. lra.
Qed.

(** ** Cache equivalence *)

Section ListFacts.

Context {A B C : Type}.

Lemma combine_map_same (f : A -> B) (g : A -> C) (l : list A) :
  combine (map f l) (map g l) = map (fun a => (f a, g a)) l.
Proof. induction l as [|a l IH]; cbn; [reflexivity|now rewrite IH]. Qed.

Lemma mapM_ok (f : A -> Result B) (g : A -> B) (l : list A) :
  (forall a, In a l -> f a = Ok (g a)) -> mapM f l = Ok (map g l).
Proof.
  induction l as [|a l IH]; intros Hf; [reflexivity|].
  cbn. rewrite Hf by now left. cbn. rewrite IH; [reflexivity|].
  intros a' Ha'. apply Hf. now right.
Qed.

Lemma broadcast2_same_length (a : list A) (b : list B) :
  length a = length b -> broadcast2 a b = Ok (combine a b).
Proof.
  intros Hl. unfold broadcast2. apply Nat.eqb_eq in Hl. now rewrite Hl.
Qed.

Lemma window_seq (d : A) (l : list A) (s n : nat) :
  s + n <= length l ->
  firstn n (skipn s l) = map (fun i => nth i l d) (seq s n).
Proof.
  revert l s. induction n as [|n IH]; intros l s Hl; [apply firstn_0|].
  destruct (skipn s l) as [|a r] eqn:Hs.
  - apply (f_equal (@length A)) in Hs. rewrite length_skipn in Hs.
    cbn in Hs. lia.
  - cbn [firstn seq map]. f_equal.
    + assert (H0 : nth 0 (skipn s l) d = a) by now rewrite Hs.
      rewrite nth_skipn in H0. now rewrite Nat.add_0_r in H0.
    + rewrite <- IH by lia.
      replace (S s) with (1 + s) by lia.
      rewrite <- skipn_skipn, Hs. reflexivity.
Qed.

Lemma nth_map_seq (d : A) (f : nat -> A) (n j : nat) :
  j < n -> nth j (map f (seq 0 n)) d = f j.
Proof.
  intros Hj. rewrite (nth_indep _ d (f 0))
    by now rewrite length_map, length_seq.
  rewrite (map_nth f (seq 0 n) 0 j), seq_nth by exact Hj. reflexivity.
Qed.

Lemma map_seq_elements (phi : nat -> B) (psi : A -> B) (l : list A) :
  (forall j a, nth_error l j = Some a -> phi j = psi a) ->
  map phi (seq 0 (length l)) = map psi l.
Proof.
  revert phi. induction l as [|a l IH]; intros phi H; [reflexivity|].
  cbn [length seq map]. f_equal; [now apply (H 0)|].
  rewrite <- seq_shift, map_map. apply IH.
  intros j a' Hj. now apply (H (S j)).
Qed.

Lemma nth_map_elem (d : B) (f : A -> B) (l : list A) (j : nat) (a : A) :
  nth_error l j = Some a -> nth j (map f l) d = f a.
Proof.
  intros Hj. apply nth_error_nth. now rewrite nth_error_map, Hj.
Qed.

End ListFacts.

Lemma transpose_tab {A B : Type} (d : A) (g : nat -> B -> A) (l : list B)
    (nh : nat) :
  l <> [] ->
  transpose d (map (fun a => map (fun h => g h a) (seq 0 nh)) l)
  = map (fun h => map (g h) l) (seq 0 nh).
Proof.
  intros Hl. unfold transpose.
  destruct l as [|a0 l']; [congruence|].
  cbn [map hd]. rewrite length_map, length_seq.
  apply map_ext_in. intros j Hj. apply in_seq in Hj.
  change (map (fun row => nth j row d)
            (map (fun a => map (fun h => g h a) (seq 0 nh)) (a0 :: l'))
          = map (g j) (a0 :: l')).
  rewrite map_map. apply map_ext. intros a.
  exact (nth_map_seq d (fun h => g h a) nh j ltac:(lia)).
Qed.

Lemma transpose_tab' {A B : Type} (d : A) (g : nat -> B -> A) (l : list B)
    (nh : nat) :
  0 < nh ->
  transpose d (map (fun h => map (g h) l) (seq 0 nh))
  = map (fun a => map (fun h => g h a) (seq 0 nh)) l.
Proof.
  intros Hn. unfold transpose.
  destruct nh as [|k]; [lia|].
  cbn [seq map hd]. rewrite length_map.
  apply map_seq_elements. intros j a Hj.
  change (map (fun row => nth j row d)
            (map (fun h => map (g h) l) (seq 0 (S k)))
          = map (fun h => g h a) (seq 0 (S k))).
  rewrite map_map. apply map_ext. intros h.
  exact (nth_map_elem d (g h) l j a Hj).
Qed.

Section Forms.

Context {F : Type} {ops : Scalar F}.

Lemma mform_tensor (nh : nat) (g : T2 F -> nat -> T2 F) (x : T3 F)
    (r c : nat) :
  x <> [] -> 0 < nh -> 0 < r ->
  (forall xb h, In xb x -> h < nh ->
     length (g xb h) = r /\ Forall (fun row => length row = c) (g xb h)) ->
  is_tensor4 (mform nh g x) = true
  /\ size0 (mform nh g x) = length x
  /\ size1 (mform nh g x) = nh
  /\ size2 (mform nh g x) = r
  /\ size3 (mform nh g x) = c.
Proof.
  intros Hx Hnh Hr Hg.
  destruct x as [|xb0 x']; [congruence|]. destruct nh as [|k]; [lia|].
  assert (H0 : size0 (mform (S k) g (xb0 :: x')) = length (xb0 :: x'))
    by (unfold size0, mform; now rewrite length_map).
  assert (H1 : size1 (mform (S k) g (xb0 :: x')) = S k)
    by (unfold size1, mform; cbn [map hd]; now rewrite length_map, length_seq).
  destruct (Hg xb0 0 ltac:(now left) ltac:(lia)) as [Hl0 Hc0].
  assert (H2 : size2 (mform (S k) g (xb0 :: x')) = r) by exact Hl0.
  assert (H3 : size3 (mform (S k) g (xb0 :: x')) = c).
  { unfold size3, mform. cbn [map hd seq].
    destruct (g xb0 0) as [|row0 rows]; [cbn in Hl0; lia|].
    now apply Forall_inv in Hc0. }
  split; [|tauto].
  unfold is_tensor4. rewrite H0, H1, H2, H3. apply rect4_iff.
  split; [unfold mform; now rewrite length_map|].
  unfold mform. apply Forall_map, Forall_forall. intros xb Hxb.
  split; [now rewrite length_map, length_seq|].
  apply Forall_map, Forall_forall. intros h Hh. apply in_seq in Hh.
  apply Hg; [exact Hxb|lia].
Qed.

Lemma expand_heads_mform (nh : nat) (g : T2 F -> nat -> T2 F) (x : T3 F)
    (r c : nat) :
  x <> [] -> 0 < nh -> 0 < r -> 0 < c ->
  (forall xb h, In xb x -> h < nh ->
     length (g xb h) = r /\ Forall (fun row => length row = c) (g xb h)) ->
  expand_heads (mform nh g x) nh = Ok (mform nh g x).
Proof.
  intros Hx Hnh Hr Hc Hg.
  destruct (mform_tensor nh g x r c Hx Hnh Hr Hg)
    as (Ht & H0 & H1 & H2 & H3).
  rewrite (expand_heads_replicate (mform nh g x) 1 nh Ht).
  - now rewrite replicate_heads_1.
  - unfold numel4. rewrite H0, H1, H2, H3.
    destruct x; [congruence|]. cbn [length]. nia.
  - rewrite H1. lia.
Qed.

Lemma matmul_forms (nh s n : nat) (a : T2 F -> nat -> nat -> T1 F)
    (bm : T2 F -> nat -> T2 F) (xb0 : T2 F) (x' : T3 F) :
  0 < nh -> 0 < n ->
  length (a xb0 0 s) = length (bm xb0 0) ->
  matmul (tform nh s n a (xb0 :: x')) (mform nh bm (xb0 :: x'))
  = Ok (tform nh s n (fun xb h i => vecmat (a xb h i) (bm xb h))
          (xb0 :: x')).
Proof.
  intros Hnh Hn Hlen. unfold matmul.
  assert (Hg : size3 (tform nh s n a (xb0 :: x'))
               = size2 (mform nh bm (xb0 :: x'))).
  { destruct nh as [|k]; [lia|]. destruct n as [|n']; [lia|]. exact Hlen. }
  apply Nat.eqb_eq in Hg. rewrite Hg. cbn [guard bind].
  set (x := xb0 :: x') in *.
  rewrite broadcast2_same_length
    by (unfold tform, mform; now rewrite !length_map).
  cbn [bind]. unfold tform, mform. rewrite combine_map_same.
  rewrite (mapM_ok _
             (fun p => map (fun q => mm (fst q) (snd q))
                           (combine (fst p) (snd p)))).
  - f_equal. rewrite map_map. apply map_ext. intros xb. cbn [fst snd].
    rewrite combine_map_same, map_map. apply map_ext. intros h.
    cbn [fst snd]. unfold mm. now rewrite map_map.
  - intros p Hp. apply in_map_iff in Hp as (xb & <- & _). cbn [fst snd].
    now rewrite broadcast2_same_length by now rewrite !length_map.
Qed.

Lemma map4_tform (f : F -> F) (nh s n : nat)
    (g : T2 F -> nat -> nat -> T1 F) (x : T3 F) :
  map4 f (tform nh s n g x) = tform nh s n (fun xb h i => map f (g xb h i)) x.
Proof.
  unfold map4, tform, mform. rewrite map_map. apply map_ext. intros xb.
  rewrite map_map. apply map_ext. intros h. now rewrite map_map.
Qed.

Lemma softmax_tform (nh s n : nat) (g : T2 F -> nat -> nat -> T1 F)
    (x : T3 F) :
  softmax (tform nh s n g x)
  = tform nh s n (fun xb h i => softmax_row (g xb h i)) x.
Proof.
  unfold softmax, tform, mform. rewrite map_map. apply map_ext. intros xb.
  rewrite map_map. apply map_ext. intros h. now rewrite map_map.
Qed.

Lemma add_tform (nh s n : nat) (g1 g2 : T2 F -> nat -> nat -> T1 F)
    (x : T3 F) :
  add_ (tform nh s n g1 x) (tform nh s n g2 x)
  = Ok (tform nh s n (fun xb h i => vadd (g1 xb h i) (g2 xb h i)) x).
Proof.
  unfold add_, tform, mform. rewrite !length_map, Nat.eqb_refl.
  f_equal. rewrite combine_map_same, map_map. apply map_ext. intros xb.
  cbn [fst snd]. rewrite combine_map_same, map_map. apply map_ext.
  intros h. cbn [fst snd]. rewrite combine_map_same, map_map.
  reflexivity.
Qed.

Lemma combine_seq_map {A : Type} (g : nat -> A) (s n : nat) :
  combine (seq 0 (length (map g (seq s n)))) (map g (seq s n))
  = map (fun i => (i - s, g i)) (seq s n).
Proof.
  rewrite length_map, length_seq.
  replace (seq 0 n) with (map (fun i => i - s) (seq s n)).
  - apply combine_map_same.
  - clear g. revert s. induction n as [|n IH]; intros s; [reflexivity|].
    cbn [seq map]. rewrite Nat.sub_diag. f_equal.
    rewrite <- (seq_shift n s), <- (seq_shift n 0), <- (IH s), !map_map.
    apply map_ext_in. intros i Hi. apply in_seq in Hi. lia.
Qed.

(** ALiBi on scores whose rows have one entry per key and whose query
    rows are the last [n] of the [s + n] key positions. *)
Lemma alibi_tform (a : AlibiPositionalBias) (nh s n : nat)
    (g : T2 F -> nat -> nat -> T1 F) (x : T3 F) :
  (forall xb h i, In xb x -> h < nh -> s <= i < s + n ->
     length (g xb h i) = s + n) ->
  alibi_forward a (tform nh s n g x)
  = tform nh s n (fun xb h i => alibi_row a h i (g xb h i)) x.
Proof.
  intros Hlen. unfold alibi_forward, tform, mform. rewrite map_map.
  apply map_ext_in. intros xb Hxb.
  replace (seq 0 (length (map (fun h => map (g xb h) (seq s n)) (seq 0 nh))))
    with (seq 0 nh) by now rewrite length_map, length_seq.
  rewrite <- (map_id (seq 0 nh)) at 1. rewrite combine_map_same, map_map.
  apply map_ext_in. intros h Hh. apply in_seq in Hh. cbn [fst snd].
  rewrite combine_seq_map, map_map. apply map_ext_in. intros i Hi.
  apply in_seq in Hi. cbn [fst snd]. unfold alibi_row.
  apply map_ext. intros jp. do 4 f_equal.
  rewrite Hlen by (auto; lia). rewrite length_map, length_seq. lia.
Qed.

Lemma relative_matmul_tform (nh s n : nat) (a : T2 F -> nat -> nat -> T1 F)
    (zf : nat -> T2 F) (t : bool) (xb0 : T2 F) (x' : T3 F) :
  0 < nh -> 0 < n ->
  length (a xb0 0 s)
  = length (if t then transpose zero (zf s) else zf s) ->
  relative_matmul (tform nh s n a (xb0 :: x')) (map zf (seq s n)) t
  = Ok (tform nh s n
          (fun xb h i =>
             vecmat (a xb h i) (if t then transpose zero (zf i) else zf i))
          (xb0 :: x')).
Proof.
  intros Hnh Hn Hlen. unfold relative_matmul.
  set (z' := if t then map (transpose zero) (map zf (seq s n))
             else map zf (seq s n)).
  assert (Hz : z' = map (fun i => if t then transpose zero (zf i) else zf i)
                        (seq s n))
    by (unfold z'; destruct t; [now rewrite map_map|reflexivity]).
  rewrite Hz.
  destruct nh as [|k]; [lia|]. destruct n as [|n']; [lia|].
  assert (Hg : size3 (tform (S k) s (S n') a (xb0 :: x'))
               = size1 (map (fun i => if t then transpose zero (zf i)
                                      else zf i) (seq s (S n'))))
    by exact Hlen.
  apply Nat.eqb_eq in Hg. rewrite Hg. cbn [guard bind].
  assert (Hl : length (map (fun i => if t then transpose zero (zf i)
                                     else zf i) (seq s (S n')))
               = size2 (tform (S k) s (S n') a (xb0 :: x'))).
  { rewrite length_map, length_seq. unfold size2, tform, mform.
    cbn [map hd seq length]. now rewrite length_map, length_seq. }
  apply Nat.eqb_eq in Hl. rewrite Hl. cbn [bind]. f_equal.
  unfold tform, mform. rewrite map_map. apply map_ext. intros xb.
  rewrite map_map. apply map_ext. intros h.
  now rewrite combine_map_same, map_map.
Qed.

Lemma repeat_map_seq {A : Type} (v : A) (n : nat) :
  repeat v n = map (fun _ => v) (seq 0 n).
Proof.
  induction n as [|n IH]; [reflexivity|].
  cbn [repeat seq map]. f_equal. rewrite <- seq_shift, map_map. exact IH.
Qed.

Lemma gen_relative_positions_full (len : nat) (mrp : Z) :
  0 < len ->
  gen_relative_positions len mrp false
  = map (fun i =>
           map (fun j => (clamp (- mrp) mrp (Z.of_nat j - Z.of_nat i)
                          + mrp)%Z)
               (seq 0 len))
        (seq 0 len).
Proof.
  intros Hlen. unfold gen_relative_positions.
  assert (Hrm : transpose 0%Z (map (fun v => repeat v len)
                                   (map Z.of_nat (seq 0 len)))
                = map (fun _ => map Z.of_nat (seq 0 len)) (seq 0 len)).
  { rewrite map_map.
    rewrite (map_ext (fun i => repeat (Z.of_nat i) len)
               (fun i => map (fun _ : nat => Z.of_nat i) (seq 0 len)))
      by (intros i; apply repeat_map_seq).
    exact (transpose_tab' 0%Z (fun h (_ : nat) => Z.of_nat h) (seq 0 len)
             len Hlen). }
  rewrite Hrm.
  assert (Hrt : transpose 0%Z (map (fun _ : nat => map Z.of_nat (seq 0 len))
                                   (seq 0 len))
                = map (fun h => map (fun _ : nat => Z.of_nat h) (seq 0 len))
                      (seq 0 len)).
  { apply (transpose_tab 0%Z (fun h (_ : nat) => Z.of_nat h)).
    destruct len; [lia|discriminate]. }
  rewrite Hrt, combine_map_same, !map_map. apply map_ext. intros i.
  cbn [fst snd]. rewrite combine_map_same, !map_map. reflexivity.
Qed.

Lemma gen_relative_positions_cache (len : nat) (mrp : Z) :
  gen_relative_positions (S len) mrp true
  = map (fun i =>
           map (fun j => (clamp (- mrp) mrp (Z.of_nat j - Z.of_nat i)
                          + mrp)%Z)
               (seq 0 (S len)))
        (seq len 1).
Proof.
  unfold gen_relative_positions. change (seq len 1) with [len].
  set (l := seq 0 (S len)). cbn [map]. f_equal.
  rewrite map_map. apply map_ext. intros j. do 2 f_equal. lia.
Qed.

Lemma embedding_relative (e : @Embedding F) (mrp : Z) (len s n : nat) :
  (0 < mrp)%Z -> num_embeddings e = Z.to_nat (mrp * 2 + 1) ->
  embedding e
    (map (fun i =>
            map (fun j => (clamp (- mrp) mrp (Z.of_nat j - Z.of_nat i)
                           + mrp)%Z)
                (seq 0 len))
         (seq s n))
  = Ok (map (zrow e mrp len) (seq s n)).
Proof.
  intros Hm He. unfold embedding.
  rewrite (mapM_ok _
             (map (fun i => map (table e (Z.to_nat i))
                                (seq 0 (embedding_dim e))))).
  - f_equal. rewrite map_map. apply map_ext. intros i. unfold zrow.
    now rewrite map_map.
  - intros row Hrow. apply in_map_iff in Hrow as (i & <- & _).
    apply mapM_ok. intros v Hv. apply in_map_iff in Hv as (j & <- & _).
    replace ((0 <=? clamp (- mrp) mrp (Z.of_nat j - Z.of_nat i) + mrp)%Z
             && (clamp (- mrp) mrp (Z.of_nat j - Z.of_nat i) + mrp
                 <? Z.of_nat (num_embeddings e))%Z) with true; [reflexivity|].
    symmetry. apply andb_true_iff. unfold clamp. rewrite He. split.
    + apply Z.leb_le. lia.
    + apply Z.ltb_lt. lia.
Qed.

Lemma nth_map_seq_from {A : Type} (d : A) (f : nat -> A) (s n l : nat) :
  l < n -> nth l (map f (seq s n)) d = f (s + l).
Proof.
  intros Hl. rewrite (nth_indep _ d (f 0))
    by now rewrite length_map, length_seq.
  rewrite (map_nth f (seq s n) 0 l), seq_nth by exact Hl. reflexivity.
Qed.

Lemma map_seq_from {A : Type} (f : nat -> A) (s n : nat) :
  map (fun l => f (s + l)) (seq 0 n) = map f (seq s n).
Proof.
  revert s. induction n as [|n IH]; intros s; [reflexivity|].
  cbn [seq map]. rewrite Nat.add_0_r. f_equal.
  rewrite <- (seq_shift n 0), map_map, <- (IH (S s)).
  apply map_ext. intros l. f_equal. lia.
Qed.

Lemma unshape_tform (nh s n : nat) (g : T2 F -> nat -> nat -> T1 F)
    (xb0 : T2 F) (x' : T3 F) :
  0 < nh ->
  unshape (tform nh s n g (xb0 :: x'))
  = map (fun xb =>
           map (fun i => concat (map (fun h => g xb h i) (seq 0 nh)))
               (seq s n))
        (xb0 :: x').
Proof.
  intros Hnh. unfold unshape.
  assert (H2 : size2 (tform nh s n g (xb0 :: x')) = n).
  { destruct nh as [|k]; [lia|]. unfold size2, tform, mform.
    cbn [map hd seq]. now rewrite length_map, length_seq. }
  rewrite H2. unfold tform, mform. rewrite map_map. apply map_ext.
  intros xb.
  rewrite <- (map_seq_from
                (fun i => concat (map (fun h => g xb h i) (seq 0 nh))) s n).
  apply map_ext_in. intros l Hl.
  apply in_seq in Hl. rewrite map_map. f_equal. apply map_ext. intros h.
  apply nth_map_seq_from. lia.
Qed.

Lemma linear_apply_rows (l : @Linear F) (s n : nat) (r : T2 F -> nat -> T1 F)
    (xb0 : T2 F) (x' : T3 F) :
  0 < n ->
  (forall xb i, In xb (xb0 :: x') -> s <= i < s + n ->
     length (r xb i) = in_features l) ->
  linear_apply l (map (fun xb => map (r xb) (seq s n)) (xb0 :: x'))
  = Ok (map (fun xb => map (fun i => linear_vec l (r xb i)) (seq s n))
            (xb0 :: x')).
Proof.
  intros Hn Hlen. unfold linear_apply.
  set (x := xb0 :: x') in *.
  set (y := map (fun xb => map (r xb) (seq s n)) x).
  assert (H0 : size0 y = length x) by (unfold y, size0; now rewrite length_map).
  assert (H1 : size1 y = n)
    by (unfold y, size1, x; cbn [map hd]; now rewrite length_map, length_seq).
  assert (H2 : size2 y = in_features l).
  { unfold y, size2, x. destruct n as [|n']; [lia|]. cbn [map hd seq].
    apply Hlen; [now left|lia]. }
  assert (Ht : is_tensor3 y = true).
  { unfold is_tensor3. rewrite H0, H1, H2. apply rect3_iff.
    split; [unfold y; now rewrite length_map|].
    unfold y. apply Forall_map, Forall_forall. intros xb Hxb.
    split; [now rewrite length_map, length_seq|].
    apply Forall_map, Forall_forall. intros i Hi. apply in_seq in Hi.
    now apply Hlen. }
  rewrite Ht, H2, Nat.eqb_refl, orb_true_r. cbn [guard bind]. f_equal.
  unfold y. rewrite map_map. apply map_ext. intros xb.
  now rewrite map_map.
Qed.

Lemma shape_rows (dph : Z) (d nh s n : nat) (r : T2 F -> nat -> T1 F)
    (xb0 : T2 F) (x' : T3 F) :
  dph = Z.of_nat d -> 0 < d -> 0 < nh -> 0 < n ->
  length (r xb0 s) = nh * d ->
  shape (map (fun xb => map (r xb) (seq s n)) (xb0 :: x')) dph
  = Ok (tform nh s n (fun xb h i => firstn d (skipn (h * d) (r xb i)))
          (xb0 :: x')).
Proof.
  intros -> Hd Hnh Hn Hlen. unfold shape. rewrite Nat2Z.id.
  set (y := map (fun xb => map (r xb) (seq s n)) (xb0 :: x')).
  assert (H0 : size0 y = S (length x'))
    by (unfold y, size0; now rewrite length_map).
  assert (H1 : size1 y = n)
    by (unfold y, size1; cbn [map hd]; now rewrite length_map, length_seq).
  assert (H2 : size2 y = nh * d).
  { unfold y, size2. destruct n as [|n']; [lia|]. exact Hlen. }
  assert (Hg : ((0 <? Z.of_nat d)%Z && negb (numel3 y =? 0)
                && (size2 y mod d =? 0)) = true).
  { apply andb_true_iff. split; [apply andb_true_iff; split|].
    - apply Z.ltb_lt. lia.
    - apply negb_true_iff, Nat.eqb_neq. unfold numel3.
      rewrite H0, H1, H2. nia.
    - apply Nat.eqb_eq. rewrite H2. apply Nat.Div0.mod_mul. }
  rewrite Hg. cbn [guard bind]. f_equal. rewrite H2, Nat.div_mul by lia.
  unfold y, tform, mform. rewrite map_map. apply map_ext. intros xb.
  apply map_ext. intros h. now rewrite map_map.
Qed.

Lemma cat2_tform (nh s : nat) (g : T2 F -> nat -> nat -> T1 F)
    (x : T3 F) (c : nat) :
  x <> [] -> 0 < nh -> 0 < s ->
  (forall xb h i, In xb x -> h < nh -> i <= s -> length (g xb h i) = c) ->
  cat2 (tform nh 0 s g x) (tform nh s 1 g x) = Ok (tform nh 0 (S s) g x).
Proof.
  intros Hx Hnh Hs Hlen. unfold cat2.
  assert (Hrows : forall n, n <= S s ->
            forall xb h, In xb x -> h < nh ->
              length (map (g xb h) (seq 0 n)) = n
              /\ Forall (fun row => length row = c) (map (g xb h) (seq 0 n))).
  { intros n Hn xb h Hxb Hh. split; [now rewrite length_map, length_seq|].
    apply Forall_map, Forall_forall. intros i Hi. apply in_seq in Hi.
    apply Hlen; auto; lia. }
  destruct (mform_tensor nh (fun xb h => map (g xb h) (seq 0 s)) x s c
              Hx Hnh Hs (Hrows s ltac:(lia)))
    as (Ht & H0 & H1 & _ & H3).
  fold (tform nh 0 s g x) in Ht, H0, H1, H3.
  assert (Hrows1 : forall xb h, In xb x -> h < nh ->
            length (map (g xb h) (seq s 1)) = 1
            /\ Forall (fun row => length row = c) (map (g xb h) (seq s 1))).
  { intros xb h Hxb Hh. split; [reflexivity|].
    repeat constructor. apply Hlen; auto. }
  destruct (mform_tensor nh (fun xb h => map (g xb h) (seq s 1)) x 1 c
              Hx Hnh ltac:(lia) Hrows1)
    as (_ & H0' & H1' & _ & H3').
  fold (tform nh s 1 g x) in H0', H1', H3'.
  rewrite Ht, H0, H0', H1, H1', H3, H3', !Nat.eqb_refl. cbn [andb guard bind].
  f_equal. unfold tform, mform. rewrite combine_map_same, map_map.
  apply map_ext. intros xb. cbn [fst snd].
  rewrite combine_map_same, map_map. apply map_ext. intros h. cbn [fst snd].
  rewrite <- map_app. f_equal.
  replace (S s) with (s + 1) by lia. now rewrite seq_app.
Qed.

(** *** Lengths of the vectors *)

Lemma length_linear_vec (l : @Linear F) (v : T1 F) :
  length (linear_vec l v) = out_features l.
Proof. unfold linear_vec. now rewrite length_map, length_seq. Qed.

Lemma length_hv (l : @Linear F) (nh d h : nat) (v : T1 F) :
  out_features l = nh * d -> h < nh -> length (hv l d h v) = d.
Proof.
  intros Ho Hh. unfold hv.
  rewrite length_firstn, length_skipn, length_linear_vec, Ho. nia.
Qed.

Lemma length_pairs (dd : nat) (v : T1 F) :
  length v = 2 * dd -> length (pairs v) = dd.
Proof.
  revert v. induction dd as [|dd IH]; intros v Hv.
  - destruct v; [reflexivity|discriminate].
  - destruct v as [|a [|b v]]; cbn in Hv; try lia.
    cbn [pairs length]. f_equal. apply IH. lia.
Qed.

Lemma length_unpairs (l : list (F * F)) : length (unpairs l) = 2 * length l.
Proof.
  unfold unpairs. induction l as [|p l IH]; [reflexivity|].
  cbn [flat_map length app]. rewrite IH. lia.
Qed.

Lemma length_rotv (dd : nat) (v : T1 F) (r : list (F * F)) :
  length v = 2 * dd -> length r = dd -> length (rotv v r) = 2 * dd.
Proof.
  intros Hv Hr. unfold rotv.
  rewrite length_map, length_unpairs, length_map, length_combine.
  rewrite (length_pairs dd) by now rewrite length_map.
  rewrite Hr. lia.
Qed.

Lemma length_vecmat (v : T1 F) (m : T2 F) :
  length (vecmat v m) = length (hd [] m).
Proof. unfold vecmat. now rewrite length_map, length_transpose. Qed.

Lemma length_vadd (a b : T1 F) (n : nat) :
  length a = n -> length b = n -> length (vadd a b) = n.
Proof.
  intros Ha Hb. unfold vadd. rewrite length_map, length_combine. lia.
Qed.

Lemma length_concat_uniform {A : Type} (f : nat -> list A) (nh d : nat) :
  (forall h, h < nh -> length (f h) = d) ->
  length (concat (map f (seq 0 nh))) = nh * d.
Proof.
  intros Hf. assert (H : forall s n, (forall h, s <= h < s + n ->
                                        length (f h) = d) ->
                          length (concat (map f (seq s n))) = n * d).
  { intros s n. revert s. induction n as [|n IH]; intros s Hs; [reflexivity|].
    cbn [seq map concat]. rewrite length_app, Hs, IH by (try intros; try apply Hs; lia).
    reflexivity. }
  apply H. intros h Hh. apply Hf. lia.
Qed.

Lemma hd_transpose_length {A : Type} (d : A) (m : list (list A)) :
  hd [] m <> [] -> length (hd [] (transpose d m)) = length m.
Proof.
  intros Hh. unfold transpose.
  destruct (hd [] m) as [|a r]; [congruence|].
  cbn [length seq map hd]. now rewrite length_map.
Qed.

(** *** Rotary embeddings on tabulated tensors *)

Lemma rotary_tform (m : MultiHeadedAttention) (nh start n dd : nat)
    (fq fk : T2 F -> nat -> nat -> T1 F) (tbl : list (list (F * F)))
    (xb0 : T2 F) (x' : T3 F) :
  rope m = Some tbl -> start + n <= length tbl -> 0 < nh -> 0 < n ->
  length (fq xb0 0 start) = 2 * dd -> length (fk xb0 0 start) = 2 * dd ->
  length (nth start tbl []) = dd ->
  rotary m start (tform nh start n fq (xb0 :: x'))
    (tform nh start n fk (xb0 :: x'))
  = Ok (tform nh start n (fun xb h i => rotv (fq xb h i) (nth i tbl []))
          (xb0 :: x'),
        tform nh start n (fun xb h i => rotv (fk xb h i) (nth i tbl []))
          (xb0 :: x')).
Proof.
  intros Hrope Hlen Hnh Hn Hq Hk Hr. unfold rotary. rewrite Hrope.
  cbn [bind].
  destruct nh as [|k]; [lia|]. destruct n as [|n']; [lia|].
  set (x := xb0 :: x').
  assert (H2 : size2 (tform (S k) start (S n') fq x) = S n').
  { unfold size2, tform, mform, x. cbn [map hd seq length].
    now rewrite length_map, length_seq. }
  rewrite H2.
  rewrite (window_seq [] tbl start (S n') Hlen).
  assert (Ht : forall f : T2 F -> nat -> nat -> T1 F,
             map (transpose []) (tform (S k) start (S n') f x)
             = map (fun xb => map (fun i => map (fun h => f xb h i)
                                               (seq 0 (S k)))
                                  (seq start (S n'))) x).
  { intros f. unfold tform, mform. rewrite map_map. apply map_ext.
    intros xb.
    exact (transpose_tab' [] (fun h i => f xb h i) (seq start (S n'))
             (S k) ltac:(lia)). }
  rewrite !Ht. unfold apply_rotary_emb.
  assert (Hs3 : forall f : T2 F -> nat -> nat -> T1 F,
             size3 (map (fun xb => map (fun i => map (fun h => f xb h i)
                                                    (seq 0 (S k)))
                                       (seq start (S n'))) x)
             = length (f xb0 0 start)) by reflexivity.
  assert (Hs1 : size1 (map (fun xb => map (fun i => map (fun h => fq xb h i)
                                                       (seq 0 (S k)))
                                          (seq start (S n'))) x) = S n').
  { unfold size1, x. cbn [map hd]. now rewrite length_map, length_seq. }
  rewrite !Hs3, Hs1, Hq, Hk.
  replace (2 * dd mod 2) with 0
    by (symmetry; rewrite Nat.mul_comm; apply Nat.Div0.mod_mul).
  replace (2 * dd / 2) with dd
    by (symmetry; rewrite Nat.mul_comm; apply Nat.div_mul; lia).
  assert (Hsr : size1 (map (fun i => nth i tbl []) (seq start (S n'))) = dd)
    by exact Hr.
  rewrite Hsr, length_map, length_seq, !Nat.eqb_refl. cbn [andb guard bind].
  rewrite (mapM_ok _
             (fun kb => map (fun p => rotate_position (fst p) (snd p))
                            (combine kb (map (fun i => nth i tbl [])
                                             (seq start (S n')))))).
  2:{ intros kb Hkb. apply in_map_iff in Hkb as (xb & <- & _).
      now rewrite broadcast2_same_length
        by now rewrite !length_map, !length_seq. }
  cbn [bind fst snd]. f_equal.
  assert (Hback : forall f : T2 F -> nat -> nat -> T1 F,
             map (transpose [])
               (map (fun qb => map (fun p => rotate_position (fst p) (snd p))
                                   (combine qb (map (fun i => nth i tbl [])
                                                    (seq start (S n')))))
                    (map (fun xb => map (fun i => map (fun h => f xb h i)
                                                      (seq 0 (S k)))
                                        (seq start (S n'))) x))
             = tform (S k) start (S n')
                 (fun xb h i => rotv (f xb h i) (nth i tbl [])) x).
  { intros f. rewrite !map_map. unfold tform, mform. apply map_ext.
    intros xb. rewrite combine_map_same, map_map. cbn [fst snd].
    unfold rotate_position.
    rewrite (map_ext _ (fun i => map (fun h => rotv (f xb h i) (nth i tbl []))
                                     (seq 0 (S k))))
      by (intros i; now rewrite map_map).
    exact (transpose_tab [] (fun h i => rotv (f xb h i) (nth i tbl []))
             (seq start (S n')) (S k) ltac:(discriminate)). }
  now rewrite !Hback.
Qed.

End Forms.

Section Equivalence.

Context {F : Type} {ops : Scalar F} (noise : Q -> T4 F -> T4 F).

Lemma built_with_cache (m : @MultiHeadedAttention F) (c : LayerCache)
    (nh d : nat) :
  Built m nh d -> Built (with_cache m c) nh d.
Proof. intros []. constructor; assumption. Qed.

Lemma tform_ext (nh s n : nat) (g1 g2 : T2 F -> nat -> nat -> T1 F)
    (x : T3 F) :
  (forall xb h i, In xb x -> h < nh -> s <= i < s + n ->
     g1 xb h i = g2 xb h i) ->
  tform nh s n g1 x = tform nh s n g2 x.
Proof.
  intros H. unfold tform, mform. apply map_ext_in. intros xb Hxb.
  apply map_ext_in. intros h Hh. apply in_seq in Hh.
  apply map_ext_in. intros i Hi. apply in_seq in Hi. apply H; auto; lia.
Qed.

Lemma size1_tform (nh s n : nat) (g : T2 F -> nat -> nat -> T1 F)
    (xb0 : T2 F) (x' : T3 F) :
  size1 (tform nh s n g (xb0 :: x')) = nh.
Proof.
  unfold size1, tform, mform. cbn [map hd].
  now rewrite length_map, length_seq.
Qed.

Section Module.

Variables (m : @MultiHeadedAttention F) (nh d : nat).
Hypothesis Hb : Built m nh d.

Lemma rope_row_length (i : nat) :
  is_rotary m = true -> i < 4096 ->
  exists dd, d = 2 * dd /\ length (rope_row m i) = dd.
Proof.
  intros Hr Hi. destruct (built_rotary m nh d Hb Hr)
    as (tbl & dd & Hrope & Hlen & Hrows & Hd).
  exists dd. split; [exact Hd|]. unfold rope_row. rewrite Hrope.
  rewrite Forall_forall in Hrows. apply Hrows, nth_In. lia.
Qed.

Lemma vec_lengths (xb : T2 F) (h i : nat) :
  h < nh -> (is_rotary m = true -> i < 4096) ->
  length (qvec m d xb h i) = d
  /\ length (kvec m d xb h i) = d
  /\ length (vvec m d xb h i) = d.
Proof.
  intros Hh Hi.
  pose proof (length_hv (linear_query m) nh d h (nth i xb [])
                (proj2 (built_query m nh d Hb)) Hh) as Hq.
  pose proof (length_hv (linear_keys m) nh d h (nth i xb [])
                (proj2 (built_keys m nh d Hb)) Hh) as Hk.
  pose proof (length_hv (linear_values m) nh d h (nth i xb [])
                (proj2 (built_values m nh d Hb)) Hh) as Hv.
  unfold qvec, kvec, vvec. cbv zeta.
  destruct (is_rotary m) eqn:Hr; [|tauto].
  destruct (rope_row_length i Hr (Hi eq_refl)) as (dd & Hd & Hrr).
  rewrite Hd in Hq, Hk |- *.
  repeat split; try (now apply length_rotv). now rewrite <- Hd.
Qed.

Lemma length_score0 (len : nat) (xb : T2 F) (h i : nat) :
  0 < len -> h < nh -> (is_rotary m = true -> len <= 4096) ->
  length (score0 m d len xb h i) = len.
Proof.
  intros Hlen Hh Hr. unfold score0.
  rewrite length_vecmat, hd_transpose_length.
  - unfold kmat. now rewrite length_map, length_seq.
  - unfold kmat. destruct len as [|len']; [lia|]. cbn [seq map hd].
    destruct (vec_lengths xb h 0 Hh ltac:(intros H; specialize (Hr H); lia))
      as (_ & Hk & _).
    pose proof (built_dim m nh d Hb). intros Hnil. rewrite Hnil in Hk.
    cbn in Hk. lia.
Qed.

Lemma length_zrow (e : Embedding) (len i : nat) :
  relative_positions_embeddings m = Some e -> 0 < len ->
  length (zrow e (max_relative_positions m) len i) = len
  /\ length (hd [] (zrow e (max_relative_positions m) len i)) = d
  /\ length (hd [] (transpose zero
                      (zrow e (max_relative_positions m) len i))) = len.
Proof.
  intros He Hlen. destruct (built_relative m nh d Hb e He) as (_ & _ & Hd).
  assert (H1 : length (zrow e (max_relative_positions m) len i) = len)
    by (unfold zrow; now rewrite length_map, length_seq).
  assert (H2 : length (hd [] (zrow e (max_relative_positions m) len i)) = d).
  { unfold zrow. destruct len as [|len']; [lia|]. cbn [seq map hd].
    now rewrite length_map, length_seq. }
  repeat split; auto.
  rewrite hd_transpose_length; [exact H1|].
  pose proof (built_dim m nh d Hb). intros Hnil. rewrite Hnil in H2.
  cbn in H2. lia.
Qed.

Lemma length_score (len : nat) (xb : T2 F) (h i : nat) :
  0 < len -> h < nh -> (is_rotary m = true -> len <= 4096) ->
  length (score m d len xb h i) = len.
Proof.
  intros Hlen Hh Hr. unfold score. rewrite length_map.
  pose proof (length_score0 len xb h i Hlen Hh Hr) as H0.
  destruct (relative_positions_embeddings m) as [e|] eqn:He.
  - apply length_vadd; [exact H0|].
    rewrite length_vecmat. now apply length_zrow.
  - assert (Ha : forall a, length (alibi_row a h i (score0 m d len xb h i))
                           = len).
    { intros a. unfold alibi_row.
      rewrite length_map, length_combine, length_seq. lia. }
    destruct (max_relative_positions m =? -2)%Z; [|exact H0].
    destruct (alibi m); [apply Ha|exact H0].
Qed.

Lemma length_attn_row (len : nat) (xb : T2 F) (h i : nat) :
  0 < len -> h < nh -> (is_rotary m = true -> len <= 4096) ->
  length (attn_row m d len xb h i) = len.
Proof.
  intros Hlen Hh Hr. unfold attn_row, softmax_row.
  rewrite !length_map. now apply length_score.
Qed.

Lemma length_ctx_vec (len : nat) (xb : T2 F) (h i : nat) :
  0 < len -> h < nh -> length (ctx_vec m d len xb h i) = d.
Proof.
  intros Hlen Hh. unfold ctx_vec. cbv zeta.
  assert (H0 : length (vecmat (attn_row m d len xb h i) (vmat m d len xb h))
               = d).
  { rewrite length_vecmat. unfold vmat.
    destruct len as [|len']; [lia|]. cbn [seq map hd]. unfold vvec.
    apply (length_hv _ nh); [apply (built_values m nh d Hb)|exact Hh]. }
  destruct (relative_positions_embeddings m) as [e|] eqn:He; [|exact H0].
  apply length_vadd; [exact H0|].
  rewrite length_vecmat. now apply length_zrow.
Qed.

Lemma mform_transpose (len : nat) (x : T3 F) :
  map (map (transpose zero)) (tform nh 0 len (kvec m d) x)
  = mform nh (fun xb h => transpose zero (kmat m d len xb h)) x.
Proof.
  unfold tform, mform, kmat. rewrite map_map. apply map_ext. intros xb.
  now rewrite map_map.
Qed.

Lemma expand_heads_keys (len : nat) (x : T3 F) :
  x <> [] -> 0 < len -> (is_rotary m = true -> len <= 4096) ->
  expand_heads (tform nh 0 len (kvec m d) x) nh
  = Ok (tform nh 0 len (kvec m d) x)
  /\ expand_heads (tform nh 0 len (vvec m d) x) nh
     = Ok (tform nh 0 len (vvec m d) x).
Proof.
  intros Hx Hlen Hr.
  pose proof (built_heads m nh d Hb) as Hnh.
  pose proof (built_dim m nh d Hb) as Hd.
  split; apply (expand_heads_mform nh _ x len d); auto;
    intros xb h _ Hh; (split; [now rewrite length_map, length_seq|]);
    apply Forall_map, Forall_forall; intros i Hi; apply in_seq in Hi;
    apply vec_lengths; auto; intros H; specialize (Hr H); lia.
Qed.

(** The scores of step 2 of [forward], from the queries of positions
    [s .. s+n-1] and the keys of positions [0 .. s+n-1]. *)
Lemma raw_scores_tform (xb0 : T2 F) (x' : T3 F) (s n : nat) :
  0 < n -> (is_rotary m = true -> s + n <= 4096) ->
  (if enabled (layer_cache m) then n = 1 else s = 0) ->
  raw_scores m (tform nh s n (qvec m d) (xb0 :: x'))
    (tform nh 0 (s + n) (kvec m d) (xb0 :: x'))
  = Ok (tform nh s n (score m d (s + n)) (xb0 :: x'),
        match relative_positions_embeddings m with
        | Some e => Some (map (zrow e (max_relative_positions m) (s + n))
                            (seq s n))
        | None => None
        end).
Proof.
  intros Hn Hr Hflag.
  pose proof (built_heads m nh d Hb) as Hnh.
  pose proof (built_dim m nh d Hb) as Hd.
  assert (Hx : xb0 :: x' <> []) by discriminate.
  assert (Hlen : 0 < s + n) by lia.
  destruct (expand_heads_keys (s + n) (xb0 :: x') Hx Hlen Hr)
    as [Hek Hev].
  assert (Hrs : forall i, is_rotary m = true -> i < s + n -> i < 4096)
    by (intros i H Hi; specialize (Hr H); lia).
  unfold raw_scores, scale. rewrite map4_tform. rewrite size1_tform.
  rewrite Hek. cbn [bind].
  rewrite mform_transpose.
  change (tform nh s n
            (fun xb h i => map (fun e => sdiv e (ssqrt (of_Z (dim_per_head m))))
                               (qvec m d xb h i)) (xb0 :: x'))
    with (tform nh s n (qscaled m d) (xb0 :: x')).
  rewrite (matmul_forms nh s n (qscaled m d)
             (fun xb h => transpose zero (kmat m d (s + n) xb h)) xb0 x'
             Hnh Hn).
  2:{ unfold qscaled. rewrite length_map, length_transpose.
      destruct (vec_lengths xb0 0 s Hnh
                  ltac:(intros H; apply Hrs; auto; lia))
        as (Hq & _ & _).
      rewrite Hq. unfold kmat.
      destruct (s + n) as [|len'] eqn:Hsn; [lia|]. cbn [seq map hd].
      destruct (vec_lengths xb0 0 0 Hnh
                  ltac:(intros H; specialize (Hr H); lia))
        as (_ & Hk & _).
      now rewrite Hk. }
  cbn [bind].
  change (tform nh s n
            (fun xb h i => vecmat (qscaled m d xb h i)
                             (transpose zero (kmat m d (s + n) xb h)))
            (xb0 :: x'))
    with (tform nh s n (score0 m d (s + n)) (xb0 :: x')).
  assert (Hsz : size2 (tform nh 0 (s + n) (kvec m d) (xb0 :: x')) = s + n).
  { destruct nh as [|k]; [lia|]. unfold size2, tform, mform.
    cbn [map hd seq]. now rewrite length_map, length_seq. }
  rewrite Hsz.
  destruct (relative_positions_embeddings m) as [e|] eqn:He.
  - destruct (built_relative m nh d Hb e He) as (Hm & Hne & Hed).
    assert (Hidx : gen_relative_positions (s + n)
                     (max_relative_positions m) (enabled (layer_cache m))
                   = map (fun i =>
                            map (fun j =>
                                   (clamp (- max_relative_positions m)
                                      (max_relative_positions m)
                                      (Z.of_nat j - Z.of_nat i)
                                    + max_relative_positions m)%Z)
                                (seq 0 (s + n)))
                         (seq s n)).
    { destruct (enabled (layer_cache m)).
      - subst n. replace (s + 1) with (S s) by lia.
        apply gen_relative_positions_cache.
      - subst s. cbn [Nat.add]. now apply gen_relative_positions_full. }
    rewrite Hidx, (embedding_relative e _ (s + n) s n Hm Hne). cbn [bind].
    destruct (length_zrow e (s + n) s He Hlen) as (Hz1 & Hz2 & Hz3).
    rewrite (relative_matmul_tform nh s n (qscaled m d)
               (zrow e (max_relative_positions m) (s + n)) true xb0 x'
               Hnh Hn).
    2:{ unfold qscaled. rewrite length_map, length_transpose, Hz2.
        apply vec_lengths; auto. intros H. apply Hrs; auto; lia. }
    cbn [bind]. rewrite add_tform. cbn [bind fst snd].
    rewrite map4_tform. do 2 f_equal.
    apply tform_ext. intros xb h i _ _ _. unfold score. now rewrite He.
  - destruct (max_relative_positions m =? -2)%Z eqn:Hal.
    + apply Z.eqb_eq in Hal.
      pose proof (built_alibi m nh d Hb He Hal) as Ha.
      destruct (alibi m) as [a|] eqn:Hali; [|congruence].
      cbn [bind fst snd]. rewrite alibi_tform, map4_tform.
      * do 2 f_equal. apply tform_ext. intros xb h i _ _ _.
        unfold score. rewrite He, Hali.
        replace (max_relative_positions m =? -2)%Z with true
          by (symmetry; now apply Z.eqb_eq).
        reflexivity.
      * intros xb h i _ Hh _. now apply length_score0.
    + cbn [bind fst snd]. rewrite map4_tform. do 2 f_equal.
      apply tform_ext. intros xb h i _ _ _. unfold score.
      now rewrite He, Hal.
Qed.

(** Step 3 of [forward] on rows [a] of attention weights. *)
Lemma context_of_tform (a : T2 F -> nat -> nat -> T1 F) (xb0 : T2 F)
    (x' : T3 F) (s n : nat) :
  0 < n -> (is_rotary m = true -> s + n <= 4096) ->
  length (a xb0 0 s) = s + n ->
  let x := xb0 :: x' in
  context_of noise m nh (tform nh s n a x) (tform nh 0 (s + n) (vvec m d) x)
    match relative_positions_embeddings m with
    | Some e => Some (map (zrow e (max_relative_positions m) (s + n))
                        (seq s n))
    | None => None
    end
  = Ok (map (fun xb =>
               map (fun i =>
                      linear_vec (final_linear m)
                        (concat (map (fun h => ctx_from m d (s + n)
                                                 (a xb h i) xb h i)
                                   (seq 0 nh))))
                   (seq s n)) x).
Proof.
  intros Hn Hr Ha x. subst x.
  pose proof (built_heads m nh d Hb) as Hnh.
  pose proof (built_dim m nh d Hb) as Hd.
  assert (Hx : xb0 :: x' <> []) by discriminate.
  assert (Hlen : 0 < s + n) by lia.
  destruct (expand_heads_keys (s + n) (xb0 :: x') Hx Hlen Hr)
    as [Hek Hev].
  unfold context_of, apply_dropout.
  rewrite (built_dropout m nh d Hb), orb_true_r, Hev. cbn [bind].
  change (tform nh 0 (s + n) (vvec m d) (xb0 :: x'))
    with (mform nh (vmat m d (s + n)) (xb0 :: x')).
  rewrite (matmul_forms nh s n a (vmat m d (s + n)) xb0 x' Hnh Hn).
  2:{ rewrite Ha. unfold vmat. now rewrite length_map, length_seq. }
  cbn [bind].
  assert (Hctx : match
                   match relative_positions_embeddings m with
                   | Some e => Some (map (zrow e (max_relative_positions m)
                                            (s + n)) (seq s n))
                   | None => None
                   end
                 with
                 | Some relations_values =>
                     r <- relative_matmul (tform nh s n a (xb0 :: x'))
                            relations_values false ;;
                     add_ (tform nh s n
                             (fun xb h i => vecmat (a xb h i)
                                              (vmat m d (s + n) xb h))
                             (xb0 :: x')) r
                 | None => Ok (tform nh s n
                                 (fun xb h i =>
                                    vecmat (a xb h i) (vmat m d (s + n) xb h))
                                 (xb0 :: x'))
                 end
                 = Ok (tform nh s n
                         (fun xb h i => ctx_from m d (s + n) (a xb h i) xb h i)
                         (xb0 :: x'))).
  { destruct (relative_positions_embeddings m) as [e|] eqn:He.
    - destruct (length_zrow e (s + n) s He Hlen)
        as (Hz1 & Hz2 & Hz3).
      rewrite (relative_matmul_tform nh s n a
                 (zrow e (max_relative_positions m) (s + n)) false xb0 x'
                 Hnh Hn).
      2:{ rewrite Ha. now rewrite Hz1. }
      cbn [bind]. rewrite add_tform. f_equal.
      apply tform_ext. intros xb h i _ _ _. unfold ctx_from. now rewrite He.
    - f_equal. apply tform_ext. intros xb h i _ _ _. unfold ctx_from.
      now rewrite He. }
  rewrite Hctx. cbn [bind]. rewrite (unshape_tform nh s n _ xb0 x' Hnh).
  rewrite linear_apply_rows.
  - reflexivity.
  - exact Hn.
  - intros xb i _ _. rewrite (built_final m nh d Hb).
    apply length_concat_uniform. intros h Hh.
    unfold ctx_from. cbv zeta.
    assert (H0 : length (vecmat (a xb h i) (vmat m d (s + n) xb h)) = d).
    { rewrite length_vecmat. unfold vmat.
      destruct (s + n) as [|len']; [lia|]. cbn [seq map hd]. unfold vvec.
      apply (length_hv _ nh); [apply (built_values m nh d Hb)|exact Hh]. }
    destruct (relative_positions_embeddings m) as [e|] eqn:He; [|exact H0].
    apply length_vadd; [exact H0|].
    rewrite length_vecmat. now apply length_zrow.
Qed.

(** Steps 2 and 3 of [forward] on the queries of positions
    [s .. s+n-1] against the keys and values of positions [0 .. s+n-1]:
    either all positions without the cache, or the last one with it. *)
Lemma attend_tform (xb0 : T2 F) (x' : T3 F) (s n : nat) :
  0 < n -> (is_rotary m = true -> s + n <= 4096) ->
  (if enabled (layer_cache m) then n = 1 else s = 0) ->
  let x := xb0 :: x' in
  attend noise m (tform nh s n (qvec m d) x)
    (tform nh 0 (s + n) (kvec m d) x) (tform nh 0 (s + n) (vvec m d) x) None
  = Ok (map (fun xb => map (out_row m d nh (s + n) xb) (seq s n)) x,
        tform nh s n (attn_row m d (s + n)) x).
Proof.
  intros Hn Hr Hflag x. subst x.
  pose proof (built_heads m nh d Hb) as Hnh.
  unfold attend. rewrite (raw_scores_tform xb0 x' s n Hn Hr Hflag).
  cbn [bind fst snd apply_mask].
  rewrite softmax_tform, map4_tform.
  change (tform nh s n
            (fun xb h i => map to_dtype (softmax_row (score m d (s + n) xb h i)))
            (xb0 :: x'))
    with (tform nh s n (attn_row m d (s + n)) (xb0 :: x')).
  rewrite size1_tform.
  pose proof (context_of_tform (attn_row m d (s + n)) xb0 x' s n Hn Hr)
    as Hctx.
  cbv zeta in Hctx.
  rewrite Hctx by (apply length_attn_row; auto; lia).
  reflexivity.
Qed.

(** *** Step 1 of [forward] on a window of the input *)

Section Input.

Variables (xb0 : T2 F) (x' : T3 F).
Let x : T3 F := xb0 :: x'.
Hypothesis Hx : is_tensor3 x = true.
Hypothesis Hx2 : size2 x = nh * d.

Lemma input_rows (xb : T2 F) :
  In xb x ->
  length xb = size1 x
  /\ forall i, i < size1 x -> length (nth i xb []) = nh * d.
Proof.
  intros Hxb. apply rect3_iff in Hx as [_ Hrows].
  rewrite Forall_forall in Hrows. destruct (Hrows xb Hxb) as [Hl Hr].
  split; [exact Hl|]. intros i Hi. rewrite <- Hx2.
  rewrite Forall_forall in Hr. apply Hr, nth_In. lia.
Qed.

Lemma input_window (s n : nat) :
  s + n <= size1 x ->
  map (fun xb => firstn n (skipn s xb)) x
  = map (fun xb => map (fun i => nth i xb []) (seq s n)) x.
Proof.
  intros Hs. apply map_ext_in. intros xb Hxb.
  destruct (input_rows xb Hxb) as [Hl _].
  apply window_seq. lia.
Qed.

Lemma linear_window (l : @Linear F) (s n : nat) :
  in_features l = nh * d /\ out_features l = nh * d ->
  0 < n -> s + n <= size1 x ->
  linear_apply l (map (fun xb => firstn n (skipn s xb)) x)
  = Ok (map (fun xb => map (fun i => linear_vec l (nth i xb [])) (seq s n)) x)
  /\ shape (map (fun xb => map (fun i => linear_vec l (nth i xb []))
                               (seq s n)) x)
       (dim_per_head m)
     = Ok (tform nh s n (fun xb h i => hv l d h (nth i xb [])) x).
Proof.
  intros [Hin Hout] Hn Hs. split.
  - rewrite input_window by exact Hs.
    apply (linear_apply_rows l s n (fun xb i => nth i xb []) xb0 x' Hn).
    intros xb i Hxb Hi. rewrite Hin.
    apply (input_rows xb Hxb). lia.
  - apply (shape_rows (dim_per_head m) d nh s n
             (fun xb i => linear_vec l (nth i xb [])) xb0 x').
    + apply (built_dim_per_head m nh d Hb).
    + apply (built_dim m nh d Hb).
    + apply (built_heads m nh d Hb).
    + exact Hn.
    + now rewrite length_linear_vec.
Qed.

Lemma maybe_rotary_tform (s n : nat) :
  0 < n -> (is_rotary m = true -> s + n <= 4096) ->
  maybe_rotary m s
    (tform nh s n (fun xb h i => hv (linear_query m) d h (nth i xb [])) x)
    (tform nh s n (fun xb h i => hv (linear_keys m) d h (nth i xb [])) x)
  = Ok (tform nh s n (qvec m d) x, tform nh s n (kvec m d) x).
Proof.
  intros Hn Hr. unfold maybe_rotary.
  change (max_relative_positions m =? -1)%Z with (is_rotary m).
  pose proof (built_heads m nh d Hb) as Hnh.
  destruct (is_rotary m) eqn:Hrot.
  - destruct (built_rotary m nh d Hb Hrot)
      as (tbl & dd & Hrope & Hlen & Hrows & Hd).
    specialize (Hr eq_refl).
    unfold x.
    rewrite (rotary_tform m nh s n dd _ _ tbl xb0 x' Hrope).
    + f_equal. f_equal; apply tform_ext; intros xb h i _ _ _;
        unfold qvec, kvec, rope_row; now rewrite Hrot, Hrope.
    + lia.
    + exact Hnh.
    + exact Hn.
    + rewrite <- Hd.
      apply (length_hv _ nh); [apply (built_query m nh d Hb)|exact Hnh].
    + rewrite <- Hd.
      apply (length_hv _ nh); [apply (built_keys m nh d Hb)|exact Hnh].
    + rewrite Forall_forall in Hrows. apply Hrows, nth_In. lia.
  - f_equal. f_equal; apply tform_ext; intros xb h i _ _ _;
      unfold qvec, kvec; now rewrite Hrot.
Qed.

Lemma project_train (len : nat) :
  enabled (layer_cache m) = false ->
  0 < len -> len <= size1 x -> (is_rotary m = true -> len <= 4096) ->
  project m (prefix x len) (prefix x len) (prefix x len) 0
  = Ok (tform nh 0 len (qvec m d) x, tform nh 0 len (kvec m d) x,
        tform nh 0 len (vvec m d) x, layer_cache m).
Proof.
  intros Hen Hlen HN Hr. unfold project. rewrite Hen.
  change (prefix x len) with (map (fun xb => firstn len (skipn 0 xb)) x).
  destruct (linear_window (linear_keys m) 0 len (built_keys m nh d Hb)
              Hlen HN) as [-> Hk].
  destruct (linear_window (linear_values m) 0 len (built_values m nh d Hb)
              Hlen HN) as [-> Hv].
  destruct (linear_window (linear_query m) 0 len (built_query m nh d Hb)
              Hlen HN) as [-> Hq].
  cbn [bind]. rewrite Hk, Hv, Hq. cbn [bind].
  rewrite maybe_rotary_tform by auto. reflexivity.
Qed.

Lemma numel4_tform (s : nat) (g : T2 F -> nat -> nat -> T1 F) :
  0 < s -> (forall xb h i, In xb x -> h < nh -> i < s ->
              length (g xb h i) = d) ->
  numel4 (tform nh 0 s g x) <> 0.
Proof.
  intros Hs Hg.
  pose proof (built_heads m nh d Hb) as Hnh.
  pose proof (built_dim m nh d Hb) as Hd.
  destruct (mform_tensor nh (fun xb h => map (g xb h) (seq 0 s)) x s d
              ltac:(discriminate) Hnh Hs) as (_ & H0 & H1 & H2 & H3).
  { intros xb h Hxb Hh. split; [now rewrite length_map, length_seq|].
    apply Forall_map, Forall_forall. intros i Hi. apply in_seq in Hi.
    apply Hg; auto. lia. }
  unfold numel4. fold (tform nh 0 s g x) in H0, H1, H2, H3.
  rewrite H0, H1, H2, H3. unfold x. cbn [length]. nia.
Qed.

Lemma project_decode (s : nat) :
  enabled (layer_cache m) = true ->
  attn_type m = Some "self"%string ->
  keys (layer_cache m) = (if s =? 0 then [] else tform nh 0 s (kvec m d) x) ->
  values (layer_cache m)
  = (if s =? 0 then [] else tform nh 0 s (vvec m d) x) ->
  s < size1 x -> (is_rotary m = true -> s < 4096) ->
  project m (token x s) (token x s) (token x s) s
  = Ok (tform nh s 1 (qvec m d) x, tform nh 0 (S s) (kvec m d) x,
        tform nh 0 (S s) (vvec m d) x,
        {| enabled := true;
           keys := tform nh 0 (S s) (kvec m d) x;
           values := tform nh 0 (S s) (vvec m d) x |}).
Proof.
  intros Hen Hself Hkeys Hvals HN Hr. unfold project, is_attn_type.
  rewrite Hen, Hself. cbv beta iota. rewrite String.eqb_refl.
  change (token x s) with (map (fun xb => firstn 1 (skipn s xb)) x).
  destruct (linear_window (linear_query m) s 1 (built_query m nh d Hb)
              ltac:(lia) ltac:(lia)) as [-> Hq].
  destruct (linear_window (linear_keys m) s 1 (built_keys m nh d Hb)
              ltac:(lia) ltac:(lia)) as [-> Hk].
  destruct (linear_window (linear_values m) s 1 (built_values m nh d Hb)
              ltac:(lia) ltac:(lia)) as [-> Hv].
  cbn [bind]. rewrite Hq, Hk, Hv. cbn [bind].
  rewrite maybe_rotary_tform
    by (try lia; intros H; specialize (Hr H); lia).
  cbn [bind fst snd]. rewrite Hkeys, Hvals.
  change (tform nh s 1 (fun xb h i => hv (linear_values m) d h (nth i xb []))
            x) with (tform nh s 1 (vvec m d) x).
  pose proof (built_heads m nh d Hb) as Hnh.
  assert (Hlens : forall xb h i, i <= s ->
            h < nh ->
            length (kvec m d xb h i) = d /\ length (vvec m d xb h i) = d).
  { intros xb h i Hi Hh.
    destruct (vec_lengths xb h i Hh) as (_ & Hk' & Hv'); [|tauto].
    intros H. specialize (Hr H). lia. }
  destruct s as [|s'].
  - cbn [Nat.eqb numel4 size0 length Nat.mul negb bind]. reflexivity.
  - cbn [Nat.eqb].
    assert (Hnk : numel4 (tform nh 0 (S s') (kvec m d) x) <> 0).
    { apply numel4_tform; [lia|]. intros xb h i _ Hh Hi.
      apply Hlens; [lia|exact Hh]. }
    assert (Hnv : numel4 (tform nh 0 (S s') (vvec m d) x) <> 0).
    { apply numel4_tform; [lia|]. intros xb h i _ Hh Hi.
      apply Hlens; [lia|exact Hh]. }
    apply Nat.eqb_neq in Hnk, Hnv. rewrite Hnk, Hnv. cbn [negb].
    rewrite (cat2_tform nh (S s') (kvec m d) x d)
      by (try discriminate; try lia; intros xb h i _ Hh Hi;
          now apply Hlens).
    cbn [bind].
    rewrite (cat2_tform nh (S s') (vvec m d) x d)
      by (try discriminate; try lia; intros xb h i _ Hh Hi;
          now apply Hlens).
    reflexivity.
Qed.

End Input.

End Module.

(** *** Both runs, in closed form *)

Section Runs.

Variables (m : @MultiHeadedAttention F) (nh d : nat).
Hypothesis Hb : Built m nh d.
Variables (xb0 : T2 F) (x' : T3 F).
Let x : T3 F := xb0 :: x'.
Hypothesis Hx : is_tensor3 x = true.
Hypothesis Hx2 : size2 x = nh * d.

Lemma forward_train (len : nat) :
  enabled (layer_cache m) = false ->
  0 < len -> len <= size1 x -> (is_rotary m = true -> len <= 4096) ->
  forward noise m (prefix x len) (prefix x len) (prefix x len) None 0
  = (with_cache m (layer_cache m),
     Ok (map (fun xb => map (out_row m d nh len xb) (seq 0 len)) x,
         tform nh 0 len (attn_row m d len) x)).
Proof.
  intros Hen Hlen HN Hr. unfold forward.
  pose proof (project_train m nh d Hb xb0 x' Hx Hx2 len Hen Hlen HN Hr)
    as Hp.
  fold x in Hp. rewrite Hp. f_equal.
  exact (attend_tform (with_cache m (layer_cache m)) nh d
           (built_with_cache m (layer_cache m) nh d Hb) xb0 x' 0 len Hlen Hr
           ltac:(cbn [with_cache layer_cache]; now rewrite Hen)).
Qed.

Lemma forward_decode (s : nat) :
  attn_type m = Some "self"%string ->
  s < size1 x -> (is_rotary m = true -> s < 4096) ->
  forward noise (with_cache m (cache_after m nh d x s))
    (token x s) (token x s) (token x s) None s
  = (with_cache m (cache_after m nh d x (S s)),
     Ok (map (fun xb => map (out_row m d nh (S s) xb) (seq s 1)) x,
         tform nh s 1 (attn_row m d (S s)) x)).
Proof.
  intros Hself HN Hr. unfold forward.
  pose proof (project_decode (with_cache m (cache_after m nh d x s)) nh d
                (built_with_cache m _ nh d Hb) xb0 x' Hx Hx2 s
                eq_refl Hself eq_refl eq_refl HN Hr) as Hp.
  fold x in Hp. rewrite Hp. f_equal.
  pose proof (attend_tform
                (with_cache m (cache_after m nh d x (S s))) nh d
                (built_with_cache m _ nh d Hb) xb0 x' s 1 ltac:(lia)
                ltac:(intros H; specialize (Hr H); lia) eq_refl) as Ha.
  cbv zeta in Ha. fold x in Ha.
  replace (s + 1) with (S s) in Ha by lia. exact Ha.
Qed.

(** The decoding loop, by induction on the step. *)
Lemma decode_steps_closed (t : nat) :
  attn_type m = Some "self"%string ->
  t < size1 x -> (is_rotary m = true -> t < 4096) ->
  decode_steps noise (start_decoding m) x t
  = (with_cache m (cache_after m nh d x (S t)),
     Ok (map (fun xb => map (out_row m d nh (S t) xb) (seq t 1)) x,
         tform nh t 1 (attn_row m d (S t)) x)).
Proof.
  intros Hself. induction t as [|t IH]; intros HN Hr.
  - exact (forward_decode 0 Hself HN Hr).
  - cbn [decode_steps].
    rewrite IH by (try lia; intros H; specialize (Hr H); lia).
    exact (forward_decode (S t) Hself HN Hr).
Qed.

End Runs.

End Equivalence.

Section CacheEquivalence.

Context {F : Type} {ops : Scalar F} (theta : @Params F)
  (noise : Q -> T4 F -> T4 F).

(** What [init] builds for a positive head count, a positive model
    dimension and dropout 0. *)
Lemma init_built hc md p mrp at_ bias nkv ck m0 :
  init theta hc md p mrp at_ bias nkv ck = Ok m0 ->
  (0 < hc)%Z -> (0 < md)%Z -> Qeq_bool p 0 = true ->
  (mrp = (-1)%Z -> Z.even (md / hc) = true) ->
  Built m0 (Z.to_nat hc) (Z.to_nat (md / hc))
  /\ Z.to_nat md = Z.to_nat hc * Z.to_nat (md / hc)
  /\ layer_cache m0 = empty_cache
  /\ attn_type m0 = at_
  /\ max_relative_positions m0 = mrp.
Proof.
  unfold init. intros H Hhc Hmd Hp Heven.
  destruct (hc =? 0)%Z; [discriminate|].
  destruct (md mod hc =? 0)%Z eqn:Hmod; cbn [negb] in H; [|discriminate].
  apply Z.eqb_eq in Hmod.
  assert (Hdiv : md = (hc * (md / hc))%Z)
    by (apply Z_div_exact_full_2; lia).
  assert (Hq : (0 < md / hc)%Z) by nia.
  assert (Hnat : Z.to_nat md = Z.to_nat hc * Z.to_nat (md / hc))
    by (rewrite Hdiv at 1; apply Z2Nat.inj_mul; lia).
  unfold new_linear in H.
  assert (Hneg : (md <? 0)%Z = false) by (apply Z.ltb_ge; lia).
  rewrite Hneg in H. cbn [bind] in H.
  unfold new_dropout in H.
  destruct (Qle_bool 0 p && Qle_bool p 1); cbn [bind] in H; [|discriminate].
  set (ckpt := existsb (String.eqb "mha") ck) in H.
  destruct (mrp >? 0)%Z eqn:Hgt.
  - unfold new_embedding in H.
    assert (He : ((mrp * 2 + 1 <? 0) || (md / hc <? 0))%Z = false).
    { apply orb_false_iff. split; apply Z.ltb_ge; lia. }
    rewrite He in H. cbn [bind] in H.
    destruct ckpt; [discriminate|]. injection H as <-.
    split; [|cbn; auto].
    constructor; cbn -[Z.mul Z.add Z.to_nat Nat.mul]; try lia; auto.
    + intros e [= <-]. cbn. split; [lia|auto].
    + unfold is_rotary.
      cbn [max_relative_positions].
      intros Hrot. apply Z.eqb_eq in Hrot. lia.
  - assert (Hrope :
      exists r,
        (if (mrp =? -1)%Z
         then t <- rotaryembeddings (md / hc) 4096 10000 ;; Ok (Some t)
         else Ok None) = Ok r
        /\ ((mrp =? -1)%Z = true ->
            exists tbl dd,
              r = Some tbl /\ length tbl = 4096
              /\ Forall (fun row => length row = dd) tbl
              /\ Z.to_nat (md / hc) = 2 * dd)).
    { destruct (mrp =? -1)%Z eqn:Hrot.
      - unfold rotaryembeddings.
        assert (Hn : (md / hc <? 0)%Z = false) by (apply Z.ltb_ge; lia).
        rewrite Hn. cbn [bind]. eexists. split; [reflexivity|].
        intros _. eexists. exists (Z.to_nat ((md / hc + 1) / 2)).
        split; [reflexivity|]. split; [now rewrite length_map, length_seq|].
        split.
        + apply Forall_map, Forall_forall. intros t _.
          now rewrite !length_map, length_seq.
        + apply Z.eqb_eq in Hrot. specialize (Heven Hrot).
          apply Z.even_spec in Heven as [k Hk].
          assert (Hhalf : ((md / hc + 1) / 2 = k)%Z)
            by (rewrite Hk; symmetry; apply Z.div_unique with 1%Z; lia).
          rewrite Hhalf. lia.
      - eexists. split; [reflexivity|]. discriminate. }
    destruct Hrope as (r & Hr & Hrot). rewrite Hr in H. cbn [bind] in H.
    destruct ckpt; [discriminate|]. injection H as <-.
    split; [|cbn; auto].
    constructor; cbn -[Z.mul Z.add Z.to_nat Nat.mul]; try lia; auto.
    + discriminate.
    + intros _ ->. discriminate.
Qed.

Lemma skipn_last_seq (t : nat) : skipn t (seq 0 (S t)) = seq t 1.
Proof.
  rewrite skipn_seq. replace (S t - t) with 1 by lia. reflexivity.
Qed.

(** Both runs on a module as [init] leaves it: the call without cache on
    the first [t + 1] positions and the decode steps up to [t] succeed and
    agree at position [t]. *)
Lemma built_cache_equivalence m0 nh d (x : T3 F) t :
  Built m0 nh d ->
  layer_cache m0 = empty_cache ->
  attn_type m0 = Some "self"%string ->
  (is_rotary m0 = true -> t < 4096) ->
  is_tensor3 x = true -> 0 < size0 x -> size2 x = nh * d ->
  t < size1 x ->
  exists m1 ctx attn m2 ctx' attn',
    forward noise m0 (prefix x (S t)) (prefix x (S t)) (prefix x (S t))
      None 0 = (m1, Ok (ctx, attn))
    /\ decode_steps noise (start_decoding m0) x t = (m2, Ok (ctx', attn'))
    /\ position ctx t = ctx'
    /\ map (map (skipn t)) attn = attn'.
Proof.
  intros Hb Hcache Hself Hr Hx H0 H2 Ht.
  destruct x as [|xb0 x']; [cbn in H0; lia|].
  pose proof (forward_train noise m0 _ _ Hb xb0 x' Hx H2 (S t)
                ltac:(now rewrite Hcache) ltac:(lia) ltac:(lia)
                ltac:(intros H; specialize (Hr H); lia)) as Htrain.
  pose proof (decode_steps_closed noise m0 _ _ Hb xb0 x' Hx H2 t Hself Ht
                Hr) as Hdec.
  do 6 eexists. split; [exact Htrain|]. split; [exact Hdec|]. split.
  - unfold position, prefix. rewrite !map_map. apply map_ext. intros xb.
    rewrite firstn_all2 by now rewrite length_map, length_seq.
    now rewrite skipn_map, skipn_last_seq.
  - unfold tform, mform. rewrite !map_map. apply map_ext. intros xb.
    rewrite map_map. apply map_ext. intros h.
    now rewrite skipn_map, skipn_last_seq.
Qed.

(** Without a mask, for a module built with a positive head count and model
    dimension, [attn_type] "self" and dropout 0, in any positional mode
    (rotary with an even [dim_per_head] and a position below the 4096
    entries of the table), and an input of at least [t + 1] positions: one
    call without cache and without mask on the first [t + 1] positions and
    [t + 1] decode steps of one position each, with [step] the position,
    both succeed, and position [t] of the first is the context vector (and
    the attention row) of decode step [t]. *)
Theorem cache_equivalence_without_mask :
  forall hc md p mrp bias nkv ck m0 x t,
    init theta hc md p mrp (Some "self"%string) bias nkv ck = Ok m0 ->
    (0 < hc)%Z -> (0 < md)%Z -> Qeq_bool p 0 = true ->
    (mrp = (-1)%Z -> Z.even (md / hc) = true /\ t < 4096) ->
    is_tensor3 x = true -> 0 < size0 x -> size2 x = Z.to_nat md ->
    t < size1 x ->
    exists m1 ctx attn m2 ctx' attn',
      forward noise m0 (prefix x (S t)) (prefix x (S t)) (prefix x (S t))
        None 0 = (m1, Ok (ctx, attn))
      /\ decode_steps noise (start_decoding m0) x t = (m2, Ok (ctx', attn'))
      /\ position ctx t = ctx'
      /\ map (map (skipn t)) attn = attn'.
Proof.
  intros hc md p mrp bias nkv ck m0 x t Hinit Hhc Hmd Hp Hrot Hx H0 H2 Ht.
  destruct (init_built _ _ _ _ _ _ _ _ _ Hinit Hhc Hmd Hp
              (fun H => proj1 (Hrot H)))
    as (Hb & Hnat & Hcache & Hself & Hmrp).
  rewrite Hnat in H2.
  apply (built_cache_equivalence _ _ _ _ _ Hb Hcache Hself); auto.
  unfold is_rotary. rewrite Hmrp. intros H. apply Z.eqb_eq in H.
  now destruct (Hrot H).
Qed.

End CacheEquivalence.

Lemma cache_equivalence_without_mask_witness :
  exists m1 ctx attn m2 ctx' attn',
    forward ex_noise ex_self (prefix ex_x 2) (prefix ex_x 2) (prefix ex_x 2)
      None 0 = (m1, Ok (ctx, attn))
    /\ decode_steps ex_noise (start_decoding ex_self) ex_x 1
       = (m2, Ok (ctx', attn'))
    /\ position ctx 1 = ctx'
    /\ map (map (skipn 1)) attn = attn'.
Proof.
  apply (cache_equivalence_without_mask ex_theta ex_noise
           1 1 0 1 false 0 [] ex_self ex_x 1 ex_self_built).
  - lia.
  - lia.
  - reflexivity.
  - intros H. discriminate H.
  - reflexivity.
  - cbn. lia.
  - reflexivity.
  - cbn. lia.
Defined.

(** The hypotheses of cache equivalence are met in rotary and in ALiBi
    mode as well: two heads of dimension two, three positions. *)
Lemma cache_equivalence_other_modes (mrp : Z) :
  mrp = (-1)%Z \/ mrp = (-2)%Z ->
  forall t, t < 3 ->
  exists m0 m1 ctx attn m2 ctx' attn',
    let x : T3 R := [[[1; 2; 3; 4]; [5; 6; 7; 8]; [9; 10; 11; 12]]]%R in
    init ex_theta 2 4 0 mrp (Some "self"%string) true 0 [] = Ok m0
    /\ forward ex_noise m0 (prefix x (S t)) (prefix x (S t)) (prefix x (S t))
         None 0 = (m1, Ok (ctx, attn))
    /\ decode_steps ex_noise (start_decoding m0) x t = (m2, Ok (ctx', attn'))
    /\ position ctx t = ctx'.
Proof.
  intros Hmode t Ht.
  assert (Hinit : exists m0,
             init ex_theta 2 4 0 mrp (Some "self"%string) true 0 [] = Ok m0)
    by (destruct Hmode as [-> | ->]; eexists; reflexivity).
  destruct Hinit as [m0 Hinit].
  destruct (init_built ex_theta _ _ _ _ _ _ _ _ _ Hinit
              ltac:(lia) ltac:(lia) eq_refl ltac:(intros _; reflexivity))
    as (Hb & _ & Hcache & Hself & Hmrp).
  destruct (built_cache_equivalence ex_noise m0 _ _
              [[[1; 2; 3; 4]; [5; 6; 7; 8]; [9; 10; 11; 12]]]%R t
              Hb Hcache Hself ltac:(intros _; lia) eq_refl
              ltac:(cbn; lia) eq_refl ltac:(cbn; lia))
    as (m1 & ctx & attn & m2 & ctx' & attn' & H1 & H2 & H3 & _).
  exists m0, m1, ctx, attn, m2, ctx', attn'. cbv zeta. auto.
Qed.

(** * Further properties

    What the helper functions, the constructor and [forward] do beyond the
    properties above. *)

(** ** Relative positions *)

Section RelativePositions.

Context {F : Type} {ops : Scalar F}.

Lemma clamp_shift_range (mrp v : Z) :
  (0 <= mrp)%Z -> (0 <= clamp (- mrp) mrp v + mrp <= 2 * mrp)%Z.
Proof. unfold clamp. lia. Qed.

Lemma gen_relative_positions_range (len : nat) (mrp : Z) (cache : bool) :
  (0 <= mrp)%Z ->
  Forall (Forall (fun v => (0 <= v <= 2 * mrp)%Z))
    (gen_relative_positions len mrp cache).
Proof.
  intros Hm. unfold gen_relative_positions.
  apply Forall_map, Forall_forall. intros row _.
  apply Forall_map, Forall_forall. intros v _.
  now apply clamp_shift_range.
Qed.

Lemma mapM_total {A B : Type} (f : A -> Result B) (l : list A) :
  (forall a, In a l -> exists b, f a = Ok b) -> exists y, mapM f l = Ok y.
Proof.
  induction l as [|a l IH]; intros H; cbn; [eauto|].
  destruct (H a (or_introl eq_refl)) as [b ->].
  destruct IH as [y ->]; [intros; apply H; now right|].
  cbn. eauto.
Qed.

(** X1.  The indices [gen_relative_positions] produces lie between 0 and
    [2 * max_relative_positions], so that the lookup in an embedding of
    [2 * max_relative_positions + 1] entries, as the constructor builds
    it, never raises. *)
Theorem relative_positions_index_in_range :
  forall (e : @Embedding F) len mrp cache,
    (0 <= mrp)%Z ->
    num_embeddings e = Z.to_nat (mrp * 2 + 1) ->
    Forall (Forall (fun v => (0 <= v <= 2 * mrp)%Z))
      (gen_relative_positions len mrp cache)
    /\ exists rk, embedding e (gen_relative_positions len mrp cache) = Ok rk.
Proof.
  intros e len mrp cache Hm He.
  pose proof (gen_relative_positions_range len mrp cache Hm) as Hr.
  split; [exact Hr|].
  unfold embedding. apply mapM_total. intros row Hrow.
  apply mapM_total. intros v Hv.
  rewrite Forall_forall in Hr. specialize (Hr row Hrow).
  rewrite Forall_forall in Hr. specialize (Hr v Hv).
  assert (Hin : ((0 <=? v) && (v <? Z.of_nat (num_embeddings e)))%Z = true).
  { rewrite He. apply andb_true_iff. split; [apply Z.leb_le|apply Z.ltb_lt]; lia. }
  rewrite Hin. eauto.
Qed.

(** X2.  With [cache=True] the matrix has the single row a decode step
    needs: the last row of the matrix of the same length without cache. *)
Theorem relative_positions_decode_row :
  forall len mrp,
    0 < len ->
    gen_relative_positions len mrp true
    = skipn (len - 1) (gen_relative_positions len mrp false).
Proof.
  intros len mrp Hlen. destruct len as [|n]; [lia|].
  rewrite gen_relative_positions_cache, gen_relative_positions_full by lia.
  rewrite skipn_map, skipn_seq.
  replace (S n - 1) with n by lia. replace (S n - n) with 1 by lia.
  reflexivity.
Qed.

(** X3.  Without cache the matrix is square, [length] by [length], and its
    entry at row [i] and column [j] is the distance [j - i] clipped to
    [-max_relative_positions .. max_relative_positions] and shifted by
    [max_relative_positions]. *)
Theorem relative_positions_entry :
  forall len mrp i j,
    i < len -> j < len ->
    length (gen_relative_positions len mrp false) = len
    /\ length (nth i (gen_relative_positions len mrp false) []) = len
    /\ nth j (nth i (gen_relative_positions len mrp false) []) 0%Z
       = (Z.min mrp (Z.max (- mrp) (Z.of_nat j - Z.of_nat i)) + mrp)%Z.
Proof.
  intros len mrp i j Hi Hj.
  rewrite gen_relative_positions_full by lia.
  rewrite length_map, length_seq. split; [reflexivity|].
  rewrite (nth_map_seq [] _ len i Hi).
  rewrite length_map, length_seq. split; [reflexivity|].
  now rewrite (nth_map_seq 0%Z _ len j Hj).
Qed.

End RelativePositions.

Lemma relative_positions_index_in_range_witness :
  Forall (Forall (fun v => (0 <= v <= 2 * 1)%Z))
    (gen_relative_positions 3 1 false)
  /\ exists rk, embedding ex_embedding (gen_relative_positions 3 1 false)
                = Ok rk.
Proof.
  apply (relative_positions_index_in_range ex_embedding 3 1 false).
  - lia.
  - reflexivity.
Defined.

Lemma relative_positions_decode_row_witness :
  gen_relative_positions 3 1 true
  = skipn (3 - 1) (gen_relative_positions 3 1 false).
Proof. apply (relative_positions_decode_row 3 1). lia. Defined.

Lemma relative_positions_entry_witness :
  length (gen_relative_positions 3 1 false) = 3
  /\ length (nth 0 (gen_relative_positions 3 1 false) []) = 3
  /\ nth 2 (nth 0 (gen_relative_positions 3 1 false) []) 0%Z
     = (Z.min 1 (Z.max (- 1) (Z.of_nat 2 - Z.of_nat 0)) + 1)%Z.
Proof. apply (relative_positions_entry 3 1 0 2); lia. Defined.

(** ** Heads: [shape] and [unshape] *)

Section Reshape.

Context {F : Type} {ops : Scalar F}.

Lemma map_nth_seq_id {A : Type} (d : A) (l : list A) :
  map (fun i => nth i l d) (seq 0 (length l)) = l.
Proof.
  rewrite (map_seq_elements (fun i => nth i l d) (fun a => a) l).
  - apply map_id.
  - intros j a Hj. now apply nth_error_nth.
Qed.

Lemma concat_chunks {A : Type} (d nh : nat) (row : list A) :
  length row = nh * d ->
  concat (map (fun h => firstn d (skipn (h * d) row)) (seq 0 nh)) = row.
Proof.
  revert row. induction nh as [|nh IH]; intros row Hlen.
  - destruct row; [reflexivity|discriminate].
  - cbn [seq map concat]. rewrite <- seq_shift, map_map.
    change (skipn (0 * d) row) with row.
    transitivity (firstn d row ++ skipn d row); [|apply firstn_skipn].
    f_equal.
    rewrite <- (IH (skipn d row)) by (rewrite length_skipn; lia).
    f_equal. apply map_ext. intros h.
    rewrite skipn_skipn. f_equal. f_equal. lia.
Qed.

Lemma chunk_concat {A : Type} (d : nat) (vs : list (list A)) (h : nat) :
  Forall (fun v => length v = d) vs -> h < length vs ->
  firstn d (skipn (h * d) (concat vs)) = nth h vs [].
Proof.
  revert h. induction vs as [|v vs IH]; intros h Hall Hh; [cbn in Hh; lia|].
  inversion Hall as [|? ? Hv Hvs]; subst.
  destruct h as [|h]; cbn [concat nth Nat.mul skipn].
  - rewrite firstn_app, Nat.sub_diag, firstn_O, app_nil_r.
    now apply firstn_all.
  - rewrite skipn_app.
    rewrite (skipn_all2 v) by lia. cbn [app].
    replace (length v + h * length v - length v) with (h * length v) by lia.
    apply IH; [assumption|cbn in Hh; lia].
Qed.

Lemma shape_inv (x : T3 F) (dph : Z) (y : T4 F) :
  shape x dph = Ok y ->
  (0 < dph)%Z /\ numel3 x <> 0 /\ size2 x mod Z.to_nat dph = 0
  /\ y = mform (size2 x / Z.to_nat dph)
           (fun xb h =>
              map (fun row => firstn (Z.to_nat dph)
                                (skipn (h * Z.to_nat dph) row)) xb) x.
Proof.
  unfold shape, guard.
  destruct ((0 <? dph)%Z && negb (numel3 x =? 0)
            && (size2 x mod Z.to_nat dph =? 0)) eqn:Hg; cbn; [|discriminate].
  apply andb_true_iff in Hg as [Hg H3]. apply andb_true_iff in Hg as [H1 H2].
  apply Z.ltb_lt in H1. apply negb_true_iff, Nat.eqb_neq in H2.
  apply Nat.eqb_eq in H3. intros [= <-]. auto.
Qed.

Lemma tensor3_rows (x : T3 F) :
  is_tensor3 x = true ->
  forall xb, In xb x ->
    length xb = size1 x /\ Forall (fun row => length row = size2 x) xb.
Proof.
  unfold is_tensor3. rewrite rect3_iff, Forall_forall. intros [_ H]. exact H.
Qed.

Lemma numel3_nonzero (x : T3 F) :
  numel3 x <> 0 -> x <> [] /\ 0 < size1 x /\ 0 < size2 x.
Proof.
  unfold numel3. intros H. repeat split.
  - intros ->. apply H. reflexivity.
  - destruct (size1 x); [exfalso; apply H; lia|lia].
  - destruct (size2 x); [exfalso; apply H; lia|lia].
Qed.

(** The sizes of what [shape] returns. *)
Lemma shape_dims (x : T3 F) dph y :
    is_tensor3 x = true ->
    shape x dph = Ok y ->
    is_tensor4 y = true
    /\ size0 y = size0 x
    /\ size1 y * Z.to_nat dph = size2 x
    /\ size2 y = size1 x
    /\ size3 y = Z.to_nat dph.
Proof.
  intros Hx Hs.
  apply shape_inv in Hs as (Hd & Hn & Hmod & ->).
  apply numel3_nonzero in Hn as (Hne & H1 & H2).
  set (d := Z.to_nat dph) in *.
  assert (Hd' : 0 < d) by (unfold d; lia).
  assert (Hnh : size2 x = size2 x / d * d).
  { pose proof (Nat.div_mod_eq (size2 x) d). lia. }
  assert (Hpos : 0 < size2 x / d) by (destruct (size2 x / d); lia).
  destruct (mform_tensor (size2 x / d)
              (fun xb h => map (fun row => firstn d (skipn (h * d) row)) xb)
              x (size1 x) d Hne Hpos H1) as (Ht & S0 & S1 & S2 & S3).
  { intros xb h Hin Hh.
    destruct (tensor3_rows x Hx xb Hin) as [Hl Hrows].
    rewrite length_map. split; [exact Hl|].
    apply Forall_map. eapply Forall_impl; [|exact Hrows].
    intros row Hrow. cbv beta.
    rewrite length_firstn, length_skipn, Hrow.
    assert (S h * d <= size2 x / d * d) by (apply Nat.mul_le_mono_r; lia).
    lia. }
  rewrite S1. repeat split; auto.
Qed.

(** X4.  [shape] turns a (batch, length, modeldim) tensor into a
    (batch, heads, length, dimperhead) tensor with
    heads * dimperhead = modeldim. *)
Theorem shape_sizes :
  forall (x : T3 F) dph y,
    is_tensor3 x = true ->
    shape x dph = Ok y ->
    is_tensor4 y = true
    /\ size0 y = size0 x
    /\ size1 y * Z.to_nat dph = size2 x
    /\ size2 y = size1 x
    /\ size3 y = Z.to_nat dph.
Proof. intros x dph y. apply shape_dims. Qed.

(** X5.  [unshape] undoes [shape]. *)
Theorem unshape_shape :
  forall (x : T3 F) dph y,
    is_tensor3 x = true ->
    shape x dph = Ok y ->
    unshape y = x.
Proof.
  intros x dph y Hx Hs.
  destruct (shape_dims x dph y Hx Hs) as (_ & _ & _ & S2 & _).
  apply shape_inv in Hs as (Hd & Hn & Hmod & ->).
  set (d := Z.to_nat dph) in *.
  assert (Hnh : size2 x = size2 x / d * d).
  { pose proof (Nat.div_mod_eq (size2 x) d). lia. }
  unfold unshape. rewrite S2. unfold mform. rewrite map_map.
  transitivity (map (fun xb : T2 F => xb) x); [|apply map_id].
  apply map_ext_in. intros xb Hin.
  destruct (tensor3_rows x Hx xb Hin) as [Hl Hrows].
  rewrite <- Hl.
  transitivity (map (fun i => nth i xb []) (seq 0 (length xb)));
    [|apply map_nth_seq_id].
  apply map_ext_in. intros l Hl'. apply in_seq in Hl'.
  rewrite map_map.
  transitivity (concat (map (fun h => firstn d (skipn (h * d) (nth l xb [])))
                          (seq 0 (size2 x / d)))).
  - f_equal. apply map_ext. intros h.
    pose proof (map_nth (fun row => firstn d (skipn (h * d) row)) xb [] l)
      as Hm.
    cbv beta in Hm. now rewrite skipn_nil, firstn_nil in Hm.
  - apply concat_chunks.
    rewrite Forall_forall in Hrows. rewrite <- Hnh.
    apply Hrows, nth_In. lia.
Qed.

Lemma length_concat_const {A : Type} (d : nat) (vs : list (list A)) :
  Forall (fun v => length v = d) vs -> length (concat vs) = length vs * d.
Proof.
  induction 1 as [|v vs Hv _ IH]; [reflexivity|].
  cbn. rewrite length_app, IH, Hv. reflexivity.
Qed.

Lemma nth_nth_map {A : Type} (yb : list (list (list A))) (h l : nat) :
  nth h (map (fun yh => nth l yh []) yb) [] = nth l (nth h yb []) [].
Proof.
  pose proof (map_nth (fun yh : list (list A) => nth l yh []) yb [] h) as Hm.
  cbv beta in Hm. rewrite <- Hm. f_equal. now destruct l.
Qed.

(** X6.  [shape] undoes [unshape] on a tensor with entries, the head size
    being its last size. *)
Theorem shape_unshape :
  forall (y : T4 F),
    is_tensor4 y = true -> numel4 y <> 0 ->
    shape (unshape y) (Z.of_nat (size3 y)) = Ok y.
Proof.
  intros y Hy Hn.
  apply numel4_nonzero in Hn as (H0 & H1 & H2 & H3).
  unfold is_tensor4 in Hy. apply rect4_iff in Hy as [_ Hy].
  rewrite Forall_forall in Hy.
  set (nh := size1 y) in *. set (L := size2 y) in *. set (d := size3 y) in *.
  assert (Hrow : forall yb l, In yb y -> l < L ->
            Forall (fun v : list F => length v = d)
              (map (fun yh => nth l yh []) yb)).
  { intros yb l Hin Hl. destruct (Hy yb Hin) as [_ Hh].
    apply Forall_map. eapply Forall_impl; [|exact Hh].
    intros yh [HL Hr]. cbv beta. rewrite Forall_forall in Hr.
    apply Hr, nth_In. lia. }
  assert (Hsz : size2 (unshape y) = nh * d).
  { destruct y as [|yb0 y']; [cbn in H0; lia|].
    unfold unshape. unfold size2 at 1. cbn [map hd].
    change (size2 (yb0 :: y')) with L.
    destruct L as [|L']; [lia|]. cbn [seq map hd].
    rewrite (length_concat_const d), length_map.
    - reflexivity.
    - apply Hrow; [now left|lia]. }
  assert (Hs1 : size1 (unshape y) = L).
  { destruct y as [|yb0 y']; [cbn in H0; lia|].
    unfold unshape, size1. cbn [map hd]. now rewrite length_map, length_seq. }
  assert (Hs0 : size0 (unshape y) = size0 y)
    by (unfold unshape, size0; apply length_map).
  unfold shape, guard. rewrite Nat2Z.id. fold d.
  assert (Hg : ((0 <? Z.of_nat d)%Z && negb (numel3 (unshape y) =? 0)
                && (size2 (unshape y) mod d =? 0)) = true).
  { rewrite !andb_true_iff. repeat split.
    - apply Z.ltb_lt. lia.
    - apply negb_true_iff, Nat.eqb_neq. unfold numel3.
      rewrite Hs0, Hs1, Hsz. nia.
    - apply Nat.eqb_eq. rewrite Hsz. apply Nat.Div0.mod_mul. }
  rewrite Hg. cbn [bind]. f_equal.
  rewrite Hsz, Nat.div_mul by lia.
  unfold unshape. rewrite map_map. fold L.
  transitivity (map (fun yb : T3 F => yb) y); [|apply map_id].
  apply map_ext_in. intros yb Hin.
  destruct (Hy yb Hin) as [Hnh Hh]. rewrite Forall_forall in Hh.
  transitivity (map (fun h => nth h yb []) (seq 0 (length yb)));
    [|apply map_nth_seq_id].
  rewrite Hnh. apply map_ext_in. intros h Hh'. apply in_seq in Hh'.
  rewrite map_map.
  destruct (Hh (nth h yb [])) as [HL Hr]; [apply nth_In; lia|].
  transitivity (map (fun l => nth l (nth h yb []) []) (seq 0 (length (nth h yb []))));
    [|apply map_nth_seq_id].
  rewrite HL. apply map_ext_in. intros l Hl. apply in_seq in Hl.
  rewrite chunk_concat.
  - apply nth_nth_map.
  - apply Hrow; [assumption|lia].
  - rewrite length_map. lia.
Qed.

End Reshape.

Lemma shape_sizes_witness :
  exists y,
    shape ex_x4 2 = Ok y
    /\ is_tensor4 y = true
    /\ size0 y = size0 ex_x4
    /\ size1 y * Z.to_nat 2 = size2 ex_x4
    /\ size2 y = size1 ex_x4
    /\ size3 y = Z.to_nat 2.
Proof.
  eexists. split; [reflexivity|].
  apply (shape_sizes ex_x4 2); reflexivity.
Defined.

Lemma unshape_shape_witness :
  exists y, shape ex_x4 2 = Ok y /\ unshape y = ex_x4.
Proof.
  eexists. split; [reflexivity|].
  apply (unshape_shape ex_x4 2); reflexivity.
Defined.

Lemma shape_unshape_witness :
  shape (unshape [[[[1; 2]; [5; 6]]; [[3; 4]; [7; 8]]]]%R)
    (Z.of_nat (size3 [[[[1; 2]; [5; 6]]; [[3; 4]; [7; 8]]]]%R))
  = Ok [[[[1; 2]; [5; 6]]; [[3; 4]; [7; 8]]]]%R.
Proof.
  apply (shape_unshape [[[[1; 2]; [5; 6]]; [[3; 4]; [7; 8]]]]%R).
  - reflexivity.
  - cbn. lia.
Defined.

(** ** Scores from relative embeddings *)

Section RelativeScores.

Context {F : Type} {ops : Scalar F}.

Lemma transpose_involutive {A : Type} (d : A) (m : list (list A)) (c : nat) :
  m <> [] -> 0 < c -> Forall (fun row => length row = c) m ->
  transpose d (transpose d m) = m.
Proof.
  intros Hne Hc Hrows.
  assert (Hm : m = map (fun a => map (fun h => nth h a d) (seq 0 c)) m).
  { transitivity (map (fun a : list A => a) m); [symmetry; apply map_id|].
    apply map_ext_in. intros a Hin. rewrite Forall_forall in Hrows.
    rewrite <- (Hrows a Hin). symmetry. apply map_nth_seq_id. }
  rewrite Hm at 1.
  rewrite (transpose_tab d (fun h a => nth h a d) m c Hne).
  rewrite (transpose_tab' d (fun h a => nth h a d) m c Hc).
  now rewrite <- Hm.
Qed.

Lemma combine_map_right {A B C : Type} (f : B -> C) (l : list A)
    (l' : list B) :
  combine l (map f l') = map (fun p => (fst p, f (snd p))) (combine l l').
Proof.
  revert l'. induction l as [|a l IH]; intros [|b l']; cbn; [auto..|].
  now rewrite IH.
Qed.

(** X30.  With [transpose=True] and one matrix of relative embeddings per
    query position, [relative_matmul] pairs the query vector at position
    [i] with the embeddings of that position: its entry for key [j] is the
    inner product of the query vector with the embedding [z[i][j]]. *)
Theorem relative_matmul_scores :
  forall (x : T4 F) (z : T3 F) klen,
    0 < size2 x -> 0 < size3 x -> 0 < klen ->
    length z = size2 x ->
    Forall (fun zi => length zi = klen
                      /\ Forall (fun e => length e = size3 x) zi) z ->
    relative_matmul x z true
    = Ok (map (map (fun xh =>
                      map (fun p => map (dot (fst p)) (snd p))
                          (combine xh z))) x).
Proof.
  intros x z klen H2 H3 Hk Hlen Hz. unfold relative_matmul, guard.
  rewrite Forall_forall in Hz.
  assert (Hs : size1 (map (transpose zero) z) = size3 x).
  { destruct z as [|z0 z']; [cbn in Hlen; lia|].
    unfold size1. cbn [map hd]. rewrite length_transpose.
    destruct (Hz z0 (or_introl eq_refl)) as [Hl Hr].
    destruct z0 as [|e z0]; [cbn in Hl; lia|]. now inversion Hr. }
  rewrite Hs, Nat.eqb_refl. cbn [bind].
  rewrite length_map, Hlen, Nat.eqb_refl. cbn [bind]. f_equal.
  apply map_ext. intros xb. apply map_ext. intros xh.
  rewrite combine_map_right, map_map.
  apply map_ext_in. intros [v zi] Hin. cbn [fst snd].
  apply in_combine_r in Hin. destruct (Hz zi Hin) as [Hl Hr].
  unfold vecmat. rewrite (transpose_involutive zero zi (size3 x)); auto.
  intros ->. cbn in Hl. lia.
Qed.

End RelativeScores.

Lemma relative_matmul_scores_witness :
  relative_matmul [[[[1; 2]; [3; 4]]]]%R [[[1; 0]]; [[0; 1]]]%R true
  = Ok (map (map (fun xh =>
                    map (fun p => map (dot (fst p)) (snd p))
                        (combine xh [[[1; 0]]; [[0; 1]]]%R)))
            [[[[1; 2]; [3; 4]]]]%R).
Proof.
  apply (relative_matmul_scores [[[[1; 2]; [3; 4]]]]%R
           [[[1; 0]]; [[0; 1]]]%R 1).
  - cbn. lia.
  - cbn. lia.
  - lia.
  - reflexivity.
  - repeat constructor.
Defined.

(** ** The expansion of key/value heads *)

Section HeadExpansion.

Context {F : Type} {ops : Scalar F}.

(** X7.  With as many key/value heads as query heads, the usual case, the
    expansion is the identity. *)
Theorem expand_heads_same_count :
  forall (x : T4 F),
    is_tensor4 x = true -> numel4 x <> 0 ->
    expand_heads x (size1 x) = Ok x.
Proof.
  intros x Hx Hn.
  rewrite (expand_heads_replicate x 1 (size1 x) Hx Hn) by lia.
  now rewrite replicate_heads_1.
Qed.

(** X8.  A number of query heads that is not a multiple of the number of
    key/value heads is refused when the tensors meet, by the last view of
    the expansion. *)
Theorem expand_heads_not_multiple :
  forall (x : T4 F) query_heads,
    is_tensor4 x = true -> numel4 x <> 0 ->
    query_heads mod size1 x <> 0 ->
    expand_heads x query_heads = Raise RuntimeError.
Proof.
  intros x n Hx Hn Hmod.
  unfold expand_heads, guard. rewrite Hx.
  assert (Hne : negb (numel4 x =? 0) = true)
    by now apply negb_true_iff, Nat.eqb_neq.
  rewrite Hne. cbn [andb bind].
  assert (Hs : size1 (map (map (fun s : T3 F => concat (repeat s (n / size1 x))))
                        (map (map (fun xh : T2 F => [xh])) x)) = size1 x).
  { destruct x as [|xb x']; [reflexivity|].
    unfold size1. cbn [map hd]. now rewrite !length_map. }
  rewrite Hs.
  assert (Hneq : (size1 x * (n / size1 x) =? n) = false).
  { apply Nat.eqb_neq. pose proof (Nat.div_mod_eq n (size1 x)). lia. }
  rewrite Hneq. reflexivity.
Qed.

End HeadExpansion.

Lemma expand_heads_same_count_witness :
  expand_heads [[[[1; 2]]; [[3; 4]]]]%R (size1 [[[[1; 2]]; [[3; 4]]]]%R)
  = Ok [[[[1; 2]]; [[3; 4]]]]%R.
Proof.
  apply (expand_heads_same_count [[[[1; 2]]; [[3; 4]]]]%R).
  - reflexivity.
  - cbn. lia.
Defined.

Lemma expand_heads_not_multiple_witness :
  expand_heads [[[[1; 2]]; [[3; 4]]]]%R 3 = Raise RuntimeError.
Proof.
  apply (expand_heads_not_multiple [[[[1; 2]]; [[3; 4]]]]%R 3).
  - reflexivity.
  - cbn. lia.
  - cbn. lia.
Defined.

(** ** The constructor *)

Section Constructor.

Context {F : Type} {ops : Scalar F} (theta : @Params F).

Lemma existsb_mha (ck : list String.string) :
  existsb (String.eqb "mha"%string) ck = true <-> In "mha"%string ck.
Proof.
  rewrite existsb_exists. split.
  - intros (s & Hin & Heq). apply String.eqb_eq in Heq. now subst.
  - intros Hin. exists "mha"%string. split; [assumption|].
    apply String.eqb_refl.
Qed.

Lemma rotaryembeddings_ok (dim : Z) (maxseqlen : nat) (base : Z) tbl :
  rotaryembeddings (F := F) dim maxseqlen base = Ok tbl -> (0 <= dim)%Z.
Proof.
  unfold rotaryembeddings. destruct (dim <? 0)%Z eqn:Hd; [discriminate|].
  intros _. now apply Z.ltb_ge.
Qed.

(** What a successful construction has checked and what it has built. *)
Lemma init_inv hc md p mrp at_ bias nkv ck m :
  init theta hc md p mrp at_ bias nkv ck = Ok m ->
  (hc <> 0 /\ md mod hc = 0 /\ 0 <= md)%Z
  /\ (0 <= p <= 1)%Q
  /\ ((0 < mrp \/ mrp = -1) -> 0 <= md / hc)%Z
  /\ ~ In "mha"%string ck
  /\ dim_per_head m = (md / hc)%Z
  /\ head_count m = hc
  /\ dropout m = p
  /\ training m = true
  /\ max_relative_positions m = mrp
  /\ attn_type m = at_
  /\ layer_cache m = empty_cache
  /\ (relative_positions_embeddings m <> None <-> (0 < mrp)%Z)
  /\ (rope m <> None <-> mrp = (-1)%Z)
  /\ (alibi m <> None <-> mrp = (-2)%Z).
Proof.
  unfold init. intros H.
  destruct (hc =? 0)%Z eqn:Hhc; [discriminate|]. apply Z.eqb_neq in Hhc.
  destruct (md mod hc =? 0)%Z eqn:Hmod; cbn [negb] in H; [|discriminate].
  apply Z.eqb_eq in Hmod.
  unfold new_linear in H.
  destruct (md <? 0)%Z eqn:Hmd; [discriminate|]. apply Z.ltb_ge in Hmd.
  cbn [bind] in H. unfold new_dropout in H.
  destruct (Qle_bool 0 p && Qle_bool p 1) eqn:Hp; cbn [bind] in H;
    [|discriminate].
  apply andb_true_iff in Hp as [Hp0 Hp1].
  apply Qle_bool_iff in Hp0, Hp1.
  destruct (existsb (String.eqb "mha"%string) ck) eqn:Hck.
  { destruct (mrp >? 0)%Z.
    - destruct (new_embedding theta (mrp * 2 + 1) (md / hc)); discriminate.
    - destruct (mrp =? -1)%Z;
        [destruct (rotaryembeddings (md / hc) 4096 10000)|]; discriminate. }
  assert (Hnin : ~ In "mha"%string ck).
  { intros Hin. apply existsb_mha in Hin. congruence. }
  destruct (mrp >? 0)%Z eqn:Hgt.
  - apply Z.gtb_lt in Hgt. unfold new_embedding in H.
    destruct ((mrp * 2 + 1 <? 0) || (md / hc <? 0))%Z eqn:He;
      [discriminate|].
    apply orb_false_iff in He as [_ He]. apply Z.ltb_ge in He.
    cbn [bind] in H. injection H as <-. cbn.
    repeat split; auto; try lia; try congruence; try discriminate.
  - assert (Hle : (mrp <= 0)%Z).
    { destruct (Z.gtb_spec mrp 0); [discriminate|lia]. }
    destruct (mrp =? -1)%Z eqn:Hrot.
    + apply Z.eqb_eq in Hrot.
      destruct (rotaryembeddings (md / hc) 4096 10000) as [tbl|] eqn:Ht;
        cbn [bind] in H; [|discriminate].
      apply rotaryembeddings_ok in Ht.
      replace (mrp =? -2)%Z with false in H
        by (symmetry; apply Z.eqb_neq; lia).
      injection H as <-. cbn.
      repeat split; auto; try lia; try congruence; try discriminate.
    + apply Z.eqb_neq in Hrot. cbn [bind] in H.
      destruct (mrp =? -2)%Z eqn:Hal;
        [apply Z.eqb_eq in Hal|apply Z.eqb_neq in Hal];
        injection H as <-; cbn;
        repeat split; auto; try lia; try congruence; try discriminate.
Qed.

(** X9.  The constructor builds a module only if [head_count] is not zero
    and divides [model_dim], [model_dim] is not negative, [dropout] lies
    between 0 and 1, the head size is not negative where an embedding or a
    rotary table of that size is built, and checkpointing of "mha" is not
    asked for: it raises whenever one of these fails. *)
Theorem init_succeeds_only_if :
  forall head_count model_dim dropout max_relative_positions attn_type
         add_qkvbias num_kv use_ckpting m,
    init theta head_count model_dim dropout max_relative_positions
      attn_type add_qkvbias num_kv use_ckpting = Ok m ->
    (head_count <> 0 /\ model_dim mod head_count = 0 /\ 0 <= model_dim)%Z
    /\ (0 <= dropout <= 1)%Q
    /\ ((0 < max_relative_positions \/ max_relative_positions = -1) ->
        0 <= model_dim / head_count)%Z
    /\ ~ In "mha"%string use_ckpting.
Proof.
  intros hc md p mrp at_ bias nkv ck m H. apply init_inv in H. tauto.
Qed.

(** X10.  The name [checkpoint] is not bound: a configuration that
    constructs without checkpointing raises [NameError] as soon as "mha" is
    among the layers to checkpoint. *)
Theorem init_checkpointing_unbound :
  forall head_count model_dim dropout max_relative_positions attn_type
         add_qkvbias num_kv use_ckpting m,
    In "mha"%string use_ckpting ->
    init theta head_count model_dim dropout max_relative_positions attn_type
      add_qkvbias num_kv [] = Ok m ->
    init theta head_count model_dim dropout max_relative_positions attn_type
      add_qkvbias num_kv use_ckpting = Raise NameError.
Proof.
  intros hc md p mrp at_ bias nkv ck m Hin. unfold init.
  apply existsb_mha in Hin. rewrite Hin. cbn [existsb].
  destruct (hc =? 0)%Z; [discriminate|].
  destruct (negb (md mod hc =? 0)%Z); [discriminate|].
  destruct (new_linear md (w_keys theta) (b_keys theta) bias);
    [|discriminate].
  destruct (new_linear md (w_values theta) (b_values theta) bias);
    [|discriminate].
  destruct (new_linear md (w_query theta) (b_query theta) bias);
    [|discriminate].
  destruct (new_dropout p); [|discriminate].
  destruct (new_linear md (w_final theta) (b_final theta) bias);
    [|discriminate].
  cbn [bind].
  match goal with
  | |- bind ?e _ = _ -> _ => destruct e as [[[? ?] ?]|]; [|discriminate]
  end.
  reflexivity.
Qed.

(** X11.  A module fresh from the constructor is in training mode with its
    cache disabled and empty, and holds the positional mechanism that
    [max_relative_positions] selects and no other: relative embeddings for
    a positive value, the rotary table for -1, the ALiBi bias for -2. *)
Theorem init_positional_mechanism :
  forall head_count model_dim dropout max_relative_positions attn_type
         add_qkvbias num_kv use_ckpting m,
    init theta head_count model_dim dropout max_relative_positions attn_type
      add_qkvbias num_kv use_ckpting = Ok m ->
    training m = true
    /\ layer_cache m = empty_cache
    /\ dim_per_head m = (model_dim / head_count)%Z
    /\ (relative_positions_embeddings m <> None
        <-> (0 < max_relative_positions)%Z)
    /\ (rope m <> None <-> max_relative_positions = (-1)%Z)
    /\ (alibi m <> None <-> max_relative_positions = (-2)%Z).
Proof.
  intros hc md p mrp at_ bias nkv ck m H. apply init_inv in H. tauto.
Qed.

End Constructor.

Lemma init_succeeds_only_if_witness :
  (1 <> 0 /\ 1 mod 1 = 0 /\ 0 <= 1)%Z
  /\ (0 <= 0 <= 1)%Q
  /\ ((0 < 1 \/ 1 = -1) -> 0 <= 1 / 1)%Z
  /\ ~ In "mha"%string [].
Proof.
  exact (init_succeeds_only_if ex_theta 1 1 0 1 (Some "self"%string) false 0
           [] ex_self ex_self_built).
Defined.

Lemma init_checkpointing_unbound_witness :
  init ex_theta 1 1 0 1 (Some "self"%string) false 0 ["mha"%string]
  = Raise NameError.
Proof.
  apply (init_checkpointing_unbound ex_theta 1 1 0 1 (Some "self"%string)
           false 0 ["mha"%string] ex_self).
  - now left.
  - exact ex_self_built.
Defined.

Lemma init_positional_mechanism_witness :
  training ex_self = true
  /\ layer_cache ex_self = empty_cache
  /\ dim_per_head ex_self = (1 / 1)%Z
  /\ (relative_positions_embeddings ex_self <> None <-> (0 < 1)%Z)
  /\ (rope ex_self <> None <-> 1%Z = (-1)%Z)
  /\ (alibi ex_self <> None <-> 1%Z = (-2)%Z).
Proof.
  exact (init_positional_mechanism ex_theta 1 1 0 1 (Some "self"%string)
           false 0 [] ex_self ex_self_built).
Defined.

(** ** The module across calls *)

Section ModuleState.

Context {F : Type} {ops : Scalar F}.

Lemma with_cache_same (m : @MultiHeadedAttention F) :
  with_cache m (layer_cache m) = m.
Proof. now destruct m. Qed.

(** The cache [project] hands back: the one it found when the cache is
    disabled, the keys and values it returns when it is enabled. *)
Lemma project_cache (m : @MultiHeadedAttention F) key value query step
    q k v c :
  project m key value query step = Ok (q, k, v, c) ->
  if enabled (layer_cache m)
  then c = {| enabled := true; keys := k; values := v |}
  else c = layer_cache m.
Proof.
  unfold project. intros Hp.
  destruct (enabled (layer_cache m)).
  - destruct (is_attn_type m "self"%string).
    + destruct (linear_apply (linear_query m) query); cbn in Hp;
        [|discriminate].
      destruct (linear_apply (linear_keys m) query); cbn in Hp;
        [|discriminate].
      destruct (linear_apply (linear_values m) query); cbn in Hp;
        [|discriminate].
      destruct (shape a (dim_per_head m)); cbn in Hp; [|discriminate].
      destruct (shape a0 (dim_per_head m)); cbn in Hp; [|discriminate].
      destruct (shape a1 (dim_per_head m)); cbn in Hp; [|discriminate].
      destruct (maybe_rotary m step a2 a3); cbn in Hp; [|discriminate].
      destruct (if negb (numel4 (keys (layer_cache m)) =? 0)
                then cat2 (keys (layer_cache m)) (snd a5) else Ok (snd a5));
        cbn in Hp; [|discriminate].
      destruct (if negb (numel4 (values (layer_cache m)) =? 0)
                then cat2 (values (layer_cache m)) a4 else Ok a4);
        cbn in Hp; [|discriminate].
      now injection Hp as <- <- <- <-.
    + destruct (is_attn_type m "context"%string).
      * destruct (linear_apply (linear_query m) query); cbn in Hp;
          [|discriminate].
        destruct (shape a (dim_per_head m)); cbn in Hp; [|discriminate].
        match type of Hp with
        | bind ?e _ = _ => destruct e; cbn in Hp; [|discriminate]
        end.
        now injection Hp as <- <- <- <-.
      * destruct (dim_per_head m <? 0)%Z; discriminate.
  - destruct (linear_apply (linear_keys m) key); cbn in Hp; [|discriminate].
    destruct (linear_apply (linear_values m) value); cbn in Hp;
      [|discriminate].
    destruct (linear_apply (linear_query m) query); cbn in Hp;
      [|discriminate].
    destruct (shape a (dim_per_head m)); cbn in Hp; [|discriminate].
    destruct (shape a0 (dim_per_head m)); cbn in Hp; [|discriminate].
    destruct (shape a1 (dim_per_head m)); cbn in Hp; [|discriminate].
    destruct (maybe_rotary m 0 a4 a2); cbn in Hp; [|discriminate].
    now injection Hp as <- <- <- <-.
Qed.

Variable noise : Q -> T4 F -> T4 F.

(** X12.  With the cache disabled, as in training, [forward] leaves the
    module as it found it, whatever the outcome. *)
Theorem forward_training_keeps_module :
  forall m key value query mask step,
    enabled (layer_cache m) = false ->
    fst (forward noise m key value query mask step) = m.
Proof.
  intros m key value query mask step Hen. unfold forward.
  destruct (project m key value query step) as [[[[q k] v] c]|e] eqn:Hp;
    [|reflexivity].
  apply project_cache in Hp. rewrite Hen in Hp. subst c.
  apply with_cache_same.
Qed.

(** X13.  [forward] changes nothing of the module but the contents of the
    cache: the parameters, the mode and the switch of the cache are the
    same after the call, whatever the arguments and the outcome. *)
Theorem forward_changes_cache_only :
  forall m key value query mask step,
    exists c,
      fst (forward noise m key value query mask step) = with_cache m c
      /\ enabled c = enabled (layer_cache m).
Proof.
  intros m key value query mask step. unfold forward.
  destruct (project m key value query step) as [[[[q k] v] c]|e] eqn:Hp.
  - exists c. split; [reflexivity|].
    apply project_cache in Hp.
    destruct (enabled (layer_cache m)) eqn:Hen; subst c; auto.
  - exists (layer_cache m). now rewrite with_cache_same.
Qed.

(** X14.  With the cache enabled and an [attn_type] that is neither "self"
    nor "context" nothing is projected: the call raises, from
    [math.sqrt] on a negative head size and from [key.size(3)] otherwise,
    and the cache is untouched. *)
Theorem forward_cache_needs_attn_type :
  forall m key value query mask step,
    enabled (layer_cache m) = true ->
    attn_type m <> Some "self"%string ->
    attn_type m <> Some "context"%string ->
    forward noise m key value query mask step
    = (m, Raise (if (dim_per_head m <? 0)%Z then ValueError
                 else IndexError)).
Proof.
  intros m key value query mask step Hen Hs Hc.
  unfold forward, project, is_attn_type. rewrite Hen.
  destruct (attn_type m) as [a|].
  - destruct (String.eqb_spec a "self"); [subst; congruence|].
    destruct (String.eqb_spec a "context"); [subst; congruence|].
    now destruct (dim_per_head m <? 0)%Z.
  - now destruct (dim_per_head m <? 0)%Z.
Qed.

End ModuleState.

Section Dropout.

Context {F : Type} {ops : Scalar F}.

(** X15.  The attention weights [forward] returns are those before
    dropout: two calls that differ in what dropout does, and both succeed,
    return the same weights and leave the same module. *)
Theorem returned_attention_before_dropout :
  forall (noise noise' : Q -> T4 F -> T4 F) m key value query mask step
         m1 ctx attn m2 ctx' attn',
    forward noise m key value query mask step = (m1, Ok (ctx, attn)) ->
    forward noise' m key value query mask step = (m2, Ok (ctx', attn')) ->
    m1 = m2 /\ attn = attn'.
Proof.
  intros noise noise' m key value query mask step m1 ctx attn m2 ctx' attn'
    H1 H2.
  assert (Hm : m1 = m2).
  { unfold forward in H1, H2.
    destruct (project m key value query step) as [[[[q k] v] c]|e];
      [|discriminate].
    injection H1 as <- _. now injection H2 as <- _. }
  split; [exact Hm|].
  apply forward_attn in H1 as (q & k & v & c & s & rk & s' & Hp & Hr & Hk
                               & _ & ->).
  apply forward_attn in H2 as (q2 & k2 & v2 & c2 & s2 & rk2 & s2' & Hp2 & Hr2
                               & Hk2 & _ & ->).
  rewrite Hp in Hp2. injection Hp2 as <- <- <- <-.
  rewrite Hr in Hr2. injection Hr2 as <- <-.
  rewrite Hk in Hk2. now injection Hk2 as <-.
Qed.

(** X16.  After [update_dropout] with probability 0, and in evaluation
    mode with any probability, dropout is the identity: the whole outcome
    of [forward] is the same whatever dropout would do. *)
Theorem forward_without_dropout :
  forall (noise noise' : Q -> T4 F -> T4 F) m p key value query mask step,
    training m = false \/ Qeq_bool p 0 = true ->
    forward noise (update_dropout m p) key value query mask step
    = forward noise' (update_dropout m p) key value query mask step.
Proof.
  intros noise noise' m p key value query mask step Hoff.
  unfold forward.
  destruct (project (update_dropout m p) key value query step)
    as [[[[q k] v] c]|e]; [|reflexivity].
  f_equal. unfold attend, context_of, apply_dropout. cbn [with_cache update_dropout training dropout].
  replace (negb (training m) || Qeq_bool p 0) with true; [reflexivity|].
  symmetry. destruct Hoff as [-> | ->]; [reflexivity|apply orb_true_r].
Qed.

End Dropout.

Lemma forward_training_keeps_module_witness :
  fst (forward ex_noise ex_self ex_x ex_x ex_x None 0) = ex_self.
Proof.
  apply (forward_training_keeps_module ex_noise ex_self). reflexivity.
Defined.

Lemma forward_changes_cache_only_witness :
  exists c,
    fst (forward ex_noise ex_cached ex_x1 ex_x1 ex_x1 None 1)
    = with_cache ex_cached c
    /\ enabled c = enabled (layer_cache ex_cached).
Proof.
  exact (forward_changes_cache_only ex_noise ex_cached ex_x1 ex_x1 ex_x1
           None 1).
Defined.

Lemma forward_cache_needs_attn_type_witness :
  forward ex_noise ex_untyped ex_x ex_x ex_x None 0
  = (ex_untyped,
     Raise (if (dim_per_head ex_untyped <? 0)%Z then ValueError
            else IndexError)).
Proof.
  apply (forward_cache_needs_attn_type ex_noise ex_untyped).
  - reflexivity.
  - discriminate.
  - discriminate.
Defined.

Lemma returned_attention_before_dropout_witness :
  exists m1 ctx attn m2 ctx' attn',
    forward ex_noise (update_dropout ex_self (1 # 2)) ex_x ex_x ex_x None 0
    = (m1, Ok (ctx, attn))
    /\ forward ex_noise_zero (update_dropout ex_self (1 # 2)) ex_x ex_x ex_x
         None 0 = (m2, Ok (ctx', attn'))
    /\ m1 = m2 /\ attn = attn'.
Proof.
  do 6 eexists.
  split; [rcompute; reflexivity|]. split; [rcompute; reflexivity|].
  eapply (returned_attention_before_dropout ex_noise ex_noise_zero
            (update_dropout ex_self (1 # 2)) ex_x ex_x ex_x None 0).
  - rcompute. reflexivity.
  - rcompute. reflexivity.
Defined.

Lemma forward_without_dropout_witness :
  forward ex_noise (update_dropout ex_self 0) ex_x ex_x ex_x None 0
  = forward ex_noise_zero (update_dropout ex_self 0) ex_x ex_x ex_x None 0.
Proof.
  apply (forward_without_dropout ex_noise ex_noise_zero ex_self 0).
  right. reflexivity.
Defined.

(** ** Self-attention on built modules *)

Section SelfAttention.

Context {F : Type} {ops : Scalar F} (theta : @Params F)
  (noise : Q -> T4 F -> T4 F).

Lemma init_final_linear hc md p mrp at_ bias nkv ck m :
  init theta hc md p mrp at_ bias nkv ck = Ok m ->
  out_features (final_linear m) = Z.to_nat md.
Proof.
  unfold init. intros H.
  destruct (hc =? 0)%Z; [discriminate|].
  destruct (negb (md mod hc =? 0)%Z); [discriminate|].
  unfold new_linear in H.
  destruct (md <? 0)%Z; [discriminate|]. cbn [bind] in H.
  destruct (new_dropout p); cbn [bind] in H; [|discriminate].
  match type of H with
  | bind ?e _ = _ => destruct e as [[[? ?] ?]|]; cbn [bind] in H;
                     [|discriminate]
  end.
  destruct (existsb (String.eqb "mha"%string) ck); [discriminate|].
  now injection H as <-.
Qed.

Lemma prefix_all (x : T3 F) :
  is_tensor3 x = true -> prefix x (size1 x) = x.
Proof.
  intros Hx. unfold is_tensor3 in Hx. apply rect3_iff in Hx as [_ Hx].
  rewrite Forall_forall in Hx. unfold prefix.
  transitivity (map (fun xb : T2 F => xb) x); [|apply map_id].
  apply map_ext_in. intros xb Hin. apply firstn_all2.
  destruct (Hx xb Hin). lia.
Qed.

(** X17.  Self-attention over a whole sequence, cache disabled and no
    mask: for a module built with a positive head count and model
    dimension and dropout 0, and an input of shape
    (batch, length, model_dim) with entries, the call succeeds, leaves the
    module as it was and returns a context of shape
    (batch, length, model_dim) and attention weights of shape
    (batch, head_count, length, length). *)
Theorem forward_self_attention_shapes :
  forall hc md p mrp at_ bias nkv ck m0 (x : T3 F),
    init theta hc md p mrp at_ bias nkv ck = Ok m0 ->
    (0 < hc)%Z -> (0 < md)%Z -> Qeq_bool p 0 = true ->
    (mrp = (-1)%Z -> Z.even (md / hc) = true /\ size1 x <= 4096) ->
    is_tensor3 x = true -> 0 < size0 x -> 0 < size1 x ->
    size2 x = Z.to_nat md ->
    exists ctx attn,
      forward noise m0 x x x None 0 = (m0, Ok (ctx, attn))
      /\ rect3 (size0 x) (size1 x) (Z.to_nat md) ctx = true
      /\ rect4 (size0 x) (Z.to_nat hc) (size1 x) (size1 x) attn = true.
Proof.
  intros hc md p mrp at_ bias nkv ck m0 x Hinit Hhc Hmd Hp Hrot Hx H0 H1 H2.
  pose proof (init_final_linear _ _ _ _ _ _ _ _ _ Hinit) as Hout.
  destruct (init_built theta _ _ _ _ _ _ _ _ _ Hinit Hhc Hmd Hp
              (fun H => proj1 (Hrot H)))
    as (Hb & Hnat & Hcache & _ & Hmrp).
  assert (Hr : is_rotary m0 = true -> size1 x <= 4096).
  { unfold is_rotary. rewrite Hmrp. intros H. apply Z.eqb_eq in H.
    now destruct (Hrot H). }
  set (nh := Z.to_nat hc) in *. set (d := Z.to_nat (md / hc)) in *.
  assert (Hnh : 0 < nh) by (unfold nh; lia).
  destruct x as [|xb0 x'] eqn:Ex; [cbn in H0; lia|]. rewrite <- Ex in *.
  assert (Hne : x <> []) by (rewrite Ex; discriminate).
  pose proof (forward_train noise m0 nh d Hb xb0 x') as Ht.
  rewrite <- Ex in Ht.
  specialize (Ht Hx ltac:(lia) (size1 x) ltac:(now rewrite Hcache)
                H1 (le_n _) Hr).
  rewrite (prefix_all x Hx) in Ht.
  replace (with_cache m0 (layer_cache m0)) with m0 in Ht by now destruct m0.
  do 2 eexists. split; [exact Ht|]. split.
  - apply rect3_iff. rewrite length_map. split; [reflexivity|].
    apply Forall_map, Forall_forall. intros xb _.
    rewrite length_map, length_seq. split; [reflexivity|].
    apply Forall_map, Forall_forall. intros i _.
    unfold out_row. now rewrite length_linear_vec.
  - destruct (mform_tensor nh
                (fun xb h => map (attn_row m0 d (size1 x) xb h)
                               (seq 0 (size1 x)))
                x (size1 x) (size1 x) Hne Hnh H1)
      as (Ht4 & S0 & S1 & S2 & S3).
    { intros xb h _ Hh. rewrite length_map, length_seq.
      split; [reflexivity|].
      apply Forall_map, Forall_forall. intros i _.
      now apply (length_attn_row m0 nh d Hb). }
    unfold is_tensor4 in Ht4. unfold tform.
    now rewrite S0, S1, S2, S3 in Ht4.
Qed.

(** X18.  The cache of incremental self-attention is the projection of the
    prefix: after the decode steps 0 to [t] of one position each, the cache
    holds the keys and values that one call without cache projects from the
    first [t + 1] positions. *)
Theorem decode_cache_is_prefix_projection :
  forall hc md p mrp bias nkv ck m0 (x : T3 F) t,
    init theta hc md p mrp (Some "self"%string) bias nkv ck = Ok m0 ->
    (0 < hc)%Z -> (0 < md)%Z -> Qeq_bool p 0 = true ->
    (mrp = (-1)%Z -> Z.even (md / hc) = true /\ t < 4096) ->
    is_tensor3 x = true -> 0 < size0 x -> size2 x = Z.to_nat md ->
    t < size1 x ->
    exists q k v c,
      project m0 (prefix x (S t)) (prefix x (S t)) (prefix x (S t)) 0
      = Ok (q, k, v, c)
      /\ layer_cache (fst (decode_steps noise (start_decoding m0) x t))
         = {| enabled := true; keys := k; values := v |}.
Proof.
  intros hc md p mrp bias nkv ck m0 x t Hinit Hhc Hmd Hp Hrot Hx H0 H2 Ht.
  destruct (init_built theta _ _ _ _ _ _ _ _ _ Hinit Hhc Hmd Hp
              (fun H => proj1 (Hrot H)))
    as (Hb & Hnat & Hcache & Hself & Hmrp).
  assert (Hr : is_rotary m0 = true -> t < 4096).
  { unfold is_rotary. rewrite Hmrp. intros H. apply Z.eqb_eq in H.
    now destruct (Hrot H). }
  destruct x as [|xb0 x']; [cbn in H0; lia|].
  rewrite Hnat in H2.
  pose proof (project_train m0 _ _ Hb xb0 x' Hx H2 (S t)
                ltac:(now rewrite Hcache) ltac:(lia) ltac:(lia)
                ltac:(intros H; specialize (Hr H); lia)) as Hp'.
  pose proof (decode_steps_closed noise m0 _ _ Hb xb0 x' Hx H2 t Hself Ht Hr)
    as Hd.
  do 4 eexists. split; [exact Hp'|]. rewrite Hd. reflexivity.
Qed.

End SelfAttention.

Lemma forward_self_attention_shapes_witness :
  exists ctx attn,
    forward ex_noise ex_self ex_x ex_x ex_x None 0 = (ex_self, Ok (ctx, attn))
    /\ rect3 (size0 ex_x) (size1 ex_x) (Z.to_nat 1) ctx = true
    /\ rect4 (size0 ex_x) (Z.to_nat 1) (size1 ex_x) (size1 ex_x) attn = true.
Proof.
  apply (forward_self_attention_shapes ex_theta ex_noise 1 1 0 1
           (Some "self"%string) false 0 [] ex_self ex_x ex_self_built).
  - lia.
  - lia.
  - reflexivity.
  - intros H. discriminate H.
  - reflexivity.
  - cbn. lia.
  - cbn. lia.
  - reflexivity.
Defined.

Lemma decode_cache_is_prefix_projection_witness :
  exists q k v c,
    project ex_self (prefix ex_x 2) (prefix ex_x 2) (prefix ex_x 2) 0
    = Ok (q, k, v, c)
    /\ layer_cache (fst (decode_steps ex_noise (start_decoding ex_self) ex_x 1))
       = {| enabled := true; keys := k; values := v |}.
Proof.
  apply (decode_cache_is_prefix_projection ex_theta ex_noise 1 1 0 1 false 0
           [] ex_self ex_x 1 ex_self_built).
  - lia.
  - lia.
  - reflexivity.
  - intros H. discriminate H.
  - reflexivity.
  - cbn. lia.
  - reflexivity.
  - cbn. lia.
Defined.

(** ** Weights and rotations, over the reals *)

Section Rotations.

Variable noise : Q -> T4 R -> T4 R.

Local Open Scope R_scope.

(** X19.  Every attention weight [forward] returns lies between 0 and
    1. *)
Theorem attention_weights_in_unit_interval :
  forall m key value query mask step m' ctx attn,
    forward noise m key value query mask step = (m', Ok (ctx, attn)) ->
    forall ab ah row w,
      In ab attn -> In ah ab -> In row ah -> In w row -> 0 <= w <= 1.
Proof.
  intros m key value query mask step m' ctx attn Hf ab ah row w Hb Hh Hr Hw.
  apply forward_attn in Hf
    as (q & k & v & c & s & rk & s' & _ & _ & _ & _ & ->).
  unfold map4, softmax in Hb. rewrite map_map in Hb.
  apply in_map_iff in Hb as (sb & <- & Hsb).
  rewrite map_map in Hh. apply in_map_iff in Hh as (sh & <- & Hsh).
  rewrite map_map in Hr. apply in_map_iff in Hr as (sr & <- & Hsr).
  cbn [to_dtype R_scalar] in Hw. rewrite map_id in Hw.
  unfold softmax_row in Hw. cbn [sdiv sexp R_scalar] in Hw.
  rewrite map_map in Hw. apply in_map_iff in Hw as (x & <- & Hx).
  pose proof (exp_le_sum sr x Hx) as Hle. pose proof (exp_pos x) as Hpos.
  assert (HS : 0 < sum (map exp sr)) by lra.
  split.
  - apply Rlt_le, Rdiv_lt_0_compat; assumption.
  - apply (Rmult_le_reg_r (sum (map exp sr))); [assumption|].
    unfold Rdiv. rewrite Rmult_assoc, Rinv_l by lra. lra.
Qed.

(** *** Rotary embeddings are rotations *)

Lemma rotaryembeddings_row dim maxseqlen base tbl t :
  rotaryembeddings dim maxseqlen base = Ok tbl ->
  (t < maxseqlen)%nat ->
  exists inv_freq,
    length inv_freq = Z.to_nat ((dim + 1) / 2)
    /\ forall t', (t' < maxseqlen)%nat ->
         nth t' tbl [] = unit_row (IZR (Z.of_nat t')) inv_freq.
Proof.
  unfold rotaryembeddings. destruct (dim <? 0)%Z; [discriminate|].
  intros [= <-] _. eexists. split.
  - rewrite length_map, length_seq. reflexivity.
  - intros t' Ht'.
    rewrite (nth_map_seq [] _ maxseqlen t' Ht'). reflexivity.
Qed.

Lemma rotv_real (v : list R) (r : list (R * R)) :
  rotv v r = unpairs (rot_row (pairs v) r).
Proof.
  unfold rotv, rot_row. cbn [to_dtype to_float R_scalar].
  now rewrite !map_id.
Qed.

Lemma dot_nil_l (b : list R) : dot [] b = 0.
Proof. reflexivity. Qed.

Lemma dot_nil_r (a : list R) : dot a [] = 0.
Proof. unfold dot. now rewrite combine_nil. Qed.

Lemma dot_cons (a b : R) (l l' : list R) :
  dot (a :: l) (b :: l') = a * b + dot l l'.
Proof. reflexivity. Qed.

Lemma unpairs_cons (p : R * R) (l : list (R * R)) :
  unpairs (p :: l) = fst p :: snd p :: unpairs l.
Proof. reflexivity. Qed.

Lemma unpairs_pairs (v : list R) (n : nat) :
  length v = (2 * n)%nat -> unpairs (pairs v) = v.
Proof.
  revert v. induction n as [|n IH]; intros v Hv.
  - destruct v; [reflexivity|discriminate].
  - destruct v as [|a [|b v]]; try (cbn in Hv; lia).
    cbn [pairs]. rewrite unpairs_cons. cbn [fst snd].
    rewrite IH; [reflexivity|cbn in Hv; lia].
Qed.

(** The inner product of two rotated pairs depends on the difference of
    the angles only. *)
Lemma rotated_pair_product (a b c d x y : R) :
  let p := cmul (a, b) (1 * cos x, 1 * sin x) in
  let q := cmul (c, d) (1 * cos y, 1 * sin y) in
  fst p * fst q + snd p * snd q
  = (a * c + b * d) * cos (x - y) + (a * d - b * c) * sin (x - y).
Proof.
  cbv zeta. unfold cmul, ssub, sadd, smul, R_scalar. cbn [fst snd].
  rewrite cos_minus, sin_minus. ring.
Qed.

Lemma rotated_dot_offset (inv_freq : list R) (pq pk : list (R * R))
    (ti tj ti' tj' : R) :
  ti - tj = ti' - tj' ->
  dot (unpairs (rot_row pq (unit_row ti inv_freq)))
      (unpairs (rot_row pk (unit_row tj inv_freq)))
  = dot (unpairs (rot_row pq (unit_row ti' inv_freq)))
        (unpairs (rot_row pk (unit_row tj' inv_freq))).
Proof.
  intros Hoff. revert pq pk.
  induction inv_freq as [|f inv IH]; intros pq pk.
  - unfold unit_row, rot_row. cbn [map]. now rewrite !combine_nil.
  - destruct pq as [|[a b] pq]; [reflexivity|].
    destruct pk as [|[c d] pk].
    + unfold rot_row. cbn [combine map unpairs flat_map].
      now rewrite !dot_nil_r.
    + unfold rot_row, unit_row in *. cbn [map combine fst snd].
      rewrite !unpairs_cons, !dot_cons, IH, <- !Rplus_assoc.
      f_equal.
      rewrite !rotated_pair_product.
      replace (ti * f - tj * f) with (ti' * f - tj' * f); [reflexivity|].
      transitivity ((ti' - tj') * f); [ring|]. rewrite <- Hoff. ring.
Qed.

Lemma rot_row_zero (inv_freq : list R) (ps : list (R * R)) :
  (length ps <= length inv_freq)%nat ->
  rot_row ps (unit_row 0 inv_freq) = ps.
Proof.
  revert ps. induction inv_freq as [|f inv IH]; intros ps Hlen.
  - destruct ps; [reflexivity|cbn in Hlen; lia].
  - destruct ps as [|[a b] ps]; [reflexivity|].
    unfold rot_row, unit_row in *. cbn [map combine fst snd].
    rewrite IH by (cbn in Hlen; lia). f_equal.
    unfold cmul, ssub, sadd, smul, R_scalar. cbn [fst snd].
    rewrite Rmult_0_l, cos_0, sin_0. f_equal; ring.
Qed.

(** X20.  Rotary embeddings leave position 0 as it is: a vector of the
    table's feature size, which is even, is unchanged by the row of
    position 0. *)
Theorem rotary_position_zero_identity :
  forall dim maxseqlen base tbl (v : list R),
    rotaryembeddings dim maxseqlen base = Ok tbl ->
    (0 < maxseqlen)%nat ->
    Z.even dim = true ->
    length v = Z.to_nat dim ->
    rotv v (nth 0 tbl []) = v.
Proof.
  intros dim maxseqlen base tbl v Htbl Hmax Heven Hv.
  destruct (rotaryembeddings_row _ _ _ _ 0%nat Htbl Hmax)
    as (inv & Hinv & Hrow).
  apply Z.even_spec in Heven as [k Hk].
  assert (Hd : (0 <= dim)%Z).
  { unfold rotaryembeddings in Htbl.
    destruct (dim <? 0)%Z eqn:E; [discriminate|]. now apply Z.ltb_ge. }
  assert (Hhalf : ((dim + 1) / 2 = k)%Z)
    by (rewrite Hk; symmetry; apply Z.div_unique with 1%Z; lia).
  assert (Hlen : length v = (2 * Z.to_nat k)%nat) by lia.
  rewrite rotv_real, (Hrow 0%nat Hmax). cbn [Z.of_nat].
  rewrite rot_row_zero.
  - now apply unpairs_pairs with (Z.to_nat k).
  - rewrite (length_pairs (Z.to_nat k) v Hlen). lia.
Qed.

(** X21.  The inner product of a query rotated for position [i] and a key
    rotated for position [j], which is their attention score, depends on
    the offset between the two positions only: shifting both by [s] does
    not change it. *)
Theorem rotary_score_depends_on_offset :
  forall dim maxseqlen base tbl (q k : list R) i j s,
    rotaryembeddings dim maxseqlen base = Ok tbl ->
    (i + s < maxseqlen)%nat -> (j + s < maxseqlen)%nat ->
    dot (rotv q (nth (i + s) tbl [])) (rotv k (nth (j + s) tbl []))
    = dot (rotv q (nth i tbl [])) (rotv k (nth j tbl [])).
Proof.
  intros dim maxseqlen base tbl q k i j s Htbl Hi Hj.
  destruct (rotaryembeddings_row _ _ _ _ (i + s)%nat Htbl Hi)
    as (inv & _ & Hrow).
  rewrite !rotv_real, !Hrow by lia.
  apply rotated_dot_offset.
  rewrite !Nat2Z.inj_add, !plus_IZR. ring.
Qed.

(** X22.  Rotating a query and a key for the same position preserves their
    inner product, hence the norm of a vector. *)
Theorem rotary_preserves_inner_product :
  forall dim maxseqlen base tbl (q k : list R) t,
    rotaryembeddings dim maxseqlen base = Ok tbl ->
    (t < maxseqlen)%nat ->
    Z.even dim = true ->
    length q = Z.to_nat dim -> length k = Z.to_nat dim ->
    dot (rotv q (nth t tbl [])) (rotv k (nth t tbl [])) = dot q k.
Proof.
  intros dim maxseqlen base tbl q k t Htbl Ht Heven Hq Hk.
  destruct (rotaryembeddings_row _ _ _ _ t Htbl Ht) as (inv & Hinv & Hrow).
  apply Z.even_spec in Heven as [n Hn].
  assert (Hd : (0 <= dim)%Z).
  { unfold rotaryembeddings in Htbl.
    destruct (dim <? 0)%Z eqn:E; [discriminate|]. now apply Z.ltb_ge. }
  assert (Hhalf : ((dim + 1) / 2 = n)%Z)
    by (rewrite Hn; symmetry; apply Z.div_unique with 1%Z; lia).
  assert (Hlq : length q = (2 * Z.to_nat n)%nat) by lia.
  assert (Hlk : length k = (2 * Z.to_nat n)%nat) by lia.
  rewrite !rotv_real, (Hrow t Ht).
  rewrite (rotated_dot_offset inv _ _ _ _ 0 0) by ring.
  rewrite !rot_row_zero
    by (rewrite (length_pairs (Z.to_nat n)); [lia|assumption]).
  now rewrite (unpairs_pairs q (Z.to_nat n)), (unpairs_pairs k (Z.to_nat n)).
Qed.

End Rotations.

Lemma attention_weights_in_unit_interval_witness :
  exists m' ctx attn,
    forward ex_noise ex_self ex_x ex_x ex_x None 0 = (m', Ok (ctx, attn))
    /\ forall ab ah row w,
         In ab attn -> In ah ab -> In row ah -> In w row ->
         (0 <= w <= 1)%R.
Proof.
  do 3 eexists. split; [rcompute; reflexivity|].
  eapply (attention_weights_in_unit_interval ex_noise ex_self ex_x ex_x ex_x
            None 0).
  rcompute. reflexivity.
Defined.

Lemma rotary_position_zero_identity_witness :
  exists tbl,
    rotaryembeddings 2 4 10000 = Ok tbl
    /\ rotv [3; 4]%R (nth 0 tbl []) = [3; 4]%R.
Proof.
  eexists. split; [reflexivity|].
  apply (rotary_position_zero_identity 2 4 10000 _ [3; 4]%R).
  - reflexivity.
  - lia.
  - reflexivity.
  - reflexivity.
Defined.

Lemma rotary_score_depends_on_offset_witness :
  exists tbl,
    rotaryembeddings 2 4 10000 = Ok tbl
    /\ dot (rotv [3; 4]%R (nth (1 + 2) tbl []))
           (rotv [5; 6]%R (nth (0 + 2) tbl []))
       = dot (rotv [3; 4]%R (nth 1 tbl [])) (rotv [5; 6]%R (nth 0 tbl [])).
Proof.
  eexists. split; [reflexivity|].
  apply (rotary_score_depends_on_offset 2 4 10000 _ [3; 4]%R [5; 6]%R 1 0 2).
  - reflexivity.
  - lia.
  - lia.
Defined.

Lemma rotary_preserves_inner_product_witness :
  exists tbl,
    rotaryembeddings 2 4 10000 = Ok tbl
    /\ dot (rotv [3; 4]%R (nth 3 tbl [])) (rotv [5; 6]%R (nth 3 tbl []))
       = dot [3; 4]%R [5; 6]%R.
Proof.
  eexists. split; [reflexivity|].
  apply (rotary_preserves_inner_product 2 4 10000 _ [3; 4]%R [5; 6]%R 3).
  - reflexivity.
  - lia.
  - reflexivity.
  - reflexivity.
  - reflexivity.
Defined.

(** ** The limits of rotary mode *)

Section RotaryLimits.

Context {F : Type} {ops : Scalar F}.

Lemma linear_apply_inv (l : @Linear F) (x y : T3 F) :
  linear_apply l x = Ok y ->
  is_tensor3 x = true /\ y = map (map (linear_vec l)) x.
Proof.
  unfold linear_apply, guard.
  destruct (is_tensor3 x); cbn [bind]; [|discriminate].
  destruct ((numel3 x =? 0) || (size2 x =? in_features l)); cbn [bind];
    [|discriminate].
  intros [= <-]. auto.
Qed.

Lemma linear_apply_tensor (l : @Linear F) (x y : T3 F) :
  linear_apply l x = Ok y ->
  is_tensor3 y = true /\ size0 y = size0 x /\ size1 y = size1 x.
Proof.
  intros H. apply linear_apply_inv in H as [Hx ->].
  assert (S0 : size0 (map (map (linear_vec l)) x) = size0 x)
    by apply length_map.
  assert (S1 : size1 (map (map (linear_vec l)) x) = size1 x).
  { destruct x; [reflexivity|]. unfold size1. cbn [map hd].
    apply length_map. }
  split; [|auto].
  unfold is_tensor3. rewrite S0, S1. apply rect3_iff.
  rewrite length_map. split; [reflexivity|].
  apply Forall_map, Forall_forall. intros xb Hin.
  destruct (tensor3_rows x Hx xb Hin) as [Hl _].
  rewrite length_map. split; [exact Hl|].
  apply Forall_map, Forall_forall. intros v Hv.
  rewrite length_linear_vec.
  destruct x as [|[|v0 xb0] x'].
  - destruct Hin.
  - unfold size1 in Hl. cbn in Hl. destruct xb; [destruct Hv|discriminate].
  - unfold size2. cbn [map hd]. now rewrite length_linear_vec.
Qed.

Lemma size1_transposed (q : T4 F) : size1 (map (transpose []) q) = size2 q.
Proof.
  destruct q as [|qb q]; [reflexivity|].
  unfold size1, size2. cbn [map hd]. apply length_transpose.
Qed.

Lemma size3_transposed (q : T4 F) :
  0 < size1 q -> 0 < size2 q -> size3 (map (transpose []) q) = size3 q.
Proof.
  destruct q as [|[|[|v qh] qb] q]; unfold size1, size2, size3; cbn [hd length];
    try lia.
  intros _ _. cbn [map hd]. unfold transpose. cbn [hd length seq map nth].
  reflexivity.
Qed.

(** The rotary block raises on a head size that is odd and on positions
    that the table does not hold. *)
Lemma rotary_raises (m : @MultiHeadedAttention F) (start : nat) (q k : T4 F) :
  0 < size1 q -> 0 < size2 q ->
  size3 q mod 2 <> 0
  \/ (exists tbl, rope m = Some tbl /\ length tbl < start + size2 q) ->
  exists e, rotary m start q k = Raise e.
Proof.
  intros H1 H2 Hbad. unfold rotary.
  destruct (rope m) as [tbl|]; cbn [bind]; [|eauto].
  unfold apply_rotary_emb, guard.
  rewrite size3_transposed, size1_transposed by assumption.
  destruct Hbad as [Hodd | (tbl' & [= <-] & Hlen)].
  - apply Nat.eqb_neq in Hodd. rewrite Hodd. cbn. eauto.
  - destruct ((size3 q mod 2 =? 0)
              && (size3 (map (transpose []) k) mod 2 =? 0));
      cbn [bind]; [|eauto].
    assert (Hl : (length (firstn (size2 q) (skipn start tbl)) =? size2 q)
                 = false).
    { apply Nat.eqb_neq. rewrite length_firstn, length_skipn. lia. }
    rewrite Hl. cbn. eauto.
Qed.

Lemma shape_positive (x : T3 F) (dph : Z) (y : T4 F) :
  is_tensor3 x = true -> shape x dph = Ok y ->
  0 < size1 y /\ size2 y = size1 x /\ 0 < size1 x
  /\ size3 y = Z.to_nat dph /\ (0 < dph)%Z.
Proof.
  intros Hx Hs.
  destruct (shape_dims x dph y Hx Hs) as (_ & _ & S1 & S2 & S3).
  apply shape_inv in Hs as (Hd & Hn & _ & _).
  apply numel3_nonzero in Hn as (_ & H1 & H2).
  repeat split; auto. destruct (size1 y); lia.
Qed.

Variable noise : Q -> T4 F -> T4 F.

Lemma forward_rotary_raises m key value query mask step :
  max_relative_positions m = (-1)%Z ->
  enabled (layer_cache m) = false \/ attn_type m = Some "self"%string ->
  Z.odd (dim_per_head m) = true
  \/ (exists tbl,
        rope m = Some tbl
        /\ length tbl
           < (if enabled (layer_cache m) then step else 0) + size1 query) ->
  exists e, forward noise m key value query mask step = (m, Raise e).
Proof.
  intros Hmode Hbranch Hbad.
  assert (Hp : exists e, project m key value query step = Raise e).
  { assert (Hrot : forall q0 q k start,
              linear_apply (linear_query m) query = Ok q0 ->
              shape q0 (dim_per_head m) = Ok q ->
              start = (if enabled (layer_cache m) then step else 0) ->
              exists e, maybe_rotary m start q k = Raise e).
    { intros q0 q k start Hl Hs ->.
      destruct (linear_apply_tensor _ _ _ Hl) as (Ht & _ & S1).
      destruct (shape_positive _ _ _ Ht Hs) as (P1 & P2 & P3 & P4 & P5).
      unfold maybe_rotary. rewrite Hmode. cbn [Z.eqb Pos.eqb].
      apply rotary_raises; [assumption|lia|].
      destruct Hbad as [Hodd | (tbl & Hr & Hlen)].
      - left. rewrite P4. apply Z.odd_spec in Hodd as [n Hn].
        rewrite Hn. replace (Z.to_nat (2 * n + 1)) with (2 * Z.to_nat n + 1)
          by lia.
        rewrite Nat.add_comm, Nat.mul_comm, Nat.Div0.mod_add. cbn. lia.
      - right. exists tbl. split; [assumption|]. rewrite P2, S1. exact Hlen. }
    unfold project.
    destruct (enabled (layer_cache m)) eqn:Hen.
    - destruct Hbranch as [Hf | Hself]; [discriminate|].
      unfold is_attn_type. rewrite Hself. cbn [String.eqb Ascii.eqb Bool.eqb].
      destruct (linear_apply (linear_query m) query) as [q0|] eqn:Hq;
        cbn [bind]; [|eauto].
      destruct (linear_apply (linear_keys m) query); cbn [bind]; [|eauto].
      destruct (linear_apply (linear_values m) query); cbn [bind]; [|eauto].
      destruct (shape q0 (dim_per_head m)) as [q|] eqn:Hs; cbn [bind];
        [|eauto].
      destruct (shape a (dim_per_head m)) as [k|]; cbn [bind]; [|eauto].
      destruct (shape a0 (dim_per_head m)); cbn [bind]; [|eauto].
      destruct (Hrot q0 q k step eq_refl Hs eq_refl) as [e ->]. cbn [bind]. eauto.
    - destruct (linear_apply (linear_keys m) key); cbn [bind]; [|eauto].
      destruct (linear_apply (linear_values m) value); cbn [bind]; [|eauto].
      destruct (linear_apply (linear_query m) query) as [q0|] eqn:Hq;
        cbn [bind]; [|eauto].
      destruct (shape a (dim_per_head m)) as [k|]; cbn [bind]; [|eauto].
      destruct (shape a0 (dim_per_head m)); cbn [bind]; [|eauto].
      destruct (shape q0 (dim_per_head m)) as [q|] eqn:Hs; cbn [bind];
        [|eauto].
      destruct (Hrot q0 q k 0 eq_refl Hs eq_refl) as [e ->]. cbn [bind]. eauto. }
  destruct Hp as [e Hp]. exists e. unfold forward. now rewrite Hp.
Qed.

(** X23.  Rotary mode needs an even head size: with an odd
    [dim_per_head], which the constructor accepts, every call that gets to
    the rotary block (cache disabled, or "self" with the cache) raises and
    leaves the module as it was. *)
Theorem forward_rotary_odd_head_size :
  forall m key value query mask step,
    max_relative_positions m = (-1)%Z ->
    enabled (layer_cache m) = false \/ attn_type m = Some "self"%string ->
    Z.odd (dim_per_head m) = true ->
    exists e, forward noise m key value query mask step = (m, Raise e).
Proof.
  intros m key value query mask step Hmode Hbranch Hodd.
  apply forward_rotary_raises; auto.
Qed.

(** X24.  Rotary mode is limited to the positions of the table: a call
    whose query reaches beyond its last row, counted from 0 without cache
    and from [step] with it, raises and leaves the module as it was. *)
Theorem forward_rotary_beyond_table :
  forall m key value query mask step tbl,
    max_relative_positions m = (-1)%Z ->
    enabled (layer_cache m) = false \/ attn_type m = Some "self"%string ->
    rope m = Some tbl ->
    length tbl < (if enabled (layer_cache m) then step else 0) + size1 query ->
    exists e, forward noise m key value query mask step = (m, Raise e).
Proof.
  intros m key value query mask step tbl Hmode Hbranch Hr Hlen.
  apply forward_rotary_raises; eauto.
Qed.

End RotaryLimits.

Lemma forward_rotary_odd_head_size_witness :
  exists e,
    forward ex_noise (ex_rotary 1) ex_x ex_x ex_x None 0
    = (ex_rotary 1, Raise e).
Proof.
  apply (forward_rotary_odd_head_size ex_noise (ex_rotary 1)).
  - reflexivity.
  - left. reflexivity.
  - reflexivity.
Defined.

Lemma forward_rotary_beyond_table_witness :
  exists e,
    forward ex_noise (start_decoding (ex_rotary 2)) ex_x2 ex_x2 ex_x2 None 4096
    = (start_decoding (ex_rotary 2), Raise e).
Proof.
  eapply (forward_rotary_beyond_table ex_noise (start_decoding (ex_rotary 2))).
  - reflexivity.
  - right. reflexivity.
  - reflexivity.
  - cbn [start_decoding with_cache layer_cache enabled].
    rewrite length_map, length_seq. cbn. lia.
Defined.

(** ** The cache of self-attention *)

Section SelfCache.

Context {F : Type} {ops : Scalar F}.

Lemma tensor4_uniform (x : T4 F) : is_tensor4 x = true -> uniform x.
Proof.
  unfold is_tensor4, uniform. rewrite rect4_iff. intros [_ H].
  eapply Forall_impl; [|exact H]. intros xb [Hl Hh]. split; [exact Hl|].
  eapply Forall_impl; [|exact Hh]. now intros xh [Hl' _].
Qed.

Lemma cat2_inv (a b r : T4 F) :
  cat2 a b = Ok r ->
  is_tensor4 a = true /\ size0 a = size0 b /\ size1 a = size1 b
  /\ r = map (fun p => map (fun q => fst q ++ snd q) (combine (fst p) (snd p)))
             (combine a b).
Proof.
  unfold cat2, guard.
  destruct (is_tensor4 a && (size0 a =? size0 b) && (size1 a =? size1 b)
            && (size3 a =? size3 b)) eqn:Hg; cbn [bind]; [|discriminate].
  intros [= <-].
  apply andb_true_iff in Hg as [Hg _].
  apply andb_true_iff in Hg as [Hg H1].
  apply andb_true_iff in Hg as [Hg H0].
  apply Nat.eqb_eq in H0, H1. auto.
Qed.

Lemma firstn_zip_app {A : Type} (n : nat) (a b : list (list A)) :
  Forall (fun r => length r = n) a -> length a <= length b ->
  map (firstn n) (map (fun q => fst q ++ snd q) (combine a b)) = a.
Proof.
  revert b. induction a as [|r a IH]; intros b Ha Hl; [reflexivity|].
  destruct b as [|s b]; [cbn in Hl; lia|].
  inversion Ha as [|? ? Hr Ha']; subst. cbn [combine map fst snd].
  rewrite IH by (auto; cbn in Hl; lia). f_equal.
  rewrite firstn_app, Nat.sub_diag, firstn_O, app_nil_r.
  now apply firstn_all.
Qed.

(** What was in the first tensor is still there after [torch.cat], and the
    length is the sum of the lengths. *)
Lemma cat2_prefix (a b r : T4 F) :
  cat2 a b = Ok r -> numel4 a <> 0 -> uniform b ->
  map (map (firstn (size2 a))) r = a
  /\ size2 r = size2 a + size2 b.
Proof.
  intros Hc Hn Hb. apply cat2_inv in Hc as (Ha & S0 & S1 & ->).
  apply numel4_nonzero in Hn as (N0 & N1 & N2 & _).
  pose proof (tensor4_uniform a Ha) as Hua.
  split.
  - rewrite map_map. unfold size0 in S0. clear N0.
    unfold uniform in Hua, Hb. rewrite <- S1 in Hb.
    set (na := size1 a) in *. set (la := size2 a) in *.
    set (lb := size2 b) in *. clearbody na la lb. clear S1 N1 N2 Ha.
    revert b S0 Hb. induction a as [|ab a IH]; intros b S0 Hb;
      [reflexivity|].
    destruct b as [|bb b]; [discriminate|].
    inversion Hua as [|? ? [Hab Hah] Hua']; subst.
    inversion Hb as [|? ? [Hbb _] Hb']; subst.
    cbn [combine map fst snd]. f_equal.
    + apply firstn_zip_app; [assumption|lia].
    + apply IH; auto.
  - destruct a as [|[|[|ra ah] ab] a]; unfold size0, size1, size2 in *;
      cbn in N0, N1, N2; try lia.
    destruct b as [|[|bh bb] b]; cbn in S0, S1; try discriminate; try lia.
    cbn [combine map fst snd hd]. now rewrite length_app.
Qed.

Lemma heads_by_length_uniform (nh len : nat) (x : T4 F) :
  x <> [] -> 0 < nh -> heads_by_length nh len x ->
  uniform x /\ size1 x = nh /\ size2 x = len.
Proof.
  intros Hne Hnh H.
  assert (S1 : size1 x = nh).
  { destruct x as [|xb x]; [congruence|]. inversion H as [|? ? [Hl _] _].
    exact Hl. }
  assert (S2 : size2 x = len).
  { destruct x as [|xb x]; [congruence|].
    inversion H as [|? ? [Hl Hh] _]; subst.
    destruct xb as [|xh xb]; [cbn in Hnh; lia|].
    inversion Hh; subst. reflexivity. }
  unfold uniform. now rewrite S1, S2.
Qed.

Lemma uniform_heads_by_length (x : T4 F) :
  uniform x -> heads_by_length (size1 x) (size2 x) x.
Proof. exact (fun H => H). Qed.

Lemma transpose_dims {A : Type} (d : A) (m : list (list A)) (r c : nat) :
  length m = r -> 0 < r -> Forall (fun row => length row = c) m ->
  length (transpose d m) = c
  /\ Forall (fun col => length col = r) (transpose d m).
Proof.
  intros Hr Hpos Hc. unfold transpose.
  assert (Hhd : length (hd [] m) = c).
  { destruct m as [|row m]; [cbn in Hr; lia|]. now inversion Hc. }
  rewrite length_map, length_seq, Hhd. split; [reflexivity|].
  apply Forall_map, Forall_forall. intros j _. now rewrite length_map.
Qed.

Lemma rotary_key_dims (m : @MultiHeadedAttention F) (start : nat)
    (q k q2 k2 : T4 F) :
  rotary m start q k = Ok (q2, k2) ->
  uniform k -> 0 < size1 k -> size2 k = size2 q -> 0 < size2 q ->
  heads_by_length (size1 k) (size2 k) k2 /\ length k2 = length k.
Proof.
  unfold rotary. intros H Hu Hnh Hkq Hlen.
  destruct (rope m) as [tbl|]; cbn [bind] in H; [|discriminate].
  unfold apply_rotary_emb, guard in H.
  match type of H with
  | context [if ?c then Ok tt else _] =>
      destruct c; cbn [bind] in H; [|discriminate]
  end.
  rewrite size1_transposed in H.
  destruct (length (firstn (size2 q) (skipn start tbl)) =? size2 q) eqn:Hr;
    cbn [andb bind] in H; [|discriminate].
  apply Nat.eqb_eq in Hr.
  match type of H with
  | context [if ?c then Ok tt else _] =>
      destruct c; cbn [bind] in H; [|discriminate]
  end.
  set (rope := firstn (size2 q) (skipn start tbl)) in *.
  match type of H with
  | context [mapM ?f ?l] => destruct (mapM f l) as [ko|] eqn:Hko;
                            cbn [bind] in H; [|discriminate]
  end.
  injection H as _ <-.
  split; [|now rewrite length_map, (mapM_length _ _ _ Hko), length_map].
  unfold heads_by_length. apply Forall_map.
  eapply mapM_Forall; [exact Hko|].
  intros kb kob Hin Hf. cbv beta.
  apply in_map_iff in Hin as (kb0 & <- & Hin0).
  unfold uniform in Hu. rewrite Forall_forall in Hu.
  destruct (Hu kb0 Hin0) as [Hl0 Hh0].
  destruct (transpose_dims [] kb0 (size1 k) (size2 k) Hl0 Hnh Hh0)
    as [Tl Tc].
  rewrite (broadcast2_same_length (transpose [] kb0) rope) in Hf
    by (rewrite Tl, Hr; exact Hkq).
  cbn [bind] in Hf. injection Hf as <-.
  apply transpose_dims.
  - rewrite length_map, length_combine, Tl, Hr. lia.
  - lia.
  - apply Forall_map, Forall_forall. intros [hs row] Hp.
    apply in_combine_l in Hp. cbn [fst snd].
    unfold rotate_position. rewrite length_map.
    rewrite Forall_forall in Tc. now apply Tc.
Qed.

Lemma shape_uniform (x : T3 F) (dph : Z) (y : T4 F) :
  is_tensor3 x = true -> shape x dph = Ok y ->
  uniform y /\ y <> [] /\ 0 < size1 y /\ size2 y = size1 x /\ 0 < size1 x.
Proof.
  intros Hx Hs.
  destruct (shape_dims x dph y Hx Hs) as (Ht & S0 & _ & _ & _).
  destruct (shape_positive x dph y Hx Hs) as (P1 & P2 & P3 & _ & _).
  apply shape_inv in Hs as (_ & Hn & _ & _).
  apply numel3_nonzero in Hn as (Hne & _ & _).
  repeat split; auto using tensor4_uniform.
  intros ->. apply Hne. unfold size0 in S0. cbn in S0.
  now destruct x.
Qed.

Lemma maybe_rotary_key (m : @MultiHeadedAttention F) (start : nat)
    (q k q2 k2 : T4 F) :
  maybe_rotary m start q k = Ok (q2, k2) ->
  uniform k -> k <> [] -> 0 < size1 k -> size2 k = size2 q -> 0 < size2 q ->
  uniform k2 /\ size2 k2 = size2 k.
Proof.
  unfold maybe_rotary. intros H Hu Hne H1 Hkq Hq.
  destruct (max_relative_positions m =? -1)%Z.
  - destruct (rotary_key_dims m start q k q2 k2 H Hu H1 Hkq Hq) as [Hd Hl].
    assert (Hne2 : k2 <> [])
      by (intros ->; destruct k; [congruence|discriminate]).
    destruct (heads_by_length_uniform (size1 k) (size2 k) k2 Hne2 H1 Hd)
      as (U & _ & S2).
    auto.
  - injection H as _ <-. auto.
Qed.

Variable noise : Q -> T4 F -> T4 F.

(** X25.  The cache of self-attention is append-only: after a call that
    succeeds on a module whose cache is enabled and populated, the cached
    keys and values begin with what was cached before, unchanged, and are
    longer by the number of query positions. *)
Theorem self_cache_appends :
  forall m key value query mask step m' r,
    enabled (layer_cache m) = true ->
    attn_type m = Some "self"%string ->
    numel4 (keys (layer_cache m)) <> 0 ->
    numel4 (values (layer_cache m)) <> 0 ->
    forward noise m key value query mask step = (m', Ok r) ->
    let old := layer_cache m in
    let new := layer_cache m' in
    map (map (firstn (size2 (keys old)))) (keys new) = keys old
    /\ size2 (keys new) = size2 (keys old) + size1 query
    /\ map (map (firstn (size2 (values old)))) (values new) = values old
    /\ size2 (values new) = size2 (values old) + size1 query.
Proof.
  intros m key value query mask step m' r Hen Hself Hk Hv Hf. cbv zeta.
  unfold forward in Hf.
  destruct (project m key value query step) as [[[[q k] v] c]|e] eqn:Hp;
    [|discriminate].
  injection Hf as <- _. cbn [layer_cache with_cache].
  unfold project, is_attn_type in Hp. rewrite Hen, Hself in Hp.
  cbn [String.eqb Ascii.eqb Bool.eqb] in Hp.
  destruct (linear_apply (linear_query m) query) as [q0|] eqn:Lq;
    cbn [bind] in Hp; [|discriminate].
  destruct (linear_apply (linear_keys m) query) as [k0|] eqn:Lk;
    cbn [bind] in Hp; [|discriminate].
  destruct (linear_apply (linear_values m) query) as [v0|] eqn:Lv;
    cbn [bind] in Hp; [|discriminate].
  destruct (shape q0 (dim_per_head m)) as [q1|] eqn:Sq; cbn [bind] in Hp;
    [|discriminate].
  destruct (shape k0 (dim_per_head m)) as [k1|] eqn:Sk; cbn [bind] in Hp;
    [|discriminate].
  destruct (shape v0 (dim_per_head m)) as [v1|] eqn:Sv; cbn [bind] in Hp;
    [|discriminate].
  destruct (maybe_rotary m step q1 k1) as [[q2 k2]|] eqn:Hr;
    cbn [bind fst snd] in Hp; [|discriminate].
  apply Nat.eqb_neq in Hk, Hv. rewrite Hk, Hv in Hp. cbn [negb] in Hp.
  destruct (cat2 (keys (layer_cache m)) k2) as [k'|] eqn:Ck;
    cbn [bind] in Hp; [|discriminate].
  destruct (cat2 (values (layer_cache m)) v1) as [v'|] eqn:Cv;
    cbn [bind] in Hp; [|discriminate].
  injection Hp as <- <- <- <-. cbn [keys values].
  apply Nat.eqb_neq in Hk, Hv.
  destruct (linear_apply_tensor _ _ _ Lq) as (Tq & _ & Q1).
  destruct (linear_apply_tensor _ _ _ Lk) as (Tk & _ & K1).
  destruct (linear_apply_tensor _ _ _ Lv) as (Tv & _ & V1).
  destruct (shape_uniform _ _ _ Tq Sq) as (_ & _ & _ & Q2 & Q3).
  destruct (shape_uniform _ _ _ Tk Sk) as (Uk & Nk & Pk & K2 & _).
  destruct (shape_uniform _ _ _ Tv Sv) as (Uv & _ & _ & V2 & _).
  destruct (maybe_rotary_key m step q1 k1 q2 k2 Hr Uk Nk Pk) as [Uk2 Sk2];
    [lia|lia|].
  destruct (cat2_prefix _ _ _ Ck Hk Uk2) as [A1 A2].
  destruct (cat2_prefix _ _ _ Cv Hv Uv) as [B1 B2].
  repeat split; auto; lia.
Qed.

End SelfCache.

Lemma self_cache_appends_witness :
  exists m' r,
    forward ex_noise ex_cached ex_x1 ex_x1 ex_x1 None 1 = (m', Ok r)
    /\ map (map (firstn (size2 (keys (layer_cache ex_cached)))))
         (keys (layer_cache m'))
       = keys (layer_cache ex_cached)
    /\ size2 (keys (layer_cache m'))
       = size2 (keys (layer_cache ex_cached)) + size1 ex_x1.
Proof.
  do 2 eexists. split; [rcompute; reflexivity|].
  refine (let H := self_cache_appends ex_noise ex_cached ex_x1 ex_x1 ex_x1
                     None 1 _ _ eq_refl eq_refl _ _ _ in
          conj (proj1 H) (proj1 (proj2 H))).
  - cbn. lia.
  - cbn. lia.
  - rcompute. reflexivity.
Defined.

(** ** Context attention and masks *)

Section ContextAndMask.

Context {F : Type} {ops : Scalar F} (noise : Q -> T4 F -> T4 F).

(** X26.  Once the cache of context attention is populated, the [key] and
    [value] arguments are not read any more: two calls that differ in them
    only have the same outcome. *)
Theorem context_cache_ignores_key_value :
  forall m key value key' value' query mask step,
    enabled (layer_cache m) = true ->
    attn_type m = Some "context"%string ->
    numel4 (keys (layer_cache m)) <> 0 ->
    forward noise m key value query mask step
    = forward noise m key' value' query mask step.
Proof.
  intros m key value key' value' query mask step Hen Hctx Hpop.
  unfold forward, project, is_attn_type. rewrite Hen, Hctx.
  cbn [String.eqb Ascii.eqb Bool.eqb].
  apply Nat.eqb_neq in Hpop. rewrite Hpop. reflexivity.
Qed.

Lemma repeat_head_tensor (mk : list (list (list (list bool)))) (n : nat) :
  is_tensor4 mk = true -> numel4 mk <> 0 -> size1 mk = 1 -> 0 < n ->
  let mk' := map (fun mb => repeat (hd [] mb) n) mk in
  is_tensor4 mk' = true /\ numel4 mk' <> 0 /\ size1 mk' = n.
Proof.
  intros Ht Hn H1 Hpos. cbv zeta.
  apply numel4_nonzero in Hn as (N0 & _ & N2 & N3).
  unfold is_tensor4 in Ht. apply rect4_iff in Ht as [_ Ht].
  rewrite Forall_forall in Ht.
  destruct mk as [|mb0 mk']; [cbn in N0; lia|].
  set (mk := mb0 :: mk') in *.
  assert (S1 : size1 (map (fun mb => repeat (hd [] mb) n) mk) = n)
    by (unfold size1; cbn [mk map hd]; apply repeat_length).
  assert (S0 : size0 (map (fun mb => repeat (hd [] mb) n) mk) = size0 mk)
    by apply length_map.
  assert (S2 : size2 (map (fun mb => repeat (hd [] mb) n) mk) = size2 mk).
  { unfold size2. cbn [mk map hd]. destruct n; [lia|]. reflexivity. }
  assert (S3 : size3 (map (fun mb => repeat (hd [] mb) n) mk) = size3 mk).
  { unfold size3. cbn [mk map hd]. destruct n; [lia|]. reflexivity. }
  split; [|split; [|exact S1]].
  - unfold is_tensor4. rewrite S0, S1, S2, S3. apply rect4_iff.
    rewrite length_map. split; [reflexivity|].
    apply Forall_map, Forall_forall. intros mb Hin.
    rewrite repeat_length. split; [reflexivity|].
    apply Forall_forall. intros h Hh. apply repeat_spec in Hh. subst h.
    destruct (Ht mb Hin) as [Hl Hr]. rewrite H1 in Hl.
    destruct mb as [|h0 mb]; [discriminate|].
    now inversion Hr.
  - unfold numel4. rewrite S0, S1, S2, S3.
    unfold size0 in *. nia.
Qed.

(** X27.  A mask with a single head is broadcast to all heads: the call
    has the outcome of the call with the mask repeated [head_count] times
    along the head axis. *)
Theorem mask_broadcast_over_heads :
  forall m key value query mk step,
    is_tensor4 mk = true -> numel4 mk <> 0 -> size1 mk = 1 ->
    (0 < head_count m)%Z ->
    forward noise m key value query (Some (Mask4 mk)) step
    = forward noise m key value query
        (Some (Mask4 (map (fun mb => repeat (hd [] mb)
                                       (Z.to_nat (head_count m))) mk)))
        step.
Proof.
  intros m key value query mk step Ht Hn H1 Hhc.
  destruct (repeat_head_tensor mk (Z.to_nat (head_count m)) Ht Hn H1
              ltac:(lia)) as (Ht' & Hn' & S1').
  unfold forward.
  destruct (project m key value query step) as [[[[q k] v] c]|e];
    [|reflexivity].
  f_equal. unfold attend.
  destruct (raw_scores (with_cache m c) q k) as [[s rk]|e]; cbn [bind];
    [|reflexivity].
  assert (Hm : apply_mask (with_cache m c) s (Some (Mask4 mk))
               = apply_mask (with_cache m c) s
                   (Some (Mask4 (map (fun mb => repeat (hd [] mb)
                                         (Z.to_nat (head_count m))) mk)))).
  { unfold apply_mask, expand_mask, guard. cbn [head_count with_cache].
    rewrite Ht, Ht'.
    apply Nat.eqb_neq in Hn, Hn'. rewrite Hn, Hn'.
    apply Z.ltb_lt in Hhc. rewrite Hhc. cbn [andb negb bind].
    rewrite S1', Nat.eqb_refl, H1.
    destruct (1 =? Z.to_nat (head_count m)) eqn:E; [|reflexivity].
    apply Nat.eqb_eq in E. rewrite <- E.
    replace (map (fun mb : list (list (list bool)) => repeat (hd [] mb) 1) mk)
      with mk; [reflexivity|].
    transitivity (map (fun mb : list (list (list bool)) => mb) mk);
      [symmetry; apply map_id|].
    apply map_ext_in. intros mb Hin.
    unfold is_tensor4 in Ht. apply rect4_iff in Ht as [_ Ht].
    rewrite Forall_forall in Ht. destruct (Ht mb Hin) as [Hl _].
    rewrite H1 in Hl. destruct mb as [|h [|? ?]]; try discriminate.
    reflexivity. }
  cbn [fst snd]. rewrite Hm. reflexivity.
Qed.

End ContextAndMask.

Lemma context_cache_ignores_key_value_witness :
  forward ex_noise ex_multi_query ex_x2 ex_x2 ex_x2 None 0
  = forward ex_noise ex_multi_query [] [] ex_x2 None 0.
Proof.
  apply (context_cache_ignores_key_value ex_noise ex_multi_query).
  - reflexivity.
  - reflexivity.
  - cbn. lia.
Defined.

Lemma mask_broadcast_over_heads_witness :
  forward ex_noise ex_context ex_x2 ex_x2 ex_x2
    (Some (Mask4 [[[[false]]]])) 0
  = forward ex_noise ex_context ex_x2 ex_x2 ex_x2
      (Some (Mask4 (map (fun mb => repeat (hd [] mb)
                                     (Z.to_nat (head_count ex_context)))
                        [[[[false]]]]))) 0.
Proof.
  apply (mask_broadcast_over_heads ex_noise ex_context).
  - reflexivity.
  - cbn. lia.
  - reflexivity.
  - cbn. lia.
Defined.

(** ** The count of parameters *)

Section ParameterCounts.

Lemma add_count_keys d k n d' :
  add_count d k n = Some d' -> map fst d' = map fst d.
Proof.
  revert d'. induction d as [|[k' v] t IH]; intros d' H; [discriminate|].
  cbn in H. destruct (String.eqb k' k).
  - now injection H as <-.
  - destruct (add_count t k n) as [t'|]; [|discriminate].
    injection H as <-. cbn. f_equal. now apply IH.
Qed.

Lemma add_count_none d k n :
  add_count d k n = None <-> ~ In k (map fst d).
Proof.
  induction d as [|[k' v] t IH]; cbn.
  - split; auto.
  - destruct (String.eqb_spec k' k) as [->|Hne].
    + split; [discriminate|]. intros H. exfalso. apply H. now left.
    + destruct (add_count t k n) as [t'|].
      * split; [discriminate|]. intros H. exfalso.
        assert (Hn : ~ In k (map fst t)) by (intros Hin; apply H; now right).
        apply IH in Hn. discriminate.
      * split; [|reflexivity]. intros _ [Heq|Hin]; [congruence|].
        now apply IH in Hin.
Qed.

Lemma add_count_get d k n d' k0 :
  add_count d k n = Some d' ->
  get_count d' k0
  = if String.eqb k k0 then option_map (fun v => v + n) (get_count d k0)
    else get_count d k0.
Proof.
  revert d'. induction d as [|[k' v] t IH]; intros d' H; [discriminate|].
  cbn in H. destruct (String.eqb_spec k' k) as [->|Hne].
  - injection H as <-. cbn. destruct (String.eqb_spec k k0); reflexivity.
  - destruct (add_count t k n) as [t'|]; [|discriminate].
    injection H as <-. cbn.
    destruct (String.eqb_spec k' k0) as [->|Hne0].
    + destruct (String.eqb_spec k k0); [congruence|reflexivity].
    + now apply IH.
Qed.

Lemma count_loop_none ps t n :
  count_loop ps t n = None
  <-> exists p, In p ps
                /\ ~ In (dtype p) (map fst (if requires_grad p then t else n)).
Proof.
  revert t n. induction ps as [|p ps IH]; intros t n; cbn [count_loop].
  - split; [discriminate|]. now intros (p & [] & _).
  - destruct (requires_grad p) eqn:Hg.
    + destruct (add_count t (dtype p) (numel p)) as [t'|] eqn:Ha.
      * rewrite IH. pose proof (add_count_keys _ _ _ _ Ha) as Hk.
        split.
        -- intros (p' & Hin & Hn). exists p'. split; [now right|].
           destruct (requires_grad p'); [now rewrite <- Hk|assumption].
        -- intros (p' & [<-|Hin] & Hn).
           ++ rewrite Hg in Hn. apply add_count_none with (n := numel p) in Hn.
              congruence.
           ++ exists p'. split; [assumption|].
              destruct (requires_grad p'); [now rewrite Hk|assumption].
      * split; [|reflexivity]. intros _. exists p. split; [now left|].
        rewrite Hg. now apply add_count_none in Ha.
    + destruct (add_count n (dtype p) (numel p)) as [n'|] eqn:Ha.
      * rewrite IH. pose proof (add_count_keys _ _ _ _ Ha) as Hk.
        split.
        -- intros (p' & Hin & Hn). exists p'. split; [now right|].
           destruct (requires_grad p'); [assumption|now rewrite <- Hk].
        -- intros (p' & [<-|Hin] & Hn).
           ++ rewrite Hg in Hn. apply add_count_none with (n := numel p) in Hn.
              congruence.
           ++ exists p'. split; [assumption|].
              destruct (requires_grad p'); [assumption|now rewrite Hk].
      * split; [|reflexivity]. intros _. exists p. split; [now left|].
        rewrite Hg. now apply add_count_none in Ha.
Qed.

(** X28.  The count of parameters in [main] raises [KeyError] exactly when
    some parameter has a dtype other than float32, float16, uint8 and
    int8. *)
Theorem main_parameter_counts_key_error :
  forall ps,
    main_parameter_counts ps = None
    <-> exists p, In p ps
                  /\ ~ In (dtype p)
                       ["torch.float32"; "torch.float16"; "torch.uint8";
                        "torch.int8"]%string.
Proof.
  intros ps. unfold main_parameter_counts. rewrite count_loop_none.
  split; intros (p & Hin & Hn); exists p; split; auto;
    now destruct (requires_grad p).
Qed.

Lemma count_loop_get ps t n t' n' k :
  count_loop ps t n = Some (t', n') ->
  get_count t' k
  = option_map (fun v => v + total_numel true k ps) (get_count t k)
  /\ get_count n' k
     = option_map (fun v => v + total_numel false k ps) (get_count n k).
Proof.
  revert t n. induction ps as [|p ps IH]; intros t n H; cbn [count_loop] in H.
  - injection H as <- <-. unfold total_numel. cbn.
    split; destruct (get_count _ k); cbn; f_equal; lia.
  - unfold total_numel in *. cbn [filter].
    destruct (requires_grad p) eqn:Hg; cbn [Bool.eqb andb].
    + destruct (add_count t (dtype p) (numel p)) as [t1|] eqn:Ha;
        [|discriminate].
      destruct (IH _ _ H) as [IH1 IH2]. rewrite IH1, IH2.
      rewrite (add_count_get _ _ _ _ k Ha). split; [|reflexivity].
      destruct (String.eqb (dtype p) k); [|reflexivity].
      cbn [map]. change (list_sum (numel p :: ?l)) with (numel p + list_sum l).
      destruct (get_count t k); cbn [option_map]; f_equal; lia.
    + destruct (add_count n (dtype p) (numel p)) as [n1|] eqn:Ha;
        [|discriminate].
      destruct (IH _ _ H) as [IH1 IH2]. rewrite IH1, IH2.
      rewrite (add_count_get _ _ _ _ k Ha). split; [reflexivity|].
      destruct (String.eqb (dtype p) k); [|reflexivity].
      cbn [map]. change (list_sum (numel p :: ?l)) with (numel p + list_sum l).
      destruct (get_count n k); cbn [option_map]; f_equal; lia.
Qed.

(** X29.  When the count succeeds, the entry of each of the four dtypes in
    [trainable] is the total size of the parameters of that dtype that
    require a gradient, and the one in [non_trainable] that of those that
    do not. *)
Theorem main_parameter_counts_totals :
  forall ps trainable non_trainable k,
    main_parameter_counts ps = Some (trainable, non_trainable) ->
    In k ["torch.float32"; "torch.float16"; "torch.uint8";
          "torch.int8"]%string ->
    get_count trainable k = Some (total_numel true k ps)
    /\ get_count non_trainable k = Some (total_numel false k ps).
Proof.
  intros ps t n k H Hk. unfold main_parameter_counts in H.
  destruct (count_loop_get _ _ _ _ _ k H) as [H1 H2]. rewrite H1, H2.
  cbn in Hk. destruct Hk as [<-|[<-|[<-|[<-|[]]]]]; split; reflexivity.
Qed.

End ParameterCounts.

Lemma main_parameter_counts_key_error_witness :
  main_parameter_counts
    [{| requires_grad := true; dtype := "torch.bfloat16"%string;
        numel := 8 |}] = None.
Proof.
  apply (proj2 (main_parameter_counts_key_error _)).
  eexists. split; [now left|].
  cbn. intros [H|[H|[H|[H|[]]]]]; discriminate H.
Defined.

Lemma main_parameter_counts_totals_witness :
  exists trainable non_trainable,
    main_parameter_counts ex_parameters = Some (trainable, non_trainable)
    /\ get_count trainable "torch.float32"%string
       = Some (total_numel true "torch.float32"%string ex_parameters)
    /\ get_count non_trainable "torch.float32"%string
       = Some (total_numel false "torch.float32"%string ex_parameters).
Proof.
  do 2 eexists. split; [reflexivity|].
  apply (main_parameter_counts_totals ex_parameters).
  - reflexivity.
  - now left.
Defined.

(** * Rows, heads and the causal mask

    What a call returns row by row, the heads of the tensors it works
    with, and the call over a whole sequence under the causal mask of a
    decoder, against incremental decoding. *)

(** ** The rows of the attention weights *)

Section AttentionRows.

Context {F : Type} {ops : Scalar F}.

Lemma covers_row {A : Type} (nh nq : nat)
    (x : list (list (list (list A)))) (b h i : nat) :
  covers nh nq x -> b < length x -> h < nh -> i < nq ->
  exists row, row4 x b h i = Some row.
Proof.
  intros Hc Hb Hh Hi. unfold row4, covers in *. rewrite Forall_forall in Hc.
  destruct (nth_error x b) as [xb|] eqn:Eb;
    [|apply nth_error_None in Eb; lia].
  destruct (Hc xb (nth_error_In _ _ Eb)) as [Lb Hc'].
  rewrite Forall_forall in Hc'.
  destruct (nth_error xb h) as [xh|] eqn:Eh;
    [|apply nth_error_None in Eh; lia].
  pose proof (Hc' xh (nth_error_In _ _ Eh)) as Lh.
  destruct (nth_error xh i) as [row|] eqn:Ei;
    [eauto|apply nth_error_None in Ei; lia].
Qed.

Lemma heads_by_length_covers {A : Type} (nh nq : nat)
    (x : list (list (list (list A)))) :
  heads_by_length nh nq x -> covers nh nq x.
Proof.
  unfold heads_by_length, covers. apply Forall_impl. intros xb [Hl Hh].
  split; [lia|]. eapply Forall_impl; [|exact Hh]. cbn. intros; lia.
Qed.

Lemma broadcast2_length {A B : Type} (a : list A) (b : list B) p :
  broadcast2 a b = Ok p -> b <> [] -> length a <= length p.
Proof.
  unfold broadcast2. intros H Hb. destruct (length a =? length b) eqn:E.
  - apply Nat.eqb_eq in E. injection H as <-. rewrite length_combine. lia.
  - destruct a as [|a0 [|a1 a]].
    + cbn. lia.
    + injection H as <-. rewrite length_map.
      destruct b; [congruence|cbn; lia].
    + destruct b as [|b0 [|b1 b]]; try discriminate. injection H as <-.
      change (length (a0 :: a1 :: a)
              <= length (map (fun x => (x, b0)) (a0 :: a1 :: a))).
      rewrite length_map. lia.
Qed.

Lemma map4_covers {A B : Type} (f : A -> B) (nh nq : nat)
    (x : list (list (list (list A)))) :
  covers nh nq x -> covers nh nq (map4 f x).
Proof.
  unfold covers, map4. intros H. apply Forall_map.
  eapply Forall_impl; [|exact H]. cbn. intros xb [Hl Hh].
  rewrite length_map. split; [exact Hl|]. apply Forall_map.
  eapply Forall_impl; [|exact Hh]. cbn. intros xh Hx. now rewrite length_map.
Qed.

Lemma map4_heads_by_length {A B : Type} (f : A -> B) (nh nq : nat)
    (x : list (list (list (list A)))) :
  heads_by_length nh nq x -> heads_by_length nh nq (map4 f x).
Proof.
  unfold heads_by_length, map4. intros H. apply Forall_map.
  eapply Forall_impl; [|exact H]. cbn. intros xb [Hl Hh].
  rewrite length_map. split; [exact Hl|]. apply Forall_map.
  eapply Forall_impl; [|exact Hh]. cbn. intros xh Hx. now rewrite length_map.
Qed.

Lemma softmax_covers (nh nq : nat) (x : T4 F) :
  covers nh nq x -> covers nh nq (softmax x).
Proof.
  unfold covers, softmax. intros H. apply Forall_map.
  eapply Forall_impl; [|exact H]. cbn. intros xb [Hl Hh].
  rewrite length_map. split; [exact Hl|]. apply Forall_map.
  eapply Forall_impl; [|exact Hh]. cbn. intros xh Hx. now rewrite length_map.
Qed.

Lemma matmul_covers (a b : T4 F) y (nh n : nat) :
  matmul a b = Ok y ->
  heads_by_length nh n a -> b <> [] -> Forall (fun bb => bb <> []) b ->
  length a <= length y /\ covers nh n y.
Proof.
  intros Hm Ha Hb Hbb. apply matmul_inv in Hm as (_ & ab & Hab & Hm).
  split.
  - rewrite (mapM_length _ _ _ Hm). eapply broadcast2_length; eauto.
  - apply broadcast2_In in Hab. rewrite Forall_forall in Hab.
    unfold heads_by_length in Ha. rewrite Forall_forall in Ha, Hbb.
    eapply mapM_Forall; [exact Hm|]. intros [ah bh] yb Hin Hy.
    apply Hab in Hin as [Hina Hinb]. cbn [fst snd] in *.
    destruct (Ha _ Hina) as [Hl Hh]. pose proof (Hbb _ Hinb) as Hne.
    destruct (broadcast2 ah bh) as [hs|e] eqn:Hhs; cbn in Hy; [|discriminate].
    injection Hy as <-. rewrite length_map. split.
    + rewrite <- Hl. eapply broadcast2_length; eauto.
    + apply broadcast2_In in Hhs. apply Forall_map.
      eapply Forall_impl; [|exact Hhs]. cbn. intros [am bm] [Ham _].
      cbn [fst snd] in *. unfold mm. rewrite length_map.
      rewrite Forall_forall in Hh. rewrite (Hh _ Ham). lia.
Qed.

Lemma relative_matmul_covers (x : T4 F) (z : T3 F) (t : bool) y
    (nh n : nat) :
  relative_matmul x z t = Ok y ->
  heads_by_length nh n x -> x <> [] -> 0 < nh ->
  length y = length x /\ covers nh n y.
Proof.
  intros H Hx Hne Hnh.
  destruct (heads_by_length_uniform nh n x Hne Hnh Hx) as (_ & _ & S2).
  unfold relative_matmul in H.
  set (z' := if t then map (transpose zero) z else z) in *.
  destruct (size3 x =? size1 z'); cbn in H; [|discriminate].
  assert (Hzs : exists zs, length zs = size2 x
            /\ y = map (map (fun xh => map (fun p => vecmat (fst p) (snd p))
                                           (combine xh zs))) x).
  { destruct (length z' =? size2 x) eqn:E.
    - apply Nat.eqb_eq in E. cbn in H. injection H as <-. eauto.
    - destruct z' as [|z0 [|z1 z'']]; try discriminate.
      cbn in H. injection H as <-. exists (repeat z0 (size2 x)).
      now rewrite repeat_length. }
  destruct Hzs as (zs & Lz & ->). rewrite length_map. split; [reflexivity|].
  unfold covers, heads_by_length in *. apply Forall_map.
  eapply Forall_impl; [|exact Hx]. cbn. intros xb [Hl Hh].
  rewrite length_map. split; [lia|]. apply Forall_map.
  eapply Forall_impl; [|exact Hh]. cbn. intros xh Hxh.
  rewrite length_map, length_combine. lia.
Qed.

Lemma add_covers (s o : T4 F) y (nh n : nat) :
  add_ s o = Ok y -> covers nh n s -> covers nh n o ->
  length y = length s /\ covers nh n y.
Proof.
  unfold add_. intros H Hs Ho.
  assert (Hadd : forall sb ob : T3 F,
             (nh <= length sb /\ Forall (fun xh : T2 F => n <= length xh) sb) ->
             (nh <= length ob /\ Forall (fun xh : T2 F => n <= length xh) ob) ->
             let r := map (fun p => map (fun q => map (fun r => sadd (fst r)
                                                                (snd r))
                                                   (combine (fst q) (snd q)))
                                     (combine (fst p) (snd p)))
                        (combine sb ob) in
             nh <= length r /\ Forall (fun xh : T2 F => n <= length xh) r).
  { intros sb ob [Ls Hsb] [Lo Hob]. cbv zeta.
    rewrite length_map, length_combine. split; [lia|].
    rewrite Forall_forall in Hsb, Hob.
    apply Forall_map, Forall_forall. intros [sh oh] Hin. cbn [fst snd].
    rewrite length_map, length_combine.
    pose proof (Hsb _ (in_combine_l _ _ _ _ Hin)).
    pose proof (Hob _ (in_combine_r _ _ _ _ Hin)). lia. }
  unfold covers in *. rewrite Forall_forall in Hs, Ho.
  destruct (length o =? length s) eqn:E.
  - apply Nat.eqb_eq in E. injection H as <-.
    rewrite length_map, length_combine. split; [lia|].
    apply Forall_map, Forall_forall. intros [sb ob] Hin. cbn [fst snd].
    apply Hadd; [eapply Hs, in_combine_l|eapply Ho, in_combine_r]; eauto.
  - destruct o as [|o0 [|o1 o]]; try discriminate. injection H as <-.
    rewrite length_map. split; [reflexivity|].
    apply Forall_map, Forall_forall. intros sb Hin.
    apply Hadd; [now apply Hs|apply Ho; now left].
Qed.

Lemma alibi_forward_covers (a : @AlibiPositionalBias F) (s : T4 F)
    (nh n : nat) :
  covers nh n s ->
  length (alibi_forward a s) = length s /\ covers nh n (alibi_forward a s).
Proof.
  unfold covers, alibi_forward. intros Hs. rewrite length_map.
  split; [reflexivity|].
  apply Forall_map. eapply Forall_impl; [|exact Hs]. cbn. intros sb [Hl Hh].
  rewrite length_map, length_combine, length_seq. split; [lia|].
  rewrite Forall_forall in Hh.
  apply Forall_map, Forall_forall. intros [h sh] Hin. cbn [fst snd].
  apply in_combine_r in Hin. apply Hh in Hin.
  rewrite length_map, length_combine, length_seq. lia.
Qed.

Lemma expand_heads_inv (x : T4 F) (n : nat) y :
  expand_heads x n = Ok y ->
  is_tensor4 x = true /\ numel4 x <> 0 /\ size1 x * (n / size1 x) = n
  /\ y = replicate_heads (n / size1 x) x.
Proof.
  intros He. pose proof He as He'. unfold expand_heads in He.
  destruct (is_tensor4 x && negb (numel4 x =? 0)) eqn:Hg; cbn in He;
    [|discriminate].
  apply andb_true_iff in Hg as [Ht Hn].
  apply negb_true_iff, Nat.eqb_neq in Hn.
  match type of He with
  | bind (guard ?g _) _ = _ => destruct g eqn:Hg2; cbn in He; [|discriminate]
  end.
  apply Nat.eqb_eq in Hg2. clear He.
  assert (Hs : size1 (map (map (fun s : list (T2 F) =>
                                  concat (repeat s (n / size1 x))))
                        (map (map (fun xh : T2 F => [xh])) x)) = size1 x)
    by (destruct x; cbn; [reflexivity|now rewrite !length_map]).
  rewrite Hs in Hg2.
  rewrite (expand_heads_replicate x (n / size1 x) n Ht Hn Hg2) in He'.
  injection He' as <-. auto.
Qed.

(** The expanded keys have the heads of the query and no empty axis. *)
Lemma expand_heads_full (x : T4 F) (n : nat) y :
  expand_heads x n = Ok y -> 0 < n ->
  is_tensor4 y = true /\ numel4 y <> 0 /\ size1 y = n
  /\ y <> [] /\ Forall (fun yb => yb <> []) y.
Proof.
  intros He Hn. apply expand_heads_inv in He as (Ht & Hne & Hr & ->).
  assert (Hpos : 0 < n / size1 x) by (destruct (n / size1 x); lia).
  destruct (replicate_heads_tensor x _ Ht Hne Hpos) as (Ht' & Hn' & S1).
  rewrite Hr in S1. repeat split; auto.
  - apply numel4_nonzero in Hn' as (N0 & _). intros E. rewrite E in N0.
    now apply N0.
  - unfold is_tensor4 in Ht'. apply rect4_iff in Ht' as [_ Ht'].
    eapply Forall_impl; [|exact Ht']. cbn. intros yb [Hl _] ->.
    cbn in Hl. lia.
Qed.

Lemma raw_scores_covers m (q k : T4 F) s rk (nh n : nat) :
  raw_scores m q k = Ok (s, rk) ->
  heads_by_length nh n q -> q <> [] -> 0 < nh ->
  length q <= length s /\ covers nh n s.
Proof.
  unfold raw_scores. intros H Hq Hne Hnh.
  assert (Hq' : heads_by_length nh n (scale m q))
    by (now apply map4_heads_by_length).
  assert (Hne' : scale m q <> [])
    by (unfold scale, map4; destruct q; [congruence|discriminate]).
  assert (Hl' : length (scale m q) = length q)
    by (unfold scale, map4; now rewrite length_map).
  destruct (heads_by_length_uniform nh n _ Hne' Hnh Hq') as (_ & S1 & _).
  rewrite S1 in H.
  destruct (expand_heads k nh) as [key'|e] eqn:Hk; cbn in H; [|discriminate].
  destruct (expand_heads_full _ _ _ Hk Hnh) as (_ & _ & _ & Kne & Kb).
  destruct (matmul (scale m q) (map (map (transpose zero)) key'))
    as [s0|e] eqn:Hm; cbn in H; [|discriminate].
  destruct (matmul_covers _ _ _ nh n Hm Hq') as [L0 V0].
  { destruct key'; [congruence|discriminate]. }
  { apply Forall_map. eapply Forall_impl; [|exact Kb]. cbn.
    intros kb Hkb. destruct kb; [congruence|discriminate]. }
  destruct (relative_positions_embeddings m) as [emb|].
  - destruct (embedding emb _) as [rks|e] eqn:He; cbn in H; [|discriminate].
    destruct (relative_matmul (scale m q) rks true) as [r|e] eqn:Hr;
      cbn in H; [|discriminate].
    destruct (add_ s0 r) as [s1|e] eqn:Ha; cbn in H; [|discriminate].
    injection H as <- <-.
    destruct (relative_matmul_covers _ _ _ _ nh n Hr Hq' Hne' Hnh) as [_ Vr].
    destruct (add_covers _ _ _ nh n Ha V0 Vr) as [L1 V1].
    split; [unfold map4; rewrite length_map; lia|now apply map4_covers].
  - destruct (max_relative_positions m =? -2)%Z.
    + destruct (alibi m) as [a|]; cbn in H; [|discriminate].
      injection H as <- <-.
      destruct (alibi_forward_covers a s0 nh n V0) as [L1 V1].
      split; [unfold map4; rewrite length_map; lia|now apply map4_covers].
    + cbn in H. injection H as <- <-.
      split; [unfold map4; rewrite length_map; lia|now apply map4_covers].
Qed.

Lemma expand_mask_full (mask : Mask) (hc : Z) mk :
  expand_mask mask hc = Ok mk ->
  mk <> [] /\ Forall (fun mb => mb <> [] /\ Forall (fun mh => mh <> []) mb) mk.
Proof.
  destruct mask as [m3|m4]; cbn; [discriminate|].
  destruct (is_tensor4 m4 && negb (numel4 m4 =? 0) && (0 <? hc)%Z) eqn:Hg;
    cbn; [|discriminate].
  apply andb_true_iff in Hg as [Hg Hhc]. apply andb_true_iff in Hg as [Ht Hn].
  apply negb_true_iff, Nat.eqb_neq in Hn. apply Z.ltb_lt in Hhc.
  pose proof (tensor4_heads m4 Ht Hn) as Hh.
  pose proof (numel4_nonzero m4 Hn) as (N0 & N1 & _).
  assert (Hne : m4 <> []) by (intros ->; now apply N0).
  assert (Hb : Forall (fun mb : list (list (list bool)) => mb <> []) m4).
  { unfold is_tensor4 in Ht. apply rect4_iff in Ht as [_ Ht].
    eapply Forall_impl; [|exact Ht]. cbn. intros mb [Hl _] ->. cbn in Hl.
    congruence. }
  destruct (size1 m4 =? Z.to_nat hc).
  - intros [= <-]. split; [exact Hne|].
    rewrite Forall_forall in Hb, Hh. apply Forall_forall. intros mb Hin.
    split; [now apply Hb|]. eapply Forall_impl; [|exact (Hh _ Hin)].
    cbn. tauto.
  - destruct (size1 m4 =? 1); [|discriminate]. intros [= <-]. split.
    + destruct m4; [congruence|discriminate].
    + apply Forall_map. rewrite Forall_forall in Hb, Hh.
      apply Forall_forall. intros mb Hin. split.
      * destruct (Z.to_nat hc) eqn:E; [lia|discriminate].
      * apply Forall_forall. intros mh Hmh. apply repeat_spec in Hmh.
        subst mh. pose proof (Hb _ Hin) as Hmb. pose proof (Hh _ Hin) as Hhs.
        destruct mb as [|mh mb]; [congruence|]. cbn.
        apply Forall_inv in Hhs. tauto.
Qed.

Lemma masked_fill_covers (s : T4 F) mk (v : F) y (nh n : nat) :
  masked_fill s mk v = Ok y ->
  covers nh n s ->
  mk <> [] ->
  Forall (fun mb => mb <> [] /\ Forall (fun mh => mh <> []) mb) mk ->
  length s <= length y /\ covers nh n y.
Proof.
  unfold masked_fill, covers. intros H Hs Hne Hm.
  rewrite Forall_forall in Hs, Hm.
  destruct (broadcast2 s mk) as [p4|e] eqn:H4; cbn in H; [|discriminate].
  split.
  - rewrite (mapM_length _ _ _ H). eapply broadcast2_length; eauto.
  - apply broadcast2_In in H4. rewrite Forall_forall in H4.
    eapply mapM_Forall; [exact H|]. cbn. intros [sb mb] yb Hin Hyb.
    apply H4 in Hin as [Hsb Hmb]. apply Hs in Hsb as [Ls Hsb].
    apply Hm in Hmb as [Mne Hmb]. cbn [fst snd] in *.
    rewrite Forall_forall in Hsb, Hmb.
    destruct (broadcast2 sb mb) as [p3|e] eqn:H3; cbn in Hyb; [|discriminate].
    split.
    + rewrite (mapM_length _ _ _ Hyb).
      pose proof (broadcast2_length _ _ _ H3 Mne). lia.
    + apply broadcast2_In in H3. rewrite Forall_forall in H3.
      eapply mapM_Forall; [exact Hyb|]. cbn. intros [sh mh] yh Hin Hyh.
      apply H3 in Hin as [Hsh Hmh]. apply Hsb in Hsh. apply Hmb in Hmh.
      cbn [fst snd] in *.
      destruct (broadcast2 sh mh) as [p2|e] eqn:H2; cbn in Hyh;
        [|discriminate].
      rewrite (mapM_length _ _ _ Hyh).
      pose proof (broadcast2_length _ _ _ H2 Hmh). lia.
Qed.

Lemma apply_mask_covers m (s : T4 F) mask s' (nh n : nat) :
  apply_mask m s mask = Ok s' -> covers nh n s ->
  length s <= length s' /\ covers nh n s'.
Proof.
  unfold apply_mask. destruct mask as [mask|];
    [|intros [= <-]; auto].
  destruct (expand_mask mask (head_count m)) as [mk|e] eqn:He; cbn;
    [|discriminate].
  intros H Hs. destruct (expand_mask_full _ _ _ He) as [Hne Hm].
  eapply masked_fill_covers; eauto.
Qed.

(** *** The projected query *)

Lemma rotary_query_dims (m : @MultiHeadedAttention F) (start : nat)
    (q k q2 k2 : T4 F) :
  rotary m start q k = Ok (q2, k2) ->
  uniform q -> 0 < size1 q -> 0 < size2 q ->
  heads_by_length (size1 q) (size2 q) q2 /\ length q2 = length q.
Proof.
  unfold rotary. intros H Hu Hnh Hlen.
  destruct (rope m) as [tbl|]; cbn [bind] in H; [|discriminate].
  unfold apply_rotary_emb, guard in H.
  match type of H with
  | context [if ?c then Ok tt else _] =>
      destruct c; cbn [bind] in H; [|discriminate]
  end.
  rewrite size1_transposed in H.
  destruct (length (firstn (size2 q) (skipn start tbl)) =? size2 q) eqn:Hr;
    cbn [andb bind] in H; [|discriminate].
  apply Nat.eqb_eq in Hr.
  match type of H with
  | context [if ?c then Ok tt else _] =>
      destruct c; cbn [bind] in H; [|discriminate]
  end.
  set (rope := firstn (size2 q) (skipn start tbl)) in *.
  match type of H with
  | context [mapM ?f ?l] => destruct (mapM f l) as [ko|] eqn:Hko;
                            cbn [bind] in H; [|discriminate]
  end.
  injection H as <- _. cbn [fst].
  split; [|now rewrite !length_map].
  unfold heads_by_length. rewrite !map_map. apply Forall_map.
  unfold uniform in Hu. eapply Forall_impl; [|exact Hu]. cbn.
  intros qb [Hl0 Hh0].
  destruct (transpose_dims [] qb (size1 q) (size2 q) Hl0 Hnh Hh0)
    as [Tl Tc].
  apply transpose_dims.
  - rewrite length_map, length_combine, Tl, Hr. lia.
  - lia.
  - apply Forall_map, Forall_forall. intros [hs row] Hp.
    apply in_combine_l in Hp. cbn [fst snd].
    unfold rotate_position. rewrite length_map.
    rewrite Forall_forall in Tc. now apply Tc.
Qed.

Lemma maybe_rotary_query (m : @MultiHeadedAttention F) (start : nat)
    (q k q2 k2 : T4 F) :
  maybe_rotary m start q k = Ok (q2, k2) ->
  uniform q -> 0 < size1 q -> 0 < size2 q ->
  heads_by_length (size1 q) (size2 q) q2 /\ length q2 = length q.
Proof.
  unfold maybe_rotary. intros H Hu H1 H2.
  destruct (max_relative_positions m =? -1)%Z.
  - eapply rotary_query_dims; eauto.
  - injection H as <- _. auto.
Qed.

(** The query that [shape] makes of the projected [query]. *)
Lemma shaped_query (l : @Linear F) (dph : Z) (query q0 : T3 F) (q1 : T4 F) :
  linear_apply l query = Ok q0 -> shape q0 dph = Ok q1 ->
  let nh := out_features l / Z.to_nat dph in
  0 < nh /\ 0 < size0 query /\ 0 < size1 query
  /\ uniform q1 /\ length q1 = size0 query
  /\ size1 q1 = nh /\ size2 q1 = size1 query.
Proof.
  intros Lq Sq. cbv zeta.
  destruct (linear_apply_tensor _ _ _ Lq) as (Tq & Q0 & Q1).
  destruct (shape_dims _ _ _ Tq Sq) as (T4q & S0 & S1 & S2 & S3).
  destruct (shape_positive _ _ _ Tq Sq) as (P1 & _ & P3 & _ & Pd).
  destruct (shape_uniform _ _ _ Tq Sq) as (U & Hne & _ & _ & _).
  apply linear_apply_inv in Lq as [_ ->].
  assert (Hout : size2 (map (map (linear_vec l)) query) = out_features l).
  { destruct query as [|[|row xb] x]; unfold size1 in P3; cbn in P3; try lia.
    cbn. unfold linear_vec. now rewrite length_map, length_seq. }
  rewrite Hout in S1.
  assert (Hnh : size1 q1 = out_features l / Z.to_nat dph).
  { rewrite <- S1. rewrite Nat.div_mul; [reflexivity|lia]. }
  rewrite <- Hnh. unfold size0 in *.
  assert (L0 : length q1 = length query).
  { rewrite S0. now rewrite length_map. }
  repeat split; auto; try lia.
  destruct query; [|cbn; lia]. cbn in L0.
  destruct q1; [congruence|discriminate].
Qed.

Lemma project_query m key value query step (q k v : T4 F) c :
  project m key value query step = Ok (q, k, v, c) ->
  let nh := out_features (linear_query m) / Z.to_nat (dim_per_head m) in
  0 < nh /\ 0 < size0 query /\ 0 < size1 query
  /\ length q = size0 query /\ heads_by_length nh (size1 query) q.
Proof.
  intros Hp. cbv zeta. unfold project in Hp.
  destruct (enabled (layer_cache m)).
  - destruct (is_attn_type m "self"%string).
    + destruct (linear_apply (linear_query m) query) as [q0|] eqn:Lq;
        cbn [bind] in Hp; [|discriminate].
      destruct (linear_apply (linear_keys m) query) as [k0|] eqn:Lk;
        cbn [bind] in Hp; [|discriminate].
      destruct (linear_apply (linear_values m) query) as [v0|] eqn:Lv;
        cbn [bind] in Hp; [|discriminate].
      destruct (shape q0 (dim_per_head m)) as [q1|] eqn:Sq; cbn [bind] in Hp;
        [|discriminate].
      destruct (shape k0 (dim_per_head m)) as [k1|] eqn:Sk; cbn [bind] in Hp;
        [|discriminate].
      destruct (shape v0 (dim_per_head m)) as [v1|] eqn:Sv; cbn [bind] in Hp;
        [|discriminate].
      destruct (maybe_rotary m step q1 k1) as [[q2 k2]|] eqn:Hr;
        cbn [bind fst snd] in Hp; [|discriminate].
      match type of Hp with
      | bind ?e _ = _ => destruct e as [k'|]; cbn [bind] in Hp; [|discriminate]
      end.
      match type of Hp with
      | bind ?e _ = _ => destruct e as [v'|]; cbn [bind] in Hp; [|discriminate]
      end.
      injection Hp as <- _ _ _.
      destruct (shaped_query _ _ _ _ _ Lq Sq)
        as (Hnh & H0 & H1 & U & L0 & S1 & S2).
      destruct (maybe_rotary_query _ _ _ _ _ _ Hr U) as [Hd Hl]; [lia|lia|].
      rewrite S1, S2 in Hd. repeat split; auto; lia.
    + destruct (is_attn_type m "context"%string).
      * destruct (linear_apply (linear_query m) query) as [q0|] eqn:Lq;
          cbn [bind] in Hp; [|discriminate].
        destruct (shape q0 (dim_per_head m)) as [q1|] eqn:Sq;
          cbn [bind] in Hp; [|discriminate].
        match type of Hp with
        | bind ?e _ = _ => destruct e as [kv|]; cbn [bind] in Hp;
                           [|discriminate]
        end.
        injection Hp as <- _ _ _.
        destruct (shaped_query _ _ _ _ _ Lq Sq)
          as (Hnh & H0 & H1 & U & L0 & S1 & S2).
        repeat split; auto.
        rewrite <- S1, <- S2. now apply uniform_heads_by_length.
      * destruct (dim_per_head m <? 0)%Z; discriminate.
  - destruct (linear_apply (linear_keys m) key) as [k0|] eqn:Lk;
      cbn [bind] in Hp; [|discriminate].
    destruct (linear_apply (linear_values m) value) as [v0|] eqn:Lv;
      cbn [bind] in Hp; [|discriminate].
    destruct (linear_apply (linear_query m) query) as [q0|] eqn:Lq;
      cbn [bind] in Hp; [|discriminate].
    destruct (shape k0 (dim_per_head m)) as [k1|] eqn:Sk; cbn [bind] in Hp;
      [|discriminate].
    destruct (shape v0 (dim_per_head m)) as [v1|] eqn:Sv; cbn [bind] in Hp;
      [|discriminate].
    destruct (shape q0 (dim_per_head m)) as [q1|] eqn:Sq; cbn [bind] in Hp;
      [|discriminate].
    destruct (maybe_rotary m 0 q1 k1) as [[q2 k2]|] eqn:Hr;
      cbn [bind fst snd] in Hp; [|discriminate].
    injection Hp as <- _ _ _.
    destruct (shaped_query _ _ _ _ _ Lq Sq)
      as (Hnh & H0 & H1 & U & L0 & S1 & S2).
    destruct (maybe_rotary_query _ _ _ _ _ _ Hr U) as [Hd Hl]; [lia|lia|].
    rewrite S1, S2 in Hd. repeat split; auto; lia.
Qed.

Variable noise : Q -> T4 F -> T4 F.

(** A row of the attention weights is the softmax of a row of the masked
    scores, which has an entry. *)
Lemma forward_attn_row m key value query mask step m' ctx attn b h i row :
  forward noise m key value query mask step = (m', Ok (ctx, attn)) ->
  row4 attn b h i = Some row ->
  exists c s s' yrow,
    forward_scores m key value query step = Ok s
    /\ layer_cache m' = c
    /\ apply_mask (with_cache m c) s mask = Ok s'
    /\ row4 s' b h i = Some yrow
    /\ yrow <> []
    /\ row = map to_dtype (softmax_row yrow).
Proof.
  intros Hf Hrow. pose proof Hf as Hf'.
  apply forward_attn in Hf
    as (q & k & v & c & s & rk & s' & Hp & Hr & Hm & Hne & ->).
  unfold forward in Hf'. rewrite Hp in Hf'. injection Hf' as <- _.
  unfold row4, map4, softmax in Hrow. rewrite map_map in Hrow.
  rewrite nth_error_map in Hrow.
  destruct (nth_error s' b) as [sb|] eqn:Eb; [|discriminate]. cbn in Hrow.
  rewrite map_map, nth_error_map in Hrow.
  destruct (nth_error sb h) as [sh|] eqn:Eh; [|discriminate]. cbn in Hrow.
  rewrite map_map, nth_error_map in Hrow.
  destruct (nth_error sh i) as [yrow|] eqn:Ei; [|discriminate]. cbn in Hrow.
  injection Hrow as <-.
  exists c, s, s', yrow. repeat split; auto.
  - unfold forward_scores. rewrite Hp. cbn [bind]. rewrite Hr. reflexivity.
  - unfold row4. now rewrite Eb, Eh.
  - unfold nonempty_rows in Hne. rewrite Forall_forall in Hne.
    apply nth_error_In in Eb, Eh, Ei.
    apply Hne in Eb. rewrite Forall_forall in Eb. apply Eb in Eh.
    rewrite Forall_forall in Eh. now apply Eh.
Qed.

(** The attention weights of a call hold a row for every batch entry,
    head and position of the query. *)
Lemma forward_attn_covers m key value query mask step m' ctx attn :
  forward noise m key value query mask step = (m', Ok (ctx, attn)) ->
  let nh := out_features (linear_query m) / Z.to_nat (dim_per_head m) in
  0 < nh /\ 0 < size0 query /\ 0 < size1 query
  /\ size0 query <= length attn /\ covers nh (size1 query) attn.
Proof.
  intros Hf. cbv zeta.
  apply forward_attn in Hf
    as (q & k & v & c & s & rk & s' & Hp & Hr & Hm & _ & ->).
  destruct (project_query _ _ _ _ _ _ _ _ _ Hp) as (Hnh & H0 & H1 & L0 & Hq).
  assert (Hne : q <> []) by (intros ->; cbn in L0; lia).
  destruct (raw_scores_covers _ _ _ _ _ _ _ Hr Hq Hne Hnh) as [L1 V1].
  destruct (apply_mask_covers _ _ _ _ _ _ Hm V1) as [L2 V2].
  repeat split; auto.
  - unfold map4, softmax. rewrite !length_map. lia.
  - now apply map4_covers, softmax_covers.
Qed.

End AttentionRows.

Section RowsReals.

Variable noise : Q -> T4 R -> T4 R.

Local Open Scope R_scope.

(** C6.  In a call of [forward] that succeeds (with no mask, or with a
    mask that has no empty axis) the attention weights hold, for every
    batch entry and every position of the query and for every head, a row
    of weights, and every row of the weights has an entry and sums to 1
    (fully masked rows included). *)
Theorem attention_rows_present_and_sum_to_one :
  forall m key value query mask step m' ctx attn,
    (forall mk, mask = Some (Mask4 mk) -> numel4 mk <> 0%nat) ->
    forward noise m key value query mask step = (m', Ok (ctx, attn)) ->
    let nh := (out_features (linear_query m) / Z.to_nat (dim_per_head m))%nat in
    (0 < nh)%nat /\ (0 < size0 query)%nat /\ (0 < size1 query)%nat
    /\ (forall b h i,
          (b < size0 query)%nat -> (h < nh)%nat -> (i < size1 query)%nat ->
          exists row, row4 attn b h i = Some row)
    /\ (forall b h i row,
          row4 attn b h i = Some row -> row <> [] /\ sum row = 1).
Proof.
  intros m key value query mask step m' ctx attn _ Hf. cbv zeta.
  destruct (forward_attn_covers noise _ _ _ _ _ _ _ _ _ Hf)
    as (Hnh & H0 & H1 & L & V).
  repeat split; auto.
  - intros b h i Hb Hh Hi. eapply covers_row; eauto. lia.
  - destruct (forward_attn_row noise _ _ _ _ _ _ _ _ _ _ _ _ _ Hf H)
      as (c & s & s' & yrow & _ & _ & _ & _ & Hne & ->).
    intros E. apply map_eq_nil in E. unfold softmax_row in E.
    apply map_eq_nil in E. apply map_eq_nil in E. congruence.
  - destruct (forward_attn_row noise _ _ _ _ _ _ _ _ _ _ _ _ _ Hf H)
      as (c & s & s' & yrow & _ & _ & _ & _ & Hne & ->).
    cbn [to_dtype R_scalar]. rewrite map_id. now apply softmax_row_sum.
Qed.

Lemma sum_map_const {A : Type} (c : R) (l : list A) :
  sum (map (fun _ => c) l) = INR (length l) * c.
Proof.
  induction l as [|a l IH]; [cbn; lra|].
  cbn [map]. rewrite sum_cons, IH.
  change (length (a :: l)) with (S (length l)). rewrite S_INR. lra.
Qed.

(** The softmax of a row of equal scores is uniform. *)
Lemma softmax_row_const {A : Type} (c : R) (l : list A) (w : R) :
  In w (softmax_row (map (fun _ => c) l)) -> w = 1 / INR (length l).
Proof.
  unfold softmax_row. cbn [sdiv sexp R_scalar]. rewrite !map_map.
  rewrite sum_map_const. intros Hin.
  apply in_map_iff in Hin as (a & <- & Ha).
  assert (Hl : 0 < INR (length l)).
  { apply lt_0_INR. destruct l; [destruct Ha|cbn; lia]. }
  pose proof (exp_pos c). field. split; lra.
Qed.

(** C3.  A row all of whose keys the mask marks does not get weights near
    zero.  In a call of [forward] that succeeds, for a batch entry, a head
    and a position of the query at which the mask marks every key, the
    attention weights hold a row, and every weight of the row is one over
    the number of keys: weight 1 for a single key. *)
Theorem fully_masked_row_uniform :
  forall m key value query mk step m' ctx attn b h i mrow,
    forward noise m key value query (Some (Mask4 mk)) step
    = (m', Ok (ctx, attn)) ->
    (b < size0 query)%nat ->
    (h < out_features (linear_query m) / Z.to_nat (dim_per_head m))%nat ->
    (i < size1 query)%nat ->
    brow mk b h i = Some mrow ->
    Forall (fun marked => marked = true) mrow ->
    exists row,
      row4 attn b h i = Some row
      /\ row <> []
      /\ forall w, In w row -> w = 1 / INR (length row).
Proof.
  intros m key value query mk step m' ctx attn b h i mrow Hf Hb Hh Hi Hmrow
    Hall.
  destruct (forward_attn_covers noise _ _ _ _ _ _ _ _ _ Hf)
    as (_ & _ & _ & L & V).
  destruct (covers_row _ _ attn b h i V ltac:(lia) Hh Hi) as [row Hrow].
  exists row. split; [exact Hrow|].
  destruct (forward_attn_row noise _ _ _ _ _ _ _ _ _ _ _ _ _ Hf Hrow)
    as (c & s & s' & yrow & _ & _ & Hm & Hy & Hne & ->).
  cbn [to_dtype R_scalar]. rewrite map_id.
  unfold apply_mask in Hm.
  destruct (expand_mask (Mask4 mk) (head_count (with_cache m c)))
    as [mk'|e] eqn:He; cbn [bind] in Hm; [|discriminate].
  destruct (masked_fill_row _ _ _ _ _ _ _ _ Hm Hy)
    as (srow & mrow' & p1 & Hsrow & Hmrow' & Hp1 & ->).
  apply (expand_mask_brow _ _ _ _ _ _ _ He) in Hmrow'.
  rewrite Hmrow in Hmrow'. injection Hmrow' as <-.
  assert (Hrows : map (fun e : R * bool => if snd e then mask_fill_value
                                           else fst e) p1
                  = map (fun _ => mask_fill_value) p1).
  { apply map_ext_in. intros [x y] Hin. cbn [fst snd].
    apply broadcast2_In in Hp1. rewrite Forall_forall in Hp1.
    destruct (Hp1 _ Hin) as [_ Hy']. cbn [fst snd] in Hy'.
    rewrite Forall_forall in Hall. now rewrite (Hall _ Hy'). }
  rewrite Hrows in *. split.
  - unfold softmax_row. intros H. apply map_eq_nil in H.
    apply map_eq_nil in H. congruence.
  - intros w Hw. unfold softmax_row at 1. rewrite !length_map.
    now apply softmax_row_const in Hw.
Qed.

End RowsReals.

Lemma attention_rows_present_and_sum_to_one_witness :
  exists m' ctx attn,
    forward ex_noise ex_self ex_x ex_x ex_x
      (Some (Mask4 [[[[false; true]]]])) 0 = (m', Ok (ctx, attn))
    /\ (exists row, row4 attn 0 0 1 = Some row)
    /\ forall b h i row,
         row4 attn b h i = Some row -> row <> [] /\ sum row = 1%R.
Proof.
  do 3 eexists. split; [rcompute; reflexivity|].
  edestruct (attention_rows_present_and_sum_to_one ex_noise ex_self
               ex_x ex_x ex_x (Some (Mask4 [[[[false; true]]]])) 0)
    as (_ & _ & _ & Hrow & Hsum).
  - intros mk [= <-]. cbn. lia.
  - rcompute. reflexivity.
  - split; [|exact Hsum]. apply (Hrow 0 0 1); vm_compute; lia.
Defined.

Lemma fully_masked_row_uniform_witness :
  exists m' ctx w,
    forward ex_noise ex_self ex_x1 ex_x1 ex_x1 (Some (Mask4 [[[[true]]]])) 0
    = (m', Ok (ctx, [[[[w]]]]))
    /\ w = 1%R.
Proof.
  do 3 eexists. split; [rcompute; reflexivity|].
  edestruct (fully_masked_row_uniform ex_noise ex_self ex_x1 ex_x1 ex_x1
               [[[[true]]]] 0)
    with (b := 0) (h := 0) (i := 0) (mrow := [true])
    as (row & Hrow & _ & Hw).
  - rcompute. reflexivity.
  - vm_compute. lia.
  - vm_compute. lia.
  - vm_compute. lia.
  - reflexivity.
  - repeat constructor.
  - cbn in Hrow. injection Hrow as <-.
    rewrite (Hw _ (or_introl eq_refl)). cbn. lra.
Defined.

(** ** The heads of keys and values *)

Section HeldHeads.

Context {F : Type} {ops : Scalar F} (theta : @Params F)
  (noise : Q -> T4 F -> T4 F).

Lemma init_linear_sizes hc md p mrp at_ bias nkv ck m :
  init theta hc md p mrp at_ bias nkv ck = Ok m ->
  out_features (linear_query m) = Z.to_nat md
  /\ out_features (linear_keys m) = Z.to_nat md
  /\ out_features (linear_values m) = Z.to_nat md.
Proof.
  unfold init. intros H.
  destruct (hc =? 0)%Z; [discriminate|].
  destruct (negb (md mod hc =? 0)%Z); [discriminate|].
  unfold new_linear in H.
  destruct (md <? 0)%Z; [discriminate|]. cbn [bind] in H.
  destruct (new_dropout p); cbn [bind] in H; [|discriminate].
  match type of H with
  | bind ?e _ = _ => destruct e as [[[? ?] ?]|]; cbn [bind] in H;
                     [|discriminate]
  end.
  destruct (existsb (String.eqb "mha"%string) ck); [discriminate|].
  now injection H as <-.
Qed.

(** The head count that [shape] infers on a built module is
    [head_count]. *)
Lemma init_heads hc md p mrp at_ bias nkv ck m :
  init theta hc md p mrp at_ bias nkv ck = Ok m ->
  (0 < dim_per_head m)%Z ->
  Z.to_nat md / Z.to_nat (dim_per_head m) = Z.to_nat hc.
Proof.
  intros Hi Hd.
  destruct (init_inv theta _ _ _ _ _ _ _ _ _ Hi)
    as ((Hhc & Hmod & Hmd) & _ & _ & _ & Hdph & _).
  rewrite Hdph in *.
  assert (Hmul : md = (hc * (md / hc))%Z).
  { pose proof (Z.div_mod md hc Hhc). lia. }
  assert (Hpos : (0 < hc)%Z) by nia.
  rewrite Hmul at 1. rewrite Z2Nat.inj_mul by lia.
  apply Nat.div_mul. lia.
Qed.

Lemma shaped_heads (l : @Linear F) (dph : Z) (x x0 : T3 F) (x1 : T4 F) :
  linear_apply l x = Ok x0 -> shape x0 dph = Ok x1 ->
  (0 < dph)%Z /\ x1 <> [] /\ uniform x1
  /\ size1 x1 = out_features l / Z.to_nat dph
  /\ 0 < size1 x1 /\ size2 x1 = size1 x /\ 0 < size1 x.
Proof.
  intros Lq Sq.
  destruct (shaped_query l dph x x0 x1 Lq Sq) as (P & _ & P1 & U & _ & S1 & S2).
  destruct (linear_apply_tensor _ _ _ Lq) as (Tq & _ & _).
  destruct (shape_positive _ _ _ Tq Sq) as (_ & _ & _ & _ & Pd).
  destruct (shape_uniform _ _ _ Tq Sq) as (_ & Hne & _ & _ & _).
  repeat split; auto. lia.
Qed.

Lemma rotary_key_heads (m : @MultiHeadedAttention F) (start : nat)
    (q k q2 k2 : T4 F) :
  rotary m start q k = Ok (q2, k2) ->
  uniform k -> k <> [] -> 0 < size1 k -> 0 < size2 k -> 0 < size2 q ->
  size1 k2 = size1 k.
Proof.
  unfold rotary. intros H Hu Hne Hnh Hlk Hlq.
  destruct (rope m) as [tbl|]; cbn [bind] in H; [|discriminate].
  unfold apply_rotary_emb, guard in H.
  match type of H with
  | context [if ?c then Ok tt else _] =>
      destruct c; cbn [bind] in H; [|discriminate]
  end.
  rewrite size1_transposed in H.
  destruct (length (firstn (size2 q) (skipn start tbl)) =? size2 q) eqn:Hr;
    cbn [andb bind] in H; [|discriminate].
  apply Nat.eqb_eq in Hr.
  match type of H with
  | context [if ?c then Ok tt else _] =>
      destruct c; cbn [bind] in H; [|discriminate]
  end.
  set (rope := firstn (size2 q) (skipn start tbl)) in *.
  match type of H with
  | context [mapM ?f ?l] => destruct (mapM f l) as [ko|] eqn:Hko;
                            cbn [bind] in H; [|discriminate]
  end.
  injection H as _ <-.
  destruct k as [|kb0 k']; [congruence|].
  cbn [map mapM] in Hko.
  destruct (broadcast2 (transpose [] kb0) rope) as [kr|] eqn:Hkr;
    cbn [bind] in Hko; [|discriminate].
  match type of Hko with
  | context [mapM ?f ?l] => destruct (mapM f l) as [ko'|];
                            cbn [bind] in Hko; [|discriminate]
  end.
  injection Hko as <-. unfold size1 at 1. cbn [map hd].
  rewrite length_transpose.
  unfold uniform in Hu. apply Forall_inv in Hu as [Hl0 Hh0].
  destruct (transpose_dims [] kb0 (size1 (kb0 :: k')) (size2 (kb0 :: k'))
              Hl0 Hnh Hh0) as [Tl Tc].
  assert (Hkne : kr <> []).
  { eapply broadcast2_nonempty; [exact Hkr| |].
    - intros E. rewrite E in Tl. cbn in Tl. lia.
    - intros E. rewrite E in Hr. cbn in Hr. lia. }
  destruct kr as [|[col r] kr']; [congruence|]. cbn [map hd fst snd].
  unfold rotate_position. rewrite length_map.
  apply broadcast2_In in Hkr. apply Forall_inv in Hkr as [Hin _].
  cbn [fst] in Hin. rewrite Forall_forall in Tc. now apply Tc.
Qed.

Lemma maybe_rotary_heads (m : @MultiHeadedAttention F) (start : nat)
    (q k q2 k2 : T4 F) :
  maybe_rotary m start q k = Ok (q2, k2) ->
  uniform q -> q <> [] -> 0 < size1 q -> 0 < size2 q ->
  uniform k -> k <> [] -> 0 < size1 k -> 0 < size2 k ->
  size1 q2 = size1 q /\ size1 k2 = size1 k /\ k2 <> [].
Proof.
  unfold maybe_rotary. intros H Uq Nq Q1 Q2 Uk Nk K1 K2.
  destruct (max_relative_positions m =? -1)%Z.
  - destruct (rotary_query_dims _ _ _ _ _ _ H Uq Q1 Q2) as [Hd Hl].
    assert (Hne2 : q2 <> [])
      by (intros ->; destruct q; [congruence|discriminate]).
    destruct (heads_by_length_uniform _ _ q2 Hne2 Q1 Hd) as (_ & S1 & _).
    split; [exact S1|].
    split; [eapply rotary_key_heads; eauto|].
    pose proof (rotary_key_heads _ _ _ _ _ _ H Uk Nk K1 K2 Q2) as S.
    intros ->. unfold size1 in S at 1. cbn in S. lia.
  - injection H as <- <-. auto.
Qed.

Lemma cat2_heads (a b r : T4 F) :
  cat2 a b = Ok r -> numel4 a <> 0 -> b <> [] -> size1 r = size1 b.
Proof.
  intros Hc Hn Hb. apply cat2_inv in Hc as (_ & S0 & S1 & ->).
  apply numel4_nonzero in Hn as (N0 & _).
  destruct a as [|ab a]; [now cbn in N0|].
  destruct b as [|bb b]; [congruence|].
  unfold size1 in *. cbn [combine map hd fst snd] in *.
  rewrite length_map, length_combine. lia.
Qed.

(** [attend] on keys and values that have the heads of the query does
    not expand anything. *)
Lemma attend_replicated m (q k v : T4 F) mask (r : nat) :
  is_tensor4 k = true -> numel4 k <> 0 ->
  is_tensor4 v = true -> numel4 v <> 0 ->
  size1 v = size1 k -> size1 q = size1 k * r -> 0 < r ->
  attend noise m q k v mask
  = attend_materialized noise m q (replicate_heads r k) (replicate_heads r v)
      mask.
Proof.
  intros Htk Hnk Htv Hnv Hvk Hq Hr.
  unfold attend, attend_materialized, raw_scores, raw_scores_materialized,
    context_of, context_of_materialized, scale.
  rewrite size1_map4.
  rewrite (expand_heads_replicate k r (size1 q)) by auto.
  rewrite (expand_heads_replicate v r (size1 q)) by (auto; lia).
  reflexivity.
Qed.

Lemma project_heads hc md p mrp at_ bias nkv ck m0 c0 key value query step
    (q k v : T4 F) c :
  init theta hc md p mrp at_ bias nkv ck = Ok m0 ->
  cache_heads (Z.to_nat hc) c0 ->
  project (with_cache m0 c0) key value query step = Ok (q, k, v, c) ->
  0 < Z.to_nat hc
  /\ size1 q = Z.to_nat hc /\ size1 k = Z.to_nat hc /\ size1 v = Z.to_nat hc
  /\ cache_heads (Z.to_nat hc) c.
Proof.
  intros Hi Hc Hp.
  destruct (init_linear_sizes _ _ _ _ _ _ _ _ _ Hi) as (Oq & Ok_ & Ov).
  pose proof (init_heads _ _ _ _ _ _ _ _ _ Hi) as Hnh.
  set (m := with_cache m0 c0) in *.
  assert (Eq : linear_query m = linear_query m0) by reflexivity.
  assert (Ek : linear_keys m = linear_keys m0) by reflexivity.
  assert (Ev : linear_values m = linear_values m0) by reflexivity.
  assert (Ed : dim_per_head m = dim_per_head m0) by reflexivity.
  assert (Ec : layer_cache m = c0) by reflexivity.
  unfold project in Hp. rewrite Ec, Eq, Ek, Ev, Ed in Hp.
  assert (Hshape : forall l x x0 x1,
             out_features l = Z.to_nat md ->
             linear_apply l x = Ok x0 -> shape x0 (dim_per_head m0) = Ok x1 ->
             x1 <> [] /\ uniform x1 /\ size1 x1 = Z.to_nat hc
             /\ 0 < size1 x1 /\ 0 < size2 x1).
  { intros l x x0 x1 Ho L S.
    destruct (shaped_heads _ _ _ _ _ L S) as (Pd & Hne & U & S1 & P1 & S2 & P2).
    rewrite Ho, (Hnh Pd) in S1. repeat split; auto; lia. }
  destruct (enabled c0).
  - destruct (is_attn_type m "self"%string).
    + destruct (linear_apply (linear_query m0) query) as [q0|] eqn:Lq;
        cbn [bind] in Hp; [|discriminate].
      destruct (linear_apply (linear_keys m0) query) as [k0|] eqn:Lk;
        cbn [bind] in Hp; [|discriminate].
      destruct (linear_apply (linear_values m0) query) as [v0|] eqn:Lv;
        cbn [bind] in Hp; [|discriminate].
      destruct (shape q0 (dim_per_head m0)) as [q1|] eqn:Sq; cbn [bind] in Hp;
        [|discriminate].
      destruct (shape k0 (dim_per_head m0)) as [k1|] eqn:Sk; cbn [bind] in Hp;
        [|discriminate].
      destruct (shape v0 (dim_per_head m0)) as [v1|] eqn:Sv; cbn [bind] in Hp;
        [|discriminate].
      destruct (maybe_rotary m step q1 k1) as [[q2 k2]|] eqn:Hr;
        cbn [bind fst snd] in Hp; [|discriminate].
      destruct (Hshape _ _ _ _ Oq Lq Sq) as (Nq & Uq & Q1 & Q1' & Q2).
      destruct (Hshape _ _ _ _ Ok_ Lk Sk) as (Nk & Uk & K1 & K1' & K2).
      destruct (Hshape _ _ _ _ Ov Lv Sv) as (Nv & Uv & V1 & V1' & V2).
      destruct (maybe_rotary_heads _ _ _ _ _ _ Hr Uq Nq Q1' Q2 Uk Nk K1' K2)
        as (R1 & R2 & R3).
      assert (Hk' : forall k', (if negb (numel4 (keys c0) =? 0)
                                then cat2 (keys c0) k2 else Ok k2) = Ok k' ->
                               size1 k' = Z.to_nat hc).
      { intros k'. destruct (numel4 (keys c0) =? 0) eqn:E; cbn [negb].
        - intros [= <-]. lia.
        - apply Nat.eqb_neq in E. intros C.
          rewrite (cat2_heads _ _ _ C E R3). lia. }
      assert (Hv' : forall v', (if negb (numel4 (values c0) =? 0)
                                then cat2 (values c0) v1 else Ok v1) = Ok v' ->
                               size1 v' = Z.to_nat hc).
      { intros v'. destruct (numel4 (values c0) =? 0) eqn:E; cbn [negb].
        - intros [= <-]. lia.
        - apply Nat.eqb_neq in E. intros C.
          rewrite (cat2_heads _ _ _ C E Nv). lia. }
      match type of Hp with
      | bind ?e _ = _ => destruct e as [k'|] eqn:Ck; cbn [bind] in Hp;
                         [|discriminate]
      end.
      match type of Hp with
      | bind ?e _ = _ => destruct e as [v'|] eqn:Cv; cbn [bind] in Hp;
                         [|discriminate]
      end.
      injection Hp as <- <- <- <-.
      pose proof (Hk' _ eq_refl). pose proof (Hv' _ eq_refl).
      repeat split; try lia. right. cbn. auto.
    + destruct (is_attn_type m "context"%string).
      * destruct (linear_apply (linear_query m0) query) as [q0|] eqn:Lq;
          cbn [bind] in Hp; [|discriminate].
        destruct (shape q0 (dim_per_head m0)) as [q1|] eqn:Sq;
          cbn [bind] in Hp; [|discriminate].
        destruct (Hshape _ _ _ _ Oq Lq Sq) as (Nq & Uq & Q1 & Q1' & Q2).
        destruct (numel4 (keys c0) =? 0) eqn:E.
        -- destruct (linear_apply (linear_keys m0) key) as [k0|] eqn:Lk;
             cbn [bind] in Hp; [|discriminate].
           destruct (linear_apply (linear_values m0) value) as [v0|] eqn:Lv;
             cbn [bind] in Hp; [|discriminate].
           destruct (shape k0 (dim_per_head m0)) as [k1|] eqn:Sk;
             cbn [bind] in Hp; [|discriminate].
           destruct (shape v0 (dim_per_head m0)) as [v1|] eqn:Sv;
             cbn [bind] in Hp; [|discriminate].
           destruct (Hshape _ _ _ _ Ok_ Lk Sk) as (Nk & Uk & K1 & K1' & K2).
           destruct (Hshape _ _ _ _ Ov Lv Sv) as (Nv & Uv & V1 & V1' & V2).
           cbn [fst snd] in Hp. injection Hp as <- <- <- <-.
           repeat split; auto; try lia. right. cbn. auto.
        -- cbn [bind fst snd] in Hp. injection Hp as <- <- <- <-.
           apply Nat.eqb_neq in E.
           destruct Hc as [[Hc _]|[Hc1 Hc2]]; [congruence|].
           repeat split; auto; try lia. right. cbn. auto.
      * destruct (dim_per_head m0 <? 0)%Z; discriminate.
  - destruct (linear_apply (linear_keys m0) key) as [k0|] eqn:Lk;
      cbn [bind] in Hp; [|discriminate].
    destruct (linear_apply (linear_values m0) value) as [v0|] eqn:Lv;
      cbn [bind] in Hp; [|discriminate].
    destruct (linear_apply (linear_query m0) query) as [q0|] eqn:Lq;
      cbn [bind] in Hp; [|discriminate].
    destruct (shape k0 (dim_per_head m0)) as [k1|] eqn:Sk; cbn [bind] in Hp;
      [|discriminate].
    destruct (shape v0 (dim_per_head m0)) as [v1|] eqn:Sv; cbn [bind] in Hp;
      [|discriminate].
    destruct (shape q0 (dim_per_head m0)) as [q1|] eqn:Sq; cbn [bind] in Hp;
      [|discriminate].
    destruct (maybe_rotary m 0 q1 k1) as [[q2 k2]|] eqn:Hr;
      cbn [bind fst snd] in Hp; [|discriminate].
    destruct (Hshape _ _ _ _ Oq Lq Sq) as (Nq & Uq & Q1 & Q1' & Q2).
    destruct (Hshape _ _ _ _ Ok_ Lk Sk) as (Nk & Uk & K1 & K1' & K2).
    destruct (Hshape _ _ _ _ Ov Lv Sv) as (Nv & Uv & V1 & V1' & V2).
    destruct (maybe_rotary_heads _ _ _ _ _ _ Hr Uq Nq Q1' Q2 Uk Nk K1' K2)
      as (R1 & R2 & R3).
    injection Hp as <- <- <- <-. repeat split; auto; lia.
Qed.

(** C2 (amended).  The expansion goes by the heads of the tensors that
    [forward] holds after projection and cache lookup: when keys and values
    are tensors with entries whose heads number [r] times less than those
    of the query, the pair [forward] returns is what the rest of the
    computation, run without expansion, gives on keys and values whose
    heads have been replicated [r] times.  On a module that the constructor
    has built, whatever [num_kv], with a cache that is empty or holds keys
    and values of [head_count] heads, query, keys and values all have
    [head_count] heads, so that [r] is 1, and the cache afterwards is again
    such a cache. *)
Theorem multi_query_expansion_by_held_heads :
  forall m key value query mask step q k v c,
    project m key value query step = Ok (q, k, v, c) ->
    (forall r,
       is_tensor4 k = true -> numel4 k <> 0 ->
       is_tensor4 v = true -> numel4 v <> 0 ->
       size1 v = size1 k -> size1 q = size1 k * r -> 0 < r ->
       snd (forward noise m key value query mask step)
       = attend_materialized noise (with_cache m c) q (replicate_heads r k)
           (replicate_heads r v) mask)
    /\ (forall head_count model_dim dropout max_relative_positions attn_type
               add_qkvbias num_kv use_ckpting m0,
          init theta head_count model_dim dropout max_relative_positions
            attn_type add_qkvbias num_kv use_ckpting = Ok m0 ->
          m = with_cache m0 (layer_cache m) ->
          cache_heads (Z.to_nat head_count) (layer_cache m) ->
          size1 q = Z.to_nat head_count
          /\ size1 k = Z.to_nat head_count
          /\ size1 v = Z.to_nat head_count
          /\ (forall r, size1 q = size1 k * r -> r = 1)
          /\ cache_heads (Z.to_nat head_count) c).
Proof.
  intros m key value query mask step q k v c Hp. split.
  - intros r Htk Hnk Htv Hnv Hvk Hq Hr.
    unfold forward. rewrite Hp. cbn [snd].
    now apply attend_replicated.
  - intros hc md p mrp at_ bias nkv ck m0 Hi Hm Hc. rewrite Hm in Hp.
    destruct (project_heads _ _ _ _ _ _ _ _ _ _ _ _ _ _ _ _ _ _ Hi Hc Hp)
      as (Hpos & Hq & Hk & Hv & Hc').
    repeat split; auto.
    intros r Hr. rewrite Hq, Hk in Hr. nia.
Qed.

End HeldHeads.

Lemma ex_two_heads_built :
  init ex_theta 2 2 0 0 (Some "self"%string) false 1 [] = Ok ex_two_heads.
Proof. reflexivity. Qed.

Lemma multi_query_expansion_by_held_heads_witness :
  (exists q k v c,
     project ex_two_heads ex_x2 ex_x2 ex_x2 0 = Ok (q, k, v, c)
     /\ (size1 q = 2 /\ size1 k = 2 /\ size1 v = 2)
     /\ snd (forward ex_noise ex_two_heads ex_x2 ex_x2 ex_x2 None 0)
        = attend_materialized ex_noise (with_cache ex_two_heads c) q
            (replicate_heads 1 k) (replicate_heads 1 v) None)
  /\ (exists q k v c,
        project ex_multi_query ex_x2 ex_x2 ex_x2 0 = Ok (q, k, v, c)
        /\ size1 q = size1 k * 2
        /\ snd (forward ex_noise ex_multi_query ex_x2 ex_x2 ex_x2 None 0)
           = attend_materialized ex_noise (with_cache ex_multi_query c) q
               (replicate_heads 2 k) (replicate_heads 2 v) None).
Proof.
  split.
  - do 4 eexists. split; [rcompute; reflexivity|].
    destruct (multi_query_expansion_by_held_heads ex_theta ex_noise
                ex_two_heads ex_x2 ex_x2 ex_x2 None 0 _ _ _ _
                ltac:(rcompute; reflexivity)) as [A B].
    split.
    + destruct (B 2%Z 2%Z 0%Q 0%Z (Some "self"%string) false 1%Z []
                  ex_two_heads ex_two_heads_built eq_refl
                  (or_introl (conj eq_refl eq_refl))) as (Hq & Hk & Hv & _).
      auto.
    + apply (A 1); try reflexivity; cbn; lia.
  - do 4 eexists. split; [rcompute; reflexivity|]. split; [reflexivity|].
    destruct (multi_query_expansion_by_held_heads ex_theta ex_noise
                ex_multi_query ex_x2 ex_x2 ex_x2 None 0 _ _ _ _
                ltac:(rcompute; reflexivity)) as [A _].
    apply (A 2); try reflexivity; cbn; lia.
Defined.

(** C2, as stated, fails: a module built with two heads and one key/value
    head projects keys and values of two heads; [forward] succeeds on them,
    while the computation on keys and values replicated
    [head_count / num_kv = 2] times raises. *)
Lemma multi_query_ratio_counterexample :
  exists q k v c r,
    init ex_theta 2 2 0 0 (Some "self"%string) false 1 [] = Ok ex_two_heads
    /\ project ex_two_heads ex_x2 ex_x2 ex_x2 0 = Ok (q, k, v, c)
    /\ snd (forward ex_noise ex_two_heads ex_x2 ex_x2 ex_x2 None 0) = Ok r
    /\ attend_materialized ex_noise (with_cache ex_two_heads c) q
         (replicate_heads (Z.to_nat (2 / 1)) k)
         (replicate_heads (Z.to_nat (2 / 1)) v) None
       = Raise RuntimeError.
Proof.
  do 5 eexists. split; [reflexivity|].
  split; [rcompute; reflexivity|].
  split; [rcompute; reflexivity|].
  reflexivity.
Qed.

(** ** Cache equivalence under the causal mask *)

Section Causal.

Context {F : Type} {ops : Scalar F} (noise : Q -> T4 F -> T4 F).

Variables (m : @MultiHeadedAttention F) (nh d : nat).
Hypothesis Hb : Built m nh d.

(** *** The causal mask *)

Lemma combine_repeat {A B : Type} (l : list A) (c : B) :
  combine l (repeat c (length l)) = map (fun a => (a, c)) l.
Proof. induction l as [|a l IH]; cbn; [reflexivity|now rewrite IH]. Qed.

Lemma combine_map_repeat {A B C : Type} (f : A -> C) (c : B) (l : list A)
    (n : nat) :
  length l = n ->
  combine (map f l) (repeat c n) = map (fun a => (f a, c)) l.
Proof.
  intros <-. rewrite <- (length_map f l), combine_repeat, map_map.
  reflexivity.
Qed.

Lemma mapM_map_ok {A B C : Type} (h : A -> B) (f : B -> Result C)
    (g : A -> C) (l : list A) :
  (forall a, In a l -> f (h a) = Ok (g a)) ->
  mapM f (map h l) = Ok (map g l).
Proof.
  induction l as [|a l IH]; intros Hf; [reflexivity|].
  cbn. rewrite Hf by now left. cbn. rewrite IH; [reflexivity|].
  intros a' Ha'. apply Hf. now right.
Qed.

Lemma causal_matrix_tensor (batch n : nat) :
  0 < batch -> 0 < n ->
  let mk := repeat [map (fun i => map (fun j => i <? j) (seq 0 n)) (seq 0 n)]
              batch in
  is_tensor4 mk = true /\ numel4 mk <> 0 /\ size1 mk = 1.
Proof.
  intros Hb0 Hn. cbv zeta.
  destruct batch as [|b]; [lia|]. destruct n as [|n']; [lia|].
  set (cm := map (fun i => map (fun j => i <? j) (seq 0 (S n')))
               (seq 0 (S n'))).
  assert (S0 : size0 (repeat [cm] (S b)) = S b)
    by (unfold size0; now rewrite repeat_length).
  assert (S1 : size1 (repeat [cm] (S b)) = 1) by reflexivity.
  assert (S2 : size2 (repeat [cm] (S b)) = S n')
    by (unfold size2, cm; cbn [repeat hd]; now rewrite length_map, length_seq).
  assert (S3 : size3 (repeat [cm] (S b)) = S n').
  { unfold size3, cm. cbn. now rewrite length_map, length_seq. }
  split; [|split; [|exact S1]].
  - unfold is_tensor4. rewrite S0, S1, S2, S3. apply rect4_iff.
    split; [now rewrite repeat_length|].
    apply Forall_forall. intros mb Hin. apply repeat_spec in Hin. subst mb.
    split; [reflexivity|]. constructor; [|constructor]. split.
    + unfold cm. now rewrite length_map, length_seq.
    + unfold cm. apply Forall_map, Forall_forall. intros i _.
      now rewrite length_map, length_seq.
  - unfold numel4. rewrite S0, S1, S2, S3. lia.
Qed.

Lemma expand_mask_causal (batch n : nat) (hc : Z) :
  0 < batch -> 0 < n -> (0 < hc)%Z ->
  expand_mask (causal_mask batch n) hc
  = Ok (repeat (repeat (map (fun i => map (fun j => i <? j) (seq 0 n))
                          (seq 0 n)) (Z.to_nat hc)) batch).
Proof.
  intros Hb0 Hn Hhc. unfold causal_mask, expand_mask.
  destruct (causal_matrix_tensor batch n Hb0 Hn) as (Ht & Hne & S1).
  cbv zeta in Ht, Hne, S1.
  rewrite Ht. apply Nat.eqb_neq in Hne. rewrite Hne.
  apply Z.ltb_lt in Hhc as Hhc'. rewrite Hhc'. cbn [negb andb guard bind].
  rewrite S1. destruct (1 =? Z.to_nat hc) eqn:E.
  - apply Nat.eqb_eq in E. now rewrite <- E.
  - cbn [Nat.eqb]. f_equal. rewrite map_repeat. reflexivity.
Qed.

Lemma combine_app_same {A B : Type} (a1 a2 : list A) (b1 b2 : list B) :
  length a1 = length b1 ->
  combine (a1 ++ a2) (b1 ++ b2) = combine a1 b1 ++ combine a2 b2.
Proof.
  revert b1. induction a1 as [|a a1 IH]; intros [|b b1] Hl;
    try discriminate; [reflexivity|].
  cbn. f_equal. apply IH. now injection Hl.
Qed.

Lemma map_fst_combine_same {A B : Type} (a : list A) (b : list B) :
  length a = length b -> map fst (combine a b) = a.
Proof.
  revert b. induction a as [|x a IH]; intros [|y b] Hl;
    try discriminate; [reflexivity|].
  cbn. f_equal. apply IH. now injection Hl.
Qed.

Lemma masked_causal_row (v : F) (row : T1 F) (i n : nat) :
  length row = n -> i < n ->
  map (fun e => if snd e : bool then v else fst e)
    (combine row (map (fun j => i <? j) (seq 0 n)))
  = firstn (S i) row ++ repeat v (n - S i).
Proof.
  intros Hl Hi.
  rewrite <- (firstn_skipn (S i) row) at 1.
  replace n with (S i + (n - S i)) at 1 by lia.
  rewrite seq_app, map_app, combine_app_same, map_app.
  2:{ rewrite length_firstn, length_map, length_seq. lia. }
  f_equal.
  - rewrite combine_map_right, map_map.
    transitivity (map (fun p : F * nat => fst p)
                    (combine (firstn (S i) row) (seq 0 (S i)))).
    + apply map_ext_in. intros [e j] Hin. cbn [fst snd].
      apply in_combine_r, in_seq in Hin.
      replace (i <? j) with false by (symmetry; apply Nat.ltb_ge; lia).
      reflexivity.
    + apply map_fst_combine_same.
      rewrite length_firstn, length_seq. lia.
  - rewrite combine_map_right, map_map.
    assert (Hlen : length (skipn (S i) row) = n - S i)
      by (rewrite length_skipn; lia).
    transitivity (map (fun _ : F * nat => v)
                    (combine (skipn (S i) row) (seq (0 + S i) (n - S i)))).
    + apply map_ext_in. intros [e j] Hin. cbn [fst snd].
      apply in_combine_r, in_seq in Hin.
      replace (i <? j) with true by (symmetry; apply Nat.ltb_lt; lia).
      reflexivity.
    + rewrite map_const, length_combine, Hlen, length_seq, Nat.min_id.
      reflexivity.
Qed.

Lemma masked_fill_causal (g : T2 F -> nat -> nat -> T1 F) (x : T3 F)
    (n : nat) :
  (forall xb h i, In xb x -> h < nh -> i < n -> length (g xb h i) = n) ->
  masked_fill (tform nh 0 n g x)
    (repeat (repeat (map (fun i => map (fun j => i <? j) (seq 0 n)) (seq 0 n))
               nh) (length x))
    mask_fill_value
  = Ok (tform nh 0 n (fun xb h i => causal_row i (g xb h i)) x).
Proof.
  intros Hg. unfold masked_fill, tform, mform.
  rewrite broadcast2_same_length by now rewrite length_map, repeat_length.
  cbn [bind]. rewrite combine_map_repeat by reflexivity.
  apply mapM_map_ok. intros xb Hxb. cbn [fst snd].
  rewrite broadcast2_same_length
    by now rewrite length_map, length_seq, repeat_length.
  cbn [bind]. rewrite combine_map_repeat by apply length_seq.
  apply mapM_map_ok. intros h Hh. apply in_seq in Hh. cbn [fst snd].
  rewrite broadcast2_same_length by now rewrite !length_map, !length_seq.
  cbn [bind]. rewrite combine_map_same.
  apply mapM_map_ok. intros i Hi. apply in_seq in Hi. cbn [fst snd].
  rewrite broadcast2_same_length
    by (rewrite length_map, length_seq; apply Hg; auto; lia).
  cbn [bind]. f_equal. unfold causal_row.
  rewrite (Hg xb h i) by (auto; lia).
  apply masked_causal_row; [apply Hg; auto; lia|lia].
Qed.

Lemma length_causal_row (i : nat) (row : T1 F) :
  i < length row -> length (causal_row i row) = length row.
Proof.
  intros Hi. unfold causal_row.
  rewrite length_app, length_firstn, repeat_length. lia.
Qed.

Lemma length_causal_attn_row (len : nat) (xb : T2 F) (h i : nat) :
  i < len -> h < nh -> (is_rotary m = true -> len <= 4096) ->
  length (causal_attn_row m d len xb h i) = len.
Proof.
  intros Hi Hh Hr. unfold causal_attn_row, softmax_row.
  rewrite !length_map.
  pose proof (length_score m nh d Hb len xb h i ltac:(lia) Hh Hr) as Hl.
  rewrite length_causal_row; [exact Hl|lia].
Qed.

(** Steps 2 and 3 of [forward] on all [n] positions without the cache,
    under the causal mask. *)
Lemma attend_causal (xb0 : T2 F) (x' : T3 F) (n : nat) :
  0 < n -> (is_rotary m = true -> n <= 4096) ->
  enabled (layer_cache m) = false ->
  head_count m = Z.of_nat nh ->
  let x := xb0 :: x' in
  attend noise m (tform nh 0 n (qvec m d) x) (tform nh 0 n (kvec m d) x)
    (tform nh 0 n (vvec m d) x) (Some (causal_mask (length x) n))
  = Ok (map (fun xb => map (causal_out_row m d nh n xb) (seq 0 n)) x,
        tform nh 0 n (causal_attn_row m d n) x).
Proof.
  intros Hn Hr Hen Hhc x. subst x.
  pose proof (built_heads m nh d Hb) as Hnh.
  unfold attend.
  pose proof (raw_scores_tform m nh d Hb xb0 x' 0 n Hn Hr) as Hraw.
  rewrite Hen in Hraw. specialize (Hraw eq_refl). cbn [Nat.add] in Hraw.
  rewrite Hraw. cbn [bind fst snd apply_mask].
  rewrite expand_mask_causal by (cbn [length]; lia).
  cbn [bind]. rewrite Hhc, Nat2Z.id.
  rewrite masked_fill_causal
    by (intros xb h i _ Hh Hi; now apply (length_score m nh d Hb)).
  cbn [bind]. rewrite softmax_tform, map4_tform.
  change (tform nh 0 n
            (fun xb h i =>
               map to_dtype (softmax_row (causal_row i (score m d n xb h i))))
            (xb0 :: x'))
    with (tform nh 0 n (causal_attn_row m d n) (xb0 :: x')).
  rewrite size1_tform.
  pose proof (context_of_tform noise m nh d Hb (causal_attn_row m d n) xb0 x'
                0 n Hn Hr)
    as Hctx.
  cbn [Nat.add] in Hctx. cbv zeta in Hctx.
  rewrite Hctx by (now apply length_causal_attn_row).
  reflexivity.
Qed.

End Causal.

Section CausalRun.

Context {F : Type} {ops : Scalar F} (noise : Q -> T4 F -> T4 F).

Variables (m : @MultiHeadedAttention F) (nh d : nat).
Hypothesis Hb : Built m nh d.
Variables (xb0 : T2 F) (x' : T3 F).
Let x : T3 F := xb0 :: x'.
Hypothesis Hx : is_tensor3 x = true.
Hypothesis Hx2 : size2 x = nh * d.

(** The call without cache on the whole input, under the causal mask. *)
Lemma forward_causal :
  enabled (layer_cache m) = false ->
  head_count m = Z.of_nat nh ->
  0 < size1 x -> (is_rotary m = true -> size1 x <= 4096) ->
  forward noise m x x x (Some (causal_mask (size0 x) (size1 x))) 0
  = (with_cache m (layer_cache m),
     Ok (map (fun xb => map (causal_out_row m d nh (size1 x) xb)
                          (seq 0 (size1 x))) x,
         tform nh 0 (size1 x) (causal_attn_row m d (size1 x)) x)).
Proof.
  intros Hen Hhc Hlen Hr. unfold forward.
  pose proof (project_train m nh d Hb xb0 x' Hx Hx2 (size1 x) Hen Hlen
                (le_n _) Hr) as Hp.
  fold x in Hp. rewrite (prefix_all x Hx) in Hp. rewrite Hp. f_equal.
  exact (attend_causal noise (with_cache m (layer_cache m)) nh d
           (built_with_cache m (layer_cache m) nh d Hb) xb0 x' (size1 x)
           Hlen Hr Hen Hhc).
Qed.

End CausalRun.

(** *** The weights of masked keys, over the reals *)

Section Tolerance.

Local Open Scope R_scope.

Lemma Rabs_bounds (a b : R) : Rabs a <= b -> - b <= a <= b.
Proof. unfold Rabs. destruct (Rcase_abs a); lra. Qed.

Lemma dot_app (a1 a2 b1 b2 : list R) :
  length a1 = length b1 ->
  dot (a1 ++ a2) (b1 ++ b2) = dot a1 b1 + dot a2 b2.
Proof.
  revert b1. induction a1 as [|a a1 IH]; intros [|b b1] Hl;
    try discriminate.
  - cbn [app]. unfold dot at 2. cbn. lra.
  - cbn [app]. rewrite !dot_cons, IH by (now injection Hl). lra.
Qed.

Lemma dot_div (c : R) (es a : list R) :
  dot (map (fun e => e / c) es) a = dot es a / c.
Proof.
  revert a. induction es as [|e es IH]; intros [|x a];
    try (unfold dot; cbn; lra).
  cbn [map]. rewrite !dot_cons, IH. lra.
Qed.

Lemma dot_bound (U : R) (es a : list R) :
  0 <= U -> Forall (fun e => 0 <= e) es -> Forall (fun v => Rabs v <= U) a ->
  Rabs (dot es a) <= sum es * U.
Proof.
  intros HU Hes. revert a. induction Hes as [|e es He Hes IH]; intros a Ha.
  - unfold dot. cbn. rewrite Rabs_R0. lra.
  - assert (Hs : 0 <= sum es).
    { clear IH. induction Hes; [cbn; lra|]. rewrite sum_cons. lra. }
    destruct a as [|v a].
    + unfold dot. cbn [combine map]. rewrite sum_nil, Rabs_R0, sum_cons.
      nra.
    + inversion Ha as [|? ? Hv Ha']; subst.
      rewrite dot_cons, sum_cons.
      specialize (IH a Ha'). apply Rabs_bounds in Hv, IH. apply Rabs_le.
      nra.
Qed.

Lemma sum_repeat (c : R) (n : nat) : sum (repeat c n) = INR n * c.
Proof.
  induction n as [|n IH]; [cbn; lra|].
  cbn [repeat]. rewrite sum_cons, IH, S_INR. lra.
Qed.

Lemma sum_app (a b : list R) : sum (a ++ b) = sum a + sum b.
Proof.
  induction a as [|x a IH]; [cbn [app]; rewrite sum_nil; lra|].
  cbn [app]. rewrite !sum_cons, IH. lra.
Qed.

Lemma Forall_exp_nonneg (s : list R) : Forall (fun e => 0 <= e) (map exp s).
Proof.
  apply Forall_map, Forall_forall. intros x _. apply Rlt_le, exp_pos.
Qed.

(** The weights of a row whose last [M] scores are the fill value [v],
    applied to a column [c1 ++ c2], against the weights of the row
    without those scores, applied to [c1]. *)
Lemma masked_dot_close (s c1 c2 : list R) (M : nat) (v Bd U : R) :
  length c1 = length s ->
  0 <= U ->
  Forall (fun e => Rabs e <= U) c1 -> Forall (fun e => Rabs e <= U) c2 ->
  (exists e, In e s /\ - Bd <= e) ->
  Rabs (dot (softmax_row (s ++ repeat v M)) (c1 ++ c2)
        - dot (softmax_row s) c1)
  <= 2 * U * INR M * exp (Bd + v).
Proof.
  intros Hl HU Hc1 Hc2 (e0 & Hin & He0).
  unfold softmax_row. cbn [sexp sdiv R_scalar].
  rewrite map_app, map_repeat, sum_app, sum_repeat.
  set (E := sum (map exp s)). set (r := INR M * exp v).
  rewrite map_app, map_repeat.
  rewrite dot_app by now rewrite !length_map.
  rewrite !dot_div.
  assert (HE : exp (- Bd) <= E).
  { eapply Rle_trans; [|apply (exp_le_sum s e0 Hin)].
    destruct He0 as [He0|He0]; [left; now apply exp_increasing|].
    right. now rewrite He0. }
  pose proof (exp_pos (- Bd)) as HB. pose proof (exp_pos v) as Hv.
  assert (HM : 0 <= INR M) by apply pos_INR.
  assert (Hr : 0 <= r) by (unfold r; nra).
  set (X := dot (map exp s) c1).
  assert (HX : Rabs X <= E * U)
    by (apply dot_bound; auto using Forall_exp_nonneg).
  set (Y := dot (repeat (exp v / (E + r)) M) c2).
  assert (HY : Rabs Y <= r / (E + r) * U).
  { unfold Y. eapply Rle_trans.
    - apply (dot_bound U); auto. apply Forall_forall. intros x Hx.
      apply repeat_spec in Hx. subst x.
      apply Rlt_le, Rdiv_lt_0_compat; lra.
    - rewrite sum_repeat. unfold r, Rdiv. right. ring. }
  assert (Hexp : exp (Bd + v) = exp v / exp (- Bd)).
  { rewrite exp_plus, exp_Ropp. field.
    apply Rgt_not_eq, exp_pos. }
  assert (Hfrac : r / (E + r) <= INR M * exp (Bd + v)).
  { rewrite Hexp. apply Rle_trans with (r / E).
    - apply Rmult_le_compat_l; [exact Hr|].
      apply Rinv_le_contravar; lra.
    - unfold r, Rdiv. rewrite Rmult_assoc. apply Rmult_le_compat_l; [lra|].
      apply Rmult_le_compat_l; [lra|]. apply Rinv_le_contravar; lra. }
  assert (Hid : X / (E + r) + Y - X / E = Y - X / E * (r / (E + r)))
    by (field; lra).
  rewrite Hid.
  assert (HXE : Rabs (X / E) <= U).
  { apply Rabs_bounds in HX. apply Rabs_le.
    split.
    - apply Rmult_le_reg_r with E; [lra|]. unfold Rdiv.
      rewrite Rmult_assoc, Rinv_l by lra. lra.
    - apply Rmult_le_reg_r with E; [lra|]. unfold Rdiv.
      rewrite Rmult_assoc, Rinv_l by lra. lra. }
  assert (Hq : 0 <= r / (E + r))
    by (apply Rmult_le_pos; [lra|apply Rlt_le, Rinv_0_lt_compat; lra]).
  apply Rabs_bounds in HY, HXE. apply Rabs_le.
  set (q := r / (E + r)) in *. set (Z := X / E) in *.
  assert (q * U <= INR M * exp (Bd + v) * U) by nra.
  nra.
Qed.

Lemma vecmat_cols (v : list R) (f : nat -> list R) (L c : nat) :
  (0 < L)%nat -> length (f 0%nat) = c ->
  vecmat v (map f (seq 0 L))
  = map (fun k => dot v (map (fun j => nth k (f j) 0) (seq 0 L))) (seq 0 c).
Proof.
  intros HL Hc. unfold vecmat, transpose.
  destruct L as [|L']; [lia|].
  cbn [seq map hd]. rewrite Hc, map_map. apply map_ext. intros k.
  f_equal. cbn [map]. f_equal. now rewrite map_map.
Qed.

Lemma Forall2_map_same {A B C : Type} (P : B -> C -> Prop) (f : A -> B)
    (g : A -> C) (l : list A) :
  (forall a, In a l -> P (f a) (g a)) -> Forall2 P (map f l) (map g l).
Proof.
  induction l as [|a l IH]; intros H; cbn; constructor.
  - apply H. now left.
  - apply IH. intros a' Ha'. apply H. now right.
Qed.

(** The context of a row whose last [M] scores are the fill value, against
    the context of the row without them on the first values. *)
Lemma vecmat_masked_close (s : list R) (M : nat) (f : nat -> list R)
    (c : nat) (v Bd U : R) :
  (forall j, (j < length s + M)%nat ->
     length (f j) = c /\ Forall (fun e => Rabs e <= U) (f j)) ->
  0 <= U ->
  (exists e, In e s /\ - Bd <= e) ->
  within1 (2 * U * INR M * exp (Bd + v))
    (vecmat (softmax_row (s ++ repeat v M)) (map f (seq 0 (length s + M))))
    (vecmat (softmax_row s) (map f (seq 0 (length s)))).
Proof.
  intros Hf HU He.
  assert (Hs : (0 < length s)%nat).
  { destruct He as (e & Hin & _). destruct s; [destruct Hin|cbn; lia]. }
  destruct (Hf 0%nat ltac:(lia)) as [Hc0 _].
  rewrite (vecmat_cols _ f (length s + M) c) by (auto; lia).
  rewrite (vecmat_cols _ f (length s) c) by auto.
  apply Forall2_map_same. intros k Hk. apply in_seq in Hk.
  rewrite seq_app, map_app. cbn [Nat.add].
  assert (Hcol : forall (l : list nat),
             (forall j, In j l -> (j < length s + M)%nat) ->
             Forall (fun e => Rabs e <= U)
               (map (fun j => nth k (f j) 0) l)).
  { intros l Hl. apply Forall_map, Forall_forall. intros j Hj.
    destruct (Hf j (Hl j Hj)) as [Hc Hb]. rewrite Forall_forall in Hb.
    apply Hb, nth_In. lia. }
  apply masked_dot_close; auto.
  - now rewrite length_map, length_seq.
  - apply Hcol. intros j Hj. apply in_seq in Hj. lia.
  - apply Hcol. intros j Hj. apply in_seq in Hj. lia.
Qed.

Lemma within1_mono (t t' : R) (a b : list R) :
  t <= t' -> within1 t a b -> within1 t' a b.
Proof.
  intros Ht H. unfold within1 in *. eapply Forall2_impl; [|exact H].
  cbn. intros u v Huv. lra.
Qed.

Lemma within1_vadd (t1 t2 : R) (a a' b b' : list R) :
  within1 t1 a a' -> within1 t2 b b' ->
  within1 (t1 + t2) (vadd a b) (vadd a' b').
Proof.
  unfold within1, vadd. intros Ha. revert b b'.
  induction Ha as [|x x' a a' Hx Ha IH]; intros b b' Hb;
    [constructor|].
  destruct Hb as [|y y' b b' Hy Hb]; [constructor|].
  cbn [combine map fst snd]. constructor; [|now apply IH].
  cbn [sadd R_scalar]. apply Rabs_bounds in Hx, Hy. apply Rabs_le. lra.
Qed.

Lemma within1_concat (t : R) (l l' : list (list R)) :
  Forall2 (within1 t) l l' -> within1 t (concat l) (concat l').
Proof.
  unfold within1. induction 1 as [|a a' l l' Ha Hl IH]; [constructor|].
  cbn [concat]. now apply Forall2_app.
Qed.

Lemma dot_diff_bound (t W : R) (a b w : list R) :
  within1 t a b -> Forall (fun e => Rabs e <= W) w -> 0 <= t -> 0 <= W ->
  Rabs (dot a w - dot b w) <= INR (length w) * t * W.
Proof.
  intros Hab Hw Ht HW. revert w Hw.
  induction Hab as [|x y a b Hxy Hab IH]; intros w Hw.
  - rewrite Rminus_diag, Rabs_R0.
    apply Rmult_le_pos; [apply Rmult_le_pos|]; auto using pos_INR.
  - destruct w as [|z w].
    + rewrite !dot_nil_r, Rminus_diag, Rabs_R0. cbn. lra.
    + inversion Hw as [|? ? Hz Hw']; subst.
      rewrite !dot_cons. change (length (z :: w)) with (S (length w)).
      rewrite S_INR. specialize (IH w Hw').
      apply Rabs_bounds in Hxy, Hz, IH. apply Rabs_le.
      pose proof (pos_INR (length w)). nra.
Qed.

Lemma within1_linear (l : @Linear R) (t W : R) (a b : list R) :
  within1 t a b -> (forall o i, Rabs (weight l o i) <= W) ->
  0 <= t -> 0 <= W ->
  within1 (INR (in_features l) * t * W) (linear_vec l a) (linear_vec l b).
Proof.
  intros Hab Hw Ht HW. unfold linear_vec. apply Forall2_map_same.
  intros o _. cbv zeta.
  assert (H : Rabs (dot a (map (weight l o) (seq 0 (in_features l)))
                    - dot b (map (weight l o) (seq 0 (in_features l))))
              <= INR (in_features l) * t * W).
  { pose proof (dot_diff_bound t W a b
                  (map (weight l o) (seq 0 (in_features l))) Hab) as H.
    rewrite length_map, length_seq in H. apply H; auto.
    apply Forall_map, Forall_forall. intros i _. apply Hw. }
  destruct (bias l) as [bv|]; [|exact H].
  cbn [sadd R_scalar].
  replace (dot a (map (weight l o) (seq 0 (in_features l))) + bv o
           - (dot b (map (weight l o) (seq 0 (in_features l))) + bv o))
    with (dot a (map (weight l o) (seq 0 (in_features l)))
          - dot b (map (weight l o) (seq 0 (in_features l)))) by lra.
  exact H.
Qed.

End Tolerance.

(** *** Scores, key by key *)

Section ScoresByKey.

Context {F : Type} {ops : Scalar F}.

Variables (m : @MultiHeadedAttention F) (nh d : nat).
Hypothesis Hb : Built m nh d.

Lemma vecmat_transpose_tab (v : T1 F) (f : nat -> T1 F) (len c : nat) :
  0 < len -> 0 < c -> (forall j, j < len -> length (f j) = c) ->
  vecmat v (transpose zero (map f (seq 0 len)))
  = map (fun j => dot v (f j)) (seq 0 len).
Proof.
  intros Hlen Hc Hf. unfold vecmat.
  rewrite (transpose_involutive zero _ c).
  - now rewrite map_map.
  - destruct len; [lia|discriminate].
  - exact Hc.
  - apply Forall_map, Forall_forall. intros j Hj. apply in_seq in Hj.
    apply Hf. lia.
Qed.

(** The score of query [i] against key [j] does not depend on the number
    of keys. *)
Lemma score_by_key (xb : T2 F) (h i : nat) :
  h < nh ->
  exists sc, forall len,
    0 < len -> (is_rotary m = true -> len <= 4096) ->
    score m d len xb h i = map sc (seq 0 len).
Proof.
  intros Hh.
  pose proof (built_dim m nh d Hb) as Hd.
  assert (H0 : forall len, 0 < len -> (is_rotary m = true -> len <= 4096) ->
             score0 m d len xb h i
             = map (fun j => dot (qscaled m d xb h i) (kvec m d xb h j))
                 (seq 0 len)).
  { intros len Hlen Hr. unfold score0, kmat.
    apply (vecmat_transpose_tab _ _ len d); auto.
    intros j Hj.
    destruct (vec_lengths m nh d Hb xb h j Hh) as (_ & Hk & _); [|exact Hk].
    intros H. specialize (Hr H). lia. }
  unfold score.
  destruct (relative_positions_embeddings m) as [e|] eqn:He.
  - destruct (built_relative m nh d Hb e He) as (_ & _ & Hed).
    eexists. intros len Hlen Hr. rewrite (H0 len Hlen Hr).
    unfold zrow.
    rewrite (vecmat_transpose_tab _ _ len (embedding_dim e)); auto.
    + unfold vadd. rewrite combine_map_same, !map_map. cbn [fst snd].
      reflexivity.
    + lia.
    + intros j _. now rewrite length_map, length_seq.
  - destruct (max_relative_positions m =? -2)%Z.
    + destruct (alibi m) as [a|].
      * eexists. intros len Hlen Hr. rewrite (H0 len Hlen Hr).
        unfold alibi_row. rewrite combine_seq_map, !map_map.
        cbn [fst snd]. apply map_ext. intros j.
        rewrite Nat.sub_0_r. reflexivity.
      * eexists. intros len Hlen Hr. rewrite (H0 len Hlen Hr).
        rewrite map_map. reflexivity.
    + eexists. intros len Hlen Hr. rewrite (H0 len Hlen Hr).
      rewrite map_map. reflexivity.
Qed.

Lemma firstn_seq_le (n s len : nat) :
  n <= len -> firstn n (seq s len) = seq s n.
Proof.
  intros Hn. replace len with (n + (len - n)) by lia.
  rewrite seq_app, firstn_app, length_seq, Nat.sub_diag, firstn_O, app_nil_r.
  apply firstn_all2. rewrite length_seq. lia.
Qed.

Lemma score_prefix (xb : T2 F) (h i len len' : nat) :
  h < nh -> 0 < len' -> len' <= len ->
  (is_rotary m = true -> len <= 4096) ->
  firstn len' (score m d len xb h i) = score m d len' xb h i.
Proof.
  intros Hh Hl' Hl Hr. destruct (score_by_key xb h i Hh) as [sc Hsc].
  rewrite (Hsc len) by (auto; lia).
  rewrite (Hsc len') by (auto; intros H; specialize (Hr H); lia).
  now rewrite firstn_map, firstn_seq_le.
Qed.

End ScoresByKey.

Section CloseRows.

Variables (m : @MultiHeadedAttention R) (nh d : nat).
Hypothesis Hb : Built m nh d.

Local Open Scope R_scope.

(** One row of the output of the masked call against the row of the
    decode step. *)
Lemma causal_out_row_close (xb : T2 R) (N t : nat) (Bd U W : R) :
  (t < N)%nat -> (is_rotary m = true -> (N <= 4096)%nat) ->
  (forall h e, (h < nh)%nat -> In e (score m d N xb h t) -> - Bd <= e) ->
  (forall h j, (h < nh)%nat -> (j < N)%nat ->
     Forall (fun e => Rabs e <= U) (vvec m d xb h j)) ->
  (forall e, relative_positions_embeddings m = Some e ->
     forall i k, Rabs (table e i k) <= U) ->
  (forall o i, Rabs (weight (final_linear m) o i) <= W) ->
  within1 (4 * INR (nh * d) * INR N * W * U * exp (Bd + mask_fill_value))
    (causal_out_row m d nh N xb t) (out_row m d nh (S t) xb t).
Proof.
  intros Ht Hr Hs Hv Hz Hw.
  pose proof (built_heads m nh d Hb) as Hnh.
  pose proof (built_dim m nh d Hb) as Hd.
  assert (HW : 0 <= W).
  { eapply Rle_trans; [apply Rabs_pos|apply (Hw 0%nat 0%nat)]. }
  assert (HU : 0 <= U).
  { pose proof (Hv 0%nat 0%nat Hnh ltac:(lia)) as H.
    destruct (vec_lengths m nh d Hb xb 0 0 Hnh ltac:(intros; lia))
      as (_ & _ & Hl).
    destruct (vvec m d xb 0 0) as [|e l]; [cbn in Hl; lia|].
    apply Forall_inv in H. eapply Rle_trans; [apply Rabs_pos|exact H]. }
  set (M := (N - S t)%nat).
  set (tol := 2 * U * INR M * exp (Bd + mask_fill_value)).
  assert (Htol : 0 <= tol).
  { unfold tol. pose proof (pos_INR M). pose proof (exp_pos (Bd + mask_fill_value)).
    apply Rmult_le_pos; [apply Rmult_le_pos|]; nra. }
  assert (HMN : INR M <= INR N) by (apply le_INR; unfold M; lia).
  unfold causal_out_row, out_row.
  apply within1_mono with (INR (in_features (final_linear m)) * (tol + tol) * W).
  { rewrite (built_final m nh d Hb). unfold tol.
    pose proof (pos_INR (nh * d)). pose proof (pos_INR M).
    pose proof (exp_pos (Bd + mask_fill_value)).
    assert (Hle : INR M * (U * exp (Bd + mask_fill_value))
                  <= INR N * (U * exp (Bd + mask_fill_value)))
      by (apply Rmult_le_compat_r; nra).
    assert (Hpos : 0 <= INR (nh * d) * W) by nra.
    replace (INR (nh * d) * (2 * U * INR M * exp (Bd + mask_fill_value)
                             + 2 * U * INR M * exp (Bd + mask_fill_value)) * W)
      with (4 * (INR (nh * d) * W)
            * (INR M * (U * exp (Bd + mask_fill_value)))) by ring.
    replace (4 * INR (nh * d) * INR N * W * U * exp (Bd + mask_fill_value))
      with (4 * (INR (nh * d) * W)
            * (INR N * (U * exp (Bd + mask_fill_value)))) by ring.
    apply Rmult_le_compat_l; [lra|exact Hle]. }
  apply within1_linear; auto; [|lra].
  apply within1_concat, Forall2_map_same. intros h Hh. apply in_seq in Hh.
  assert (Hh' : (h < nh)%nat) by lia.
  (* the rows of scores and of weights *)
  assert (Hrs : is_rotary m = true -> (S t <= 4096)%nat)
    by (intros H; specialize (Hr H); lia).
  pose proof (length_score m nh d Hb N xb h t ltac:(lia) Hh' Hr) as LN.
  pose proof (length_score m nh d Hb (S t) xb h t ltac:(lia) Hh' Hrs) as Lt.
  pose proof (score_prefix m nh d Hb xb h t N (S t) Hh' ltac:(lia)
                ltac:(lia) Hr) as Hpre.
  assert (Hrow : causal_attn_row m d N xb h t
                 = softmax_row (score m d (S t) xb h t
                                ++ repeat mask_fill_value M)).
  { unfold causal_attn_row, causal_row. rewrite Hpre, LN.
    cbn [to_dtype R_scalar]. apply map_id. }
  assert (Hrow' : attn_row m d (S t) xb h t
                  = softmax_row (score m d (S t) xb h t)).
  { unfold attn_row. cbn [to_dtype R_scalar]. apply map_id. }
  assert (HN : N = (length (score m d (S t) xb h t) + M)%nat)
    by (rewrite Lt; unfold M; lia).
  assert (Hex : exists e, In e (score m d (S t) xb h t) /\ - Bd <= e).
  { destruct (score m d (S t) xb h t) as [|e l]; [cbn in Lt; lia|].
    exists e. split; [now left|]. apply (Hs h e Hh').
    rewrite <- (firstn_skipn (S t) (score m d N xb h t)), Hpre.
    apply in_or_app. left. now left. }
  assert (HA : within1 tol
                 (vecmat (causal_attn_row m d N xb h t) (vmat m d N xb h))
                 (vecmat (attn_row m d (S t) xb h t) (vmat m d (S t) xb h))).
  { rewrite Hrow, Hrow'. unfold vmat.
    replace (seq 0 N)
      with (seq 0 (length (score m d (S t) xb h t) + M)) by now rewrite <- HN.
    replace (seq 0 (S t))
      with (seq 0 (length (score m d (S t) xb h t))) by now rewrite Lt.
    apply (vecmat_masked_close _ M (vvec m d xb h) d); auto.
    intros j Hj. rewrite <- HN in Hj. split; [|now apply Hv].
    apply (vec_lengths m nh d Hb xb h j Hh').
    intros H. specialize (Hr H). lia. }
  unfold ctx_from, ctx_vec. cbv zeta.
  destruct (relative_positions_embeddings m) as [e|] eqn:He.
  - destruct (built_relative m nh d Hb e He) as (_ & _ & Hed).
    apply within1_vadd; [exact HA|].
    rewrite Hrow, Hrow'. unfold zrow.
    replace (seq 0 N)
      with (seq 0 (length (score m d (S t) xb h t) + M)) by now rewrite <- HN.
    replace (seq 0 (S t))
      with (seq 0 (length (score m d (S t) xb h t))) by now rewrite Lt.
    apply (vecmat_masked_close _ M _ d); auto.
    intros j _. split; [now rewrite length_map, length_seq|].
    apply Forall_map, Forall_forall. intros k _. now apply (Hz e).
  - eapply within1_mono; [|exact HA]. lra.
Qed.

End CloseRows.

Section CausalEquivalence.

Variables (theta : @Params R) (noise : Q -> T4 R -> T4 R).

Lemma init_weights hc md p mrp at_ bias nkv ck m :
  init theta hc md p mrp at_ bias nkv ck = Ok m ->
  weight (final_linear m) = w_final theta
  /\ forall e, relative_positions_embeddings m = Some e ->
       table e = w_relative theta.
Proof.
  unfold init. intros H.
  destruct (hc =? 0)%Z; [discriminate|].
  destruct (negb (md mod hc =? 0)%Z); [discriminate|].
  unfold new_linear in H.
  destruct (md <? 0)%Z; [discriminate|]. cbn [bind] in H.
  destruct (new_dropout p); cbn [bind] in H; [|discriminate].
  destruct (mrp >? 0)%Z.
  - unfold new_embedding in H.
    destruct ((mrp * 2 + 1 <? 0) || (md / hc <? 0))%Z; [discriminate|].
    cbn [bind] in H.
    destruct (existsb (String.eqb "mha"%string) ck); [discriminate|].
    injection H as <-. cbn. split; [reflexivity|]. now intros e [= <-].
  - match type of H with
    | context [bind ?e _] =>
        match e with
        | (if (mrp =? -1)%Z then _ else _) =>
            destruct e as [r|]; cbn [bind] in H; [|discriminate]
        end
    end.
    destruct (existsb (String.eqb "mha"%string) ck); [discriminate|].
    injection H as <-. cbn. split; [reflexivity|]. discriminate.
Qed.

Lemma all4_tform (P : R -> Prop) (nh s n : nat)
    (g : T2 R -> nat -> nat -> T1 R) (x : T3 R) :
  all4 P (tform nh s n g x) ->
  forall xb h i e, In xb x -> h < nh -> s <= i < s + n -> In e (g xb h i) ->
    P e.
Proof.
  unfold all4, tform, mform. intros H xb h i e Hxb Hh Hi He.
  rewrite Forall_map, Forall_forall in H. specialize (H xb Hxb).
  rewrite Forall_map, Forall_forall in H.
  specialize (H h ltac:(apply in_seq; lia)).
  rewrite Forall_map, Forall_forall in H.
  specialize (H i ltac:(apply in_seq; lia)).
  rewrite Forall_forall in H. now apply H.
Qed.

Local Open Scope R_scope.

(** C1.  Cache equivalence under the causal mask of a decoder.  For a
    module built with a positive head count and model dimension,
    [attn_type] "self" and dropout 0, in any positional mode (rotary with
    an even [dim_per_head] and at most 4096 positions), and an input with
    entries: one call without cache over the whole sequence, with the
    causal mask, and the decode steps of one position each, with [step]
    the position, all succeed, and at every position [t] the context
    vector of the call is that of decode step [t] to within
    [4 * model_dim * N * W * U * exp (B - 10^18)], where the raw scores are
    at least [-B], the projected values and relative embeddings at most
    [U] and the weights of the output projection at most [W] in absolute
    value. *)
Theorem cache_equivalence_under_causal_mask :
  forall hc md p mrp bias nkv ck m0 (x : T3 R) scores q k v c Bd U W,
    init theta hc md p mrp (Some "self"%string) bias nkv ck = Ok m0 ->
    (0 < hc)%Z -> (0 < md)%Z -> Qeq_bool p 0 = true ->
    (mrp = (-1)%Z -> Z.even (md / hc) = true /\ (size1 x <= 4096)%nat) ->
    is_tensor3 x = true -> (0 < size0 x)%nat -> (0 < size1 x)%nat ->
    size2 x = Z.to_nat md ->
    forward_scores m0 x x x 0 = Ok scores ->
    all4 (fun s => - Bd <= s) scores ->
    project m0 x x x 0 = Ok (q, k, v, c) ->
    all4 (fun e => Rabs e <= U) v ->
    ((0 < mrp)%Z -> forall i j, Rabs (w_relative theta i j) <= U) ->
    (forall o i, Rabs (w_final theta o i) <= W) ->
    exists m1 ctx attn,
      forward noise m0 x x x (Some (causal_mask (size0 x) (size1 x))) 0
      = (m1, Ok (ctx, attn))
      /\ rect3 (size0 x) (size1 x) (Z.to_nat md) ctx = true
      /\ forall t, (t < size1 x)%nat ->
           exists m2 ctx' attn',
             decode_steps noise (start_decoding m0) x t
             = (m2, Ok (ctx', attn'))
             /\ rect3 (size0 x) 1 (Z.to_nat md) ctx' = true
             /\ within (4 * INR (Z.to_nat md) * INR (size1 x) * W * U
                        * exp (Bd + mask_fill_value))
                  (position ctx t) ctx'.
Proof.
  intros hc md p mrp bias nkv ck m0 x scores q k v c Bd U W Hinit Hhc Hmd Hp
    Hrot Hx H0 H1 H2 Hsc Hlow Hpr Hval Hrel Hfin.
  destruct (init_built theta _ _ _ _ _ _ _ _ _ Hinit Hhc Hmd Hp
              (fun H => proj1 (Hrot H)))
    as (Hb & Hnat & Hcache & Hself & Hmrp).
  destruct (init_inv theta _ _ _ _ _ _ _ _ _ Hinit)
    as (_ & _ & _ & _ & _ & Hheads & _ & _ & _ & _ & _ & Hemb & _).
  destruct (init_weights _ _ _ _ _ _ _ _ _ Hinit) as [Hwf Hwr].
  pose proof (init_final_linear theta _ _ _ _ _ _ _ _ _ Hinit) as Hout.
  set (nh := Z.to_nat hc) in *. set (d := Z.to_nat (md / hc)) in *.
  assert (Hr : is_rotary m0 = true -> (size1 x <= 4096)%nat).
  { unfold is_rotary. rewrite Hmrp. intros H. apply Z.eqb_eq in H.
    now destruct (Hrot H). }
  assert (Hen : enabled (layer_cache m0) = false) by now rewrite Hcache.
  assert (Hhd : head_count m0 = Z.of_nat nh) by (unfold nh; lia).
  rewrite Hnat in H2, Hout |- *.
  destruct x as [|xb0 x']; [cbn in H0; lia|].
  set (x := xb0 :: x') in *.
  pose proof (forward_causal noise m0 nh d Hb xb0 x' Hx H2 Hen Hhd H1 Hr)
    as Htrain.
  fold x in Htrain.
  (* the scores and the values of the call *)
  pose proof (project_train m0 nh d Hb xb0 x' Hx H2 (size1 x) Hen H1
                (le_n _) Hr) as Hp'.
  fold x in Hp'. rewrite (prefix_all x Hx) in Hp'.
  rewrite Hp' in Hpr. injection Hpr as _ _ <- _.
  unfold forward_scores in Hsc. rewrite Hp' in Hsc. cbn [bind] in Hsc.
  assert (Hraw : exists rk,
             raw_scores (with_cache m0 (layer_cache m0))
               (tform nh 0 (size1 x) (qvec m0 d) x)
               (tform nh 0 (size1 x) (kvec m0 d) x)
             = Ok (tform nh 0 (size1 x) (score m0 d (size1 x)) x, rk)).
  { eexists.
    exact (raw_scores_tform (with_cache m0 (layer_cache m0)) nh d
             (built_with_cache m0 _ nh d Hb) xb0 x' 0 (size1 x) H1 Hr
             ltac:(cbn [with_cache layer_cache]; now rewrite Hen)). }
  destruct Hraw as [rk Hraw].
  rewrite Hraw in Hsc. cbn [bind fst] in Hsc. injection Hsc as <-.
  do 3 eexists. split; [exact Htrain|]. split.
  { apply rect3_iff. rewrite length_map. split; [reflexivity|].
    apply Forall_map, Forall_forall. intros xb _.
    rewrite length_map, length_seq. split; [reflexivity|].
    apply Forall_map, Forall_forall. intros i _.
    unfold causal_out_row. now rewrite length_linear_vec. }
  intros t Ht.
  assert (Hrt : is_rotary m0 = true -> (t < 4096)%nat)
    by (intros H; specialize (Hr H); lia).
  pose proof (decode_steps_closed noise m0 nh d Hb xb0 x' Hx H2 t Hself Ht
                Hrt) as Hdec.
  fold x in Hdec.
  do 3 eexists. split; [exact Hdec|]. split.
  { apply rect3_iff. rewrite length_map. split; [reflexivity|].
    apply Forall_map, Forall_forall. intros xb _.
    rewrite length_map, length_seq. split; [reflexivity|].
    apply Forall_map, Forall_forall. intros i _.
    unfold out_row. now rewrite length_linear_vec. }
  unfold within, position, prefix. rewrite !map_map.
  apply Forall2_map_same. intros xb Hxb.
  rewrite firstn_map, firstn_seq_le by lia.
  rewrite skipn_map, skipn_last_seq. cbn [seq map].
  constructor; [|constructor].
  apply (causal_out_row_close m0 nh d Hb xb (size1 x) t Bd U W); auto.
  - intros h e Hh He.
    apply (all4_tform (fun s => - Bd <= s) nh 0 (size1 x)
             (score m0 d (size1 x)) x Hlow xb h t e); auto. lia.
  - intros h j Hh Hj. apply Forall_forall. intros e He.
    apply (all4_tform (fun e => Rabs e <= U) nh 0 (size1 x) (vvec m0 d) x
             Hval xb h j e); auto. lia.
  - intros e He i j. rewrite (Hwr e He). apply Hrel. apply Hemb.
    rewrite He. discriminate.
  - intros o i. rewrite Hwf. apply Hfin.
Qed.

End CausalEquivalence.

Lemma ex_dot_built :
  init ex_ones 1 1 0 0 (Some "self"%string) false 0 [] = Ok ex_dot.
Proof. reflexivity. Qed.

Lemma cache_equivalence_under_causal_mask_witness :
  exists m1 ctx attn,
    forward ex_noise ex_dot ex_x ex_x ex_x (Some (causal_mask 1 2)) 0
    = (m1, Ok (ctx, attn))
    /\ rect3 1 2 1 ctx = true
    /\ forall t, t < 2 ->
         exists m2 ctx' attn',
           decode_steps ex_noise (start_decoding ex_dot) ex_x t
           = (m2, Ok (ctx', attn'))
           /\ rect3 1 1 1 ctx' = true
           /\ within (4 * INR 1 * INR 2 * 1 * 3 * exp (0 + mask_fill_value))%R
                (position ctx t) ctx'.
Proof.
  eapply (cache_equivalence_under_causal_mask ex_ones ex_noise
            1 1 0 0 false 0 [] ex_dot ex_x _ _ _ _ _ 0%R 3%R 1%R
            ex_dot_built).
  - lia.
  - lia.
  - reflexivity.
  - intros H. discriminate H.
  - reflexivity.
  - cbn. lia.
  - cbn. lia.
  - reflexivity.
  - rcompute. reflexivity.
  - all_entries; rewrite sqrt_1; lra.
  - rcompute. reflexivity.
  - all_entries; apply Rabs_le; lra.
  - intros H. lia.
  - intros o i. cbn. rewrite Rabs_R1. lra.
Defined.
